(** * chattycathy: the authentication, session and RBAC core

    A shallow embedding of the Go sources of the API server
    ([pkg/auth], [pkg/middleware], [internal/auth], [db/models], and with
    them the routes and handlers of [internal/protected], [internal/ping]
    and [internal/admin], the configuration and the migration that gives
    existing users their default role) followed by the properties stated
    for them.

    Conventions of the embedding:
    - Go [int] and [time.Duration] are 64-bit and wrap around ([wrap64]);
    - [time.Time] is the number of nanoseconds since the Unix epoch, and
      its calendar year is the year in UTC;
    - a Go [map[string]bool] is a [gmap string bool] read with the zero
      value [false] for absent keys;
    - a function that returns [(T, error)] returns a [result];
    - code that talks to Redis, reads the clock or writes the log is a
      computation over a [world] that holds the clock, the Redis server,
      the outcome of each command to come and the log; a call runs at one
      instant of the clock, and requests are handled one after the other
      ([lifecycle.later] lets the commands of other calls come in between,
      [auth.StoreRefreshToken_lagged] lets time pass between the commands
      of a put);
    - code that talks to the database passes the tables along; a
      statement fails only by a unique index or a missing record;
    - a chain of gin handlers runs until one aborts ([ginchain.run]); the
      Authorization header is either a string that is no bearer token or
      "Bearer " followed by a token string;
    - the packages the sources call but do not define (golang-jwt, go-redis
      and the Redis server, gorm, gin) are modelled by the part of their
      documented behaviour the sources rely on.  Wire formats are not
      modelled: a token string and the JSON bytes of a session are given
      by what they decode to.  What they decode to is what was encoded as
      it comes back from JSON ([json.text]): in a string every byte that
      belongs to no valid UTF-8 sequence is replaced by U+FFFD, a numeric
      date is cut to whole seconds, and a time whose year is outside
      0..9999 cannot be encoded.  Signing is an interface with the one
      law that an RSA signature verifies under the public key of the key
      that made it. *)

From stdpp Require Import gmap strings list fin_maps.
From Stdlib Require Import ZArith Strings.Ascii Strings.Byte.

Local Open Scope string_scope.
Local Open Scope list_scope.
Local Open Scope Z_scope.

(** ** Go base types *)

Module golang.

(** Two's-complement wrap-around of 64-bit signed arithmetic. *)
Definition wrap64 (x : Z) : Z := (x + 2 ^ 63) `mod` 2 ^ 64 - 2 ^ 63.

Definition max_int64 : Z := 2 ^ 63 - 1.
Definition min_int64 : Z := - 2 ^ 63.

(** [a * b] on [int64]. *)
Definition mul64 (a b : Z) : Z := wrap64 (a * b).

(** [time.Time], nanoseconds since the epoch. *)
Definition Time := Z.

(** [time.Duration], nanoseconds. *)
Definition Duration := Z.

Definition Millisecond : Duration := 1000000.
Definition Second : Duration := 1000000000.
Definition Minute : Duration := 60 * Second.
Definition Hour : Duration := 60 * Minute.

(** [t.Add(d)]. *)
Definition Time_Add (t : Time) (d : Duration) : Time := t + d.

(** [t.Truncate(time.Second)]: rounds down to a whole second. *)
Definition Truncate_Second (t : Time) : Time := t / Second * Second.

(** [t.Before(u)]. *)
Definition Before (t u : Time) : bool := bool_decide (t < u).

(** Reading a [map[string]bool]: absent keys read as [false]. *)
Definition map_get (m : gmap string bool) (k : string) : bool :=
  default false (m !! k).

(** [base64.URLEncoding.EncodeToString]: the URL-safe alphabet, with
    padding. *)
Definition encodeURL : string :=
  "ABCDEFGHIJKLMNOPQRSTUVWXYZabcdefghijklmnopqrstuvwxyz0123456789-_".

Definition sextet (n : N) : ascii :=
  default "="%char (String.get (N.to_nat (N.land n 63)) encodeURL).

Fixpoint EncodeToString (src : list Byte.byte) : string :=
  match src with
  | [] => ""
  | [a] =>
      let n := N.shiftl (Byte.to_N a) 16 in
      String (sextet (N.shiftr n 18)) (String (sextet (N.shiftr n 12)) "==")
  | [a; b] =>
      let n := N.lor (N.shiftl (Byte.to_N a) 16) (N.shiftl (Byte.to_N b) 8) in
      String (sextet (N.shiftr n 18)) (String (sextet (N.shiftr n 12))
        (String (sextet (N.shiftr n 6)) "="))
  | a :: b :: c :: rest =>
      let n := N.lor (N.lor (N.shiftl (Byte.to_N a) 16) (N.shiftl (Byte.to_N b) 8))
                 (Byte.to_N c) in
      String (sextet (N.shiftr n 18)) (String (sextet (N.shiftr n 12))
        (String (sextet (N.shiftr n 6)) (String (sextet n) (EncodeToString rest))))
  end.

(** Results of functions returning [(T, error)]. *)
Inductive result (E A : Type) : Type :=
| Ok (a : A)
| Err (e : E).
Arguments Ok {E A} a.
Arguments Err {E A} e.

(** [Time.MarshalJSON] refuses a time whose year is outside 0..9999; the
    times of this file are taken in UTC.  The two bounds are the first
    instants of the years 0 and 10000. *)
Definition year_0 : Time := -62167219200 * Second.
Definition year_10000 : Time := 253402300800 * Second.
Definition Time_MarshalJSON_ok (t : Time) : bool :=
  bool_decide (year_0 ≤ t < year_10000).

End golang.
Export golang.

(** ** unicode/utf8 and the strings of encoding/json *)

Module utf8.

Definition between (lo hi : N) (c : ascii) : bool :=
  ((lo <=? N_of_ascii c) && (N_of_ascii c <=? hi))%N.

(** [utf8.DecodeRuneInString], as far as the encoder uses it: the number
    of bytes of the rune encoded at the head of [s], [None] when the
    bytes there encode no rune (the library's [RuneError] of width 1):
    a stray continuation byte, an over-long form, a surrogate, a value
    above U+10FFFF or a rune cut short. *)
Definition rune_width (s : string) : option nat :=
  match s with
  | EmptyString => None
  | String c0 rest =>
      let b0 := N_of_ascii c0 in
      if (b0 <? 128)%N then Some 1%nat
      else if (b0 <? 194)%N then None
      else if (b0 <? 224)%N then
        match rest with
        | String c1 _ => if between 128 191 c1 then Some 2%nat else None
        | _ => None
        end
      else if (b0 <? 240)%N then
        let lo := if (b0 =? 224)%N then 160%N else 128%N in
        let hi := if (b0 =? 237)%N then 159%N else 191%N in
        match rest with
        | String c1 (String c2 _) =>
            if between lo hi c1 && between 128 191 c2 then Some 3%nat else None
        | _ => None
        end
      else if (b0 <? 245)%N then
        let lo := if (b0 =? 240)%N then 144%N else 128%N in
        let hi := if (b0 =? 244)%N then 143%N else 191%N in
        match rest with
        | String c1 (String c2 (String c3 _)) =>
            if between lo hi c1 && between 128 191 c2 && between 128 191 c3
            then Some 4%nat else None
        | _ => None
        end
      else None
  end.

(** U+FFFD, the replacement character, in UTF-8: EF BF BD. *)
Definition replacement : string :=
  String (ascii_of_N 239) (String (ascii_of_N 191) (String (ascii_of_N 189) "")).

(** The string with every byte that starts no rune replaced by U+FFFD.
    [pending] counts the bytes still to copy of a rune that was
    accepted. *)
Fixpoint coerce (pending : nat) (s : string) : string :=
  match s with
  | EmptyString => EmptyString
  | String c rest =>
      match pending with
      | S k => String c (coerce k rest)
      | O =>
          match rune_width s with
          | Some n => String c (coerce (pred n) rest)
          | None => replacement +:+ coerce O rest
          end
      end
  end.

End utf8.

(** ** encoding/json: what [Unmarshal] reads back of what [Marshal] wrote

    The JSON text itself is not modelled.  A string comes back with every
    byte that starts no rune replaced by U+FFFD: the encoder writes such
    a byte as the escape of U+FFFD.  Every other byte of a string, the
    length of a list and a time within the years 0..9999 come back as
    they were. *)

Module json.

Definition text (s : string) : string := utf8.coerce 0 s.

(** [utf8.ValidString]. *)
Definition valid (s : string) : Prop := text s = s.

#[global] Instance valid_dec s : Decision (valid s).
Proof. unfold valid. apply _. Defined.

End json.

(** ** pkg/auth: claims carried by an access token *)

Module claims.

(** [jwt.RegisteredClaims].  A [*NumericDate] is [None] when the claim is
    absent and otherwise holds a [Time]. *)
Record RegisteredClaims := {
  Issuer : string;
  Subject : string;
  Audience : list string;
  ExpiresAt : option Time;
  NotBefore : option Time;
  IssuedAt : option Time;
  ID : string
}.

(** [auth.Claims]. *)
Record Claims := {
  UserID : string;
  Username : string;
  Role : string;
  Permissions : list string;
  Registered : RegisteredClaims
}.

End claims.
Export claims.

(** ** golang-jwt/jwt/v5: the part of the library [pkg/auth] calls *)

Module jwt.

Inductive Hash := SHA256 | SHA384 | SHA512.

(** The signing methods the library registers, by their Go type. *)
Inductive SigningMethod :=
| SigningMethodRSA (h : Hash)
| SigningMethodRSAPSS (h : Hash)
| SigningMethodHMAC (h : Hash)
| SigningMethodECDSA (h : Hash)
| SigningMethodEd25519
| signingMethodNone.

Definition SigningMethodRS256 : SigningMethod := SigningMethodRSA SHA256.

Definition hash_suffix (h : Hash) : string :=
  match h with SHA256 => "256" | SHA384 => "384" | SHA512 => "512" end.

(** [method.Alg()]. *)
Definition Alg (m : SigningMethod) : string :=
  match m with
  | SigningMethodRSA h => "RS" +:+ hash_suffix h
  | SigningMethodRSAPSS h => "PS" +:+ hash_suffix h
  | SigningMethodHMAC h => "HS" +:+ hash_suffix h
  | SigningMethodECDSA h => "ES" +:+ hash_suffix h
  | SigningMethodEd25519 => "EdDSA"
  | signingMethodNone => "none"
  end.

Definition registered_methods : list SigningMethod :=
  [ SigningMethodRSA SHA256; SigningMethodRSA SHA384; SigningMethodRSA SHA512;
    SigningMethodRSAPSS SHA256; SigningMethodRSAPSS SHA384; SigningMethodRSAPSS SHA512;
    SigningMethodHMAC SHA256; SigningMethodHMAC SHA384; SigningMethodHMAC SHA512;
    SigningMethodECDSA SHA256; SigningMethodECDSA SHA384; SigningMethodECDSA SHA512;
    SigningMethodEd25519; signingMethodNone ].

(** [jwt.GetSigningMethod(alg)]: the registered method of that name. *)
Definition GetSigningMethod (alg : string) : option SigningMethod :=
  head (filter (fun m => Alg m = alg) registered_methods).

(** The bytes a signature covers: the first two segments of the compact
    form, given by what they encode, the "alg" header and the claims. *)
Definition signingInput : Type := string * Claims.

(** The [SigningMethod] interface over RSA keys: [Sign] and [Verify] of
    each method, and the law the RSA PKCS#1 v1.5 methods satisfy: a
    signature made with a private key verifies under its public key. *)
Class Signer := {
  PrivateKey : Type;
  PublicKey : Type;
  Signature : Type;
  Public : PrivateKey → PublicKey;
  Sign : SigningMethod → signingInput → PrivateKey → Signature;
  Verify : SigningMethod → signingInput → Signature → PublicKey → bool;
  Verify_Sign : ∀ h m k,
    Verify (SigningMethodRSA h) m (Sign (SigningMethodRSA h) m k) (Public k) = true
}.

Inductive claimError := ErrTokenExpired | ErrTokenNotValidYet.

Inductive error :=
| ErrTokenMalformed
| ErrTokenUnverifiable (reason : string)
| ErrTokenSignatureInvalid
| ErrTokenInvalidClaims (errs : list claimError).

(** [jwt.NewNumericDate(t)]: [t] truncated to [TimePrecision], a second. *)
Definition NewNumericDate (t : Time) : option Time := Some (Truncate_Second t).

(** [Validator.Validate] with the default options: [exp] and [nbf] are
    checked when present, with no leeway; [iat], audience, issuer and
    subject are not. *)
Definition verifyExpiresAt (c : RegisteredClaims) (now : Time) : list claimError :=
  match ExpiresAt c with
  | None => []
  | Some exp => if Before now exp then [] else [ErrTokenExpired]
  end.

Definition verifyNotBefore (c : RegisteredClaims) (now : Time) : list claimError :=
  match NotBefore c with
  | None => []
  | Some nbf => if Before now nbf then [ErrTokenNotValidYet] else []
  end.

Definition Validate (now : Time) (c : Claims) : list claimError :=
  verifyExpiresAt (Registered c) now ++ verifyNotBefore (Registered c) now.

(** The claims segment, through [json.Marshal] and back: the strings as
    [json.text] gives them, the dates as [NumericDate.MarshalJSON] writes
    them, in whole seconds. *)
Definition json_registered (c : RegisteredClaims) : RegisteredClaims :=
  {| Issuer := json.text (Issuer c);
     Subject := json.text (Subject c);
     Audience := json.text <$> Audience c;
     ExpiresAt := Truncate_Second <$> ExpiresAt c;
     NotBefore := Truncate_Second <$> NotBefore c;
     IssuedAt := Truncate_Second <$> IssuedAt c;
     ID := json.text (ID c) |}.

Definition json_claims (c : Claims) : Claims :=
  {| UserID := json.text (UserID c);
     Username := json.text (Username c);
     Role := json.text (Role c);
     Permissions := json.text <$> Permissions c;
     Registered := json_registered (Registered c) |}.

Section parser.
Context `{Signer}.

(** A token string, by what [Parser.ParseUnverified] makes of it:
    [Malformed] when it is not three dot-separated segments or a
    segment does not decode; otherwise the "alg" header (absent when
    the header has no string "alg"), the claims and the signature. *)
Inductive tokenString :=
| Malformed (raw : string)
| Compact (alg : option string) (claims : Claims) (sig : Signature).

(** [jwt.Token]. *)
Record Token := {
  Method : SigningMethod;
  TokenClaims : Claims;
  TokenSignature : Signature;
  Valid : bool
}.

(** [jwt.NewWithClaims(method, claims).SignedString(key)]: the claims
    segment is the JSON of the claims, so the token carries, and the
    signature covers, the claims as they come back from JSON. *)
Definition SignedString (method : SigningMethod) (claims : Claims) (key : PrivateKey)
  : tokenString :=
  let encoded := json_claims claims in
  Compact (Some (Alg method)) encoded (Sign method (Alg method, encoded) key).

(** [jwt.ParseWithClaims(tokenString, &Claims{}, keyFunc)] at time [now]. *)
Definition ParseWithClaims (now : Time) (ts : tokenString)
    (keyFunc : Token → result string PublicKey) : result error Token :=
  match ts with
  | Malformed _ => Err ErrTokenMalformed
  | Compact None _ _ => Err (ErrTokenUnverifiable "signing method (alg) is unspecified")
  | Compact (Some alg) claims sig =>
      match GetSigningMethod alg with
      | None => Err (ErrTokenUnverifiable "signing method (alg) is unavailable")
      | Some method =>
          let token := {| Method := method; TokenClaims := claims;
                          TokenSignature := sig; Valid := false |} in
          match keyFunc token with
          | Err e => Err (ErrTokenUnverifiable e)
          | Ok key =>
              if Verify method (alg, claims) sig key then
                match Validate now claims with
                | [] => Ok {| Method := method; TokenClaims := claims;
                              TokenSignature := sig; Valid := true |}
                | errs => Err (ErrTokenInvalidClaims errs)
                end
              else Err ErrTokenSignatureInvalid
          end
      end
  end.

End parser.

End jwt.

(** ** The world the session code runs in

    The wall clock, the Redis server behind [redis.Client], the outcome of
    each command sent to it, and the log written so far. *)

Module RefreshTokenData.
(** [auth.RefreshTokenData]. *)
Record t := mk {
  UserID : string;
  Username : string;
  Role : string;
  Permissions : list string;
  CreatedAt : Time;
  UserAgent : string;
  IP : string
}.
End RefreshTokenData.

Module redis.

(** The bytes of a string value: JSON text, given by the
    [RefreshTokenData] that [json.Unmarshal] reads from it, or bytes
    [json.Unmarshal] refuses. *)
Inductive bytes :=
| encoded (decoded : RefreshTokenData.t)
| not_json (raw : string).

(** A [RefreshTokenData] through [json.Marshal] and back. *)
Definition json_data (data : RefreshTokenData.t) : RefreshTokenData.t :=
  RefreshTokenData.mk
    (json.text (RefreshTokenData.UserID data))
    (json.text (RefreshTokenData.Username data))
    (json.text (RefreshTokenData.Role data))
    (json.text <$> RefreshTokenData.Permissions data)
    (RefreshTokenData.CreatedAt data)
    (json.text (RefreshTokenData.UserAgent data))
    (json.text (RefreshTokenData.IP data)).

(** Every string of the data is valid UTF-8. *)
Definition valid_data (data : RefreshTokenData.t) : Prop :=
  json.valid (RefreshTokenData.UserID data)
  ∧ json.valid (RefreshTokenData.Username data)
  ∧ json.valid (RefreshTokenData.Role data)
  ∧ Forall json.valid (RefreshTokenData.Permissions data)
  ∧ json.valid (RefreshTokenData.UserAgent data)
  ∧ json.valid (RefreshTokenData.IP data).

(** [json.Marshal(data)]: fails when [CreatedAt] cannot be marshalled. *)
Definition json_Marshal (data : RefreshTokenData.t) : option bytes :=
  if Time_MarshalJSON_ok (RefreshTokenData.CreatedAt data)
  then Some (encoded (json_data data)) else None.

Definition json_Unmarshal (b : bytes) : option RefreshTokenData.t :=
  match b with
  | encoded data => Some data
  | not_json _ => None
  end.

Inductive value :=
| VString (b : bytes)
| VSet (members : gset string).

(** A key's value and, when it has one, the server time in milliseconds
    after which the key is gone. *)
Record entry := mkEntry {
  val : value;
  deadline : option Z
}.

(** The outcome of the commands to come: [true] is a command that fails
    (the server cannot be reached); past [upcoming], every command has
    the outcome [thereafter]. *)
Record faults := mkFaults {
  upcoming : list bool;
  thereafter : bool
}.

Definition healthy : faults := mkFaults [] false.
Definition unreachable : faults := mkFaults [] true.

Inductive Level := Info | Warn | Error.

Record world := mkWorld {
  clock : Time;
  Client : bool;                     (* [redis.Client != nil] *)
  store : gmap string entry;
  plan : faults;
  log : list (Level * string)
}.

Inductive redisError :=
| Nil                                (* [redis.Nil]: no such key *)
| WrongType                          (* WRONGTYPE *)
| ConnError.                         (* the server could not be reached *)

(** A computation over the world. *)
Definition M (A : Type) : Type := world → A * world.

Definition ret {A} (a : A) : M A := fun w => (a, w).
Definition bind {A B} (m : M A) (k : A → M B) : M B :=
  fun w => let (a, w') := m w in k a w'.

Definition with_store (w : world) (st : gmap string entry) : world :=
  mkWorld (clock w) (Client w) st (plan w) (log w).
Definition with_plan (w : world) (fp : faults) : world :=
  mkWorld (clock w) (Client w) (store w) fp (log w).

(** Time passes. *)
Definition elapse (d : Duration) (w : world) : world :=
  mkWorld (clock w + d) (Client w) (store w) (plan w) (log w).

(** Time passes while a call runs. *)
Definition pass (d : Duration) : M unit := fun w => (tt, elapse d w).

(** [logger.Warn().Err(err).Msg(msg)] and the like. *)
Definition logMsg (l : Level) (msg : string) : M unit :=
  fun w => (tt, mkWorld (clock w) (Client w) (store w) (plan w) (log w ++ [(l, msg)])).

Definition time_Now : M Time := fun w => (clock w, w).

(** The server's clock, in milliseconds. *)
Definition now_ms (w : world) : Z := clock w / Millisecond.

(** A key is gone once the server time is past its deadline. *)
Definition alive (w : world) (e : entry) : bool :=
  match deadline e with
  | None => true
  | Some d => bool_decide (now_ms w ≤ d)
  end.

(** The live entry under a key. *)
Definition lookup (w : world) (key : string) : option entry :=
  match store w !! key with
  | Some e => if alive w e then Some e else None
  | None => None
  end.

(** Whether the next command fails, and the outcomes left after it. *)
Definition next_outcome (fp : faults) : bool * faults :=
  match upcoming fp with
  | b :: rest => (b, mkFaults rest (thereafter fp))
  | [] => (thereafter fp, fp)
  end.

(** Whether the command after the next [k] commands fails. *)
Fixpoint outcome_at (k : nat) (fp : faults) : bool :=
  match k with
  | O => (next_outcome fp).1
  | S k' => outcome_at k' (next_outcome fp).2
  end.

(** A command: fails without effect when the server cannot be reached
    (the request never arrives), and otherwise runs [exec] on the server. *)
Definition command {A} (exec : world → result redisError A * gmap string entry)
  : M (result redisError A) :=
  fun w =>
    let (failed, fp) := next_outcome (plan w) in
    let w' := with_plan w fp in
    if failed then (Err ConnError, w')
    else let (r, st) := exec w' in (r, with_store w' st).

(** go-redis [formatMs], [formatSec] and [usePrecise]; Go's integer
    division truncates toward zero. *)
Definition formatMs (dur : Duration) : Z :=
  if bool_decide (0 < dur) && bool_decide (dur < Millisecond) then 1
  else dur ÷ Millisecond.
Definition formatSec (dur : Duration) : Z :=
  if bool_decide (0 < dur) && bool_decide (dur < Second) then 1
  else dur ÷ Second.
Definition usePrecise (dur : Duration) : bool :=
  bool_decide (dur < Second) || negb (bool_decide (Z.rem dur Second = 0)).

Definition KeepTTL : Duration := -1.

(** [Client.Set(ctx, key, value, expiration)]: SET with PX or EX for a
    positive expiration, KEEPTTL for [KeepTTL], and no expiry otherwise. *)
Definition Set_ (key : string) (b : bytes) (expiration : Duration) : M (result redisError unit) :=
  command (fun w =>
    let dl :=
      if bool_decide (0 < expiration) then
        Some (now_ms w + (if usePrecise expiration then formatMs expiration
                          else formatSec expiration * 1000))
      else if bool_decide (expiration = KeepTTL) then
        match lookup w key with Some e => deadline e | None => None end
      else None in
    (Ok tt, <[key := mkEntry (VString b) dl]> (store w))).

(** [Client.Get(ctx, key).Bytes()]. *)
Definition Get (key : string) : M (result redisError bytes) :=
  command (fun w =>
    match lookup w key with
    | None => (Err Nil, store w)
    | Some (mkEntry (VString b) _) => (Ok b, store w)
    | Some (mkEntry (VSet _) _) => (Err WrongType, store w)
    end).

(** [Client.Del(ctx, key)]: the number of keys removed. *)
Definition Del (key : string) : M (result redisError Z) :=
  command (fun w =>
    match lookup w key with
    | None => (Ok 0, delete key (store w))
    | Some _ => (Ok 1, delete key (store w))
    end).

(** [Client.SAdd(ctx, key, member)]: a missing key becomes a new set
    without expiry; an existing set keeps its expiry. *)
Definition SAdd (key member : string) : M (result redisError Z) :=
  command (fun w =>
    match lookup w key with
    | None => (Ok 1, <[key := mkEntry (VSet {[member]}) None]> (store w))
    | Some (mkEntry (VSet s) dl) =>
        (Ok (if bool_decide (member ∈ s) then 0 else 1),
         <[key := mkEntry (VSet ({[member]} ∪ s)) dl]> (store w))
    | Some (mkEntry (VString _) _) => (Err WrongType, store w)
    end).

(** [Client.SRem(ctx, key, member)]: a set left empty is removed. *)
Definition SRem (key member : string) : M (result redisError Z) :=
  command (fun w =>
    match lookup w key with
    | None => (Ok 0, store w)
    | Some (mkEntry (VSet s) dl) =>
        let s' := s ∖ {[member]} in
        (Ok (if bool_decide (member ∈ s) then 1 else 0),
         if bool_decide (s' = ∅) then delete key (store w)
         else <[key := mkEntry (VSet s') dl]> (store w))
    | Some (mkEntry (VString _) _) => (Err WrongType, store w)
    end).

(** [Client.SMembers(ctx, key).Result()]: a missing key has no members. *)
Definition SMembers (key : string) : M (result redisError (list string)) :=
  command (fun w =>
    match lookup w key with
    | None => (Ok [], store w)
    | Some (mkEntry (VSet s) _) => (Ok (elements s), store w)
    | Some (mkEntry (VString _) _) => (Err WrongType, store w)
    end).

(** [Client.Expire(ctx, key, expiration)]: EXPIRE with whole seconds.  A
    timeout that is not positive removes the key. *)
Definition Expire (key : string) (expiration : Duration) : M (result redisError bool) :=
  command (fun w =>
    match lookup w key with
    | None => (Ok false, store w)
    | Some e =>
        let secs := formatSec expiration in
        if bool_decide (secs ≤ 0) then (Ok true, delete key (store w))
        else (Ok true,
              <[key := mkEntry (val e) (Some (now_ms w + secs * 1000))]> (store w))
    end).

(** What a command leaves alone: the clock, the client and the log. *)
Definition quiet (w w' : world) : Prop :=
  clock w' = clock w ∧ Client w' = Client w ∧ log w' = log w.

(** The connection is down: every command to come fails. *)
Definition down (fp : faults) : Prop :=
  thereafter fp = true ∧ Forall (fun b => b = true) (upcoming fp).

End redis.

Declare Scope world_scope.
Delimit Scope world_scope with world.
Notation "'let*' x := m 'in' k" := (redis.bind m (fun x => k))
  (at level 10, x name, m at level 100, k at level 200) : world_scope.
Notation "m ;; k" := (redis.bind m (fun _ => k))
  (at level 100, k at level 200, right associativity) : world_scope.

(** ** pkg/auth/jwt.go: issuing and validating access tokens *)

Module auth.
Import jwt.

Inductive authError :=
| ErrNotInitialized               (* "JWT not initialized" *)
| ErrJWT (e : jwt.error)          (* the error of the library *)
| ErrInvalidToken                 (* "invalid token" *)
| ErrRand                         (* the error of [rand.Read] *)
| ErrWrap (msg : string) (e : authError).   (* [fmt.Errorf(msg + ": %w", e)] *)

(** [GenerateRefreshToken]: [entropy] is what [rand.Read] put in the 32
    bytes, [None] when it failed. *)
Definition GenerateRefreshToken (entropy : option (list Byte.byte))
  : result authError string :=
  match entropy with
  | None => Err ErrRand
  | Some bytes => Ok (EncodeToString bytes)
  end.

Section tokens.
Context `{Signer}.

(** The package variables [privateKey] and [publicKey]; [None] is nil. *)
Record keys := {
  privateKey : option PrivateKey;
  publicKey : option PublicKey
}.

(** [Init]: [loaded] is the pair [loadKeys] read when both paths are
    configured and the files parse, [generated] what [rsa.GenerateKey]
    returns.  A pair that cannot be loaded is not fatal, a failed
    generation is. *)
Definition Init (loaded : option (PrivateKey * PublicKey))
    (generated : option PrivateKey) : result string keys :=
  match loaded with
  | Some (sk, pk) => Ok {| privateKey := Some sk; publicKey := Some pk |}
  | None =>
      match generated with
      | None => Err "failed to generate RSA key"
      | Some sk => Ok {| privateKey := Some sk; publicKey := Some (Public sk) |}
      end
  end.

(** [GenerateAccessToken] called at time [now]. *)
Definition GenerateAccessToken (ks : keys) (now : Time)
    (userID username role : string) (permissions : list string)
    (issuer : string) (expiryMins : Z) : result authError tokenString :=
  match privateKey ks with
  | None => Err ErrNotInitialized
  | Some sk =>
      let claims :=
        {| UserID := userID;
           Username := username;
           Role := role;
           Permissions := permissions;
           Registered :=
             {| Issuer := issuer;
                Subject := userID;
                Audience := [];
                IssuedAt := NewNumericDate now;
                ExpiresAt := NewNumericDate (Time_Add now (mul64 expiryMins Minute));
                NotBefore := NewNumericDate now;
                ID := "" |} |} in
      Ok (SignedString SigningMethodRS256 claims sk)
  end.

(** The key function [ValidateToken] passes to the parser: any method
    whose Go type is not [*jwt.SigningMethodRSA] is refused, with an error
    that names the "alg" of the header, which is the name of the method
    the parser found for it. *)
Definition keyFunc (pk : PublicKey) (token : Token) : result string PublicKey :=
  match Method token with
  | SigningMethodRSA _ => Ok pk
  | m => Err ("unexpected signing method: " +:+ Alg m)
  end.

(** [ValidateToken] called at time [now]. *)
Definition ValidateToken (ks : keys) (now : Time) (ts : tokenString)
  : result authError Claims :=
  match publicKey ks with
  | None => Err ErrNotInitialized
  | Some pk =>
      match ParseWithClaims now ts (keyFunc pk) with
      | Err e => Err (ErrJWT e)
      | Ok token =>
          if Valid token then Ok (TokenClaims token) else Err ErrInvalidToken
      end
  end.

(** [auth.TokenPair]. *)
Record TokenPair := {
  AccessToken : tokenString;
  RefreshToken : string;
  AccessTokenExpiresIn : Z;
  RefreshTokenExpiresIn : Z;
  TokenType : string
}.

(** [GenerateTokenPair] called at time [now]. *)
Definition GenerateTokenPair (ks : keys) (now : Time) (entropy : option (list Byte.byte))
    (userID username role : string) (permissions : list string) (issuer : string)
    (accessExpiryMins refreshExpiryDays : Z) : result authError TokenPair :=
  match GenerateAccessToken ks now userID username role permissions issuer
          accessExpiryMins with
  | Err e => Err (ErrWrap "failed to generate access token" e)
  | Ok accessToken =>
      match GenerateRefreshToken entropy with
      | Err e => Err (ErrWrap "failed to generate refresh token" e)
      | Ok refreshToken =>
          Ok {| AccessToken := accessToken;
                RefreshToken := refreshToken;
                AccessTokenExpiresIn := mul64 accessExpiryMins 60;
                RefreshTokenExpiresIn :=
                  mul64 (mul64 (mul64 refreshExpiryDays 24) 60) 60;
                TokenType := "Bearer" |}
      end
  end.

(** The key pair is one pair: the public key is the private key's. *)
Definition key_pair (ks : keys) : Prop :=
  ∃ sk, privateKey ks = Some sk ∧ publicKey ks = Some (Public sk).

(** The signing method named in the header of a token string. *)
Definition method_of (ts : tokenString) : option SigningMethod :=
  match ts with
  | Compact (Some alg) _ _ => GetSigningMethod alg
  | _ => None
  end.

(** The expiry instant a token string carries. *)
Definition expiry_of (ts : tokenString) : option Time :=
  match ts with
  | Compact _ claims _ => ExpiresAt (Registered claims)
  | Malformed _ => None
  end.

(** Equality of claims up to the three timestamps the server assigns. *)
Definition same_identity (c : Claims) (userID username role : string)
    (permissions : list string) (issuer : string) : Prop :=
  UserID c = userID ∧ Username c = username ∧ Role c = role
  ∧ Permissions c = permissions ∧ Issuer (Registered c) = issuer
  ∧ Subject (Registered c) = userID ∧ Audience (Registered c) = []
  ∧ ID (Registered c) = "".

End tokens.

(** *** The refresh session store *)

Import redis.
Local Open Scope world_scope.

Definition refreshTokenPrefix : string := "refresh_token:".
Definition userTokensPrefix : string := "user_tokens:".

Inductive storeError :=
| ErrClientNil                       (* "redis client not initialized" *)
| ErrMarshal                         (* "failed to marshal token data: %w" *)
| ErrStore (e : redisError)          (* "failed to store refresh token: %w" *)
| ErrAddToSet (e : redisError)       (* "failed to add token to user set: %w" *)
| ErrNotFoundOrExpired               (* "refresh token not found or expired" *)
| ErrUnmarshal                       (* "failed to unmarshal token data: %w" *)
| ErrGetUserTokens (e : redisError)  (* "failed to get user tokens: %w" *)
| ErrRedis (e : redisError).         (* the error of the command, as it is *)

(** [redis.Client == nil]. *)
Definition Client_is_nil : M bool := fun w => (negb (Client w), w).

(** [StoreRefreshToken], run at one instant. *)
Definition StoreRefreshToken (token : string) (data : RefreshTokenData.t)
    (expiry : Duration) : M (result storeError unit) :=
  let* isnil := Client_is_nil in
  if isnil then ret (Err ErrClientNil) else
  match json_Marshal data with
  | None => ret (Err ErrMarshal)
  | Some jsonData =>
      let key := refreshTokenPrefix +:+ token in
      let* r := Set_ key jsonData expiry in
      match r with
      | Err e => ret (Err (ErrStore e))
      | Ok _ =>
          let userKey := userTokensPrefix +:+ RefreshTokenData.UserID data in
          let* r := SAdd userKey token in
          match r with
          | Err e => ret (Err (ErrAddToSet e))
          | Ok _ =>
              Expire userKey expiry ;;
              ret (Ok tt)
          end
      end
  end.

(** [StoreRefreshToken] when time passes while it runs: [lag1] between
    the SET and the SADD, [lag2] between the SADD and the EXPIRE. *)
Definition StoreRefreshToken_lagged (lag1 lag2 : Duration) (token : string)
    (data : RefreshTokenData.t) (expiry : Duration) : M (result storeError unit) :=
  let* isnil := Client_is_nil in
  if isnil then ret (Err ErrClientNil) else
  match json_Marshal data with
  | None => ret (Err ErrMarshal)
  | Some jsonData =>
      let key := refreshTokenPrefix +:+ token in
      let* r := Set_ key jsonData expiry in
      match r with
      | Err e => ret (Err (ErrStore e))
      | Ok _ =>
          pass lag1 ;;
          let userKey := userTokensPrefix +:+ RefreshTokenData.UserID data in
          let* r := SAdd userKey token in
          match r with
          | Err e => ret (Err (ErrAddToSet e))
          | Ok _ =>
              pass lag2 ;;
              Expire userKey expiry ;;
              ret (Ok tt)
          end
      end
  end.

(** [GetRefreshTokenData]: every error of the GET is reported as "not
    found or expired". *)
Definition GetRefreshTokenData (token : string) : M (result storeError RefreshTokenData.t) :=
  let* isnil := Client_is_nil in
  if isnil then ret (Err ErrClientNil) else
  let key := refreshTokenPrefix +:+ token in
  let* r := Get key in
  match r with
  | Err _ => ret (Err ErrNotFoundOrExpired)
  | Ok jsonData =>
      match json_Unmarshal jsonData with
      | None => ret (Err ErrUnmarshal)
      | Some data => ret (Ok data)
      end
  end.

(** [RevokeRefreshToken]. *)
Definition RevokeRefreshToken (token : string) : M (result storeError unit) :=
  let* isnil := Client_is_nil in
  if isnil then ret (Err ErrClientNil) else
  let* r := GetRefreshTokenData token in
  (match r with
   | Ok data =>
       let userKey := userTokensPrefix +:+ RefreshTokenData.UserID data in
       SRem userKey token ;; ret tt
   | Err _ => ret tt
   end) ;;
  let key := refreshTokenPrefix +:+ token in
  let* r := Del key in
  match r with
  | Err e => ret (Err (ErrRedis e))
  | Ok _ => ret (Ok tt)
  end.

(** The loop of [RevokeAllUserTokens]: the result of each DEL is dropped. *)
Fixpoint delete_tokens (tokens : list string) : M unit :=
  match tokens with
  | [] => ret tt
  | token :: rest =>
      let key := refreshTokenPrefix +:+ token in
      Del key ;; delete_tokens rest
  end.

(** [RevokeAllUserTokens]. *)
Definition RevokeAllUserTokens (userID : string) : M (result storeError unit) :=
  let* isnil := Client_is_nil in
  if isnil then ret (Err ErrClientNil) else
  let userKey := userTokensPrefix +:+ userID in
  let* r := SMembers userKey in
  match r with
  | Err e => ret (Err (ErrGetUserTokens e))
  | Ok tokens =>
      delete_tokens tokens ;;
      let* r := Del userKey in
      match r with
      | Err e => ret (Err (ErrRedis e))
      | Ok _ => ret (Ok tt)
      end
  end.

(** The loop of [ListUserTokens]: a token whose data cannot be read is
    removed from the set and skipped. *)
Fixpoint collect_tokens (userKey : string) (tokens : list string)
    (result : list RefreshTokenData.t) : M (list RefreshTokenData.t) :=
  match tokens with
  | [] => ret result
  | token :: rest =>
      let* r := GetRefreshTokenData token in
      match r with
      | Err _ => SRem userKey token ;; collect_tokens userKey rest result
      | Ok data => collect_tokens userKey rest (result ++ [data])
      end
  end.

(** [ListUserTokens]. *)
Definition ListUserTokens (userID : string) : M (result storeError (list RefreshTokenData.t)) :=
  let* isnil := Client_is_nil in
  if isnil then ret (Err ErrClientNil) else
  let userKey := userTokensPrefix +:+ userID in
  let* r := SMembers userKey in
  match r with
  | Err e => ret (Err (ErrGetUserTokens e))
  | Ok tokens =>
      let* result := collect_tokens userKey tokens [] in
      ret (Ok result)
  end.

(** The members of a user's session index. *)
Definition index_of (w : world) (userID : string) : gset string :=
  match lookup w (userTokensPrefix +:+ userID) with
  | Some (mkEntry (VSet s) _) => s
  | _ => ∅
  end.

(** The session a token resolves to. *)
Definition session_of (w : world) (token : string) : option RefreshTokenData.t :=
  match lookup w (refreshTokenPrefix +:+ token) with
  | Some (mkEntry (VString b) _) => json_Unmarshal b
  | _ => None
  end.

(** Every live session is listed in the index of its user. *)
Definition index_complete (w : world) : Prop :=
  ∀ token data, session_of w token = Some data →
    token ∈ index_of w (RefreshTokenData.UserID data).

(** The time to live, in milliseconds, that SET with EX and EXPIRE give a
    key for an expiry of whole seconds. *)
Definition ttl_ms (expiry : Duration) : Z := formatSec expiry * 1000.

(** The user id of every stored session is valid UTF-8: it is the key
    its index was written under. *)
Definition valid_ids (w : world) : Prop :=
  ∀ token data dl,
    store w !! (refreshTokenPrefix +:+ token)
      = Some (mkEntry (VString (encoded data)) dl) →
    json.valid (RefreshTokenData.UserID data).

(** The shape of the store that the session code maintains on a healthy
    connection when every put uses the same time to live [T]: index keys
    hold sets with a deadline, a session's deadline is at most [T] ahead,
    a session that has not expired is listed in its user's index, which
    expires no earlier, and user ids are valid UTF-8. *)
Record well_indexed (T : Z) (w : world) : Prop := {
  wi_index : ∀ u e,
    store w !! (userTokensPrefix +:+ u) = Some e →
    ∃ s y, e = mkEntry (VSet s) (Some y);
  wi_deadline : ∀ token data dl,
    store w !! (refreshTokenPrefix +:+ token)
      = Some (mkEntry (VString (encoded data)) dl) →
    ∃ x, dl = Some x ∧ x ≤ now_ms w + T;
  wi_listed : ∀ token data x,
    store w !! (refreshTokenPrefix +:+ token)
      = Some (mkEntry (VString (encoded data)) (Some x)) →
    now_ms w ≤ x →
    ∃ s y, store w !! (userTokensPrefix +:+ RefreshTokenData.UserID data)
             = Some (mkEntry (VSet s) (Some y))
           ∧ token ∈ s ∧ x ≤ y;
  wi_valid : valid_ids w
}.

End auth.

(** ** A reference signer: symbolic signatures

    A signature is the record of what was signed, with which method and
    under which key; it verifies under exactly that method, input and
    key.  Concrete runs of the token functions use it. *)

Module symbolic.
Import jwt.

#[global] Instance Hash_eq_dec : EqDecision Hash.
Proof. solve_decision. Defined.
#[global] Instance SigningMethod_eq_dec : EqDecision SigningMethod.
Proof. solve_decision. Defined.
#[global] Instance RegisteredClaims_eq_dec : EqDecision RegisteredClaims.
Proof. solve_decision. Defined.
#[global] Instance Claims_eq_dec : EqDecision Claims.
Proof. solve_decision. Defined.

Definition sign (m : SigningMethod) (i : signingInput) (k : Z)
  : SigningMethod * signingInput * Z := (m, i, k).

Definition verify (m : SigningMethod) (i : signingInput)
    (s : SigningMethod * signingInput * Z) (k : Z) : bool :=
  bool_decide (s = (m, i, k)).

Lemma verify_sign (h : Hash) (m : signingInput) (k : Z) :
  verify (SigningMethodRSA h) m (sign (SigningMethodRSA h) m k) k = true.
Proof. unfold verify, sign. by apply bool_decide_eq_true. Qed.

#[global] Instance signer : Signer := {|
  PrivateKey := Z;
  PublicKey := Z;
  Signature := SigningMethod * signingInput * Z;
  Public := fun k => k;
  Sign := sign;
  Verify := verify;
  Verify_Sign := verify_sign
|}.

(** A key pair as [Init] leaves it after generating key 1. *)
Definition ks1 : auth.keys := {| auth.privateKey := Some 1; auth.publicKey := Some 1 |}.

End symbolic.

(** ** pkg/middleware: authorization gates *)

Module middleware.

(** JSON values placed in a [gin.H] response body. *)
Inductive JSON :=
| JString (s : string)
| JStrings (l : list string)
| JInt (n : Z).

(** [gin.H], a [map[string]any]. *)
Abbreviation H := (gmap string JSON).

(** What a value stored in the gin context under a key can be: the claims
    pointer [JWTAuth] stores, or a value of another dynamic type. *)
Inductive ctxValue :=
| ClaimsPtr (c : Claims)
| OtherValue (v : string).

(** The part of [gin.Context] the gates read: the keys map. *)
Record Context := {
  Keys : gmap string ctxValue
}.

(** How a handler leaves the chain: [c.Next()] or
    [c.AbortWithStatusJSON(code, body)]. *)
Inductive outcome :=
| Next
| AbortWithStatusJSON (code : Z) (body : H).

Definition StatusOK : Z := 200.
Definition StatusBadRequest : Z := 400.
Definition StatusUnauthorized : Z := 401.
Definition StatusForbidden : Z := 403.
Definition StatusInternalServerError : Z := 500.

Definition ClaimsKey : string := "claims".
Definition AuthorizationHeader : string := "Authorization".
Definition BearerPrefix : string := "Bearer ".

(** [GetClaims]: the claims in the context and whether they are there. *)
Definition GetClaims (c : Context) : option Claims :=
  match Keys c !! ClaimsKey with
  | None => None
  | Some (ClaimsPtr claims) => Some claims
  | Some (OtherValue _) => None
  end.

(** The loop [for _, p := range claims.Permissions { userPerms[p] = true }]. *)
Definition userPermsOf (perms : list string) : gmap string bool :=
  foldl (fun m p => <[p := true]> m) ∅ perms.

(** The loop of [RequireRole]: the first listed role equal to the
    claim's role lets the request through. *)
Fixpoint role_listed (role : string) (roles : list string) : bool :=
  match roles with
  | [] => false
  | r :: rest => if bool_decide (role = r) then true else role_listed role rest
  end.

Definition RequireRole (roles : list string) (c : Context) : outcome :=
  match Keys c !! ClaimsKey with
  | None =>
      AbortWithStatusJSON StatusUnauthorized
        {[ "error" := JString "not authenticated" ]}
  | Some (OtherValue _) =>
      AbortWithStatusJSON StatusInternalServerError
        {[ "error" := JString "invalid claims" ]}
  | Some (ClaimsPtr claims) =>
      if role_listed (Role claims) roles then Next
      else AbortWithStatusJSON StatusForbidden
             {[ "error" := JString "insufficient permissions" ]}
  end.

(** The loop of [RequirePermission]: returns at the first required
    permission the user holds. *)
Fixpoint any_held (userPerms : gmap string bool) (permissions : list string) : bool :=
  match permissions with
  | [] => false
  | required :: rest =>
      if map_get userPerms required then true else any_held userPerms rest
  end.

Definition RequirePermission (permissions : list string) (c : Context) : outcome :=
  match Keys c !! ClaimsKey with
  | None =>
      AbortWithStatusJSON StatusUnauthorized
        {[ "error" := JString "not authenticated" ]}
  | Some (OtherValue _) =>
      AbortWithStatusJSON StatusInternalServerError
        {[ "error" := JString "invalid claims" ]}
  | Some (ClaimsPtr claims) =>
      let userPerms := userPermsOf (Permissions claims) in
      if any_held userPerms permissions then Next
      else AbortWithStatusJSON StatusForbidden
             (<[ "required" := JStrings permissions ]>
                {[ "error" := JString "insufficient permissions" ]})
  end.

(** The loop of [RequireAllPermissions]: collects, in order, the required
    permissions the user lacks. *)
Fixpoint missing_of (userPerms : gmap string bool) (permissions : list string)
  : list string :=
  match permissions with
  | [] => []
  | required :: rest =>
      if map_get userPerms required then missing_of userPerms rest
      else required :: missing_of userPerms rest
  end.

Definition RequireAllPermissions (permissions : list string) (c : Context) : outcome :=
  match Keys c !! ClaimsKey with
  | None =>
      AbortWithStatusJSON StatusUnauthorized
        {[ "error" := JString "not authenticated" ]}
  | Some (OtherValue _) =>
      AbortWithStatusJSON StatusInternalServerError
        {[ "error" := JString "invalid claims" ]}
  | Some (ClaimsPtr claims) =>
      let userPerms := userPermsOf (Permissions claims) in
      let missing := missing_of userPerms permissions in
      if bool_decide (0 < length missing)%nat then
        AbortWithStatusJSON StatusForbidden
          (<[ "missing" := JStrings missing ]>
             {[ "error" := JString "insufficient permissions" ]})
      else Next
  end.

(** A request that went through [JWTAuth]: the claims are in the context. *)
Definition authenticated (c : Context) (claims : Claims) : Prop :=
  Keys c !! ClaimsKey = Some (ClaimsPtr claims).

(** The token's permission snapshot intersects the required list. *)
Definition intersects (claims : Claims) (permissions : list string) : Prop :=
  ∃ p, p ∈ permissions ∧ p ∈ Permissions claims.

End middleware.

(** ** internal/auth: the session endpoints *)

Module internalauth.
Import jwt auth redis middleware.
Local Open Scope world_scope.

Definition refreshTokenCookie : string := "refresh_token".

(** [Handler]. *)
Record Handler := NewHandler {
  issuer : string;
  accessTokenExpiryMins : Z;
  refreshTokenExpiryDays : Z
}.

(** What the endpoints read of the request in [gin.Context]. *)
Record Request := {
  Cookie_refresh_token : option string;  (* [c.Cookie(..)], [None] on error *)
  Body_login : option (string * string); (* the bound [LoginRequest] *)
  Body_refresh_token : option string;    (* the bound [RefreshRequest] field *)
  Header_X_Refresh_Token : string;       (* [c.GetHeader(..)], "" when absent *)
  UserAgent : string;
  ClientIP : string;
  Ctx : Context
}.

(** What [ShouldBindJSON] binds comes out of the JSON decoder, which
    returns valid UTF-8 only: the username of a bound body is valid. *)
Definition bound (c : Request) : Prop :=
  ∀ username password,
    Body_login c = Some (username, password) → json.valid username.

(** [c.SetCookie(refreshTokenCookie, value, maxAge, "/api/v1/auth", ..)]. *)
Record Cookie := {
  cookie_value : string;
  cookie_maxAge : Z
}.

Section endpoints.
Context `{Signer}.

Inductive Body :=
| BodyH (h : H)
| BodyTokenPair (tp : TokenPair)
| BodySessions (sessions : list (Time * string * string)).

(** What [c.JSON(code, body)] and [c.SetCookie] leave in the response. *)
Record Response := {
  code : Z;
  body : Body;
  cookie : option Cookie
}.

Definition error_body (msg : string) : Body := BodyH {[ "error" := JString msg ]}.
Definition message_body (msg : string) : Body := BodyH {[ "message" := JString msg ]}.

(** [getRefreshToken]: the cookie, then the body, then the header; the
    first that is present and not empty wins. *)
Definition getRefreshToken (c : Request) : string :=
  match Cookie_refresh_token c with
  | Some token =>
      if bool_decide (token ≠ "") then token else
      match Body_refresh_token c with
      | Some t => if bool_decide (t ≠ "") then t else Header_X_Refresh_Token c
      | None => Header_X_Refresh_Token c
      end
  | None =>
      match Body_refresh_token c with
      | Some t => if bool_decide (t ≠ "") then t else Header_X_Refresh_Token c
      | None => Header_X_Refresh_Token c
      end
  end.

Definition setRefreshTokenCookie (h : Handler) (token : string) : Cookie :=
  {| cookie_value := token;
     cookie_maxAge := mul64 (mul64 (mul64 (refreshTokenExpiryDays h) 24) 60) 60 |}.

Definition clearRefreshTokenCookie : Cookie :=
  {| cookie_value := ""; cookie_maxAge := -1 |}.

(** [time.Duration(h.refreshTokenExpiryDays) * 24 * time.Hour]. *)
Definition refreshExpiry (h : Handler) : Duration :=
  mul64 (mul64 (refreshTokenExpiryDays h) 24) Hour.

(** [Login]. *)
Definition Login (h : Handler) (ks : keys) (entropy : option (list Byte.byte))
    (c : Request) : M Response :=
  match Body_login c with
  | None =>
      ret {| code := StatusBadRequest; body := error_body "invalid request body";
             cookie := None |}
  | Some (username, password) =>
      if bool_decide (password ≠ "password123") then
        ret {| code := StatusUnauthorized; body := error_body "invalid credentials";
               cookie := None |}
      else
      let userID := "user-" +:+ username in
      let role := if bool_decide (username = "admin") then "admin" else "user" in
      let permissions :=
        if bool_decide (role = "admin") then
          ["ping:read"; "news:read"; "news:create"; "news:update"; "news:delete";
           "users:read"; "users:update"]
        else ["ping:read"; "news:read"] in
      let* now := time_Now in
      match GenerateTokenPair ks now entropy userID username role permissions
              (issuer h) (accessTokenExpiryMins h) (refreshTokenExpiryDays h) with
      | Err _ =>
          logMsg Error "Failed to generate token pair" ;;
          ret {| code := StatusInternalServerError;
                 body := error_body "failed to generate tokens"; cookie := None |}
      | Ok tokenPair =>
          let* now := time_Now in
          let refreshData :=
            RefreshTokenData.mk userID username role permissions now
              (UserAgent c) (ClientIP c) in
          let expiry := refreshExpiry h in
          let* r := StoreRefreshToken (RefreshToken tokenPair) refreshData expiry in
          match r with
          | Err _ =>
              logMsg Error "Failed to store refresh token" ;;
              ret {| code := StatusInternalServerError;
                     body := error_body "failed to create session"; cookie := None |}
          | Ok _ =>
              ret {| code := StatusOK; body := BodyTokenPair tokenPair;
                     cookie := Some (setRefreshTokenCookie h (RefreshToken tokenPair)) |}
          end
      end
  end.

(** [Refresh]. *)
Definition Refresh (h : Handler) (ks : keys) (entropy : option (list Byte.byte))
    (c : Request) : M Response :=
  let refreshToken := getRefreshToken c in
  if bool_decide (refreshToken = "") then
    ret {| code := StatusUnauthorized; body := error_body "refresh token required";
           cookie := None |}
  else
  let* r := GetRefreshTokenData refreshToken in
  match r with
  | Err _ =>
      logMsg Warn "Invalid refresh token" ;;
      ret {| code := StatusUnauthorized;
             body := error_body "invalid or expired refresh token";
             cookie := Some clearRefreshTokenCookie |}
  | Ok tokenData =>
      let* r := RevokeRefreshToken refreshToken in
      (match r with
       | Err _ => logMsg Warn "Failed to revoke old refresh token"
       | Ok _ => ret tt
       end) ;;
      let* now := time_Now in
      match GenerateTokenPair ks now entropy
              (RefreshTokenData.UserID tokenData) (RefreshTokenData.Username tokenData)
              (RefreshTokenData.Role tokenData) (RefreshTokenData.Permissions tokenData)
              (issuer h) (accessTokenExpiryMins h) (refreshTokenExpiryDays h) with
      | Err _ =>
          logMsg Error "Failed to generate new token pair" ;;
          ret {| code := StatusInternalServerError;
                 body := error_body "failed to refresh tokens"; cookie := None |}
      | Ok tokenPair =>
          let* now := time_Now in
          let newRefreshData :=
            RefreshTokenData.mk
              (RefreshTokenData.UserID tokenData) (RefreshTokenData.Username tokenData)
              (RefreshTokenData.Role tokenData) (RefreshTokenData.Permissions tokenData)
              now (UserAgent c) (ClientIP c) in
          let expiry := refreshExpiry h in
          let* r := StoreRefreshToken (RefreshToken tokenPair) newRefreshData expiry in
          match r with
          | Err _ =>
              logMsg Error "Failed to store new refresh token" ;;
              ret {| code := StatusInternalServerError;
                     body := error_body "failed to create session"; cookie := None |}
          | Ok _ =>
              ret {| code := StatusOK; body := BodyTokenPair tokenPair;
                     cookie := Some (setRefreshTokenCookie h (RefreshToken tokenPair)) |}
          end
      end
  end.

(** [Logout]. *)
Definition Logout (h : Handler) (c : Request) : M Response :=
  let refreshToken := getRefreshToken c in
  (if bool_decide (refreshToken ≠ "") then
     let* r := RevokeRefreshToken refreshToken in
     match r with
     | Err _ => logMsg Warn "Failed to revoke refresh token"
     | Ok _ => ret tt
     end
   else ret tt) ;;
  ret {| code := StatusOK; body := message_body "logged out successfully";
         cookie := Some clearRefreshTokenCookie |}.

(** [LogoutAll], behind [JWTAuth]. *)
Definition LogoutAll (h : Handler) (c : Request) : M Response :=
  match GetClaims (Ctx c) with
  | None =>
      ret {| code := StatusUnauthorized; body := error_body "not authenticated";
             cookie := None |}
  | Some claims =>
      let* r := RevokeAllUserTokens (UserID claims) in
      match r with
      | Err _ =>
          logMsg Error "Failed to revoke all tokens" ;;
          ret {| code := StatusInternalServerError;
                 body := error_body "failed to logout all sessions"; cookie := None |}
      | Ok _ =>
          ret {| code := StatusOK; body := message_body "all sessions logged out";
                 cookie := Some clearRefreshTokenCookie |}
      end
  end.

(** [ListSessions], behind [JWTAuth]: the token strings are left out. *)
Definition ListSessions (h : Handler) (c : Request) : M Response :=
  match GetClaims (Ctx c) with
  | None =>
      ret {| code := StatusUnauthorized; body := error_body "not authenticated";
             cookie := None |}
  | Some claims =>
      let* r := ListUserTokens (UserID claims) in
      match r with
      | Err _ =>
          logMsg Error "Failed to list sessions" ;;
          ret {| code := StatusInternalServerError;
                 body := error_body "failed to list sessions"; cookie := None |}
      | Ok sessions =>
          ret {| code := StatusOK;
                 body := BodySessions
                   ((fun s => (RefreshTokenData.CreatedAt s, RefreshTokenData.UserAgent s,
                               RefreshTokenData.IP s)) <$> sessions);
                 cookie := None |}
      end
  end.

(** A request presenting [token] as its refresh token. *)
Definition presents (c : Request) (token : string) : Prop :=
  getRefreshToken c = token.

(** The refresh token a response hands out. *)
Definition issued (r : Response) : option string :=
  match body r with
  | BodyTokenPair tp => Some (RefreshToken tp)
  | _ => None
  end.

(** The response to a refresh token that does not resolve. *)
Definition InvalidOrExpired : Response :=
  {| code := StatusUnauthorized;
     body := error_body "invalid or expired refresh token";
     cookie := Some clearRefreshTokenCookie |}.

End endpoints.

(** A world the endpoints of handler [h] keep in shape: the store is
    well-indexed for the time to live of the handler's refresh expiry, and
    the connection is healthy. *)
Definition steady (h : Handler) (w : world) : Prop :=
  well_indexed (ttl_ms (refreshExpiry h)) w ∧ plan w = healthy.

End internalauth.

(** ** Scenarios: concrete worlds and requests *)

Module scenario.
Import redis auth internalauth symbolic.

(** The session of user 42. *)
Definition session42 : RefreshTokenData.t :=
  RefreshTokenData.mk "42" "a@x.com" "user" ["ping:read"; "news:read"]
    1700000000000000000 "curl/8.5" "10.0.0.1".

(** A reachable, empty store. *)
Definition fresh : world := mkWorld 1700000000000000000 true ∅ healthy [].

(** Seven days, the default refresh expiry. *)
Definition week : Duration := 7 * 24 * Hour.

(** The store holding the session of user 42 under the token R1. *)
Definition with_R1 : world := (StoreRefreshToken "R1" session42 week fresh).2.

(** The same store when the server cannot be reached. *)
Definition with_R1_down : world := with_plan with_R1 unreachable.

(** The handler with the default configuration. *)
Definition handler : Handler := NewHandler "chattycathy" 15 7.

(** A request presenting a refresh token in the cookie. *)
Definition cookie_request (token : string) : Request :=
  {| Cookie_refresh_token := Some token;
     Body_login := None;
     Body_refresh_token := None;
     Header_X_Refresh_Token := "";
     UserAgent := "curl/8.5";
     ClientIP := "10.0.0.1";
     Ctx := {| middleware.Keys := ∅ |} |}.


(** What [rand.Read] returns in the runs below: 32 bytes. *)
Definition entropy1 : option (list Byte.byte) := Some (replicate 32 "a"%byte).
Definition entropy2 : option (list Byte.byte) := Some (replicate 32 "b"%byte).

(** The connection fails for the fourth command only: in [Refresh] that is
    the DEL of the old session key. *)
Definition del_fails : faults := mkFaults [false; false; false; true] false.


(** The store after a rotation of R1 whose DEL failed. *)
Definition after_failed_revoke : world :=
  (Refresh handler ks1 entropy1 (cookie_request "R1") (with_plan with_R1 del_fails)).2.

(** The keys [Init] sets from two key files that do not belong together. *)
Definition mismatched : keys := {| privateKey := Some 1; publicKey := Some 2 |}.

(** The connection fails for the second command only: in [LogoutAll] that
    is the DEL of the first session key. *)
Definition session_del_fails : faults := mkFaults [false; true] false.

(** A string that is not valid UTF-8, the bytes 61 FF 62, and the string
    that comes back for it from JSON, 61 EF BF BD 62. *)
Definition not_utf8 : string :=
  String "a" (String (ascii_of_N 255) (String "b" "")).
Definition replaced : string :=
  String "a" (String (ascii_of_N 239) (String (ascii_of_N 191)
    (String (ascii_of_N 189) (String "b" "")))).

(** The store holding a session of user 42 under the token R0, put with
    a time to live of one second: the index of user 42 expires with it. *)
Definition with_R0 : world := (StoreRefreshToken "R0" session42 Second fresh).2.

(** The connection fails for the third command only: in a put that is
    the EXPIRE of the index. *)
Definition expire_fails : faults := mkFaults [false; false; true] false.

(** A put of the session of user 42 under R1 and a logout-all of user 42
    whose commands reach the server interleaved: the SET of the put, the
    SMEMBERS of the logout-all, which finds no index and so has no
    session to delete, the SADD of the put, the DEL of the index by the
    logout-all, the EXPIRE of the put. *)
Definition raced : world :=
  let w1 := (Set_ (refreshTokenPrefix +:+ "R1") (encoded session42) week fresh).2 in
  let w2 := (SMembers (userTokensPrefix +:+ "42") w1).2 in
  let w3 := (SAdd (userTokensPrefix +:+ "42") "R1" w2).2 in
  let w4 := (Del (userTokensPrefix +:+ "42") w3).2 in
  (Expire (userTokensPrefix +:+ "42") week w4).2.

(** A session whose user id is not valid UTF-8. *)
Definition session_not_utf8 : RefreshTokenData.t :=
  RefreshTokenData.mk not_utf8 "a@x.com" "user" ["ping:read"; "news:read"]
    1700000000000000000 "curl/8.5" "10.0.0.1".

(** The claims [JWTAuth] decoded for user 42. *)
Definition claims42 : Claims :=
  {| UserID := "42"; Username := "a@x.com"; Role := "user";
     Permissions := ["ping:read"; "news:read"];
     Registered := {| Issuer := "chattycathy"; Subject := "42"; Audience := [];
                      ExpiresAt := Some 1700000900000000000;
                      NotBefore := Some 1700000000000000000;
                      IssuedAt := Some 1700000000000000000; ID := "" |} |}.

(** A request of user 42 that went through [JWTAuth]. *)
Definition authed_request : Request :=
  {| Cookie_refresh_token := None;
     Body_login := None;
     Body_refresh_token := None;
     Header_X_Refresh_Token := "";
     UserAgent := "curl/8.5";
     ClientIP := "10.0.0.1";
     Ctx := {| middleware.Keys :=
                 {[ middleware.ClaimsKey := middleware.ClaimsPtr claims42 ]} |} |}.

End scenario.

(** ** db/models: roles, permissions and their assignment *)

Module models.

(** [uint] columns. *)
Abbreviation uint := N.

Module Permission.
Record t := mk {
  ID : uint;
  Name : string;
  Description : string;
  Resource : string;
  Action : string;
  CreatedAt : Time
}.
End Permission.

Module Role.
(** The columns of a role.  The [Permissions] association of the Go
    struct is not a column: it lives in the [role_permissions] join
    table. *)
Record t := mk {
  ID : uint;
  Name : string;
  Description : string;
  IsSystem : bool;
  CreatedAt : Time;
  UpdatedAt : Time
}.
End Role.

Module UserRole.
Record t := mk {
  UserID : uint;
  RoleID : uint;
  CreatedAt : Time
}.
End UserRole.

(** The tables behind [*gorm.DB].  Each table is the list of its rows;
    the two [_id_seq] fields are the sequences that give new rows their
    primary key.  [role_permissions] holds (role_id, permission_id). *)
Record DB := mkDB {
  permissions : list Permission.t;
  permissions_id_seq : uint;
  roles : list Role.t;
  roles_id_seq : uint;
  role_permissions : list (uint * uint);
  user_roles : list UserRole.t
}.

(** Errors of a statement: the only ones modelled are violations of the
    primary keys and of the unique indexes on [name]. *)
Inductive dbError := UniqueViolation (table : string).

#[global] Instance result_ret {E} : MRet (result E) := fun _ a => Ok a.
#[global] Instance result_bind {E} : MBind (result E) :=
  fun _ _ f m => match m with Ok a => f a | Err e => Err e end.

(** [db.Where("name = ?", n).First(..)] finds a row. *)
Definition permission_named (n : string) (db : DB) : bool :=
  existsb (fun p => bool_decide (Permission.Name p = n)) (permissions db).

Definition role_named (n : string) (db : DB) : bool :=
  existsb (fun r => bool_decide (Role.Name r = n)) (roles db).

(** [db.Create(&perm)]: the row gets the next key of the sequence and
    the creation time; the statement fails on a taken key or name. *)
Definition Create_permission (now : Time) (perm : Permission.t) (db : DB)
  : result dbError DB :=
  let id := permissions_id_seq db in
  if existsb (fun p => bool_decide (Permission.ID p = id)
                       || bool_decide (Permission.Name p = Permission.Name perm))
       (permissions db)
  then Err (UniqueViolation "permissions")
  else Ok (mkDB
        (permissions db ++
           [Permission.mk id (Permission.Name perm) (Permission.Description perm)
              (Permission.Resource perm) (Permission.Action perm) now])
        (N.succ id) (roles db) (roles_id_seq db) (role_permissions db) (user_roles db)).

(** [db.Where("name = ?", perm.Name).FirstOrCreate(&perm)]. *)
Definition FirstOrCreate_permission (now : Time) (perm : Permission.t) (db : DB)
  : result dbError DB :=
  if permission_named (Permission.Name perm) db then Ok db
  else Create_permission now perm db.

(** One join row, [INSERT ... ON CONFLICT DO NOTHING]. *)
Definition add_role_permission (rows : list (uint * uint)) (row : uint * uint)
  : list (uint * uint) :=
  if bool_decide (row ∈ rows) then rows else rows ++ [row].

(** [db.Create(&role)] with its [Permissions] association filled in:
    inserts the role row, then one join row per associated permission.
    The associated permissions themselves are upserted with
    [ON CONFLICT DO NOTHING]; they were read from the table, so that
    statement changes nothing. *)
Definition Create_role (now : Time) (role : Role.t) (perms : list Permission.t)
    (db : DB) : result dbError DB :=
  let id := roles_id_seq db in
  if existsb (fun r => bool_decide (Role.ID r = id)
                       || bool_decide (Role.Name r = Role.Name role))
       (roles db)
  then Err (UniqueViolation "roles")
  else Ok (mkDB (permissions db) (permissions_id_seq db)
        (roles db ++
           [Role.mk id (Role.Name role) (Role.Description role)
              (Role.IsSystem role) now now])
        (N.succ id)
        (foldl add_role_permission (role_permissions db)
           ((fun p => (id, Permission.ID p)) <$> perms))
        (user_roles db)).

(** [db.Where("name IN ?", names).Find(..)]. *)
Definition permissions_named_in (names : list string) (db : DB) : list Permission.t :=
  filter (fun p => Permission.Name p ∈ names) (permissions db).

(** The permission literals of [SeedDefaultRolesAndPermissions]; key and
    creation time are zero until the row is created. *)
Definition perm (name description resource action : string) : Permission.t :=
  Permission.mk 0%N name description resource action 0.

Definition default_permissions : list Permission.t :=
  [ perm "ping:read" "Can ping the API" "ping" "read";
    perm "news:read" "Can read news articles" "news" "read";
    perm "news:create" "Can create news articles" "news" "create";
    perm "news:update" "Can update news articles" "news" "update";
    perm "news:delete" "Can delete news articles" "news" "delete";
    perm "users:read" "Can view users" "users" "read";
    perm "users:update" "Can update users" "users" "update";
    perm "users:delete" "Can delete users" "users" "delete";
    perm "users:manage_roles" "Can manage user roles" "users" "manage_roles";
    perm "roles:read" "Can view roles" "roles" "read";
    perm "roles:create" "Can create roles" "roles" "create";
    perm "roles:update" "Can update roles" "roles" "update";
    perm "roles:delete" "Can delete roles" "roles" "delete" ].

(** The role literals, each with the permissions it is created with. *)
Definition default_roles (db : DB) : list (Role.t * list Permission.t) :=
  let allPerms := permissions db in
  let userPerms := permissions_named_in ["ping:read"; "news:read"] db in
  let editorPerms :=
    permissions_named_in ["ping:read"; "news:read"; "news:create"; "news:update"] db in
  [ (Role.mk 0%N "admin" "Administrator with full access" true 0 0, allPerms);
    (Role.mk 0%N "user" "Regular user with basic access" true 0 0, userPerms);
    (Role.mk 0%N "editor" "Editor with news management access" false 0 0, editorPerms) ].

(** The first loop: create the permissions that do not exist. *)
Fixpoint seed_permissions (now : Time) (perms : list Permission.t) (db : DB)
  : result dbError DB :=
  match perms with
  | [] => Ok db
  | p :: rest =>
      db' ← FirstOrCreate_permission now p db;
      seed_permissions now rest db'
  end.

(** The second loop: create the roles that do not exist. *)
Fixpoint seed_roles (now : Time) (rs : list (Role.t * list Permission.t)) (db : DB)
  : result dbError DB :=
  match rs with
  | [] => Ok db
  | (role, perms) :: rest =>
      if role_named (Role.Name role) db then seed_roles now rest db
      else db' ← Create_role now role perms db; seed_roles now rest db'
  end.

(** [SeedDefaultRolesAndPermissions], run at time [now]. *)
Definition SeedDefaultRolesAndPermissions (now : Time) (db : DB) : result dbError DB :=
  db1 ← seed_permissions now default_permissions db;
  seed_roles now (default_roles db1) db1.

(** [GetUserPermissions]: the rows of
    [SELECT DISTINCT p.name FROM permissions p
       JOIN role_permissions rp ON p.id = rp.permission_id
       JOIN user_roles ur ON rp.role_id = ur.role_id
     WHERE ur.user_id = ?]. *)
Definition GetUserPermissions (db : DB) (userID : uint) : list string :=
  remove_dups
    (p ← permissions db;
     rp ← role_permissions db;
     ur ← user_roles db;
     if bool_decide (Permission.ID p = rp.2)
        && bool_decide (rp.1 = UserRole.RoleID ur)
        && bool_decide (UserRole.UserID ur = userID)
     then [Permission.Name p] else []).

(** The role ids assigned to a user. *)
Definition roles_of_user (db : DB) (userID : uint) : list uint :=
  UserRole.RoleID <$> filter (fun ur => UserRole.UserID ur = userID) (user_roles db).

(** The names of the permissions assigned to a role. *)
Definition permissions_of_role (db : DB) (roleID : uint) : gset string :=
  list_to_set
    (Permission.Name <$>
       filter (fun p => (roleID, Permission.ID p) ∈ role_permissions db)
         (permissions db)).

(** The resolver as the specification words it: the union, over the
    roles assigned to the user, of the permission names of each role. *)
Definition resolve_spec (db : DB) (userID : uint) : gset string :=
  ⋃ (permissions_of_role db <$> roles_of_user db userID).

(** Tables of the example: roles A (id 1) and B (id 2), permissions p1,
    p2, p3 (ids 1, 2, 3), A = {p1, p2}, B = {p2, p3}, user 7 has A and B,
    user 8 has B only. *)
Definition example_db : DB :=
  mkDB
    [ Permission.mk 1 "p1" "" "p" "1" 0; Permission.mk 2 "p2" "" "p" "2" 0;
      Permission.mk 3 "p3" "" "p" "3" 0 ]
    4
    [ Role.mk 1 "A" "" false 0 0; Role.mk 2 "B" "" false 0 0 ]
    3
    [ (1, 1); (1, 2); (2, 2); (2, 3) ]%N
    [ UserRole.mk 7 1 0; UserRole.mk 7 2 0; UserRole.mk 8 2 0 ].

(** A database in which nothing was created yet. *)
Definition empty_db : DB := mkDB [] 1 [] 1 [] [].

(** What a seeding step may do to the tables: append rows, never touch
    or drop the rows that were there, and keep names unique. *)
Record extends (db db' : DB) : Prop := {
  ext_permissions : permissions db `prefix_of` permissions db';
  ext_roles : roles db `prefix_of` roles db';
  ext_user_roles : user_roles db' = user_roles db;
  ext_permission_names :
    NoDup (Permission.Name <$> permissions db) →
    NoDup (Permission.Name <$> permissions db');
  ext_role_names :
    NoDup (Role.Name <$> roles db) → NoDup (Role.Name <$> roles db')
}.

End models.

(** ** pkg/middleware: the bearer-token middleware and the handler chain *)

Module ginchain.
Import jwt auth redis middleware.

(** [strings.HasPrefix] and [strings.TrimPrefix]. *)
Definition HasPrefix (s p : string) : bool := String.prefix p s.
Definition TrimPrefix (s p : string) : string :=
  if HasPrefix s p then
    String.substring (String.length p) (String.length s - String.length p) s
  else s.

Section chain.
Context `{Signer}.

(** The value of the Authorization header.  It is given by its
    characters, except that a token string behind the prefix "Bearer " is
    given by what it decodes to; what is left of a header given by its
    characters once the prefix is trimmed is a string the parser finds
    malformed. *)
Inductive headerValue :=
| Raw (s : string)
| Bearer (ts : tokenString).

(** [authHeader == ""]. *)
Definition header_is_empty (h : headerValue) : bool :=
  match h with
  | Raw s => bool_decide (s = "")
  | Bearer _ => false
  end.

(** [strings.HasPrefix(authHeader, BearerPrefix)]. *)
Definition header_has_prefix (h : headerValue) : bool :=
  match h with
  | Raw s => HasPrefix s BearerPrefix
  | Bearer _ => true
  end.

(** [strings.TrimPrefix(authHeader, BearerPrefix)]. *)
Definition header_token (h : headerValue) : tokenString :=
  match h with
  | Raw s => Malformed (TrimPrefix s BearerPrefix)
  | Bearer ts => ts
  end.

(** [c.Set(ClaimsKey, claims)]. *)
Definition Set_claims (c : Context) (claims : Claims) : Context :=
  {| Keys := <[ClaimsKey := ClaimsPtr claims]> (Keys c) |}.

(** [JWTAuth], run at time [now] on a request whose Authorization header
    is [authHeader]: the outcome and the context it leaves. *)
Definition JWTAuth (ks : keys) (now : Time) (authHeader : headerValue) (c : Context)
  : outcome * Context :=
  if header_is_empty authHeader then
    (AbortWithStatusJSON StatusUnauthorized
       {[ "error" := JString "missing authorization header" ]}, c)
  else if negb (header_has_prefix authHeader) then
    (AbortWithStatusJSON StatusUnauthorized
       {[ "error" := JString "invalid authorization header format" ]}, c)
  else
    match ValidateToken ks now (header_token authHeader) with
    | Err _ =>
        (AbortWithStatusJSON StatusUnauthorized
           {[ "error" := JString "invalid or expired token" ]}, c)
    | Ok claims => (Next, Set_claims c claims)
    end.

End chain.

(** A handler of a chain: how it leaves the chain and the context it
    leaves.  The gates of [middleware] do not write to the context. *)
Definition HandlerFunc : Type := Context → outcome * Context.
Definition gate (g : Context → outcome) : HandlerFunc := fun c => (g c, c).

(** The handlers registered for a route run in order: [c.Next()] at the
    end of a middleware runs the rest of the chain, an abort skips it and
    leaves the response of the abort. *)
Fixpoint run {R} (chain : list HandlerFunc) (final : Context → R)
    (aborted : Z → H → R) (c : Context) : R :=
  match chain with
  | [] => final c
  | m :: rest =>
      match m c with
      | (Next, c') => run rest final aborted c'
      | (AbortWithStatusJSON code body, _) => aborted code body
      end
  end.

End ginchain.

(** ** internal/auth: the routes of the session endpoints *)

Module authroutes.
Import jwt auth redis middleware internalauth ginchain.
Local Open Scope world_scope.

Section routes.
Context `{Signer}.

Definition with_Ctx (c : Request) (ctx : Context) : Request :=
  {| Cookie_refresh_token := Cookie_refresh_token c;
     Body_login := Body_login c;
     Body_refresh_token := Body_refresh_token c;
     Header_X_Refresh_Token := Header_X_Refresh_Token c;
     UserAgent := UserAgent c;
     ClientIP := ClientIP c;
     Ctx := ctx |}.

(** The response an aborting middleware leaves. *)
Definition aborted (code : Z) (body : H) : M Response :=
  ret {| code := code; body := BodyH body; cookie := None |}.

(** [router.POST("/auth/logout-all", middleware.JWTAuth(), h.LogoutAll)]. *)
Definition POST_auth_logout_all (h : Handler) (ks : keys) (authHeader : headerValue)
    (c : Request) : M Response :=
  let* now := time_Now in
  run [JWTAuth ks now authHeader] (fun ctx => LogoutAll h (with_Ctx c ctx)) aborted (Ctx c).

(** [router.GET("/auth/sessions", middleware.JWTAuth(), h.ListSessions)]. *)
Definition GET_auth_sessions (h : Handler) (ks : keys) (authHeader : headerValue)
    (c : Request) : M Response :=
  let* now := time_Now in
  run [JWTAuth ks now authHeader] (fun ctx => ListSessions h (with_Ctx c ctx)) aborted (Ctx c).

End routes.
End authroutes.

(** ** internal/protected: endpoints behind the bearer token *)

Module protected.
Import jwt auth middleware ginchain.

(** A value of a response body: a leaf, or a nested [gin.H]. *)
Inductive Value :=
| Leaf (j : JSON)
| Nested (h : H).

Record Response := {
  code : Z;
  body : gmap string Value
}.

(** How a handler ends: with a response, or in the panic of a nil
    pointer dereference. *)
Inductive Result :=
| Done (r : Response)
| Panic.

Definition leaves (h : H) : gmap string Value := Leaf <$> h.

(** [Secret]. *)
Definition Secret (c : Context) : Result :=
  match GetClaims c with
  | None =>
      Done {| code := StatusUnauthorized;
              body := leaves {[ "error" := JString "not authenticated" ]} |}
  | Some claims =>
      Done {| code := StatusOK;
              body := leaves
                (<[ "user" := JString (Username claims) ]>
                   (<[ "hint" :=
                         JString "You can only see this because you're authenticated" ]>
                      {[ "message" := JString "This is a secret message!" ]})) |}
  end.

(** [Profile]: the permissions in the body are the two literals, not the
    permissions of the claims. *)
Definition Profile (c : Context) : Result :=
  match GetClaims c with
  | None =>
      Done {| code := StatusUnauthorized;
              body := leaves {[ "error" := JString "not authenticated" ]} |}
  | Some claims =>
      Done {| code := StatusOK;
              body := leaves
                (<[ "permissions" := JStrings ["read:own-data"; "write:own-data"] ]>
                   (<[ "role" := JString (Role claims) ]>
                      (<[ "username" := JString (Username claims) ]>
                         {[ "user_id" := JString (UserID claims) ]}))) |}
  end.

(** [AdminDashboard]: the claims are read without looking at the flag;
    [claims.Username] on the nil pointer panics. *)
Definition AdminDashboard (c : Context) : Result :=
  match GetClaims c with
  | None => Panic
  | Some claims =>
      Done {| code := StatusOK;
              body :=
                <[ "stats" := Nested
                     (<[ "api_calls_today" := JInt 1337 ]>
                        (<[ "active_sessions" := JInt 7 ]>
                           {[ "total_users" := JInt 42 ]})) ]>
                  (leaves
                     (<[ "admin" := JString (Username claims) ]>
                        {[ "message" := JString "Welcome to the admin dashboard!" ]})) |}
  end.

Definition aborted (code : Z) (body : H) : Result :=
  Done {| code := code; body := leaves body |}.

Section routes.
Context `{Signer}.

(** The routes of [RegisterRoutes]: the group "/protected" uses
    [JWTAuth], its subgroup "/admin" adds [RequireRole("admin")]. *)
Definition GET_protected_secret (ks : keys) (now : Time) (authHeader : headerValue)
    (c : Context) : Result :=
  run [JWTAuth ks now authHeader] Secret aborted c.

Definition GET_protected_profile (ks : keys) (now : Time) (authHeader : headerValue)
    (c : Context) : Result :=
  run [JWTAuth ks now authHeader] Profile aborted c.

Definition GET_protected_admin_dashboard (ks : keys) (now : Time)
    (authHeader : headerValue) (c : Context) : Result :=
  run [JWTAuth ks now authHeader; gate (RequireRole ["admin"])] AdminDashboard aborted c.

End routes.
End protected.

(** ** internal/ping: the ping service and its route *)

Module ping.
Import jwt auth middleware models ginchain.

Module Ping.
(** [models.Ping]. *)
Record t := mk {
  ID : uint;
  Message : string;
  CreatedAt : Time
}.
End Ping.

(** The table [pings] with the sequence of its primary key. *)
Record Table := mkTable {
  pings : list Ping.t;
  pings_id_seq : uint
}.

(** [s.db.Create(ping)]: the row gets the next key of the sequence; the
    statement fails on a taken key. *)
Definition Create_ping (now : Time) (p : Ping.t) (t : Table)
  : result dbError (Ping.t * Table) :=
  let id := pings_id_seq t in
  if existsb (fun q => bool_decide (Ping.ID q = id)) (pings t)
  then Err (UniqueViolation "pings")
  else let row := Ping.mk id (Ping.Message p) now in
       Ok (row, mkTable (pings t ++ [row]) (N.succ id)).

(** [Service.Ping]: the message of the response and the table left. *)
Definition Service_Ping (now : Time) (t : Table) : result dbError string * Table :=
  match Create_ping now (Ping.mk 0%N "pong" 0) t with
  | Err e => (Err e, t)
  | Ok (row, t') => (Ok (Ping.Message row), t')
  end.

Inductive Body :=
| BodyH (h : H)
| BodyError (e : dbError)          (* [gin.H{"error": err.Error()}] *)
| BodyPing (message : string).     (* [PingResponse] *)

Record Response := {
  code : Z;
  body : Body
}.

(** [Handler.Ping]. *)
Definition Handler_Ping (now : Time) (t : Table) (c : Context) : Response * Table :=
  match Service_Ping now t with
  | (Err e, t') => ({| code := StatusInternalServerError; body := BodyError e |}, t')
  | (Ok message, t') => ({| code := StatusOK; body := BodyPing message |}, t')
  end.

Section routes.
Context `{Signer}.

(** [router.GET("/ping", middleware.JWTAuth(),
      middleware.RequirePermission("ping:read"), h.Ping)]. *)
Definition GET_ping (ks : keys) (now : Time) (authHeader : headerValue)
    (t : Table) (c : Context) : Response * Table :=
  run [JWTAuth ks now authHeader; gate (RequirePermission ["ping:read"])]
    (Handler_Ping now t)
    (fun code body => ({| code := code; body := BodyH body |}, t)) c.

End routes.
End ping.

(** ** Alphabets *)

Module alphabet.

(** The position of a character in the alphabet. *)
Fixpoint index_in (c : ascii) (s : string) : option N :=
  match s with
  | EmptyString => None
  | String c' rest =>
      if Ascii.eqb c c' then Some 0%N
      else match index_in c rest with Some i => Some (N.succ i) | None => None end
  end.

End alphabet.

(** ** db/models: assigning roles and asking for permissions *)

Module rbac.
Import models.

(** The errors of a query: no row, or a failed statement. *)
Inductive gormError :=
| ErrRecordNotFound
| ErrStatement (e : dbError).

(** [First]: of the rows that match, the one with the least primary
    key; among rows with the same key, the first. *)
Definition least_by {A} (key : A → uint) (rows : list A) : option A :=
  foldl (fun best row =>
           match best with
           | None => Some row
           | Some b => if (key row <? key b)%N then Some row else Some b
           end) None rows.

(** [db.Where("name = ?", roleName).First(&role)]. *)
Definition First_role_named (roleName : string) (db : DB) : result gormError Role.t :=
  match least_by Role.ID (filter (fun r => Role.Name r = roleName) (roles db)) with
  | Some role => Ok role
  | None => Err ErrRecordNotFound
  end.

Definition with_user_roles (db : DB) (urs : list UserRole.t) : DB :=
  mkDB (permissions db) (permissions_id_seq db) (roles db) (roles_id_seq db)
    (role_permissions db) urs.

(** [GetUserRoles]: the rows of
    [SELECT r.* FROM roles r JOIN user_roles ur ON r.id = ur.role_id
     WHERE ur.user_id = ?]. *)
Definition GetUserRoles (db : DB) (userID : uint) : list Role.t :=
  r ← roles db;
  ur ← user_roles db;
  if bool_decide (Role.ID r = UserRole.RoleID ur)
     && bool_decide (UserRole.UserID ur = userID)
  then [r] else [].

(** [AssignRoleToUser], run at time [now]: [FirstOrCreate] inserts the
    assignment unless a row with that user and role is there. *)
Definition AssignRoleToUser (now : Time) (db : DB) (userID : uint) (roleName : string)
  : result gormError DB :=
  match First_role_named roleName db with
  | Err e => Err e
  | Ok role =>
      if existsb (fun ur => bool_decide (UserRole.UserID ur = userID)
                            && bool_decide (UserRole.RoleID ur = Role.ID role))
           (user_roles db)
      then Ok db
      else Ok (with_user_roles db
                 (user_roles db ++ [UserRole.mk userID (Role.ID role) now]))
  end.

(** [RemoveRoleFromUser]: deletes every assignment of that role to that
    user; deleting no row is no error. *)
Definition RemoveRoleFromUser (db : DB) (userID : uint) (roleName : string)
  : result gormError DB :=
  match First_role_named roleName db with
  | Err e => Err e
  | Ok role =>
      Ok (with_user_roles db
            (filter (fun ur => ¬ (UserRole.UserID ur = userID
                                  ∧ UserRole.RoleID ur = Role.ID role))
               (user_roles db)))
  end.

(** [HasPermission]: [SELECT COUNT( * )] over the same join as
    [GetUserPermissions], restricted to the name; [count > 0]. *)
Definition HasPermission (db : DB) (userID : uint) (permissionName : string) : bool :=
  let count :=
    length
      (p ← permissions db;
       rp ← role_permissions db;
       ur ← user_roles db;
       if bool_decide (Permission.ID p = rp.2)
          && bool_decide (rp.1 = UserRole.RoleID ur)
          && bool_decide (UserRole.UserID ur = userID)
          && bool_decide (Permission.Name p = permissionName)
       then [()] else []) in
  bool_decide (0 < count)%nat.

End rbac.

(** ** strconv: decimal numerals

    The functions of Go's [strconv] the sources call, in base 10. *)

Module strconv.

Inductive NumError :=
| ErrSyntax          (* "invalid syntax" *)
| ErrRange.          (* "value out of range" *)

Definition digit_value (c : ascii) : option N :=
  let n := N_of_ascii c in
  if (48 <=? n)%N && (n <=? 57)%N then Some (n - 48)%N else None.

(** The loop of [ParseUint]: digit after digit, failing with a syntax
    error at the first character that is no digit and with a range error
    as soon as the value exceeds [maxVal]. *)
Fixpoint parse_digits (maxVal : N) (s : string) (acc : N) : result NumError N :=
  match s with
  | EmptyString => Ok acc
  | String c rest =>
      match digit_value c with
      | None => Err ErrSyntax
      | Some d =>
          let n := (acc * 10 + d)%N in
          if (n <=? maxVal)%N then parse_digits maxVal rest n else Err ErrRange
      end
  end.

(** [ParseUint(s, 10, bitSize)]. *)
Definition ParseUint (s : string) (bitSize : N) : result NumError N :=
  match s with
  | EmptyString => Err ErrSyntax
  | _ => parse_digits (2 ^ bitSize - 1) s 0
  end.

(** [Atoi(s)] on a 64-bit platform: the value and the error.  On a
    syntax error the value is 0, on a range error the nearest bound. *)
Definition Atoi (s : string) : Z * option NumError :=
  let '(neg, digits) :=
    match s with
    | String "+" rest => (false, rest)
    | String "-" rest => (true, rest)
    | _ => (false, s)
    end in
  match ParseUint digits 64 with
  | Err ErrSyntax => (0, Some ErrSyntax)
  | Err ErrRange => (if neg then min_int64 else max_int64, Some ErrRange)
  | Ok un =>
      if neg then
        if (un <=? 2 ^ 63)%N then (- Z.of_N un, None) else (min_int64, Some ErrRange)
      else
        if (un <? 2 ^ 63)%N then (Z.of_N un, None) else (max_int64, Some ErrRange)
  end.

(** [FormatUint(n, 10)] of a [uint64]: at most twenty digits, the most
    significant first. *)
Fixpoint format_digits (fuel : nat) (n : N) (acc : string) : string :=
  match fuel with
  | O => acc
  | S fuel' =>
      let acc' := String (ascii_of_N (48 + n mod 10)) acc in
      if (n <? 10)%N then acc' else format_digits fuel' (n / 10) acc'
  end.

Definition FormatUint (n : N) : string := format_digits 20 n "".

(** [Itoa(n)] of an [int]. *)
Definition Itoa (n : Z) : string :=
  if bool_decide (n < 0) then String "-" (FormatUint (Z.to_N (- n)))
  else FormatUint (Z.to_N n).

End strconv.

(** ** internal/admin: managing roles and their permissions *)

Module admin.
Import jwt auth models rbac middleware ginchain.

Definition StatusCreated : Z := 201.
Definition StatusNotFound : Z := 404.
Definition StatusConflict : Z := 409.

(** [strconv.ParseUint(c.Param("id"), 10, 32)]. *)
Definition ParseUint32 (s : string) : option N :=
  match strconv.ParseUint s 32 with
  | Ok id => Some id
  | Err _ => None
  end.

(** [PermissionResponse] and [RoleResponse]. *)
Record PermissionResponse := {
  p_ID : uint;
  p_Name : string;
  p_Description : string;
  p_Resource : string;
  p_Action : string
}.

Record RoleResponse := {
  r_ID : uint;
  r_Name : string;
  r_Description : string;
  r_IsSystem : bool;
  r_Permissions : list PermissionResponse
}.

Inductive Body :=
| BodyH (h : H)
| BodyRole (r : RoleResponse).

Record Response := {
  code : Z;
  body : Body
}.

Definition error_body (msg : string) : Body := BodyH {[ "error" := JString msg ]}.
Definition message_body (msg : string) : Body := BodyH {[ "message" := JString msg ]}.

(** The tables and the log. *)
Record State := mkState {
  db : DB;
  log : list (redis.Level * string)
}.

Definition logged (st : State) (l : redis.Level) (msg : string) : State :=
  mkState (db st) (log st ++ [(l, msg)]).

(** What the handlers read of the request: the path parameter "id", the
    body [ShouldBindJSON] bound for the role requests (name and
    description) and for the permission request (the ids), [None] when
    binding or validation failed. *)
Record Request := {
  Param_id : string;
  Body_role : option (string * string);
  Body_permission_ids : option (list uint)
}.

(** [db.First(&role, id)]. *)
Definition First_role (id : uint) (d : DB) : option Role.t :=
  least_by Role.ID (filter (fun r => Role.ID r = id) (roles d)).

(** [Preload("Permissions")]: the permissions the join table gives the
    role, in the order of the table. *)
Definition Preload_Permissions (d : DB) (roleID : uint) : list Permission.t :=
  filter (fun p => (roleID, Permission.ID p) ∈ role_permissions d) (permissions d).

Definition to_PermissionResponse (p : Permission.t) : PermissionResponse :=
  {| p_ID := Permission.ID p; p_Name := Permission.Name p;
     p_Description := Permission.Description p; p_Resource := Permission.Resource p;
     p_Action := Permission.Action p |}.

Definition to_RoleResponse (role : Role.t) (perms : list Permission.t) : RoleResponse :=
  {| r_ID := Role.ID role; r_Name := Role.Name role;
     r_Description := Role.Description role; r_IsSystem := Role.IsSystem role;
     r_Permissions := to_PermissionResponse <$> perms |}.

(** [GetRole]. *)
Definition GetRole (c : Request) (st : State) : Response * State :=
  match ParseUint32 (Param_id c) with
  | None => ({| code := StatusBadRequest; body := error_body "invalid role ID" |}, st)
  | Some id =>
      match First_role id (db st) with
      | None => ({| code := StatusNotFound; body := error_body "role not found" |}, st)
      | Some role =>
          ({| code := StatusOK;
              body := BodyRole (to_RoleResponse role (Preload_Permissions (db st) id)) |},
           st)
      end
  end.

Definition with_db (st : State) (d : DB) : State := mkState d (log st).

(** [CreateRole], run at time [now]. *)
Definition CreateRole (now : Time) (c : Request) (st : State) : Response * State :=
  match Body_role c with
  | None => ({| code := StatusBadRequest; body := error_body "invalid request body" |}, st)
  | Some (name, description) =>
      if role_named name (db st) then
        ({| code := StatusConflict; body := error_body "role already exists" |}, st)
      else
        let role := Role.mk 0%N name description false 0 0 in
        match Create_role now role [] (db st) with
        | Err _ =>
            ({| code := StatusInternalServerError;
                body := error_body "failed to create role" |},
             logged st redis.Error "Failed to create role")
        | Ok d =>
            ({| code := StatusCreated;
                body := BodyRole
                  {| r_ID := roles_id_seq (db st); r_Name := name;
                     r_Description := description; r_IsSystem := false;
                     r_Permissions := [] |} |},
             with_db st d)
        end
  end.

(** [db.Save(&role)] of a role that was read from the table: every column
    of the row with that key is written, and [updated_at] is set. *)
Definition Save_role (now : Time) (role : Role.t) (d : DB) : DB :=
  mkDB (permissions d) (permissions_id_seq d)
    ((fun r => if bool_decide (Role.ID r = Role.ID role) then
                 Role.mk (Role.ID role) (Role.Name role) (Role.Description role)
                   (Role.IsSystem role) (Role.CreatedAt role) now
               else r) <$> roles d)
    (roles_id_seq d) (role_permissions d) (user_roles d).

(** [UpdateRole], run at time [now]. *)
Definition UpdateRole (now : Time) (c : Request) (st : State) : Response * State :=
  match ParseUint32 (Param_id c) with
  | None => ({| code := StatusBadRequest; body := error_body "invalid role ID" |}, st)
  | Some id =>
      match Body_role c with
      | None =>
          ({| code := StatusBadRequest; body := error_body "invalid request body" |}, st)
      | Some (name, description) =>
          match First_role id (db st) with
          | None => ({| code := StatusNotFound; body := error_body "role not found" |}, st)
          | Some role =>
              if Role.IsSystem role && bool_decide (Role.Name role ≠ name) then
                ({| code := StatusForbidden;
                    body := error_body "cannot rename system roles" |}, st)
              else if existsb (fun r => bool_decide (Role.Name r = name)
                                        && bool_decide (Role.ID r ≠ id))
                        (roles (db st)) then
                ({| code := StatusConflict;
                    body := error_body "role name already exists" |}, st)
              else
                let role' :=
                  Role.mk (Role.ID role) name description (Role.IsSystem role)
                    (Role.CreatedAt role) (Role.UpdatedAt role) in
                let d := Save_role now role' (db st) in
                let reloaded := default role' (First_role id d) in
                ({| code := StatusOK;
                    body := BodyRole (to_RoleResponse reloaded (Preload_Permissions d id)) |},
                 with_db st d)
          end
      end
  end.

(** [db.Select("Permissions").Delete(&role)] followed by the deletion of
    the assignments of the role. *)
Definition Delete_role (id : uint) (d : DB) : DB :=
  mkDB (permissions d) (permissions_id_seq d)
    (filter (fun r => Role.ID r ≠ id) (roles d))
    (roles_id_seq d)
    (filter (fun rp => rp.1 ≠ id) (role_permissions d))
    (filter (fun ur => UserRole.RoleID ur ≠ id) (user_roles d)).

(** [DeleteRole]. *)
Definition DeleteRole (c : Request) (st : State) : Response * State :=
  match ParseUint32 (Param_id c) with
  | None => ({| code := StatusBadRequest; body := error_body "invalid role ID" |}, st)
  | Some id =>
      match First_role id (db st) with
      | None => ({| code := StatusNotFound; body := error_body "role not found" |}, st)
      | Some role =>
          if Role.IsSystem role then
            ({| code := StatusForbidden;
                body := error_body "cannot delete system roles" |}, st)
          else
            ({| code := StatusOK; body := message_body "role deleted" |},
             with_db st (Delete_role id (db st)))
      end
  end.

(** [db.Where("id IN ?", ids).Find(&permissions)]. *)
Definition permissions_with_id_in (ids : list uint) (d : DB) : list Permission.t :=
  filter (fun p => Permission.ID p ∈ ids) (permissions d).

(** [db.Model(&role).Association("Permissions").Replace(permissions)]:
    the join rows of the role become those of the given permissions; the
    rows that are already there stay, the others of the role go, the
    missing ones are added.  Saving a non-empty association also writes
    [updated_at] of the role. *)
Definition Replace_Permissions (now : Time) (roleID : uint) (perms : list Permission.t)
    (d : DB) : DB :=
  let wanted := (fun p => (roleID, Permission.ID p)) <$> perms in
  mkDB (permissions d) (permissions_id_seq d)
    (if bool_decide (0 < length perms)%nat then
       (fun r => if bool_decide (Role.ID r = roleID) then
                   Role.mk (Role.ID r) (Role.Name r) (Role.Description r)
                     (Role.IsSystem r) (Role.CreatedAt r) now
                 else r) <$> roles d
     else roles d)
    (roles_id_seq d)
    (filter (fun rp => rp.1 ≠ roleID ∨ rp ∈ wanted)
       (foldl add_role_permission (role_permissions d) wanted))
    (user_roles d).

(** [SetRolePermissions], run at time [now]. *)
Definition SetRolePermissions (now : Time) (c : Request) (st : State)
  : Response * State :=
  match ParseUint32 (Param_id c) with
  | None => ({| code := StatusBadRequest; body := error_body "invalid role ID" |}, st)
  | Some id =>
      match Body_permission_ids c with
      | None =>
          ({| code := StatusBadRequest; body := error_body "invalid request body" |}, st)
      | Some ids =>
          match First_role id (db st) with
          | None => ({| code := StatusNotFound; body := error_body "role not found" |}, st)
          | Some role =>
              let permissions :=
                if bool_decide (0 < length ids)%nat then permissions_with_id_in ids (db st)
                else [] in
              let d := Replace_Permissions now (Role.ID role) permissions (db st) in
              let reloaded := default role (First_role id d) in
              ({| code := StatusOK;
                  body := BodyRole (to_RoleResponse reloaded (Preload_Permissions d id)) |},
               logged (with_db st d) redis.Info "Role permissions updated")
          end
      end
  end.

(** The identity of a role: its key, its name and whether it is a system
    role. *)
Definition identity (r : Role.t) : uint * string * bool :=
  (Role.ID r, Role.Name r, Role.IsSystem r).

(** The handlers that write, for a request handled at time [now]. *)
Definition writes (now : Time) (c : Request) : list (State → Response * State) :=
  [CreateRole now c; UpdateRole now c; DeleteRole c; SetRolePermissions now c].

(** The integrity constraints of the tables: unique role keys and names,
    and join rows that refer to a role. *)
Record integrity (d : DB) : Prop := {
  unique_role_keys : NoDup (Role.ID <$> roles d);
  unique_role_names : NoDup (Role.Name <$> roles d);
  join_rows_refer : ∀ rp, rp ∈ role_permissions d → ∃ r, r ∈ roles d ∧ Role.ID r = rp.1
}.

Section routes.
Context `{Signer}.

(** The group "/admin" of [RegisterRoutes]: every route runs behind
    [JWTAuth] and [RequireRole("admin")]. *)
Definition behind_admin (ks : keys) (now : Time) (authHeader : headerValue)
    (handler : State → Response * State) (c : Context) (st : State)
  : Response * State :=
  run [JWTAuth ks now authHeader; gate (RequireRole ["admin"])]
    (fun _ => handler st)
    (fun code body => ({| code := code; body := BodyH body |}, st)) c.

Definition GET_admin_roles_id ks now authHeader (r : Request) :=
  behind_admin ks now authHeader (GetRole r).
Definition POST_admin_roles ks now authHeader (r : Request) :=
  behind_admin ks now authHeader (CreateRole now r).
Definition PUT_admin_roles_id ks now authHeader (r : Request) :=
  behind_admin ks now authHeader (UpdateRole now r).
Definition DELETE_admin_roles_id ks now authHeader (r : Request) :=
  behind_admin ks now authHeader (DeleteRole r).
Definition PUT_admin_roles_id_permissions ks now authHeader (r : Request) :=
  behind_admin ks now authHeader (SetRolePermissions now r).

End routes.
End admin.

(** ** config: the configuration read from the environment *)

Module config.

Record ServerConfig := { Port : string }.

Record GoogleConfig := {
  ClientID : string;
  ClientSecret : string;
  RedirectURL : string
}.

Record JWTConfig := {
  PrivateKeyPath : string;
  PublicKeyPath : string;
  Issuer : string;
  AccessTokenExpiryMins : Z;
  RefreshTokenExpiryDays : Z
}.

Record DatabaseConfig := {
  db_Host : string;
  db_Port : string;
  db_User : string;
  db_Password : string;
  db_DBName : string;
  db_SSLMode : string
}.

Record RedisConfig := {
  redis_Host : string;
  redis_Port : string;
  redis_Password : string;
  redis_DB : Z
}.

Record LogConfig := {
  Level : string;
  Pretty : bool
}.

Record Config := {
  Server : ServerConfig;
  Database : DatabaseConfig;
  Redis : RedisConfig;
  Log : LogConfig;
  JWT : JWTConfig;
  Google : GoogleConfig
}.

(** The environment of the process, as [os.LookupEnv] reads it once
    [godotenv.Load] has run. *)
Definition Env := gmap string string.

(** [getEnv]. *)
Definition getEnv (env : Env) (key defaultValue : string) : string :=
  match env !! key with
  | Some value => value
  | None => defaultValue
  end.

(** [getEnvInt]. *)
Definition getEnvInt (env : Env) (key : string) (defaultValue : Z) : Z :=
  match env !! key with
  | Some value =>
      match strconv.Atoi value with
      | (intVal, None) => intVal
      | (_, Some _) => defaultValue
      end
  | None => defaultValue
  end.

(** [Load]; it has no failing path. *)
Definition Load (env : Env) : Config :=
  let redisDB := (strconv.Atoi (getEnv env "REDIS_DB" "0")).1 in
  {| Server := {| Port := getEnv env "PORT" "8080" |};
     Database :=
       {| db_Host := getEnv env "DB_HOST" "localhost";
          db_Port := getEnv env "DB_PORT" "5432";
          db_User := getEnv env "DB_USER" "postgres";
          db_Password := getEnv env "DB_PASSWORD" "postgres";
          db_DBName := getEnv env "DB_NAME" "chattycathy";
          db_SSLMode := getEnv env "DB_SSLMODE" "disable" |};
     Redis :=
       {| redis_Host := getEnv env "REDIS_HOST" "localhost";
          redis_Port := getEnv env "REDIS_PORT" "6379";
          redis_Password := getEnv env "REDIS_PASSWORD" "";
          redis_DB := redisDB |};
     Log :=
       {| Level := getEnv env "LOG_LEVEL" "info";
          Pretty := bool_decide (getEnv env "LOG_PRETTY" "true" = "true") |};
     JWT :=
       {| PrivateKeyPath := getEnv env "JWT_PRIVATE_KEY" "";
          PublicKeyPath := getEnv env "JWT_PUBLIC_KEY" "";
          Issuer := getEnv env "JWT_ISSUER" "chattycathy";
          AccessTokenExpiryMins := getEnvInt env "JWT_ACCESS_EXPIRY_MINS" 15;
          RefreshTokenExpiryDays := getEnvInt env "JWT_REFRESH_EXPIRY_DAYS" 7 |};
     Google :=
       {| ClientID := getEnv env "GOOGLE_CLIENT_ID" "";
          ClientSecret := getEnv env "GOOGLE_CLIENT_SECRET" "";
          RedirectURL := getEnv env "GOOGLE_REDIRECT_URL" "http://localhost:3000" |} |}.

(** A character that [strconv.Atoi] accepts somewhere in a numeral. *)
Definition numeral_char (c : ascii) : bool :=
  match strconv.digit_value c with
  | Some _ => true
  | None => bool_decide (c = "+"%char) || bool_decide (c = "-"%char)
  end.

End config.

(** ** db: the migrations *)

Module migrations.
Import models rbac.

(** [models.User]. *)
Module User.
Record t := mk {
  ID : uint;
  GoogleID : string;
  Email : string;
  Name : string;
  Picture : string;
  Role : string;
  LastLoginAt : Time;
  CreatedAt : Time;
  UpdatedAt : Time
}.
End User.

(** The rows of
    [SELECT u.* FROM users u LEFT JOIN user_roles ur ON u.id = ur.user_id
     WHERE ur.user_id IS NULL]: the users no assignment refers to. *)
Definition users_without_roles (users : list User.t) (db : DB) : list User.t :=
  filter (fun u => forallb (fun ur => bool_decide (UserRole.UserID ur ≠ User.ID u))
                     (user_roles db) = true) users.

(** One turn of the loop of [assignDefaultRoleToExistingUsers]: a
    failure is logged and the loop goes on. *)
Definition assign_default (now : Time) (acc : DB * list (redis.Level * string))
    (user : User.t) : DB * list (redis.Level * string) :=
  match AssignRoleToUser now acc.1 (User.ID user) "user" with
  | Err _ => (acc.1, acc.2 ++ [(redis.Warn, "Failed to assign role to user")])
  | Ok db' => (db', acc.2 ++ [(redis.Info, "Assigned default 'user' role")])
  end.

(** [assignDefaultRoleToExistingUsers] over the table [users], run at
    time [now]: the tables and the lines logged.  The function returns
    [nil] on every path but a failing query. *)
Definition assignDefaultRoleToExistingUsers (now : Time) (users : list User.t) (db : DB)
  : DB * list (redis.Level * string) :=
  let usersWithoutRoles := users_without_roles users db in
  if bool_decide (length usersWithoutRoles = 0%nat) then
    (db, [(redis.Info, "All users have roles assigned")])
  else
    foldl (assign_default now) (db, [(redis.Info, "Found users without roles")])
      usersWithoutRoles.

End migrations.

(** ** internal/auth/google_handler.go: signing in with Google *)

Module google.
Import jwt auth redis middleware models migrations.
Local Open Scope world_scope.

(** [GoogleUserInfo]. *)
Module GoogleUserInfo.
Record t := mk {
  ID : string;
  Email : string;
  VerifiedEmail : bool;
  Name : string;
  GivenName : string;
  FamilyName : string;
  Picture : string
}.
End GoogleUserInfo.

(** [GoogleCallbackRequest]. *)
Module GoogleCallbackRequest.
Record t := mk {
  AccessToken : string;
  Code : string
}.
End GoogleCallbackRequest.

(** [GoogleHandler].  Its database handle is left out: what the handler
    gets from the database is part of [Calls]. *)
Record GoogleHandler := NewGoogleHandler {
  clientID : string;
  clientSecret : string;
  redirectURL : string;
  issuer : string;
  accessTokenExpiryMins : Z;
  refreshTokenExpiryDays : Z
}.

(** What [GoogleCallback] gets from the calls that leave the session
    code: the body [ShouldBindJSON] binds, the answer of Google to an
    access token and to an authorization code, the row of the users table
    [findOrCreateUser] returns, and the rows of [models.GetUserPermissions].
    [None] is the error of the call.  The lines [findOrCreateUser] logs
    are left out. *)
Record Calls := {
  ShouldBindJSON : option GoogleCallbackRequest.t;
  verifyGoogleAccessToken : string → option GoogleUserInfo.t;
  exchangeCodeForUserInfo : string → option GoogleUserInfo.t;
  findOrCreateUser : GoogleUserInfo.t → option User.t;
  GetUserPermissions : uint → option (list string)
}.

Section endpoints.
Context `{Signer}.

(** The bodies of the responses: an error, or the tokens with the user
    and the permissions. *)
Inductive Body :=
| BodyH (h : H)
| BodyLogin (tp : TokenPair) (user : User.t) (permissions : list string).

Record Response := {
  code : Z;
  body : Body;
  cookie : option internalauth.Cookie
}.

Definition error_body (msg : string) : Body := BodyH {[ "error" := JString msg ]}.

(** [setRefreshTokenCookie]. *)
Definition setRefreshTokenCookie (h : GoogleHandler) (token : string)
  : internalauth.Cookie :=
  {| internalauth.cookie_value := token;
     internalauth.cookie_maxAge :=
       mul64 (mul64 (mul64 (refreshTokenExpiryDays h) 24) 60) 60 |}.

(** [GoogleCallback]. *)
Definition GoogleCallback (h : GoogleHandler) (ks : keys)
    (entropy : option (list Byte.byte)) (env : Calls) (c : internalauth.Request)
  : M Response :=
  match ShouldBindJSON env with
  | None =>
      ret {| code := StatusBadRequest; body := error_body "invalid request body";
             cookie := None |}
  | Some req =>
      let verified :=
        if bool_decide (GoogleCallbackRequest.AccessToken req ≠ "") then
          Some (verifyGoogleAccessToken env (GoogleCallbackRequest.AccessToken req))
        else if bool_decide (GoogleCallbackRequest.Code req ≠ "") then
          Some (exchangeCodeForUserInfo env (GoogleCallbackRequest.Code req))
        else None in
      match verified with
      | None =>
          ret {| code := StatusBadRequest;
                 body := error_body "access_token or code required"; cookie := None |}
      | Some None =>
          logMsg Error "Failed to verify Google token" ;;
          ret {| code := StatusUnauthorized;
                 body := error_body "invalid Google credentials"; cookie := None |}
      | Some (Some googleUser) =>
          match findOrCreateUser env googleUser with
          | None =>
              logMsg Error "Failed to find or create user" ;;
              ret {| code := StatusInternalServerError;
                     body := error_body "failed to process user"; cookie := None |}
          | Some user =>
              let* permissions :=
                match GetUserPermissions env (User.ID user) with
                | None => logMsg Error "Failed to get user permissions" ;; ret []
                | Some permissions => ret permissions
                end in
              let userID := strconv.FormatUint (User.ID user) in
              let* now := time_Now in
              match GenerateTokenPair ks now entropy userID (User.Email user)
                      (User.Role user) permissions (issuer h)
                      (accessTokenExpiryMins h) (refreshTokenExpiryDays h) with
              | Err _ =>
                  logMsg Error "Failed to generate token pair" ;;
                  ret {| code := StatusInternalServerError;
                         body := error_body "failed to generate tokens";
                         cookie := None |}
              | Ok tokenPair =>
                  let* now := time_Now in
                  let refreshData :=
                    RefreshTokenData.mk userID (User.Email user) (User.Role user)
                      permissions now (internalauth.UserAgent c)
                      (internalauth.ClientIP c) in
                  let expiry := mul64 (mul64 (refreshTokenExpiryDays h) 24) Hour in
                  let* r := StoreRefreshToken (RefreshToken tokenPair) refreshData
                              expiry in
                  match r with
                  | Err _ =>
                      logMsg Error "Failed to store refresh token" ;;
                      ret {| code := StatusInternalServerError;
                             body := error_body "failed to create session";
                             cookie := None |}
                  | Ok _ =>
                      ret {| code := StatusOK;
                             body := BodyLogin tokenPair user permissions;
                             cookie :=
                               Some (setRefreshTokenCookie h (RefreshToken tokenPair)) |}
                  end
              end
          end
      end
  end.

End endpoints.

(** [main] builds the two handlers from the same configuration: the
    issuer and the two lifetimes of [cfg.JWT]. *)
Definition wired (h : internalauth.Handler) (g : GoogleHandler) : Prop :=
  issuer g = internalauth.issuer h
  ∧ accessTokenExpiryMins g = internalauth.accessTokenExpiryMins h
  ∧ refreshTokenExpiryDays g = internalauth.refreshTokenExpiryDays h.

End google.

(** ** The life of the session store

    The worlds the server goes through when it handles its requests one
    after the other, each at one instant of the clock: a step is one call
    of an endpoint that uses the session store, through its route, or the
    passing of time. *)

Module lifecycle.
Import jwt auth redis middleware internalauth ginchain authroutes.

Section steps.
Context `{Signer}.

(** The steps on a connection that stays healthy.  The body of a login
    is bound from JSON. *)
Inductive step (h : Handler) (ks : keys) : world → world → Prop :=
| step_Login entropy c w : bound c → step h ks w (Login h ks entropy c w).2
| step_GoogleCallback g entropy env c w :
    google.wired h g → step h ks w (google.GoogleCallback g ks entropy env c w).2
| step_Refresh entropy c w : step h ks w (Refresh h ks entropy c w).2
| step_Logout c w : step h ks w (Logout h c w).2
| step_LogoutAll authHeader c w :
    step h ks w (POST_auth_logout_all h ks authHeader c w).2
| step_ListSessions authHeader c w :
    step h ks w (GET_auth_sessions h ks authHeader c w).2
| step_elapse d w : 0 ≤ d → step h ks w (elapse d w).

(** The world after [redis.Connect] reached an empty server. *)
Definition started (w : world) : Prop :=
  Client w = true ∧ store w = ∅ ∧ plan w = healthy.

Inductive reachable (h : Handler) (ks : keys) : world → Prop :=
| reachable_start w : started w → reachable h ks w
| reachable_step w w' : reachable h ks w → step h ks w w' → reachable h ks w'.

(** What may happen after a token string [t] went out of use, as long as
    no endpoint issues that string again: time passes, the connection
    comes and goes, the endpoints are called with any handler, keys and
    request, and the commands of calls in flight reach the server one by
    one, in any order.  A login, a sign-in with Google and a refresh
    issue the string [GenerateRefreshToken] makes of the bytes they
    read; the only SET of the session code is the one of
    [StoreRefreshToken], under the key of the token it stores. *)
Inductive later (t : string) (w : world) : world → Prop :=
| later_now : later t w w
| later_elapse d w1 : 0 ≤ d → later t w w1 → later t w (elapse d w1)
| later_plan fp w1 : later t w w1 → later t w (with_plan w1 fp)
| later_Login h ks entropy c w1 :
    GenerateRefreshToken entropy ≠ Ok t →
    later t w w1 → later t w (Login h ks entropy c w1).2
| later_GoogleCallback g ks entropy env c w1 :
    GenerateRefreshToken entropy ≠ Ok t →
    later t w w1 → later t w (google.GoogleCallback g ks entropy env c w1).2
| later_Refresh h ks entropy c w1 :
    GenerateRefreshToken entropy ≠ Ok t →
    later t w w1 → later t w (Refresh h ks entropy c w1).2
| later_Logout h c w1 : later t w w1 → later t w (Logout h c w1).2
| later_LogoutAll h ks authHeader c w1 :
    later t w w1 → later t w (POST_auth_logout_all h ks authHeader c w1).2
| later_ListSessions h ks authHeader c w1 :
    later t w w1 → later t w (GET_auth_sessions h ks authHeader c w1).2
| later_Set token b expiry w1 :
    token ≠ t →
    later t w w1 → later t w (Set_ (refreshTokenPrefix +:+ token) b expiry w1).2
| later_Get key w1 : later t w w1 → later t w (Get key w1).2
| later_Del key w1 : later t w w1 → later t w (Del key w1).2
| later_SAdd userID member w1 :
    later t w w1 → later t w (SAdd (userTokensPrefix +:+ userID) member w1).2
| later_SRem userID member w1 :
    later t w w1 → later t w (SRem (userTokensPrefix +:+ userID) member w1).2
| later_SMembers key w1 : later t w w1 → later t w (SMembers key w1).2
| later_Expire userID expiry w1 :
    later t w w1 → later t w (Expire (userTokensPrefix +:+ userID) expiry w1).2
| later_logMsg l msg w1 : later t w w1 → later t w (logMsg l msg w1).2.


End steps.

(** A computation that leaves the clock and the client alone. *)
Definition calm {A} (m : M A) : Prop :=
  ∀ w a w', m w = (a, w') → clock w' = clock w ∧ Client w' = Client w.

(** A computation that leaves the clock alone and the entry under [key]
    as it is, or removes it. *)
Definition spares {A} (key : string) (m : M A) : Prop :=
  ∀ w a w', m w = (a, w') →
    clock w' = clock w
    ∧ (store w' !! key = store w !! key ∨ store w' !! key = None).

(** The token does not resolve and will not: its key is not in the store
    or has expired. *)
Definition dead (t : string) (w : world) : Prop :=
  lookup w (refreshTokenPrefix +:+ t) = None.

(** What holds of every world the server goes through. *)
Definition sound (h : Handler) (w : world) : Prop :=
  steady h w ∧ Client w = true.

End lifecycle.

(** ** Further scenarios *)

Module examples.
Import redis auth internalauth models admin.

(** A request that logs "alice" in. *)
Definition alice_login : internalauth.Request :=
  {| internalauth.Cookie_refresh_token := None;
     internalauth.Body_login := Some ("alice", "password123");
     internalauth.Body_refresh_token := None;
     internalauth.Header_X_Refresh_Token := "";
     internalauth.UserAgent := "curl/8.5";
     internalauth.ClientIP := "10.0.0.1";
     internalauth.Ctx := {| middleware.Keys := ∅ |} |}.

(** Tables with the system role "admin" (key 1), the role "auditor"
    (key 2) and the permissions "news:read" and "news:delete" (keys 1
    and 2); "admin" holds both, "auditor" the first, user 7 is an
    auditor. *)
Definition tables : DB :=
  mkDB
    [ Permission.mk 1 "news:read" "" "news" "read" 0;
      Permission.mk 2 "news:delete" "" "news" "delete" 0 ]
    3
    [ Role.mk 1 "admin" "" true 0 0; Role.mk 2 "auditor" "" false 0 0 ]
    3
    [ (1, 1); (1, 2); (2, 1) ]%N
    [ UserRole.mk 7 2 0 ].

Definition state : State := mkState tables [].

(** Requests on the role with key 1 and on the role with key 2. *)
Definition on_admin : admin.Request :=
  {| Param_id := "1"; Body_role := Some ("root", "renamed");
     Body_permission_ids := Some [2; 9]%N |}.

Definition on_auditor : admin.Request :=
  {| Param_id := "2"; Body_role := Some ("auditor", "reads the news");
     Body_permission_ids := Some [2; 9]%N |}.

(** A request that creates the role "editor". *)
Definition new_editor : admin.Request :=
  {| Param_id := ""; Body_role := Some ("editor", "edits the news");
     Body_permission_ids := None |}.

End examples.

(** * Properties *)

(** ** Access control gates *)

Section gates.
Import middleware.

Lemma userPermsOf_acc (perms : list string) (m : gmap string bool) (p : string) :
  map_get (foldl (fun m p => <[p := true]> m) m perms) p = true
  ↔ p ∈ perms ∨ map_get m p = true.
Proof.
  revert m. induction perms as [|q perms IH]; intros m; simpl.
  - rewrite elem_of_nil. tauto.
  - rewrite IH, elem_of_cons. unfold map_get.
    destruct (decide (q = p)) as [->|Hne].
    + rewrite lookup_insert_eq. simpl. tauto.
    + rewrite lookup_insert_ne by done. split; [tauto|].
      intros [[?|?]|?]; [congruence|tauto|tauto].
Qed.

(** The map built from the token's snapshot holds exactly its entries. *)
Lemma userPermsOf_spec (perms : list string) (p : string) :
  map_get (userPermsOf perms) p = true ↔ p ∈ perms.
Proof.
  unfold userPermsOf. rewrite userPermsOf_acc. unfold map_get.
  rewrite lookup_empty. simpl. split; [intros [?|?]; [done|congruence]|tauto].
Qed.

Lemma any_held_spec (m : gmap string bool) (permissions : list string) :
  any_held m permissions = true
  ↔ ∃ p, p ∈ permissions ∧ map_get m p = true.
Proof.
  induction permissions as [|r rest IH]; simpl.
  - split; [done|]. intros (p & Hp & _). by apply elem_of_nil in Hp.
  - destruct (map_get m r) eqn:Hr.
    + split; [|done]. intros _. exists r. split; [left|done].
    + rewrite IH. split.
      * intros (p & Hp & Hm). exists p. split; [by right|done].
      * intros (p & Hp & Hm). apply elem_of_cons in Hp as [->|Hp]; [congruence|].
        by exists p.
Qed.

Lemma missing_of_spec (m : gmap string bool) (permissions : list string) (p : string) :
  p ∈ missing_of m permissions ↔ p ∈ permissions ∧ map_get m p = false.
Proof.
  induction permissions as [|r rest IH]; simpl.
  - rewrite elem_of_nil. tauto.
  - destruct (map_get m r) eqn:Hr.
    + rewrite IH, elem_of_cons. split; [tauto|].
      intros [[->|?] ?]; [congruence|tauto].
    + rewrite !elem_of_cons, IH. split; [|tauto].
      intros [->|[? ?]]; tauto.
Qed.

(** C8.  For a request carrying decoded claims and any required-permission
    list (in particular every non-empty one), [RequirePermission] lets the
    request through exactly when the permission snapshot of the token
    intersects the required list; otherwise it aborts with 403 Forbidden
    and the body lists, under "required", exactly the permissions that
    were required. *)
Theorem RequirePermission_iff_intersects
    (c : Context) (claims : Claims) (permissions : list string) :
  authenticated c claims →
  (RequirePermission permissions c = Next ↔ intersects claims permissions)
  ∧ (¬ intersects claims permissions →
     RequirePermission permissions c =
       AbortWithStatusJSON StatusForbidden
         (<[ "required" := JStrings permissions ]>
            {[ "error" := JString "insufficient permissions" ]})).
Proof.
  unfold authenticated, RequirePermission, intersects. intros ->.
  destruct (any_held _ permissions) eqn:Hany.
  - apply any_held_spec in Hany as (p & Hp & Hm).
    apply userPermsOf_spec in Hm. split; [|intros []; eauto].
    split; [eauto|done].
  - split.
    + split; [done|]. intros (p & Hp & Hm).
      assert (any_held (userPermsOf (Permissions claims)) permissions = true) as E.
      { apply any_held_spec. exists p. by rewrite userPermsOf_spec. }
      congruence.
    + done.
Qed.

Lemma RequirePermission_iff_intersects_witness :
  let claims :=
    {| UserID := "g-1"; Username := "a@x.com"; Role := "user";
       Permissions := ["ping:read"; "news:read"];
       Registered := {| Issuer := "chattycathy"; Subject := "g-1"; Audience := [];
                        ExpiresAt := None; NotBefore := None; IssuedAt := None;
                        ID := "" |} |} in
  let c := {| Keys := {[ ClaimsKey := ClaimsPtr claims ]} |} in
  RequirePermission ["news:delete"] c =
    AbortWithStatusJSON 403
      (<[ "required" := JStrings ["news:delete"] ]>
         {[ "error" := JString "insufficient permissions" ]}).
Proof.
  intros claims c.
  apply (RequirePermission_iff_intersects c claims ["news:delete"]).
  - reflexivity.
  - intros (p & Hp & Hq). apply list_elem_of_singleton in Hp. subst p.
    vm_compute in Hq. repeat (apply elem_of_cons in Hq as [Hq|Hq]; [discriminate Hq|]).
    by apply elem_of_nil in Hq.
Defined.

(** C10.  On the empty list the two gates behave oppositely: for every
    authenticated request [RequirePermission] with no permissions aborts
    with 403 Forbidden, and [RequireAllPermissions] with no permissions
    lets the request through. *)
Theorem empty_list_gates_opposite (c : Context) (claims : Claims) :
  authenticated c claims →
  RequirePermission [] c =
    AbortWithStatusJSON StatusForbidden
      (<[ "required" := JStrings [] ]>
         {[ "error" := JString "insufficient permissions" ]})
  ∧ RequireAllPermissions [] c = Next.
Proof.
  unfold authenticated, RequirePermission, RequireAllPermissions.
  intros ->. simpl. done.
Qed.

Lemma empty_list_gates_opposite_witness :
  let claims :=
    {| UserID := "42"; Username := "admin"; Role := "admin";
       Permissions := ["ping:read"; "news:read"; "news:delete"];
       Registered := {| Issuer := "chattycathy"; Subject := "42"; Audience := [];
                        ExpiresAt := None; NotBefore := None; IssuedAt := None;
                        ID := "" |} |} in
  let c := {| Keys := {[ ClaimsKey := ClaimsPtr claims ]} |} in
  (∃ body, RequirePermission [] c = AbortWithStatusJSON 403 body)
  ∧ RequireAllPermissions [] c = Next.
Proof.
  intros claims c.
  destruct (empty_list_gates_opposite c claims) as [H1 H2]; [reflexivity|].
  split; [eexists; exact H1|exact H2].
Defined.

End gates.

(** ** Permission resolution *)

Section resolver.
Import models.

(** Membership in the result of the join. *)
Lemma GetUserPermissions_elem (db : DB) (userID : uint) (n : string) :
  n ∈ GetUserPermissions db userID
  ↔ ∃ p rp ur,
      p ∈ permissions db ∧ rp ∈ role_permissions db ∧ ur ∈ user_roles db
      ∧ Permission.ID p = rp.2 ∧ rp.1 = UserRole.RoleID ur
      ∧ UserRole.UserID ur = userID ∧ n = Permission.Name p.
Proof.
  unfold GetUserPermissions. rewrite elem_of_remove_dups, list_elem_of_bind.
  split.
  - intros (p & Hn & Hp). apply list_elem_of_bind in Hn as (rp & Hn & Hrp).
    apply list_elem_of_bind in Hn as (ur & Hn & Hur).
    destruct (bool_decide (Permission.ID p = rp.2)) eqn:E1; simpl in Hn;
      [|by apply elem_of_nil in Hn].
    destruct (bool_decide (rp.1 = UserRole.RoleID ur)) eqn:E2; simpl in Hn;
      [|by apply elem_of_nil in Hn].
    destruct (bool_decide (UserRole.UserID ur = userID)) eqn:E3; simpl in Hn;
      [|by apply elem_of_nil in Hn].
    apply bool_decide_eq_true in E1, E2, E3.
    apply list_elem_of_singleton in Hn. exists p, rp, ur. done.
  - intros (p & rp & ur & Hp & Hrp & Hur & E1 & E2 & E3 & ->).
    exists p. split; [|done]. apply list_elem_of_bind. exists rp. split; [|done].
    apply list_elem_of_bind. exists ur. split; [|done].
    rewrite !bool_decide_eq_true_2 by done. simpl. by apply list_elem_of_singleton.
Qed.

Lemma resolve_spec_elem (db : DB) (userID : uint) (n : string) :
  n ∈ resolve_spec db userID
  ↔ ∃ ur p,
      ur ∈ user_roles db ∧ UserRole.UserID ur = userID
      ∧ p ∈ permissions db
      ∧ (UserRole.RoleID ur, Permission.ID p) ∈ role_permissions db
      ∧ n = Permission.Name p.
Proof.
  unfold resolve_spec, roles_of_user, permissions_of_role.
  rewrite elem_of_union_list. split.
  - intros (X & HX & Hn). apply list_elem_of_fmap in HX as (r & -> & Hr).
    apply list_elem_of_fmap in Hr as (ur & -> & Hur).
    apply list_elem_of_filter in Hur as [Hu Hur].
    apply elem_of_list_to_set, list_elem_of_fmap in Hn as (p & -> & Hp).
    apply list_elem_of_filter in Hp as [Hrp Hp]. by exists ur, p.
  - intros (ur & p & Hur & Hu & Hp & Hrp & ->).
    eexists. split.
    + apply list_elem_of_fmap. exists (UserRole.RoleID ur). split; [done|].
      apply list_elem_of_fmap. exists ur. split; [done|].
      by apply list_elem_of_filter.
    + apply elem_of_list_to_set, list_elem_of_fmap. exists p. split; [done|].
      by apply list_elem_of_filter.
Qed.

(** C6.  Permission resolution returns exactly the deduplicated union of
    the permission names of the roles assigned to the user: as a set the
    result of [GetUserPermissions] is the union the specification
    describes, no name is listed twice, and a user with roles A = {p1, p2}
    and B = {p2, p3} resolves to p1, p2, p3 in some order. *)
Theorem GetUserPermissions_is_union :
  (∀ (db : DB) (userID : uint),
      list_to_set (GetUserPermissions db userID) = resolve_spec db userID
      ∧ NoDup (GetUserPermissions db userID))
  ∧ GetUserPermissions example_db 7 ≡ₚ ["p1"; "p2"; "p3"].
Proof.
  split.
  - intros db userID. split; [|apply NoDup_remove_dups].
    apply set_eq. intros n.
    rewrite elem_of_list_to_set, GetUserPermissions_elem, resolve_spec_elem.
    split.
    + intros (p & [r q] & ur & Hp & Hrp & Hur & E1 & E2 & E3 & ->).
      simpl in *. subst. by exists ur, p.
    + intros (ur & p & Hur & Hu & Hp & Hrp & ->).
      exists p, (UserRole.RoleID ur, Permission.ID p), ur. done.
  - by vm_compute.
Qed.

End resolver.

(** ** Seeding of the built-in roles and permissions *)

Section seeding.
Import models.

Lemma permission_named_spec (n : string) (db : DB) :
  permission_named n db = true ↔ n ∈ Permission.Name <$> permissions db.
Proof.
  unfold permission_named. rewrite existsb_exists, list_elem_of_fmap.
  split.
  - intros (p & Hp & E). apply bool_decide_eq_true in E.
    exists p. by rewrite <- list_elem_of_In in Hp.
  - intros (p & -> & Hp). exists p. rewrite <- list_elem_of_In.
    by rewrite bool_decide_eq_true.
Qed.

Lemma role_named_spec (n : string) (db : DB) :
  role_named n db = true ↔ n ∈ Role.Name <$> roles db.
Proof.
  unfold role_named. rewrite existsb_exists, list_elem_of_fmap.
  split.
  - intros (r & Hr & E). apply bool_decide_eq_true in E.
    exists r. by rewrite <- list_elem_of_In in Hr.
  - intros (r & -> & Hr). exists r. rewrite <- list_elem_of_In.
    by rewrite bool_decide_eq_true.
Qed.

Lemma extends_refl (db : DB) : extends db db.
Proof. by split. Qed.

Lemma extends_trans (a b c : DB) : extends a b → extends b c → extends a c.
Proof.
  intros [] []. split; [by etrans|by etrans|congruence|auto|auto].
Qed.

Lemma Create_permission_extends now p db db' :
  permission_named (Permission.Name p) db = false →
  Create_permission now p db = Ok db' →
  extends db db' ∧ roles db' = roles db
  ∧ permission_named (Permission.Name p) db' = true.
Proof.
  unfold Create_permission. intros Hfresh.
  destruct (existsb _ _); [done|]. intros [= <-]. simpl.
  split; [split; simpl|split; [done|]].
  - by apply prefix_app_r.
  - done.
  - done.
  - intros Hnd. rewrite fmap_app. apply NoDup_app. split; [done|].
    split; [|apply NoDup_singleton].
    intros n Hn Hn'. simpl in Hn'. apply list_elem_of_singleton in Hn'. subst n.
    apply permission_named_spec in Hn. congruence.
  - done.
  - apply permission_named_spec. simpl. rewrite fmap_app, elem_of_app.
    right. simpl. by apply list_elem_of_singleton.
Qed.

Lemma FirstOrCreate_permission_extends now p db db' :
  FirstOrCreate_permission now p db = Ok db' →
  extends db db' ∧ roles db' = roles db
  ∧ permission_named (Permission.Name p) db' = true.
Proof.
  unfold FirstOrCreate_permission.
  destruct (permission_named _ db) eqn:Hn.
  - intros [= <-]. split; [apply extends_refl|done].
  - by apply Create_permission_extends.
Qed.

Lemma permission_named_mono n db db' :
  extends db db' → permission_named n db = true → permission_named n db' = true.
Proof.
  intros [[k Hk] _ _ _ _]. rewrite !permission_named_spec, Hk, fmap_app, elem_of_app.
  tauto.
Qed.

Lemma role_named_mono n db db' :
  extends db db' → role_named n db = true → role_named n db' = true.
Proof.
  intros [_ [k Hk] _ _ _]. rewrite !role_named_spec, Hk, fmap_app, elem_of_app.
  tauto.
Qed.

Lemma seed_permissions_extends now perms db db' :
  seed_permissions now perms db = Ok db' →
  extends db db' ∧ roles db' = roles db
  ∧ ∀ p, p ∈ perms → permission_named (Permission.Name p) db' = true.
Proof.
  revert db. induction perms as [|p perms IH]; intros db; simpl.
  - intros [= <-]. split; [apply extends_refl|split; [done|]].
    intros p Hp. by apply elem_of_nil in Hp.
  - destruct (FirstOrCreate_permission now p db) as [db1|e] eqn:E1; [|done].
    simpl. intros E2. apply FirstOrCreate_permission_extends in E1 as (X1 & R1 & N1).
    apply IH in E2 as (X2 & R2 & N2).
    split; [by eapply extends_trans|split; [congruence|]].
    intros q Hq. apply elem_of_cons in Hq as [->|Hq]; [|by apply N2].
    by eapply permission_named_mono.
Qed.

(** Once every listed permission exists the first loop creates nothing. *)
Lemma seed_permissions_fixed now perms db :
  (∀ p, p ∈ perms → permission_named (Permission.Name p) db = true) →
  seed_permissions now perms db = Ok db.
Proof.
  induction perms as [|p perms IH]; intros Hall; simpl; [done|].
  unfold FirstOrCreate_permission. rewrite Hall by left. simpl.
  apply IH. intros q Hq. apply Hall. by right.
Qed.

Lemma Create_role_extends now r perms db db' :
  role_named (Role.Name r) db = false →
  Create_role now r perms db = Ok db' →
  extends db db' ∧ permissions db' = permissions db
  ∧ role_named (Role.Name r) db' = true.
Proof.
  unfold Create_role. intros Hfresh.
  destruct (existsb _ _); [done|]. intros [= <-]. simpl.
  split; [split; simpl|split; [done|]].
  - done.
  - by apply prefix_app_r.
  - done.
  - done.
  - intros Hnd. rewrite fmap_app. apply NoDup_app. split; [done|].
    split; [|apply NoDup_singleton].
    intros n Hn Hn'. simpl in Hn'. apply list_elem_of_singleton in Hn'. subst n.
    apply role_named_spec in Hn. congruence.
  - apply role_named_spec. simpl. rewrite fmap_app, elem_of_app.
    right. simpl. by apply list_elem_of_singleton.
Qed.

Lemma seed_roles_extends now rs db db' :
  seed_roles now rs db = Ok db' →
  extends db db' ∧ permissions db' = permissions db
  ∧ ∀ rp, rp ∈ rs → role_named (Role.Name rp.1) db' = true.
Proof.
  revert db. induction rs as [|[r perms] rs IH]; intros db; simpl.
  - intros [= <-]. split; [apply extends_refl|split; [done|]].
    intros p Hp. by apply elem_of_nil in Hp.
  - destruct (role_named (Role.Name r) db) eqn:Hn.
    + intros E2. apply IH in E2 as (X2 & P2 & N2).
      split; [done|split; [done|]].
      intros q Hq. apply elem_of_cons in Hq as [->|Hq]; [|by apply N2].
      by eapply role_named_mono.
    + destruct (Create_role now r perms db) as [db1|e] eqn:E1; [|done].
      simpl. intros E2. apply Create_role_extends in E1 as (X1 & P1 & N1); [|done].
      apply IH in E2 as (X2 & P2 & N2).
      split; [by eapply extends_trans|split; [congruence|]].
      intros q Hq. apply elem_of_cons in Hq as [->|Hq]; [|by apply N2].
      by eapply role_named_mono.
Qed.

(** Once every listed role exists the second loop creates nothing. *)
Lemma seed_roles_fixed now rs db :
  (∀ rp, rp ∈ rs → role_named (Role.Name rp.1) db = true) →
  seed_roles now rs db = Ok db.
Proof.
  induction rs as [|[r perms] rs IH]; intros Hall; simpl; [done|].
  assert (role_named (Role.Name r) db = true) as -> by (apply (Hall (r, perms)); left).
  apply IH. intros q Hq. apply Hall. by right.
Qed.

(** The names of the built-in roles do not depend on the tables. *)
Lemma default_roles_names (db db' : DB) :
  (Role.Name ∘ fst) <$> default_roles db = (Role.Name ∘ fst) <$> default_roles db'.
Proof. reflexivity. Qed.

(** C7.  Seeding is idempotent.  From any state [db1] a first run of the
    seed routine produced, a second run (at any later time) succeeds and
    leaves every table as it was, so role and permission rows are the same
    and their number does not grow; a run adds no duplicate permission or
    role name; and the rows that existed before a run, with their
    descriptions, are still there unchanged after it. *)
Theorem seed_twice_same_rows (now now' : Time) (db db1 : DB) :
  SeedDefaultRolesAndPermissions now db = Ok db1 →
  SeedDefaultRolesAndPermissions now' db1 = Ok db1
  ∧ (NoDup (Permission.Name <$> permissions db) →
     NoDup (Permission.Name <$> permissions db1))
  ∧ (NoDup (Role.Name <$> roles db) → NoDup (Role.Name <$> roles db1))
  ∧ roles db `prefix_of` roles db1
  ∧ permissions db `prefix_of` permissions db1.
Proof.
  unfold SeedDefaultRolesAndPermissions.
  destruct (seed_permissions now default_permissions db) as [db0|e] eqn:E1; [|done].
  intros E2. change (seed_roles now (default_roles db0) db0 = Ok db1) in E2.
  apply seed_permissions_extends in E1 as (X1 & R1 & N1).
  apply seed_roles_extends in E2 as (X2 & P2 & N2).
  pose proof (extends_trans _ _ _ X1 X2) as [Xp Xr _ Xpn Xrn].
  split; [|done].
  rewrite seed_permissions_fixed.
  - change (seed_roles now' (default_roles db1) db1 = Ok db1).
    apply seed_roles_fixed. intros rp Hrp.
    assert (Role.Name rp.1 ∈ (Role.Name ∘ fst) <$> default_roles db0) as Hin.
    { rewrite (default_roles_names db0 db1). apply list_elem_of_fmap. by exists rp. }
    apply list_elem_of_fmap in Hin as (rp0 & E & Hrp0). simpl in E. rewrite E.
    by apply N2.
  - intros p Hp. eapply permission_named_mono; [exact X2|]. by apply N1.
Qed.

Lemma seed_twice_same_rows_witness :
  ∃ db1,
    SeedDefaultRolesAndPermissions 1000 empty_db = Ok db1
    ∧ SeedDefaultRolesAndPermissions 2000 db1 = Ok db1
    ∧ length (permissions db1) = 13%nat ∧ length (roles db1) = 3%nat.
Proof.
  destruct (SeedDefaultRolesAndPermissions 1000 empty_db) as [db1|e] eqn:E;
    [|by vm_compute in E].
  exists db1. split; [done|].
  split; [exact (proj1 (seed_twice_same_rows 1000 2000 empty_db db1 E))|].
  vm_compute in E. injection E as <-. done.
Defined.

End seeding.

(** ** Access tokens *)

Section access_tokens.
Import jwt auth.
Context `{Signer}.

Lemma wrap64_small (x : Z) : min_int64 ≤ x ≤ max_int64 → wrap64 x = x.
Proof.
  unfold wrap64, min_int64, max_int64. intros Hx.
  rewrite Z.mod_small by lia. lia.
Qed.

Lemma Truncate_Second_le (t : Time) : Truncate_Second t ≤ t.
Proof.
  unfold Truncate_Second, Second.
  pose proof (Z.div_mod t 1000000000 ltac:(lia)).
  pose proof (Z.mod_pos_bound t 1000000000 ltac:(lia)). lia.
Qed.

Lemma Truncate_Second_gt (t : Time) : t - Second < Truncate_Second t.
Proof.
  unfold Truncate_Second, Second.
  pose proof (Z.div_mod t 1000000000 ltac:(lia)).
  pose proof (Z.mod_pos_bound t 1000000000 ltac:(lia)). lia.
Qed.

Lemma Truncate_Second_idem (t : Time) :
  Truncate_Second (Truncate_Second t) = Truncate_Second t.
Proof.
  unfold Truncate_Second, Second. by rewrite Z.div_mul by lia.
Qed.

(** The largest number of minutes whose nanoseconds fit 64 bits. *)
Lemma minutes_fit (expiryMins : Z) :
  0 < expiryMins ≤ 153722867 → mul64 expiryMins Minute = expiryMins * Minute.
Proof.
  intros Hm. unfold mul64. apply wrap64_small.
  unfold Minute, Second, min_int64, max_int64. lia.
Qed.

(** What [ValidateToken] accepts: only a well-formed token whose header
    names an RSA PKCS#1 v1.5 method, whose signature verifies under the
    public key, that has not reached its expiry instant and is past its
    not-before instant. *)
Lemma ValidateToken_Ok_inv (ks : keys) (now : Time) (ts : tokenString) (c : Claims) :
  ValidateToken ks now ts = Ok c →
  ∃ alg sig h pk,
    ts = Compact (Some alg) c sig
    ∧ publicKey ks = Some pk
    ∧ GetSigningMethod alg = Some (SigningMethodRSA h)
    ∧ Verify (SigningMethodRSA h) (alg, c) sig pk = true
    ∧ (∀ exp, ExpiresAt (Registered c) = Some exp → now < exp)
    ∧ (∀ nbf, NotBefore (Registered c) = Some nbf → nbf ≤ now).
Proof.
  unfold ValidateToken. destruct (publicKey ks) as [pk|]; [|done].
  destruct ts as [raw|[alg|] claims sig]; simpl; [done| |done].
  destruct (GetSigningMethod alg) as [m|] eqn:Hm; [|done].
  unfold keyFunc at 1. simpl.
  destruct m as [h| | | | |]; try done.
  destruct (Verify _ _ _ _) eqn:Hv; [|done].
  destruct (Validate now claims) as [|e errs] eqn:Hval; [|done].
  simpl. intros [= <-]. exists alg, sig, h, pk.
  apply app_eq_nil in Hval as [Hexp Hnbf].
  unfold verifyExpiresAt in Hexp. unfold verifyNotBefore in Hnbf.
  repeat split; try done.
  - intros exp E. rewrite E in Hexp. unfold Before in Hexp.
    case_bool_decide; [done|discriminate].
  - intros nbf E. rewrite E in Hnbf. unfold Before in Hnbf.
    case_bool_decide; [discriminate|lia].
Qed.

(** A token issued at [now] validates at every instant from [now] up to,
    and excluding, its expiry instant. *)
Lemma issue_then_validate_until (ks : keys) (now t : Time)
    (userID username role : string) (permissions : list string)
    (issuer : string) (expiryMins : Z) :
  key_pair ks →
  now ≤ t < Truncate_Second (Time_Add now (mul64 expiryMins Minute)) →
  ∃ ts claims,
    GenerateAccessToken ks now userID username role permissions issuer expiryMins
      = Ok ts
    ∧ ValidateToken ks t ts = Ok claims
    ∧ same_identity claims (json.text userID) (json.text username) (json.text role)
        (json.text <$> permissions) (json.text issuer).
Proof.
  intros (sk & Hsk & Hpk) Ht.
  unfold GenerateAccessToken, ValidateToken. rewrite Hsk, Hpk.
  eexists. eexists. split; [reflexivity|].
  unfold SignedString, SigningMethodRS256. simpl.
  rewrite Verify_Sign.
  unfold Validate, verifyExpiresAt, verifyNotBefore, Before. simpl.
  rewrite !Truncate_Second_idem.
  rewrite bool_decide_eq_true_2 by lia.
  rewrite bool_decide_eq_false_2 by (pose proof (Truncate_Second_le now); lia).
  simpl. split; [reflexivity|]. by repeat split.
Qed.

(** Strings that are valid UTF-8 come back from JSON as they were. *)
Lemma texts_valid (l : list string) : Forall json.valid l → json.text <$> l = l.
Proof.
  induction 1 as [|s l Hs _ IH]; [done|]. rewrite fmap_cons, IH. by rewrite Hs.
Qed.

(** C2, as amended.  With an initialised key pair and every TTL of at
    least one minute whose nanoseconds fit a 64-bit duration (at most
    153722867 minutes), validating an access token at the instant it was
    issued succeeds, and the claims it returns are the input as it comes
    back from JSON: every string with each byte that begins no UTF-8
    character replaced by U+FFFD.  So for all claims whose strings (user
    id, username, role, permissions, issuer) are valid UTF-8 the claims
    returned equal the input, apart from the issued-at, not-before and
    expires-at timestamps. *)
Theorem issue_then_validate (ks : keys) (now : Time)
    (userID username role : string) (permissions : list string)
    (issuer : string) (expiryMins : Z) :
  key_pair ks →
  0 < expiryMins ≤ 153722867 →
  ∃ ts claims,
    GenerateAccessToken ks now userID username role permissions issuer expiryMins
      = Ok ts
    ∧ ValidateToken ks now ts = Ok claims
    ∧ same_identity claims (json.text userID) (json.text username) (json.text role)
        (json.text <$> permissions) (json.text issuer)
    ∧ (json.valid userID → json.valid username → json.valid role →
       Forall json.valid permissions → json.valid issuer →
       same_identity claims userID username role permissions issuer).
Proof.
  intros Hks Hm.
  destruct (issue_then_validate_until ks now now userID username role permissions
              issuer expiryMins Hks) as (ts & claims & E1 & E2 & I).
  { rewrite minutes_fit by done. unfold Time_Add.
    pose proof (Truncate_Second_gt (now + expiryMins * Minute)).
    unfold Minute, Second in *. lia. }
  exists ts, claims. split; [done|]. split; [done|]. split; [done|].
  intros Hu Hn Hr Hp Hi. rewrite <- Hu, <- Hn, <- Hr, <- Hi.
  by rewrite <- (texts_valid permissions Hp).
Qed.

(** C5.  For every token string and every instant, [ValidateToken]
    rejects the token when its header does not name an RSA PKCS#1 v1.5
    method (the check of the key function, which also covers "none", the
    HMAC methods and unknown names), and rejects it when the current time
    has reached its expiry instant, the instant itself included: there is
    no grace period. *)
Theorem ValidateToken_rejects (ks : keys) (now : Time) (ts : tokenString) :
  ((∀ h, method_of ts ≠ Some (SigningMethodRSA h)) →
     ∃ e, ValidateToken ks now ts = Err e)
  ∧ (∀ exp, expiry_of ts = Some exp → exp ≤ now →
     ∃ e, ValidateToken ks now ts = Err e).
Proof.
  split.
  - intros Hm. destruct (ValidateToken ks now ts) as [c|e] eqn:E; [|by eexists].
    apply ValidateToken_Ok_inv in E as (alg & sig & h & pk & -> & _ & Hg & _).
    simpl in Hm. by destruct (Hm h).
  - intros exp Hexp Hle.
    destruct (ValidateToken ks now ts) as [c|e] eqn:E; [|by eexists].
    apply ValidateToken_Ok_inv in E as (alg & sig & h & pk & -> & _ & _ & _ & Hlt & _).
    simpl in Hexp. apply Hlt in Hexp. lia.
Qed.

End access_tokens.

Section access_tokens_runs.
Import jwt auth symbolic scenario.

Lemma issue_then_validate_witness :
  ∃ ts claims,
    GenerateAccessToken ks1 1700000000123456789 "g-1" "a@x.com" "user"
      ["ping:read"; "news:read"] "chattycathy" 15 = Ok ts
    ∧ ValidateToken ks1 1700000000123456789 ts = Ok claims
    ∧ Permissions claims = ["ping:read"; "news:read"].
Proof.
  destruct (issue_then_validate ks1 1700000000123456789 "g-1" "a@x.com" "user"
              ["ping:read"; "news:read"] "chattycathy" 15)
    as (ts & claims & E1 & E2 & _ & I).
  - exists 1. done.
  - lia.
  - exists ts, claims. split; [done|split; [done|]].
    apply I; try reflexivity. repeat constructor.
Defined.

(** C2 as stated fails for a TTL whose nanoseconds overflow 64 bits: with
    153722868 minutes the duration wraps around to a negative one, the
    token is issued already expired, and validating it at the instant of
    issue is refused.  It also fails when the public key is not the private
    key's: the token is issued and its signature does not verify.  And it
    fails for a username that is not valid UTF-8: for the bytes 61 FF 62
    the claims returned carry 61 EF BF BD 62. *)
Lemma issue_then_validate_overflow :
  (∃ ts,
     GenerateAccessToken ks1 1700000000123456789 "g-1" "a@x.com" "user"
       ["ping:read"; "news:read"] "chattycathy" 153722868 = Ok ts
     ∧ ValidateToken ks1 1700000000123456789 ts
       = Err (ErrJWT (ErrTokenInvalidClaims [ErrTokenExpired])))
  ∧ (∃ ts,
       GenerateAccessToken mismatched 1700000000123456789 "g-1" "a@x.com" "user"
         ["ping:read"; "news:read"] "chattycathy" 15 = Ok ts
       ∧ ValidateToken mismatched 1700000000123456789 ts
         = Err (ErrJWT ErrTokenSignatureInvalid))
  ∧ (∃ ts claims,
       GenerateAccessToken ks1 1700000000123456789 "g-1" not_utf8 "user"
         ["ping:read"; "news:read"] "chattycathy" 15 = Ok ts
       ∧ ValidateToken ks1 1700000000123456789 ts = Ok claims
       ∧ Username claims = replaced
       ∧ Username claims ≠ not_utf8).
Proof.
  split; [|split]; [eexists; split; [reflexivity|]; by vm_compute..|].
  eexists. eexists. split; [reflexivity|]. split; [by vm_compute|].
  split; [by vm_compute|]. by vm_compute.
Qed.

(** The key function accepts the whole RSA PKCS#1 v1.5 family: a token
    signed with RS384 under the server's key validates as well. *)
Lemma ValidateToken_accepts_RS384 (c : Claims) (now : Time) :
  Validate now (json_claims c) = [] →
  ValidateToken ks1 now (SignedString (SigningMethodRSA SHA384) c 1)
  = Ok (json_claims c).
Proof.
  intros Hv. unfold ValidateToken, SignedString. simpl.
  change (GetSigningMethod "RS384") with (Some (SigningMethodRSA SHA384)). simpl.
  unfold verify, sign. rewrite bool_decide_eq_true_2 by done. by rewrite Hv.
Qed.

Lemma ValidateToken_rejects_witness :
  let c := {| UserID := "g-1"; Username := "a@x.com"; Role := "admin";
              Permissions := ["news:delete"];
              Registered := {| Issuer := "chattycathy"; Subject := "g-1";
                               Audience := []; ExpiresAt := Some 2000000000;
                               NotBefore := None; IssuedAt := None; ID := "" |} |} in
  (∃ e, ValidateToken ks1 1000000000
          (Compact (Some "HS256") c (sign (SigningMethodHMAC SHA256) ("HS256", c) 1))
        = Err e)
  ∧ (∃ e, ValidateToken ks1 2000000000
            (SignedString (H:=signer) SigningMethodRS256 c 1) = Err e).
Proof.
  intros c. split.
  - apply (ValidateToken_rejects ks1 1000000000). intros h. by vm_compute.
  - apply (proj2 (ValidateToken_rejects ks1 2000000000
                    (SignedString (H:=signer) SigningMethodRS256 c 1)) 2000000000).
    + reflexivity.
    + lia.
Defined.

End access_tokens_runs.

(** ** The Redis commands *)

Section commands.
Import redis.

Lemma quiet_refl (w : world) : quiet w w.
Proof. done. Qed.

Lemma quiet_trans (a b c : world) : quiet a b → quiet b c → quiet a c.
Proof. intros (? & ? & ?) (? & ? & ?). repeat split; congruence. Qed.

(** A command either fails on the connection and changes nothing but the
    plan, or runs on the server. *)
Lemma command_cases {A} (exec : world → result redisError A * gmap string entry)
    (w : world) (r : result redisError A) (w' : world) :
  command exec w = (r, w') →
  quiet w w' ∧ plan w' = (next_outcome (plan w)).2
  ∧ (((next_outcome (plan w)).1 = true ∧ r = Err ConnError ∧ store w' = store w)
     ∨ ((next_outcome (plan w)).1 = false
        ∧ exec (with_plan w (next_outcome (plan w)).2) = (r, store w'))).
Proof.
  unfold command. destruct (next_outcome (plan w)) as [[] fp]; simpl.
  - intros [= <- <-]. simpl. split; [done|]. split; [done|]. by left.
  - destruct (exec (with_plan w fp)) as [r0 st] eqn:E. intros [= <- <-]. simpl.
    split; [done|]. split; [done|]. by right.
Qed.

Lemma lookup_with_plan (w : world) (fp : faults) (key : string) :
  lookup (with_plan w fp) key = lookup w key.
Proof. reflexivity. Qed.

Lemma next_outcome_healthy : next_outcome healthy = (false, healthy).
Proof. reflexivity. Qed.

(** On a healthy connection a command runs on the server and the
    connection stays healthy. *)
Lemma command_healthy {A} (exec : world → result redisError A * gmap string entry)
    (w : world) (r : result redisError A) (w' : world) :
  plan w = healthy →
  command exec w = (r, w') →
  quiet w w' ∧ plan w' = healthy ∧ exec (with_plan w healthy) = (r, store w').
Proof.
  intros Hp E. apply command_cases in E as (Q & P & C).
  rewrite Hp, next_outcome_healthy in P, C. simpl in P, C.
  destruct C as [(? & _)|(_ & E)]; [done|]. done.
Qed.

Lemma next_outcome_down (fp : faults) :
  down fp → (next_outcome fp).1 = true ∧ down (next_outcome fp).2.
Proof.
  intros [Ht Hu]. unfold next_outcome. destruct (upcoming fp) as [|b rest] eqn:E.
  - simpl. split; [done|]. split; [done|]. by rewrite E.
  - apply Forall_cons in Hu as [-> Hu]. simpl. by repeat split.
Qed.

Lemma command_down {A} (exec : world → result redisError A * gmap string entry)
    (w : world) :
  down (plan w) →
  ∃ w', command exec w = (Err ConnError, w') ∧ quiet w w' ∧ down (plan w')
        ∧ store w' = store w.
Proof.
  intros Hd. destruct (command exec w) as [r w'] eqn:E. exists w'.
  apply command_cases in E as (Q & P & C).
  apply next_outcome_down in Hd as [Hf Hd].
  destruct C as [(_ & -> & S)|(Hf' & _)]; [|congruence].
  rewrite P. done.
Qed.

(** The live entry under a key after the store changed. *)
Lemma lookup_insert_same (w : world) (st : gmap string entry) (key : string) (e : entry) :
  lookup (with_store w (<[key := e]> st)) key = if alive w e then Some e else None.
Proof. unfold lookup. simpl. by rewrite lookup_insert_eq. Qed.

Lemma formatSec_pos (d : Duration) : 0 < d → 1 ≤ formatSec d.
Proof.
  intros Hd. unfold formatSec. rewrite bool_decide_eq_true_2 by done. simpl.
  case_bool_decide; [lia|].
  apply Z.quot_le_lower_bound; unfold Second in *; lia.
Qed.

(** Keys of the two families never coincide, and each family is
    injective in the token or the user. *)
Lemma session_key_not_index_key (token userID : string) :
  auth.refreshTokenPrefix +:+ token ≠ auth.userTokensPrefix +:+ userID.
Proof. unfold auth.refreshTokenPrefix, auth.userTokensPrefix. intros E. discriminate E. Qed.

Lemma session_key_inj (t t' : string) :
  auth.refreshTokenPrefix +:+ t = auth.refreshTokenPrefix +:+ t' → t = t'.
Proof. unfold auth.refreshTokenPrefix. intros E. by simplify_eq. Qed.

Lemma index_key_inj (u u' : string) :
  auth.userTokensPrefix +:+ u = auth.userTokensPrefix +:+ u' → u = u'.
Proof. unfold auth.userTokensPrefix. intros E. by simplify_eq. Qed.

(** A command touches no key but its own. *)
Ltac other_keys E :=
  let Q := fresh "Q" in let S := fresh "S" in
  apply command_cases in E as (Q & _ & [(_ & _ & S)|(_ & E)]);
  [ split; [exact Q|]; intros; by rewrite S
  | split; [exact Q|]; intros; simpl in E; rewrite ?lookup_with_plan in E;
    repeat (match type of E with
            | context [match ?x with _ => _ end] => destruct x
            end);
    injection E as _ <-;
    rewrite ?lookup_insert_ne, ?lookup_delete_ne by done; done ].

Lemma Set_other key b d w r w' :
  Set_ key b d w = (r, w') →
  quiet w w' ∧ ∀ k, k ≠ key → store w' !! k = store w !! k.
Proof. intros E. unfold Set_ in E. other_keys E. Qed.

Lemma Get_other key w r w' :
  Get key w = (r, w') → quiet w w' ∧ ∀ k, k ≠ key → store w' !! k = store w !! k.
Proof. intros E. unfold Get in E. other_keys E. Qed.

Lemma Del_other key w r w' :
  Del key w = (r, w') → quiet w w' ∧ ∀ k, k ≠ key → store w' !! k = store w !! k.
Proof. intros E. unfold Del in E. other_keys E. Qed.

Lemma SAdd_other key m w r w' :
  SAdd key m w = (r, w') → quiet w w' ∧ ∀ k, k ≠ key → store w' !! k = store w !! k.
Proof. intros E. unfold SAdd in E. other_keys E. Qed.

Lemma SRem_other key m w r w' :
  SRem key m w = (r, w') → quiet w w' ∧ ∀ k, k ≠ key → store w' !! k = store w !! k.
Proof. intros E. unfold SRem in E. other_keys E. Qed.

Lemma SMembers_other key w r w' :
  SMembers key w = (r, w') → quiet w w' ∧ ∀ k, k ≠ key → store w' !! k = store w !! k.
Proof. intros E. unfold SMembers in E. other_keys E. Qed.

Lemma Expire_other key d w r w' :
  Expire key d w = (r, w') → quiet w w' ∧ ∀ k, k ≠ key → store w' !! k = store w !! k.
Proof. intros E. unfold Expire in E. other_keys E. Qed.

(** Reads leave the store as it is. *)
Lemma Get_store key w r w' : Get key w = (r, w') → store w' = store w.
Proof.
  intros E. apply command_cases in E as (_ & _ & [(_ & _ & S)|(_ & E)]); [done|].
  simpl in E. repeat case_match; by simplify_eq.
Qed.

Lemma SMembers_store key w r w' : SMembers key w = (r, w') → store w' = store w.
Proof.
  intros E. apply command_cases in E as (_ & _ & [(_ & _ & S)|(_ & E)]); [done|].
  simpl in E. repeat case_match; by simplify_eq.
Qed.

(** A GET that succeeds read the live string under the key. *)
Lemma Get_Ok key w b w' :
  Get key w = (Ok b, w') → ∃ dl, lookup w key = Some (mkEntry (VString b) dl).
Proof.
  intros E. apply command_cases in E as (_ & _ & [(_ & ? & _)|(_ & E)]); [done|].
  simpl in E. rewrite lookup_with_plan in E.
  destruct (lookup w key) as [[[b'|s] dl]|]; simplify_eq. by exists dl.
Qed.

(** After a DEL that succeeded the key is gone. *)
Lemma Del_Ok key w n w' : Del key w = (Ok n, w') → store w' !! key = None.
Proof.
  intros E. apply command_cases in E as (_ & _ & [(_ & ? & _)|(_ & E)]); [done|].
  simpl in E. rewrite lookup_with_plan in E.
  destruct (lookup w key); injection E as _ <-; apply lookup_delete_eq.
Qed.

(** The members SMEMBERS returns are those of the live set. *)
Lemma SMembers_Ok key w tokens w' :
  SMembers key w = (Ok tokens, w') →
  ∀ t, t ∈ tokens ↔
       ∃ s dl, lookup w key = Some (mkEntry (VSet s) dl) ∧ t ∈ s.
Proof.
  intros E. apply command_cases in E as (_ & _ & [(_ & ? & _)|(_ & E)]); [done|].
  simpl in E. rewrite lookup_with_plan in E.
  destruct (lookup w key) as [[[b'|s] dl]|]; simplify_eq; intros t.
  - rewrite elem_of_elements. split; [by exists s, dl|]. by intros (? & ? & [= <- <-] & ?).
  - rewrite elem_of_nil. split; [done|]. by intros (? & ? & ? & ?).
Qed.

(** After an SADD that succeeded the key holds a live set with the
    member in it. *)
Lemma SAdd_Ok key m w n w' :
  SAdd key m w = (Ok n, w') →
  ∃ s dl, lookup w' key = Some (mkEntry (VSet s) dl) ∧ m ∈ s.
Proof.
  intros E. apply command_cases in E as ((Hc & _) & _ & [(_ & ? & _)|(_ & E)]); [done|].
  simpl in E. rewrite lookup_with_plan in E.
  assert (∀ e, alive w' e = alive w e) as Ha.
  { intros e. unfold alive, now_ms. by rewrite Hc. }
  destruct (lookup w key) as [[[b|s] dl]|] eqn:Hl.
  - done.
  - injection E as _ E. exists ({[m]} ∪ s), dl.
    unfold lookup in *. rewrite <- E, lookup_insert_eq, Ha.
    destruct (store w !! key) as [e|]; [|done].
    destruct (alive w e) eqn:Hal; [|done]. injection Hl as ->.
    unfold alive in *. simpl in *. rewrite Hal. split; [done|set_solver].
  - injection E as _ E. exists {[m]}, None.
    unfold lookup. rewrite <- E, lookup_insert_eq. simpl. split; [done|set_solver].
Qed.

(** EXPIRE with a positive timeout keeps a live key live, with its value;
    so does an EXPIRE that fails. *)
Lemma Expire_positive key d w r w' e :
  0 < d →
  Expire key d w = (r, w') →
  lookup w key = Some e →
  ∃ dl, lookup w' key = Some (mkEntry (val e) dl).
Proof.
  intros Hd E Hl. apply command_cases in E as ((Hc & _) & _ & [(_ & _ & S)|(_ & E)]).
  - exists (deadline e). unfold lookup, alive, now_ms in *. rewrite S, Hc.
    destruct (store w !! key) as [e0|]; [|done].
    destruct e as [v dl]. simpl. by case_match; simplify_eq.
  - simpl in E. rewrite lookup_with_plan, Hl in E.
    pose proof (formatSec_pos d Hd).
    rewrite bool_decide_eq_false_2 in E by lia. injection E as _ E.
    eexists. unfold lookup. rewrite <- E, lookup_insert_eq. unfold alive, now_ms. simpl.
    rewrite Hc. rewrite bool_decide_eq_true_2; [done|].
    unfold now_ms. simpl. lia.
Qed.

End commands.

(** ** The refresh session store *)

Section session_store.
Import redis auth.

Ltac unfold_store :=
  unfold StoreRefreshToken, GetRefreshTokenData, RevokeRefreshToken,
    RevokeAllUserTokens, ListUserTokens, Client_is_nil, bind, ret.

(** [GetRefreshTokenData] is a read, and what it returns is the session
    the token resolves to. *)
Lemma GetRefreshTokenData_effect token w r w' :
  GetRefreshTokenData token w = (r, w') →
  quiet w w' ∧ store w' = store w
  ∧ ∀ data, r = Ok data → session_of w token = Some data.
Proof.
  unfold_store. destruct (Client w); simpl;
    [|intros [= <- <-]; by repeat split].
  destruct (Get _ w) as [rg wg] eqn:Eg.
  pose proof (Get_other _ _ _ _ Eg) as [Q _].
  pose proof (Get_store _ _ _ _ Eg) as S.
  destruct rg as [b|e].
  - apply Get_Ok in Eg as [dl Hl].
    destruct (json_Unmarshal b) as [data|] eqn:Hu; intros [= <- <-];
      (split; [done|split; [done|]]); [|done].
    intros d [= <-]. unfold session_of. by rewrite Hl.
  - intros [= <- <-]. split; [done|split; done].
Qed.

(** A token without a live session record does not resolve, whatever the
    state of the connection. *)
Lemma GetRefreshTokenData_unknown token w :
  session_of w token = None →
  ∃ e w', GetRefreshTokenData token w = (Err e, w').
Proof.
  intros Hs. destruct (GetRefreshTokenData token w) as [[data|e] w'] eqn:E;
    [|by eauto].
  apply GetRefreshTokenData_effect in E as (_ & _ & Hd).
  specialize (Hd data eq_refl). congruence.
Qed.

(** [StoreRefreshToken] writes the session key of the token and the index
    key of the user, and nothing else. *)
Lemma StoreRefreshToken_effect token data expiry w r w' :
  StoreRefreshToken token data expiry w = (r, w') →
  quiet w w'
  ∧ ∀ k, k ≠ refreshTokenPrefix +:+ token →
         k ≠ userTokensPrefix +:+ RefreshTokenData.UserID data →
         store w' !! k = store w !! k.
Proof.
  unfold_store. destruct (Client w); simpl; [|intros [= <- <-]; by split].
  destruct (json_Marshal data) as [jsonData|]; [|intros [= <- <-]; by split].
  destruct (Set_ _ _ _ w) as [[[]|e1] w1] eqn:E1;
    apply Set_other in E1 as [Q1 O1]; [|intros [= <- <-]; split; [done|auto]].
  destruct (SAdd _ _ w1) as [[n|e2] w2] eqn:E2;
    apply SAdd_other in E2 as [Q2 O2];
    [|intros [= <- <-]; split; [by eapply quiet_trans|];
      intros k ? ?; by rewrite O2, O1].
  destruct (Expire _ _ w2) as [r3 w3] eqn:E3. apply Expire_other in E3 as [Q3 O3].
  intros [= <- <-]. split; [eapply quiet_trans; [|done]; by eapply quiet_trans|].
  intros k ? ?. by rewrite O3, O2, O1.
Qed.

(** The live entry under a key is the same in two worlds that agree on the
    key and on the clock. *)
Lemma lookup_preserved (w w' : world) (key : string) :
  quiet w w' → store w' !! key = store w !! key → lookup w' key = lookup w key.
Proof.
  intros (Hc & _ & _) Hs. unfold lookup, alive, now_ms. by rewrite Hs, Hc.
Qed.

(** After a SET with a positive expiration the key holds the value, live. *)
Lemma Set_positive key b d w w' :
  0 < d → Set_ key b d w = (Ok tt, w') →
  ∃ dl, lookup w' key = Some (mkEntry (VString b) dl).
Proof.
  intros Hd E. unfold Set_ in E.
  apply command_cases in E as ((Hc & _) & _ & [(_ & ? & _)|(_ & E)]); [done|].
  simpl in E. rewrite bool_decide_eq_true_2 in E by done. injection E as E.
  eexists. unfold lookup. rewrite <- E, lookup_insert_eq.
  unfold alive, now_ms. simpl. rewrite Hc. rewrite bool_decide_eq_true_2; [done|].
  assert (0 ≤ formatMs d).
  { unfold formatMs. destruct (_ && _); [lia|].
    apply Z.quot_pos; unfold Millisecond; lia. }
  pose proof (formatSec_pos d Hd). destruct (usePrecise d); lia.
Qed.

(** [RevokeRefreshToken] that reports no error removed the session key,
    and it never touches the session of another token. *)
Lemma RevokeRefreshToken_effect token w r w' :
  RevokeRefreshToken token w = (r, w') →
  quiet w w'
  ∧ (r = Ok tt → store w' !! (refreshTokenPrefix +:+ token) = None)
  ∧ ∀ t, t ≠ token →
         store w' !! (refreshTokenPrefix +:+ t) = store w !! (refreshTokenPrefix +:+ t).
Proof.
  unfold RevokeRefreshToken, Client_is_nil, bind at 1.
  destruct (Client w) eqn:Hc; simpl; [|intros [= <- <-]; by repeat split].
  unfold bind at 1.
  destruct (GetRefreshTokenData token w) as [rg wg] eqn:Eg.
  apply GetRefreshTokenData_effect in Eg as (Qg & Sg & _).
  unfold bind at 1.
  assert (∃ ws, (match rg with
                 | Ok data =>
                     bind (SRem (userTokensPrefix +:+ RefreshTokenData.UserID data) token)
                       (fun _ => ret tt)
                 | Err _ => ret tt
                 end) wg = (tt, ws)
                ∧ quiet wg ws
                ∧ ∀ t, store ws !! (refreshTokenPrefix +:+ t)
                       = store wg !! (refreshTokenPrefix +:+ t)) as (ws & -> & Qs & Ss).
  { destruct rg as [data|e].
    - unfold bind, ret. destruct (SRem _ _ wg) as [rs ws] eqn:Es.
      exists ws. apply SRem_other in Es as [Qs Os]. split; [done|split; [done|]].
      intros t. apply Os, session_key_not_index_key.
    - exists wg. by repeat split. }
  unfold bind, ret. destruct (Del _ ws) as [[n|e] wd] eqn:Ed; intros [= <- <-].
  - pose proof (Del_other _ _ _ _ Ed) as [Qd Od]. apply Del_Ok in Ed.
    split; [eapply quiet_trans; [|done]; by eapply quiet_trans|].
    split; [done|]. intros t Ht. rewrite Od, Ss, Sg; [done|].
    intros E. by apply session_key_inj in E.
  - pose proof (Del_other _ _ _ _ Ed) as [Qd Od].
    split; [eapply quiet_trans; [|done]; by eapply quiet_trans|].
    split; [done|]. intros t Ht. rewrite Od, Ss, Sg; [done|].
    intros E. by apply session_key_inj in E.
Qed.

End session_store.

(** ** Failure of the store *)

Section store_failures.
Import redis auth.

(** Runs the command at the head of the goal on a connection that is
    down. *)
Ltac fail_command Hd :=
  match goal with
  | |- context [command ?e ?w] =>
      let w' := fresh "w" in
      destruct (command_down e w Hd) as (w' & -> & _ & ? & _); done
  end.

(** What the five operations return when the key-value store cannot be
    reached.  put (once the data is marshalled), delete, deleteAllForUser
    and listForUser return an error that carries the connection error;
    get alone drops it and returns "refresh token not found or expired",
    the error it also returns for a token that is not there.  When the
    client was never initialised all five, get included, return "redis
    client not initialized". *)
Lemma store_unreachable (w : world) (token : string) (data : RefreshTokenData.t)
    (expiry : Duration) (userID : string) :
  (Client w = true → down (plan w) →
     (StoreRefreshToken token data expiry w).1
       = (if Time_MarshalJSON_ok (RefreshTokenData.CreatedAt data)
          then Err (ErrStore ConnError) else Err ErrMarshal)
     ∧ (GetRefreshTokenData token w).1 = Err ErrNotFoundOrExpired
     ∧ (RevokeRefreshToken token w).1 = Err (ErrRedis ConnError)
     ∧ (RevokeAllUserTokens userID w).1 = Err (ErrGetUserTokens ConnError)
     ∧ (ListUserTokens userID w).1 = Err (ErrGetUserTokens ConnError))
  ∧ (Client w = false →
     (StoreRefreshToken token data expiry w).1 = Err ErrClientNil
     ∧ (GetRefreshTokenData token w).1 = Err ErrClientNil
     ∧ (RevokeRefreshToken token w).1 = Err ErrClientNil
     ∧ (RevokeAllUserTokens userID w).1 = Err ErrClientNil
     ∧ (ListUserTokens userID w).1 = Err ErrClientNil).
Proof.
  split.
  - intros Hc Hd.
    assert ((GetRefreshTokenData token w).1 = Err ErrNotFoundOrExpired
            ∧ down (plan (GetRefreshTokenData token w).2)) as [Hget Hd'].
    { unfold GetRefreshTokenData, Client_is_nil, bind, ret. rewrite Hc. simpl.
      unfold Get. fail_command Hd. }
    repeat split.
    + unfold StoreRefreshToken, Client_is_nil, bind, ret. rewrite Hc. simpl.
      unfold json_Marshal. destruct (Time_MarshalJSON_ok _); [|done].
      unfold Set_. fail_command Hd.
    + done.
    + unfold RevokeRefreshToken, Client_is_nil. unfold bind at 1. rewrite Hc. simpl.
      unfold bind at 1. destruct (GetRefreshTokenData token w) as [r wg].
      simpl in Hget, Hd'. subst r. unfold bind at 1, ret at 1. unfold bind, ret.
      unfold Del. fail_command Hd'.
    + unfold RevokeAllUserTokens, Client_is_nil, bind, ret. rewrite Hc. simpl.
      unfold SMembers. fail_command Hd.
    + unfold ListUserTokens, Client_is_nil, bind, ret. rewrite Hc. simpl.
      unfold SMembers. fail_command Hd.
  - intros Hc.
    unfold StoreRefreshToken, GetRefreshTokenData, RevokeRefreshToken,
      RevokeAllUserTokens, ListUserTokens, Client_is_nil, bind, ret.
    by rewrite Hc.
Qed.

End store_failures.

Section store_failures_runs.
Import redis auth internalauth symbolic scenario.

(** C4.  The code fails the claim for get.  The store holds the session
    of the token R1 and cannot be reached; the client was initialised.
    The four sibling operations return an error that carries the
    connection error.  [GetRefreshTokenData] returns "refresh token not
    found or expired", the very error it returns from a healthy store for
    a token that was never stored, and the refresh endpoint answers both
    with the same 401 response: the unreachable store is not told from
    "not found". *)
Theorem unreachable_reads_as_not_found :
  session_of with_R1_down "R1" = Some session42
  ∧ Client with_R1_down = true
  ∧ down (plan with_R1_down)
  ∧ (StoreRefreshToken "R2" session42 week with_R1_down).1 = Err (ErrStore ConnError)
  ∧ (RevokeRefreshToken "R1" with_R1_down).1 = Err (ErrRedis ConnError)
  ∧ (RevokeAllUserTokens "42" with_R1_down).1 = Err (ErrGetUserTokens ConnError)
  ∧ (ListUserTokens "42" with_R1_down).1 = Err (ErrGetUserTokens ConnError)
  ∧ (GetRefreshTokenData "R1" with_R1_down).1 = Err ErrNotFoundOrExpired
  ∧ (GetRefreshTokenData "R1" fresh).1 = Err ErrNotFoundOrExpired
  ∧ (Refresh handler ks1 entropy1 (cookie_request "R1") with_R1_down).1 = InvalidOrExpired
  ∧ (Refresh handler ks1 entropy1 (cookie_request "R1") fresh).1 = InvalidOrExpired.
Proof.
  split; [by vm_compute|]. split; [done|].
  split; [split; [done|apply Forall_nil_2]|].
  repeat (split; [by vm_compute|]). by vm_compute.
Qed.

End store_failures_runs.

(** ** The session index *)

Section session_index_runs.
Import redis auth scenario.

(** C9 as stated fails for a put whose TTL is not positive: SET then stores
    the session without expiry, and EXPIRE with a timeout of zero removes
    the index set that SADD just filled.  The put succeeds, the session
    resolves, and the token is in no index.  It fails in five more ways.
    With a TTL of 1.5 seconds SET is sent with PX 1500 and EXPIRE with 1:
    1.2 seconds after the put the session resolves and its index is gone.
    When the EXPIRE fails on the connection the put still succeeds, and
    an index that was about to expire is gone two seconds later while the
    session resolves.  The same happens when the index expires between
    the SADD and the EXPIRE of the put, and when a logout-all of the
    same user runs between the commands of the put.  And a user id that is
    not valid UTF-8 is written as it is into the key of the index but
    comes back from JSON with U+FFFD in it: the token is not in the index
    of the user id its session names. *)
Lemma StoreRefreshToken_not_indexed :
  ((StoreRefreshToken "R1" session42 0 fresh).1 = Ok tt
   ∧ session_of (StoreRefreshToken "R1" session42 0 fresh).2 "R1" = Some session42
   ∧ "R1" ∉ index_of (StoreRefreshToken "R1" session42 0 fresh).2 "42")
  ∧ (let r := StoreRefreshToken "R1" session42 (1500 * Millisecond) fresh in
     r.1 = Ok tt
     ∧ session_of (elapse (1200 * Millisecond) r.2) "R1" = Some session42
     ∧ "R1" ∉ index_of (elapse (1200 * Millisecond) r.2) "42")
  ∧ (let r := StoreRefreshToken "R1" session42 week (with_plan with_R0 expire_fails) in
     r.1 = Ok tt
     ∧ session_of (elapse (2 * Second) r.2) "R1" = Some session42
     ∧ "R1" ∉ index_of (elapse (2 * Second) r.2) "42")
  ∧ (let r := StoreRefreshToken_lagged 0 (2 * Second) "R1" session42 week with_R0 in
     r.1 = Ok tt
     ∧ session_of r.2 "R1" = Some session42
     ∧ "R1" ∉ index_of r.2 "42")
  ∧ (json_Marshal session42 = Some (encoded session42)
     ∧ session_of raced "R1" = Some session42
     ∧ "R1" ∉ index_of raced "42")
  ∧ (let r := StoreRefreshToken "R1" session_not_utf8 week fresh in
     r.1 = Ok tt
     ∧ (RefreshTokenData.UserID <$> session_of r.2 "R1") = Some replaced
     ∧ "R1" ∉ index_of r.2 replaced).
Proof.
  split; [|split; [|split; [|split; [|split]]]].
  - split; [by vm_compute|]. split; [by vm_compute|].
    assert (index_of (StoreRefreshToken "R1" session42 0 fresh).2 "42" = ∅) as ->
      by (by vm_compute).
    apply not_elem_of_empty.
  - intros r. split; [by vm_compute|]. split; [by vm_compute|].
    assert (index_of (elapse (1200 * Millisecond) r.2) "42" = ∅) as ->
      by (by vm_compute).
    apply not_elem_of_empty.
  - intros r. split; [by vm_compute|]. split; [by vm_compute|].
    assert (index_of (elapse (2 * Second) r.2) "42" = ∅) as -> by (by vm_compute).
    apply not_elem_of_empty.
  - intros r. split; [by vm_compute|]. split; [by vm_compute|].
    assert (index_of r.2 "42" = ∅) as -> by (by vm_compute).
    apply not_elem_of_empty.
  - split; [by vm_compute|]. split; [by vm_compute|].
    assert (index_of raced "42" = ∅) as -> by (by vm_compute).
    apply not_elem_of_empty.
  - intros r. split; [by vm_compute|]. split; [by vm_compute|].
    assert (index_of r.2 replaced = ∅) as -> by (by vm_compute).
    apply not_elem_of_empty.
Qed.

End session_index_runs.

(** ** Rotation and revocation *)

Section rotation.
Import jwt redis auth middleware internalauth.
Context `{Signer}.

(** A session key that is not in the store resolves to nothing, at any
    time and whatever the state of the connection. *)
Lemma session_of_absent (w : world) (token : string) :
  store w !! (refreshTokenPrefix +:+ token) = None → session_of w token = None.
Proof. intros Hs. unfold session_of, lookup. by rewrite Hs. Qed.


(** [Refresh] with a token that resolves to no session answers 401
    "invalid or expired refresh token". *)
Lemma Refresh_unknown (h : Handler) (ks : keys) (entropy : option (list Byte.byte))
    (c : Request) (w : world) (token : string) :
  presents c token → token ≠ "" → session_of w token = None →
  (Refresh h ks entropy c w).1 = InvalidOrExpired.
Proof.
  unfold presents, Refresh. intros -> Hne Hs.
  rewrite bool_decide_eq_false_2 by done.
  destruct (GetRefreshTokenData_unknown _ _ Hs) as (e & w' & E).
  unfold bind at 1. rewrite E. reflexivity.
Qed.

End rotation.

Section rotation_runs.
Import jwt redis auth middleware internalauth symbolic scenario.


End rotation_runs.

(** ** Logout of every session *)

Section logout_all.
Import jwt redis auth middleware internalauth.
Context `{Signer}.

(** On a healthy connection DEL removes the key. *)
Lemma Del_healthy (key : string) (w : world) (r : result redisError Z) (w' : world) :
  plan w = healthy →
  Del key w = (r, w') →
  quiet w w' ∧ plan w' = healthy ∧ store w' = delete key (store w).
Proof.
  intros Hp E. unfold Del in E. apply command_healthy in E as (Q & P & E); [|done].
  split; [done|split; [done|]].
  rewrite lookup_with_plan in E. simpl in E.
  by destruct (lookup w key); injection E as _ <-.
Qed.

(** On a healthy connection the loop of [RevokeAllUserTokens] removes the
    session key of every listed token and touches no other key. *)
Lemma delete_tokens_healthy (tokens : list string) (w w' : world) :
  plan w = healthy →
  delete_tokens tokens w = (tt, w') →
  quiet w w' ∧ plan w' = healthy
  ∧ (∀ t, t ∈ tokens → store w' !! (refreshTokenPrefix +:+ t) = None)
  ∧ (∀ k, (∀ t, t ∈ tokens → k ≠ refreshTokenPrefix +:+ t) →
          store w' !! k = store w !! k).
Proof.
  revert w. induction tokens as [|token rest IH]; intros w Hp; simpl.
  - unfold ret. intros [= <-]. split; [done|split; [done|]].
    split; [|done]. intros t Ht. by apply elem_of_nil in Ht.
  - unfold bind. destruct (Del _ w) as [r wd] eqn:Ed.
    apply Del_healthy in Ed as (Qd & Pd & Sd); [|done].
    intros E. apply IH in E as (Q & P & Gone & Other); [|done].
    split; [by eapply quiet_trans|split; [done|]]. split.
    + intros t Ht. destruct (decide (t ∈ rest)) as [Hin|Hnin]; [by apply Gone|].
      apply elem_of_cons in Ht as [->|Ht]; [|done].
      rewrite Other, Sd; [apply lookup_delete_eq|].
      intros t' Ht' Ek. apply session_key_inj in Ek. by subst.
    + intros k Hk. rewrite Other, Sd.
      * apply lookup_delete_ne. intros Ek. by apply (Hk token); [left|].
      * intros t Ht. apply Hk. by right.
Qed.

(** On a healthy connection a [RevokeAllUserTokens] that reports no error
    removed the session of every token in the user's index, and the index. *)
Lemma RevokeAllUserTokens_healthy (userID : string) (w w' : world) :
  plan w = healthy →
  RevokeAllUserTokens userID w = (Ok tt, w') →
  quiet w w'
  ∧ store w' !! (userTokensPrefix +:+ userID) = None
  ∧ ∀ t, t ∈ index_of w userID → store w' !! (refreshTokenPrefix +:+ t) = None.
Proof.
  intros Hp. unfold RevokeAllUserTokens, Client_is_nil. unfold bind at 1.
  destruct (Client w) eqn:Hc; simpl; [|done].
  unfold bind at 1. destruct (SMembers _ w) as [[tokens|e] w1] eqn:E1; [|done].
  pose proof (SMembers_Ok _ _ _ _ E1) as Hmem.
  pose proof (SMembers_store _ _ _ _ E1) as S1.
  unfold SMembers in E1. apply command_healthy in E1 as (Q1 & P1 & _); [|done].
  unfold bind at 1. destruct (delete_tokens tokens w1) as [[] w2] eqn:E2.
  apply delete_tokens_healthy in E2 as (Q2 & P2 & Gone & _); [|done].
  unfold bind, ret. destruct (Del _ w2) as [[n|e] w3] eqn:E3; [|done].
  intros [= <-]. pose proof (Del_Ok _ _ _ _ E3) as Hidx.
  apply Del_other in E3 as [Q3 O3].
  split; [eapply quiet_trans; [|done]; by eapply quiet_trans|]. split; [done|].
  intros t Ht. rewrite O3 by apply session_key_not_index_key. apply Gone.
  apply Hmem. unfold index_of in Ht.
  destruct (lookup w (userTokensPrefix +:+ userID)) as [[[b|s] dl]|];
    [by apply not_elem_of_empty in Ht| |by apply not_elem_of_empty in Ht].
  by exists s, dl.
Qed.

(** [Refresh] with a token that resolves to no session is refused with
    401, also when the token is the empty string. *)
Lemma Refresh_refused (h : Handler) (ks : keys) (entropy : option (list Byte.byte))
    (c : Request) (w : world) (token : string) :
  presents c token → session_of w token = None →
  code (Refresh h ks entropy c w).1 = StatusUnauthorized
  ∧ issued (Refresh h ks entropy c w).1 = None.
Proof.
  intros Hc Hs. destruct (decide (token = "")) as [->|Hne].
  - unfold presents in Hc. unfold Refresh. rewrite Hc. by rewrite bool_decide_eq_true_2.
  - by rewrite (Refresh_unknown h ks entropy c w token).
Qed.

(** C3, as amended.  On a connection that stays healthy during the call,
    after [LogoutAll] answered 200 for a user the user's index set is gone
    and refresh is refused, at any later time and whatever the state of the
    connection then, for every token that was in the user's index before
    the call; when every live session was listed in the index of its user,
    that is every refresh token the user held. *)
Theorem logout_all_revokes (h : Handler) (c : Request) (w : world)
    (resp : Response) (w1 : world) (claims : Claims) :
  GetClaims (Ctx c) = Some claims →
  plan w = healthy →
  LogoutAll h c w = (resp, w1) →
  code resp = StatusOK →
  index_of w1 (UserID claims) = ∅
  ∧ (∀ token, token ∈ index_of w (UserID claims) → session_of w1 token = None)
  ∧ (∀ token (h' : Handler) (ks : keys) (entropy : option (list Byte.byte))
       (c' : Request) (d : Duration) (fp : faults),
       token ∈ index_of w (UserID claims) →
       presents c' token →
       code (Refresh h' ks entropy c' (with_plan (elapse d w1) fp)).1
         = StatusUnauthorized)
  ∧ (index_complete w →
     ∀ token data (h' : Handler) (ks : keys) (entropy : option (list Byte.byte))
       (c' : Request) (d : Duration) (fp : faults),
       session_of w token = Some data →
       RefreshTokenData.UserID data = UserID claims →
       presents c' token →
       code (Refresh h' ks entropy c' (with_plan (elapse d w1) fp)).1
         = StatusUnauthorized).
Proof.
  intros Hclaims Hp E H200. unfold LogoutAll in E. rewrite Hclaims in E.
  unfold bind at 1 in E.
  destruct (RevokeAllUserTokens (UserID claims) w) as [[[]|e] w'] eqn:Er;
    [|unfold bind, ret in E; simpl in E; by injection E as <- <-].
  unfold ret in E. injection E as <- <-.
  apply RevokeAllUserTokens_healthy in Er as (Q & Hidx & Gone); [|done].
  assert (∀ token (h' : Handler) (ks : keys) (entropy : option (list Byte.byte))
            (c' : Request) (d : Duration) (fp : faults),
            token ∈ index_of w (UserID claims) →
            presents c' token →
            code (Refresh h' ks entropy c' (with_plan (elapse d w') fp)).1
              = StatusUnauthorized) as Hrefused.
  { intros token h' ks entropy c' d fp Hin Hc'.
    apply (Refresh_refused h' ks entropy c' _ token); [done|].
    apply session_of_absent. simpl. by apply Gone. }
  split; [|split; [|split; [done|]]].
  - unfold index_of, lookup. by rewrite Hidx.
  - intros token Hin. apply session_of_absent. by apply Gone.
  - intros Hcomplete token data h' ks entropy c' d fp Hs Hu Hc'.
    apply (Hrefused token); [|done]. rewrite <- Hu. by apply Hcomplete.
Qed.

End logout_all.

Section logout_all_runs.
Import jwt redis auth middleware internalauth symbolic scenario.

(** In the store that holds R1 alone every live session is indexed. *)
Lemma with_R1_index_complete : index_complete with_R1.
Proof.
  assert (index_of with_R1 "42" = {["R1"]}) as Hidx by (by vm_compute).
  assert (∃ e1 e2,
            store with_R1 =
              <[userTokensPrefix +:+ "42" := e2]> (<[refreshTokenPrefix +:+ "R1" := e1]> ∅)
            ∧ val e1 = VString (encoded session42)) as (e1 & e2 & Hst & Hv).
  { eexists (mkEntry _ _), (mkEntry _ _). split; [by vm_compute|reflexivity]. }
  intros token data Hs. unfold session_of, lookup in Hs. rewrite Hst in Hs.
  rewrite lookup_insert_ne in Hs
    by (intros E; symmetry in E; by apply session_key_not_index_key in E).
  destruct (decide (token = "R1")) as [->|Hne].
  - rewrite lookup_insert_eq in Hs. destruct (alive with_R1 e1); [|done].
    destruct e1 as [v dl]. simpl in Hv. subst v. simpl in Hs. injection Hs as <-.
    change (RefreshTokenData.UserID session42) with "42". rewrite Hidx.
    by apply elem_of_singleton.
  - rewrite lookup_insert_ne, lookup_empty in Hs; [done|].
    intros E. apply session_key_inj in E. congruence.
Qed.

Lemma logout_all_revokes_witness :
  code (LogoutAll handler authed_request with_R1).1 = StatusOK
  ∧ "R1" ∈ index_of with_R1 "42"
  ∧ session_of with_R1 "R1" = Some session42
  ∧ code (Refresh handler ks1 entropy1 (cookie_request "R1")
            (with_plan (elapse Hour (LogoutAll handler authed_request with_R1).2)
               healthy)).1
    = StatusUnauthorized.
Proof.
  assert ("R1" ∈ index_of with_R1 "42") as Hin.
  { assert (index_of with_R1 "42" = {["R1"]}) as -> by (by vm_compute).
    by apply elem_of_singleton. }
  assert (session_of with_R1 "R1" = Some session42) as Hs by (by vm_compute).
  split; [by vm_compute|]. split; [done|]. split; [done|].
  destruct (logout_all_revokes handler authed_request with_R1
              (LogoutAll handler authed_request with_R1).1
              (LogoutAll handler authed_request with_R1).2 claims42)
    as (_ & _ & _ & Hheld).
  - reflexivity.
  - reflexivity.
  - by destruct (LogoutAll handler authed_request with_R1).
  - by vm_compute.
  - by apply (Hheld with_R1_index_complete "R1" session42).
Defined.

(** C3 as stated fails in two ways.  When a deletion inside the bulk
    revocation fails (the connection drops for the DEL of the session key
    of R1 only), the result of that DEL is dropped, the index is removed
    and the call answers 200; the token R1, which the user held and the
    index listed, still resolves and a refresh presenting it is answered
    200.  And a session that its user's index does not list, as the one a
    rotation with a failed DEL leaves behind, is not seen by the bulk
    revocation at all, also on a healthy connection. *)
Lemma logout_all_misses_failed_delete :
  ("R1" ∈ index_of (with_plan with_R1 session_del_fails) "42"
   ∧ session_of (with_plan with_R1 session_del_fails) "R1" = Some session42
   ∧ code (LogoutAll handler authed_request (with_plan with_R1 session_del_fails)).1
     = StatusOK
   ∧ code (Refresh handler ks1 entropy1 (cookie_request "R1")
             (LogoutAll handler authed_request
                (with_plan with_R1 session_del_fails)).2).1
     = StatusOK)
  ∧ (session_of after_failed_revoke "R1" = Some session42
     ∧ plan after_failed_revoke = healthy
     ∧ code (LogoutAll handler authed_request after_failed_revoke).1 = StatusOK
     ∧ code (Refresh handler ks1 entropy2 (cookie_request "R1")
               (LogoutAll handler authed_request after_failed_revoke).2).1
       = StatusOK).
Proof.
  split.
  - split.
    { assert (index_of (with_plan with_R1 session_del_fails) "42" = {["R1"]}) as ->
        by (by vm_compute).
      by apply elem_of_singleton. }
    split; [by vm_compute|]. split; by vm_compute.
  - split; [by vm_compute|]. split; [by vm_compute|]. split; by vm_compute.
Qed.

End logout_all_runs.

(** ** The index invariant *)

Section index_invariant.
Import redis auth.

Lemma index_key_not_session_key (userID token : string) :
  userTokensPrefix +:+ userID ≠ refreshTokenPrefix +:+ token.
Proof. intros E. symmetry in E. by apply session_key_not_index_key in E. Qed.

(** What the commands do on a healthy connection. *)
Lemma Set_healthy key b d w r w' :
  plan w = healthy → 0 < d → usePrecise d = false →
  Set_ key b d w = (r, w') →
  quiet w w' ∧ plan w' = healthy ∧ r = Ok tt
  ∧ store w' = <[key := mkEntry (VString b) (Some (now_ms w + ttl_ms d))]> (store w).
Proof.
  intros Hp Hd Hprec E. unfold Set_ in E.
  apply command_healthy in E as (Q & P & E); [|done].
  simpl in E. rewrite bool_decide_eq_true_2, Hprec in E by done.
  by injection E as <- <-.
Qed.

Lemma SAdd_healthy key m w r w' :
  plan w = healthy →
  SAdd key m w = (r, w') →
  quiet w w' ∧ plan w' = healthy
  ∧ match lookup w key with
    | None => store w' = <[key := mkEntry (VSet {[m]}) None]> (store w)
    | Some (mkEntry (VSet s) dl) =>
        store w' = <[key := mkEntry (VSet ({[m]} ∪ s)) dl]> (store w)
    | Some (mkEntry (VString _) _) => store w' = store w
    end.
Proof.
  intros Hp E. unfold SAdd in E.
  apply command_healthy in E as (Q & P & E); [|done].
  split; [done|split; [done|]]. simpl in E. rewrite lookup_with_plan in E.
  destruct (lookup w key) as [[[b|s] dl]|]; by injection E as _ <-.
Qed.

Lemma SRem_healthy key m w r w' :
  plan w = healthy →
  SRem key m w = (r, w') →
  quiet w w' ∧ plan w' = healthy
  ∧ match lookup w key with
    | Some (mkEntry (VSet s) dl) =>
        store w' = if bool_decide (s ∖ {[m]} = ∅) then delete key (store w)
                   else <[key := mkEntry (VSet (s ∖ {[m]})) dl]> (store w)
    | _ => store w' = store w
    end.
Proof.
  intros Hp E. unfold SRem in E.
  apply command_healthy in E as (Q & P & E); [|done].
  split; [done|split; [done|]]. simpl in E. rewrite lookup_with_plan in E.
  destruct (lookup w key) as [[[b|s] dl]|]; by injection E as _ <-.
Qed.

Lemma Expire_healthy key d w r w' :
  plan w = healthy → 0 < d →
  Expire key d w = (r, w') →
  quiet w w' ∧ plan w' = healthy
  ∧ match lookup w key with
    | Some e => store w' = <[key := mkEntry (val e) (Some (now_ms w + ttl_ms d))]> (store w)
    | None => store w' = store w
    end.
Proof.
  intros Hp Hd E. unfold Expire in E.
  apply command_healthy in E as (Q & P & E); [|done].
  split; [done|split; [done|]]. simpl in E. rewrite lookup_with_plan in E.
  destruct (lookup w key) as [e|]; [|by injection E as _ <-].
  pose proof (formatSec_pos d Hd).
  rewrite bool_decide_eq_false_2 in E by lia. by injection E as _ <-.
Qed.

Lemma Get_healthy key w r w' :
  plan w = healthy →
  Get key w = (r, w') →
  quiet w w' ∧ plan w' = healthy ∧ store w' = store w
  ∧ r = match lookup w key with
        | None => Err Nil
        | Some (mkEntry (VString b) _) => Ok b
        | Some (mkEntry (VSet _) _) => Err WrongType
        end.
Proof.
  intros Hp E. unfold Get in E.
  apply command_healthy in E as (Q & P & E); [|done].
  split; [done|split; [done|]]. simpl in E. rewrite lookup_with_plan in E.
  destruct (lookup w key) as [[[b|s] dl]|]; by injection E as <- <-.
Qed.

Lemma SMembers_healthy key w r w' :
  plan w = healthy →
  SMembers key w = (r, w') →
  quiet w w' ∧ plan w' = healthy ∧ store w' = store w
  ∧ r = match lookup w key with
        | None => Ok []
        | Some (mkEntry (VSet s) _) => Ok (elements s)
        | Some (mkEntry (VString _) _) => Err WrongType
        end.
Proof.
  intros Hp E. unfold SMembers in E.
  apply command_healthy in E as (Q & P & E); [|done].
  split; [done|split; [done|]]. simpl in E. rewrite lookup_with_plan in E.
  destruct (lookup w key) as [[[b|s] dl]|]; by injection E as <- <-.
Qed.

(** The clock in milliseconds is what the quiet part of the world fixes. *)
Lemma quiet_now_ms w w' : quiet w w' → now_ms w' = now_ms w.
Proof. intros (Hc & _). unfold now_ms. by rewrite Hc. Qed.

(** In a well-indexed store a session that resolves is listed: the
    invariant gives the completeness of the index. *)
Lemma well_indexed_complete T w : well_indexed T w → index_complete w.
Proof.
  intros [Hidx Hdl Hlist Hval] token data Hs. unfold session_of, lookup in Hs.
  destruct (store w !! (refreshTokenPrefix +:+ token)) as [[v dl]|] eqn:Hk; [|done].
  destruct (alive w _) eqn:Ha; [|done].
  destruct v as [[d|raw]|s]; simpl in Hs; [|done|done]. injection Hs as ->.
  destruct (Hdl _ _ _ Hk) as (x & -> & Hx).
  unfold alive in Ha. simpl in Ha. apply bool_decide_eq_true in Ha.
  destruct (Hlist _ _ _ Hk Ha) as (s & y & Hu & Hin & Hxy).
  unfold index_of, lookup. rewrite Hu. unfold alive. simpl.
  by rewrite bool_decide_eq_true_2 by lia.
Qed.

(** The empty store is well-indexed. *)
Lemma well_indexed_empty T (w : world) : store w = ∅ → well_indexed T w.
Proof.
  intros Hs. split; try unfold valid_ids; intros *; rewrite Hs, lookup_empty; done.
Qed.

(** The invariant survives the passing of time. *)
Lemma well_indexed_elapse T d w :
  0 ≤ d → well_indexed T w → well_indexed T (elapse d w).
Proof.
  intros Hd [Hidx Hdl Hlist Hval].
  assert (now_ms w ≤ now_ms (elapse d w)) as Hmono.
  { unfold now_ms, elapse. simpl. apply Z.div_le_mono; unfold Millisecond; lia. }
  split; simpl.
  - done.
  - intros token data dl Hk. destruct (Hdl _ _ _ Hk) as (x & -> & Hx).
    exists x. split; [done|lia].
  - intros token data x Hk Ha. apply (Hlist _ _ _ Hk). lia.
  - done.
Qed.


(** [StoreRefreshToken] keeps the invariant, when its expiry is the one
    time to live [T] in whole seconds and the user id is valid UTF-8: the
    index key is made of the user id as it is, the session holds it as
    it comes back from JSON. *)
Lemma StoreRefreshToken_well_indexed T token data E w r w' :
  plan w = healthy → 0 < E → usePrecise E = false → ttl_ms E = T →
  json.valid (RefreshTokenData.UserID data) →
  well_indexed T w →
  StoreRefreshToken token data E w = (r, w') →
  well_indexed T w' ∧ plan w' = healthy ∧ quiet w w'.
Proof.
  intros Hp HE Hprec HT Hvalid Hwi.
  unfold StoreRefreshToken, Client_is_nil, bind, ret.
  destruct (Client w); simpl; [|by intros [= <- <-]].
  unfold json_Marshal.
  destruct (Time_MarshalJSON_ok _); [|by intros [= <- <-]].
  destruct (Set_ _ _ _ w) as [r1 w1] eqn:E1.
  apply Set_healthy in E1 as (Q1 & P1 & -> & S1); [|done..].
  destruct (SAdd _ _ w1) as [r2 w2] eqn:E2.
  destruct Hwi as [Hidx Hdl Hlist Hval].
  set (rk := refreshTokenPrefix +:+ token) in *.
  set (uk := userTokensPrefix +:+ RefreshTokenData.UserID data) in *.
  assert (rk ≠ uk) as Hne by apply session_key_not_index_key.
  assert (∀ u, userTokensPrefix +:+ u ≠ rk) as Hne'.
  { intros u Ek. symmetry in Ek. by apply session_key_not_index_key in Ek. }
  assert (lookup w1 uk = lookup w uk) as Hl1.
  { apply lookup_preserved; [done|]. rewrite S1. by apply lookup_insert_ne. }
  (* the index after SADD: a live set with the token and the live old members *)
  assert (∃ S dl n,
            r2 = Ok n
            ∧ store w2 = <[uk := mkEntry (VSet S) dl]> (store w1)
            ∧ lookup w2 uk = Some (mkEntry (VSet S) dl)
            ∧ token ∈ S
            ∧ ∀ s0 y0, store w !! uk = Some (mkEntry (VSet s0) (Some y0)) →
                       now_ms w ≤ y0 → s0 ⊆ S)
    as (S & dl & n & -> & S2 & Hl2 & Htok & Hold).
  { pose proof (SAdd_healthy _ _ _ _ _ P1 E2) as (Q2 & P2 & S2).
    assert (∃ n, r2 = Ok n) as [n ->].
    { unfold SAdd in E2. apply command_healthy in E2 as (_ & _ & E2); [|done].
      simpl in E2. rewrite lookup_with_plan, Hl1 in E2. unfold lookup in E2.
      destruct (store w !! uk) as [e0|] eqn:Hu; [|injection E2 as <-; eauto].
      destruct (Hidx _ _ Hu) as (s0 & y0 & ->).
      destruct (alive w _); injection E2 as <-; eauto. }
    rewrite Hl1 in S2. unfold lookup in S2 |- *.
    destruct (store w !! uk) as [e|] eqn:Hu.
    - destruct (Hidx _ _ Hu) as (s & y & ->). unfold alive in S2 at 1. simpl in S2.
      case_bool_decide as Hy.
      + exists ({[token]} ∪ s), (Some y), n.
        rewrite S2, lookup_insert_eq. unfold alive. simpl.
        rewrite (quiet_now_ms w1 w2), (quiet_now_ms w w1) by done.
        rewrite bool_decide_eq_true_2 by done.
        split; [done|split; [done|split; [done|split; [set_solver|]]]].
        intros s0 y0 [= <- <-] _. set_solver.
      + exists {[token]}, None, n. rewrite S2, lookup_insert_eq. unfold alive. simpl.
        split; [done|split; [done|split; [done|split; [set_solver|]]]].
        intros s0 y0 [= <- <-] Hy0. lia.
    - exists {[token]}, None, n. rewrite S2, lookup_insert_eq. unfold alive. simpl.
      split; [done|split; [done|split; [done|split; [set_solver|]]]].
      intros s0 y0 [=]. }
  pose proof (SAdd_other _ _ _ _ _ E2) as [Q2 _].
  assert (plan w2 = healthy) as P2.
  { unfold SAdd in E2. by apply command_healthy in E2 as (_ & ? & _). }
  destruct (Expire _ _ w2) as [r3 w3] eqn:E3. intros [= <- <-].
  apply Expire_healthy in E3 as (Q3 & P3 & S3); [|done..].
  rewrite Hl2 in S3. simpl in S3. rewrite HT in S3, S1.
  rewrite (quiet_now_ms w1 w2), (quiet_now_ms w w1) in S3 by done.
  split; [|split; [done|eapply quiet_trans; [|done]; by eapply quiet_trans]].
  assert (now_ms w3 = now_ms w) as Hnow.
  { rewrite (quiet_now_ms w2 w3), (quiet_now_ms w1 w2), (quiet_now_ms w w1); done. }
  assert (∀ k, k ≠ uk → k ≠ rk → store w3 !! k = store w !! k) as Hother.
  { intros k ? ?. by rewrite S3, lookup_insert_ne, S2, lookup_insert_ne, S1,
      lookup_insert_ne. }
  assert (store w3 !! uk = Some (mkEntry (VSet S) (Some (now_ms w + T)))) as Huk.
  { by rewrite S3, lookup_insert_eq. }
  assert (store w3 !! rk
          = Some (mkEntry (VString (encoded (json_data data))) (Some (now_ms w + T))))
    as Hrk.
  { by rewrite S3, lookup_insert_ne, S2, lookup_insert_ne, S1, lookup_insert_eq. }
  split.
  - intros u e. destruct (decide (userTokensPrefix +:+ u = uk)) as [->|Hu].
    + rewrite Huk. intros [= <-]. eauto.
    + rewrite Hother by done. apply Hidx.
  - intros t d' dl'. rewrite Hnow. destruct (decide (t = token)) as [->|Ht].
    + fold rk. rewrite Hrk. intros [= <- <-]. eexists. split; [done|lia].
    + rewrite Hother; [apply Hdl| |].
      * apply session_key_not_index_key.
      * intros Ek. by apply session_key_inj in Ek.
  - intros t d' x. rewrite Hnow. destruct (decide (t = token)) as [->|Ht].
    + fold rk. rewrite Hrk. intros [= <- <-] Hx. simpl. rewrite Hvalid. fold uk.
      rewrite Huk. eexists _, _. split; [done|]. split; [done|lia].
    + rewrite Hother;
        [|apply session_key_not_index_key|intros Ek; by apply session_key_inj in Ek].
      intros Hk Hx. destruct (Hlist _ _ _ Hk Hx) as (s0 & y0 & Hu0 & Hin0 & Hxy0).
      destruct (Hdl _ _ _ Hk) as (x' & [= <-] & Hx').
      destruct (decide (userTokensPrefix +:+ RefreshTokenData.UserID d' = uk))
        as [Heq|Hneq].
      * rewrite Heq in Hu0 |- *. rewrite Huk. eexists _, _. split; [done|].
        split; [|lia]. apply (Hold s0 y0); [done|lia|done].
      * rewrite Hother by done. eauto.
  - intros t d' dl'. destruct (decide (t = token)) as [->|Ht].
    + fold rk. rewrite Hrk. intros [= <- <-]. simpl. unfold json.valid.
      by rewrite !Hvalid.
    + rewrite Hother; [apply Hval| |].
      * apply session_key_not_index_key.
      * intros Ek. by apply session_key_inj in Ek.
Qed.


(** On a healthy connection SREM on an index key only shrinks the set under
    it, by the one member, and keeps the other members of a live set. *)
Lemma SRem_index_effect u t w r w' :
  plan w = healthy →
  SRem (userTokensPrefix +:+ u) t w = (r, w') →
  quiet w w' ∧ plan w' = healthy
  ∧ (∀ k, k ≠ userTokensPrefix +:+ u → store w' !! k = store w !! k)
  ∧ (∀ e', store w' !! (userTokensPrefix +:+ u) = Some e' →
       store w !! (userTokensPrefix +:+ u) = Some e'
       ∨ ∃ s, e' = mkEntry (VSet (s ∖ {[t]})) (deadline e')
              ∧ store w !! (userTokensPrefix +:+ u)
                = Some (mkEntry (VSet s) (deadline e')))
  ∧ (∀ s y t', store w !! (userTokensPrefix +:+ u) = Some (mkEntry (VSet s) (Some y)) →
       now_ms w ≤ y → t' ∈ s → t' ≠ t →
       ∃ s', store w' !! (userTokensPrefix +:+ u) = Some (mkEntry (VSet s') (Some y))
             ∧ t' ∈ s').
Proof.
  intros Hp E. pose proof (SRem_other _ _ _ _ _ E) as [_ Hother].
  apply SRem_healthy in E as (Q & P & S); [|done].
  split; [done|split; [done|split; [done|]]].
  set (uk := userTokensPrefix +:+ u) in *. unfold lookup in S.
  destruct (store w !! uk) as [[v dl]|] eqn:Hu.
  - destruct (alive w _) eqn:Ha.
    + destruct v as [b|s].
      * rewrite S, Hu. split; [intros e' ->; by left|done].
      * case_bool_decide as Hempty; rewrite S.
        -- rewrite lookup_delete_eq. split; [done|].
           intros s0 y t' [= <- <-] _ Hin Hne. set_solver.
        -- rewrite lookup_insert_eq. split.
           ++ intros e' [= <-]. right. by exists s.
           ++ intros s0 y t' [= <- <-] _ Hin Hne. eexists. split; [done|set_solver].
    + rewrite S, Hu. split; [intros e' ->; by left|].
      intros s0 y t' Heq Hy. injection Heq as -> ->. unfold alive in Ha. simpl in Ha.
      by rewrite bool_decide_eq_true_2 in Ha.
  - rewrite S, Hu. done.
Qed.

(** A world that differs only in the plan and the log is as well-indexed. *)
Lemma well_indexed_same T w w' :
  quiet w w' → store w' = store w → well_indexed T w → well_indexed T w'.
Proof.
  intros Q S [Hidx Hdl Hlist Hval].
  split; try unfold valid_ids; rewrite ?(quiet_now_ms w w'), ?S by done; done.
Qed.

(** On a healthy connection [GetRefreshTokenData] returns the session the
    token resolves to, and an error exactly when there is none. *)
Lemma GetRefreshTokenData_healthy token w r w' :
  plan w = healthy →
  GetRefreshTokenData token w = (r, w') →
  quiet w w' ∧ plan w' = healthy ∧ store w' = store w
  ∧ (Client w = true →
     match session_of w token with
     | Some data => r = Ok data
     | None => ∃ e, r = Err e
     end).
Proof.
  intros Hp. unfold GetRefreshTokenData, Client_is_nil, bind, ret.
  destruct (Client w); simpl; [|by intros [= <- <-]].
  destruct (Get _ w) as [rg wg] eqn:Eg.
  apply Get_healthy in Eg as (Q & P & S & ->); [|done].
  unfold session_of.
  destruct (lookup w _) as [[[b|s] dl]|]; simpl.
  - destruct (json_Unmarshal b); intros [= <- <-]; eauto 10.
  - intros [= <- <-]. eauto 10.
  - intros [= <- <-]. eauto 10.
Qed.

(** Removing from an index a token that resolves to no session keeps the
    invariant. *)
Lemma SRem_well_indexed T u t w r w' :
  plan w = healthy → well_indexed T w → session_of w t = None →
  SRem (userTokensPrefix +:+ u) t w = (r, w') →
  well_indexed T w' ∧ plan w' = healthy ∧ quiet w w'.
Proof.
  intros Hp [Hidx Hdl Hlist Hval] Hnone E.
  apply SRem_index_effect in E as (Q & P & Hother & Hshape & Hkeep); [|done].
  split; [|done]. split; rewrite ?(quiet_now_ms w w') by done.
  - intros u' e' He'.
    destruct (decide (userTokensPrefix +:+ u' = userTokensPrefix +:+ u)) as [Heq|Hne].
    + rewrite Heq in He'. destruct (Hshape _ He') as [Hold|(s & He & Hold)].
      * by apply (Hidx u).
      * destruct (Hidx _ _ Hold) as (s0 & y0 & [= -> Hy]). rewrite He, Hy. eauto.
    + rewrite Hother in He' by done. by apply (Hidx u').
  - intros t' d dl. rewrite Hother by apply session_key_not_index_key. apply Hdl.
  - intros t' d x. rewrite Hother by apply session_key_not_index_key.
    intros Hk Hx. destruct (Hlist _ _ _ Hk Hx) as (s0 & y0 & Hu0 & Hin0 & Hxy0).
    destruct (decide (userTokensPrefix +:+ RefreshTokenData.UserID d
                      = userTokensPrefix +:+ u)) as [Heq|Hne].
    + rewrite Heq in Hu0 |- *.
      destruct (Hkeep s0 y0 t' Hu0) as (s' & Hs' & Hin'); [lia|done| |by eauto].
      intros ->. unfold session_of, lookup in Hnone. rewrite Hk in Hnone.
      unfold alive in Hnone. simpl in Hnone.
      by rewrite bool_decide_eq_true_2 in Hnone.
    + rewrite Hother by done. eauto.
  - unfold valid_ids. intros t' d dl.
    rewrite Hother by apply session_key_not_index_key. apply Hval.
Qed.

(** [RevokeRefreshToken] keeps the invariant. *)
Lemma RevokeRefreshToken_well_indexed T token w r w' :
  plan w = healthy → well_indexed T w →
  RevokeRefreshToken token w = (r, w') →
  well_indexed T w' ∧ plan w' = healthy ∧ quiet w w'.
Proof.
  intros Hp Hwi. unfold RevokeRefreshToken, Client_is_nil. unfold bind at 1.
  destruct (Client w) eqn:Hc; simpl; [|by intros [= <- <-]].
  unfold bind at 1. destruct (GetRefreshTokenData token w) as [rg wg] eqn:Eg.
  apply GetRefreshTokenData_healthy in Eg as (Qg & Pg & Sg & _); [|done].
  pose proof (well_indexed_same T w wg Qg Sg Hwi) as [Hidx Hdl Hlist Hval].
  unfold bind at 1.
  (* the index after the SREM, if there is one *)
  assert (∃ ws, (match rg with
                 | Ok data =>
                     bind (SRem (userTokensPrefix +:+ RefreshTokenData.UserID data) token)
                       (fun _ => ret tt)
                 | Err _ => ret tt
                 end) wg = (tt, ws)
                ∧ quiet wg ws ∧ plan ws = healthy
                ∧ (∀ t, store ws !! (refreshTokenPrefix +:+ t)
                        = store wg !! (refreshTokenPrefix +:+ t))
                ∧ (∀ u e', store ws !! (userTokensPrefix +:+ u) = Some e' →
                     ∃ s y, e' = mkEntry (VSet s) (Some y))
                ∧ (∀ u s y t', store wg !! (userTokensPrefix +:+ u)
                               = Some (mkEntry (VSet s) (Some y)) →
                     now_ms wg ≤ y → t' ∈ s → t' ≠ token →
                     ∃ s', store ws !! (userTokensPrefix +:+ u)
                           = Some (mkEntry (VSet s') (Some y)) ∧ t' ∈ s'))
    as (ws & -> & Qs & Ps & Ss & Hidx' & Hkeep').
  { destruct rg as [data|e].
    - unfold bind, ret. destruct (SRem _ _ wg) as [rs ws] eqn:Es. exists ws.
      apply SRem_index_effect in Es as (Qs & Ps & Hother & Hshape & Hkeep); [|done].
      split; [done|split; [done|split; [done|]]].
      split; [intros t; apply Hother, session_key_not_index_key|]. split.
      + intros u e' He'.
        destruct (decide (userTokensPrefix +:+ u
                          = userTokensPrefix +:+ RefreshTokenData.UserID data))
          as [Heq|Hne].
        * rewrite Heq in He'. destruct (Hshape _ He') as [Hold|(s & He & Hold)].
          -- by apply (Hidx (RefreshTokenData.UserID data)).
          -- destruct (Hidx _ _ Hold) as (s0 & y0 & [= -> Hy]). rewrite He, Hy. eauto.
        * rewrite Hother in He' by done. by apply (Hidx u).
      + intros u s y t' Hu Hy Hin Hne.
        destruct (decide (userTokensPrefix +:+ u
                          = userTokensPrefix +:+ RefreshTokenData.UserID data))
          as [Heq|Hneq].
        * rewrite Heq in Hu |- *. by apply (Hkeep s y t').
        * rewrite Hother by done. eauto.
    - exists wg. unfold ret. split; [done|split; [done|split; [done|]]].
      split; [done|]. split; [apply Hidx|]. eauto. }
  unfold bind, ret. destruct (Del _ ws) as [rd wd] eqn:Ed.
  apply Del_healthy in Ed as (Qd & Pd & Sd); [|done].
  intros E. assert (w' = wd) as -> by (by destruct rd; injection E as _ <-).
  split; [|split; [done|eapply quiet_trans; [|done]; by eapply quiet_trans]].
  assert (now_ms wd = now_ms wg) as Hnow.
  { by rewrite (quiet_now_ms ws wd), (quiet_now_ms wg ws). }
  split; try unfold valid_ids; rewrite ?Hnow, Sd.
  - intros u e'. rewrite lookup_delete_ne by apply session_key_not_index_key.
    apply Hidx'.
  - intros t d dl. destruct (decide (t = token)) as [->|Ht].
    + by rewrite lookup_delete_eq.
    + rewrite lookup_delete_ne, Ss by (intros Ek; by apply session_key_inj in Ek).
      apply Hdl.
  - intros t d x. destruct (decide (t = token)) as [->|Ht].
    + by rewrite lookup_delete_eq.
    + rewrite lookup_delete_ne, Ss by (intros Ek; by apply session_key_inj in Ek).
      intros Hk Hx. destruct (Hlist _ _ _ Hk Hx) as (s0 & y0 & Hu0 & Hin0 & Hxy0).
      rewrite lookup_delete_ne by apply session_key_not_index_key.
      destruct (Hkeep' _ s0 y0 t Hu0) as (s' & Hs' & Hin'); [lia|done|done|].
      eauto.
  - intros t d dl. destruct (decide (t = token)) as [->|Ht].
    + by rewrite lookup_delete_eq.
    + rewrite lookup_delete_ne, Ss by (intros Ek; by apply session_key_inj in Ek).
      apply Hval.
Qed.


(** [RevokeAllUserTokens] keeps the invariant. *)
Lemma RevokeAllUserTokens_well_indexed T userID w r w' :
  plan w = healthy → well_indexed T w →
  RevokeAllUserTokens userID w = (r, w') →
  well_indexed T w' ∧ plan w' = healthy ∧ quiet w w'.
Proof.
  intros Hp Hwi. unfold RevokeAllUserTokens, Client_is_nil. unfold bind at 1.
  destruct (Client w) eqn:Hc; simpl; [|by intros [= <- <-]].
  unfold bind at 1. destruct (SMembers _ w) as [rm w1] eqn:E1.
  apply SMembers_healthy in E1 as (Q1 & P1 & S1 & Hrm); [|done].
  pose proof (well_indexed_same T w w1 Q1 S1 Hwi) as Hwi1.
  set (uk := userTokensPrefix +:+ userID) in *.
  assert ((∃ tokens,
             rm = Ok tokens
             ∧ ∀ s y t, store w !! uk = Some (mkEntry (VSet s) (Some y)) →
                        now_ms w ≤ y → t ∈ s → t ∈ tokens)
          ∨ (∃ e, rm = Err e)) as Hcases.
  { rewrite Hrm. unfold lookup. destruct (store w !! uk) as [[v dl]|] eqn:Hu.
    - destruct (alive w _) eqn:Ha.
      + destruct v as [b|s]; [right; eauto|]. left. exists (elements s).
        split; [done|]. intros s0 y t Heq _ Hin. injection Heq as -> ->.
        by apply elem_of_elements.
      + left. exists []. split; [done|]. intros s0 y t Heq Hy. injection Heq as -> ->.
        unfold alive in Ha. simpl in Ha. by rewrite bool_decide_eq_true_2 in Ha.
    - left. exists []. split; [done|]. done. }
  destruct Hcases as [(tokens & -> & Hmem)|(e & ->)];
    [|unfold ret; by intros [= <- <-]].
  unfold bind at 1. destruct (delete_tokens tokens w1) as [[] w2] eqn:E2.
  apply delete_tokens_healthy in E2 as (Q2 & P2 & Gone & Other); [|done].
  unfold bind, ret. destruct (Del _ w2) as [rd w3] eqn:E3.
  apply Del_healthy in E3 as (Q3 & P3 & S3); [|done].
  intros E. assert (w' = w3) as -> by (by destruct rd; injection E as _ <-).
  split; [|split; [done|eapply quiet_trans; [|done]; by eapply quiet_trans]].
  assert (now_ms w3 = now_ms w) as Hnow.
  { by rewrite (quiet_now_ms w2 w3), (quiet_now_ms w1 w2), (quiet_now_ms w w1). }
  destruct Hwi as [Hidx Hdl Hlist Hval].
  assert (∀ t, store w3 !! (refreshTokenPrefix +:+ t) = None
               ∨ ((t ∉ tokens)
                  ∧ store w3 !! (refreshTokenPrefix +:+ t)
                    = store w !! (refreshTokenPrefix +:+ t))) as Hrk.
  { intros t. rewrite S3, lookup_delete_ne by apply index_key_not_session_key.
    destruct (decide (t ∈ tokens)) as [Hin|Hnin]; [left; by apply Gone|right].
    split; [done|]. rewrite Other, S1; [done|].
    intros t' Ht' Ek. apply session_key_inj in Ek. by subst. }
  assert (∀ u, userTokensPrefix +:+ u ≠ uk →
               store w3 !! (userTokensPrefix +:+ u) = store w !! (userTokensPrefix +:+ u))
    as Huk.
  { intros u Hu. rewrite S3, lookup_delete_ne, Other, S1; [done| |done].
    intros t _ Ek. symmetry in Ek. by apply session_key_not_index_key in Ek. }
  split; rewrite ?Hnow.
  - intros u e'. destruct (decide (userTokensPrefix +:+ u = uk)) as [->|Hu].
    + by rewrite S3, lookup_delete_eq.
    + rewrite Huk by done. apply Hidx.
  - intros t d dl. destruct (Hrk t) as [->|[_ ->]]; [done|apply Hdl].
  - intros t d x. destruct (Hrk t) as [->|[Hnin ->]]; [done|].
    intros Hk Hx. destruct (Hlist _ _ _ Hk Hx) as (s0 & y0 & Hu0 & Hin0 & Hxy0).
    destruct (decide (userTokensPrefix +:+ RefreshTokenData.UserID d = uk)) as [Heq|Hne].
    + exfalso. apply Hnin. rewrite Heq in Hu0. apply (Hmem s0 y0); [done|lia|done].
    + rewrite Huk by done. eauto.
  - unfold valid_ids. intros t d dl.
    destruct (Hrk t) as [->|[_ ->]]; [done|apply Hval].
Qed.

(** The loop of [ListUserTokens] keeps the invariant: it prunes only
    tokens that resolve to no session. *)
Lemma collect_tokens_well_indexed T u tokens acc w r w' :
  Client w = true → plan w = healthy → well_indexed T w →
  collect_tokens (userTokensPrefix +:+ u) tokens acc w = (r, w') →
  well_indexed T w' ∧ plan w' = healthy ∧ quiet w w'.
Proof.
  revert acc w. induction tokens as [|token rest IH]; intros acc w Hc Hp Hwi; simpl.
  - unfold ret. by intros [= <- <-].
  - unfold bind at 1. destruct (GetRefreshTokenData token w) as [rg wg] eqn:Eg.
    apply GetRefreshTokenData_healthy in Eg as (Qg & Pg & Sg & Hres); [|done].
    specialize (Hres Hc).
    pose proof (well_indexed_same T w wg Qg Sg Hwi) as Hwig.
    assert (Client wg = true) as Hcg by (destruct Qg as (_ & -> & _); done).
    destruct rg as [data|e].
    + intros E. apply IH in E as (? & ? & ?); [|done..].
      split; [done|split; [done|by eapply quiet_trans]].
    + unfold bind. destruct (SRem _ _ wg) as [rs ws] eqn:Es.
      assert (session_of wg token = None) as Hnone.
      { unfold session_of, lookup, alive, now_ms.
        destruct Qg as (-> & _). rewrite Sg.
        destruct (session_of w token) eqn:Hs; [done|]. exact Hs. }
      apply SRem_well_indexed with (T := T) in Es as (Hwis & Ps & Qs); [|done..].
      assert (Client ws = true) as Hcs by (destruct Qs as (_ & -> & _); done).
      intros E. apply IH in E as (? & ? & ?); [|done..].
      split; [done|split; [done|]].
      eapply quiet_trans; [|done]. by eapply quiet_trans.
Qed.

(** [ListUserTokens] keeps the invariant. *)
Lemma ListUserTokens_well_indexed T userID w r w' :
  plan w = healthy → well_indexed T w →
  ListUserTokens userID w = (r, w') →
  well_indexed T w' ∧ plan w' = healthy ∧ quiet w w'.
Proof.
  intros Hp Hwi. unfold ListUserTokens, Client_is_nil. unfold bind at 1.
  destruct (Client w) eqn:Hc; simpl; [|by intros [= <- <-]].
  unfold bind at 1. destruct (SMembers _ w) as [rm w1] eqn:E1.
  apply SMembers_healthy in E1 as (Q1 & P1 & S1 & _); [|done].
  pose proof (well_indexed_same T w w1 Q1 S1 Hwi) as Hwi1.
  assert (Client w1 = true) as Hc1 by (destruct Q1 as (_ & -> & _); done).
  destruct rm as [tokens|e]; [|unfold ret; by intros [= <- <-]].
  unfold bind, ret. destruct (collect_tokens _ tokens [] w1) as [res w2] eqn:E2.
  apply collect_tokens_well_indexed with (T := T) in E2 as (? & ? & ?); [|done..].
  intros [= <- <-]. split; [done|split; [done|by eapply quiet_trans]].
Qed.


(** The invariant reads the clock and the store only. *)
Lemma well_indexed_ext T w w' :
  clock w' = clock w → store w' = store w → well_indexed T w → well_indexed T w'.
Proof.
  intros Hc S [Hidx Hdl Hlist Hval].
  assert (now_ms w' = now_ms w) as Hn by (unfold now_ms; by rewrite Hc).
  split; try unfold valid_ids; rewrite ?Hn, ?S; done.
Qed.

(** A session that resolves is stored as the JSON of itself. *)
Lemma session_of_stored (w : world) (token : string) (data : RefreshTokenData.t) :
  session_of w token = Some data →
  ∃ dl, store w !! (refreshTokenPrefix +:+ token)
        = Some (mkEntry (VString (encoded data)) dl).
Proof.
  unfold session_of, lookup.
  destruct (store w !! _) as [[[[d|raw]|s] dl]|]; try done;
    destruct (alive w _); try done.
  intros [= ->]. by exists dl.
Qed.

(** The user id [Login] makes of a valid username is valid. *)
Lemma valid_user_prefix (username : string) :
  json.valid username → json.valid ("user-" +:+ username).
Proof. unfold json.valid. intros Hu. by rewrite <- Hu at 2. Qed.

End index_invariant.

Section endpoints_invariant.
Import jwt redis auth middleware internalauth.
Context `{Signer}.

(** For 1 to 106751 days the refresh expiry does not overflow: it is a
    positive number of whole seconds. *)
Lemma refreshExpiry_whole_seconds (h : Handler) :
  1 ≤ refreshTokenExpiryDays h ≤ 106751 →
  0 < refreshExpiry h ∧ usePrecise (refreshExpiry h) = false
  ∧ ttl_ms (refreshExpiry h) = refreshTokenExpiryDays h * 86400000.
Proof.
  intros Hd. unfold refreshExpiry, mul64.
  rewrite (wrap64_small (refreshTokenExpiryDays h * 24))
    by (unfold min_int64, max_int64; lia).
  rewrite wrap64_small by (unfold Hour, Minute, Second, min_int64, max_int64; lia).
  replace (refreshTokenExpiryDays h * 24 * Hour)
    with (refreshTokenExpiryDays h * 86400 * Second)
    by (unfold Hour, Minute, Second; lia).
  split; [unfold Second; lia|]. split.
  - unfold usePrecise. rewrite Z.rem_mul by (unfold Second; lia).
    rewrite bool_decide_eq_false_2 by (unfold Second; lia).
    by rewrite bool_decide_eq_true_2.
  - unfold ttl_ms, formatSec.
    rewrite (bool_decide_eq_false_2 (_ < Second)) by (unfold Second; lia).
    rewrite andb_false_r, Z.quot_mul by (unfold Second; lia). lia.
Qed.

Lemma Login_keeps_index h ks entropy c w r w' :
  1 ≤ refreshTokenExpiryDays h ≤ 106751 →
  bound c →
  plan w = healthy → well_indexed (ttl_ms (refreshExpiry h)) w →
  Login h ks entropy c w = (r, w') → steady h w'.
Proof.
  intros Hd Hb Hp Hwi.
  destruct (refreshExpiry_whole_seconds h Hd) as (Hpos & Hprec & _).
  unfold steady, Login.
  destruct (Body_login c) as [[username password]|] eqn:Hbody; [|by intros [= <- <-]].
  case_bool_decide; [by intros [= <- <-]|].
  unfold bind at 1, time_Now.
  destruct (GenerateTokenPair _ _ _ _ _ _ _ _ _ _) as [tokenPair|e].
  - unfold bind at 1. unfold bind at 1.
    destruct (StoreRefreshToken _ _ _ w) as [rs ws] eqn:Es.
    eapply StoreRefreshToken_well_indexed in Es as (Hwis & Ps & _);
      [|done|done|done|done|apply valid_user_prefix; by eapply Hb|done].
    destruct rs as [[]|e]; [by intros [= <- <-]|]. unfold bind, ret. simpl.
    intros [= <- <-]. split; [by apply (well_indexed_ext _ ws)|done].
  - unfold bind, ret. simpl. intros [= <- <-].
    split; [by apply (well_indexed_ext _ w)|done].
Qed.

Lemma Refresh_keeps_index h ks entropy c w r w' :
  1 ≤ refreshTokenExpiryDays h ≤ 106751 →
  plan w = healthy → well_indexed (ttl_ms (refreshExpiry h)) w →
  Refresh h ks entropy c w = (r, w') → steady h w'.
Proof.
  intros Hd Hp Hwi. destruct (refreshExpiry_whole_seconds h Hd) as (Hpos & Hprec & _).
  unfold steady, Refresh. case_bool_decide; [by intros [= <- <-]|].
  unfold bind at 1.
  destruct (GetRefreshTokenData _ w) as [rg wg] eqn:Eg.
  pose proof (GetRefreshTokenData_effect _ _ _ _ Eg) as (_ & _ & Hres).
  apply GetRefreshTokenData_healthy in Eg as (Qg & Pg & Sg & _); [|done].
  pose proof (well_indexed_same _ w wg Qg Sg Hwi) as Hwig.
  destruct rg as [tokenData|e];
    [|unfold bind, ret; simpl; intros [= <- <-];
      split; [by apply (well_indexed_ext _ wg)|done]].
  assert (json.valid (RefreshTokenData.UserID tokenData)) as Hvalid.
  { destruct (session_of_stored w _ _ (Hres tokenData eq_refl)) as [dl Hst].
    by apply (wi_valid _ _ Hwi _ _ _ Hst). }
  unfold bind at 1.
  destruct (RevokeRefreshToken _ wg) as [rr wr] eqn:Er.
  eapply RevokeRefreshToken_well_indexed in Er as (Hwir & Pr & _); [|done..].
  unfold bind at 1.
  assert (∃ wl, (match rr with
                 | Ok _ => ret tt
                 | Err _ => logMsg Warn "Failed to revoke old refresh token"
                 end) wr = (tt, wl)
                ∧ well_indexed (ttl_ms (refreshExpiry h)) wl ∧ plan wl = healthy)
    as (wl & -> & Hwil & Pl).
  { destruct rr as [[]|e]; [by exists wr|].
    eexists. split; [reflexivity|]. split; [by apply (well_indexed_ext _ wr)|done]. }
  unfold bind at 1, time_Now.
  destruct (GenerateTokenPair _ _ _ _ _ _ _ _ _ _) as [tokenPair|e].
  - unfold bind at 1. unfold bind at 1.
    destruct (StoreRefreshToken _ _ _ wl) as [rs ws] eqn:Es.
    eapply StoreRefreshToken_well_indexed in Es as (Hwis & Ps & _); [|done..].
    destruct rs as [[]|e]; [by intros [= <- <-]|]. unfold bind, ret. simpl.
    intros [= <- <-]. split; [by apply (well_indexed_ext _ ws)|done].
  - unfold bind, ret. simpl. intros [= <- <-].
    split; [by apply (well_indexed_ext _ wl)|done].
Qed.

Lemma Logout_keeps_index h c w r w' :
  plan w = healthy → well_indexed (ttl_ms (refreshExpiry h)) w →
  Logout h c w = (r, w') → steady h w'.
Proof.
  intros Hp Hwi. unfold steady, Logout. unfold bind at 1.
  case_bool_decide; [|by intros [= <- <-]].
  unfold bind at 1. destruct (RevokeRefreshToken _ w) as [rr wr] eqn:Er.
  eapply RevokeRefreshToken_well_indexed in Er as (Hwir & Pr & _); [|done..].
  destruct rr as [[]|e]; [by intros [= <- <-]|]. simpl. intros [= <- <-].
  split; [by apply (well_indexed_ext _ wr)|done].
Qed.

Lemma LogoutAll_keeps_index h c w r w' :
  plan w = healthy → well_indexed (ttl_ms (refreshExpiry h)) w →
  LogoutAll h c w = (r, w') → steady h w'.
Proof.
  intros Hp Hwi. unfold steady, LogoutAll.
  destruct (GetClaims (Ctx c)) as [claims|]; [|by intros [= <- <-]].
  unfold bind at 1. destruct (RevokeAllUserTokens _ w) as [rr wr] eqn:Er.
  eapply RevokeAllUserTokens_well_indexed in Er as (Hwir & Pr & _); [|done..].
  destruct rr as [[]|e]; [by intros [= <- <-]|]. unfold bind, ret. simpl.
  intros [= <- <-]. split; [by apply (well_indexed_ext _ wr)|done].
Qed.

Lemma ListSessions_keeps_index h c w r w' :
  plan w = healthy → well_indexed (ttl_ms (refreshExpiry h)) w →
  ListSessions h c w = (r, w') → steady h w'.
Proof.
  intros Hp Hwi. unfold steady, ListSessions.
  destruct (GetClaims (Ctx c)) as [claims|]; [|by intros [= <- <-]].
  unfold bind at 1. destruct (ListUserTokens _ w) as [rr wr] eqn:Er.
  eapply ListUserTokens_well_indexed in Er as (Hwir & Pr & _); [|done..].
  destruct rr as [sessions|e]; [by intros [= <- <-]|]. unfold bind, ret. simpl.
  intros [= <- <-]. split; [by apply (well_indexed_ext _ wr)|done].
Qed.

(** The empty store on a healthy connection is steady. *)
Lemma steady_empty (h : Handler) (w : world) :
  store w = ∅ → plan w = healthy → steady h w.
Proof. intros Hs Hp. split; [by apply well_indexed_empty|done]. Qed.

(** On a connection that stays healthy, with a refresh expiry of 1 to
    106751 days, every endpoint and the passing of time keep the store
    well-indexed; in particular every session that resolves is listed in
    the index of its user, from the empty store on. *)
Theorem sessions_stay_indexed (h : Handler) (ks : keys)
    (entropy : option (list Byte.byte)) (c : Request) (w : world) (d : Duration) :
  1 ≤ refreshTokenExpiryDays h ≤ 106751 →
  bound c →
  steady h w →
  index_complete w
  ∧ steady h (Login h ks entropy c w).2
  ∧ steady h (Refresh h ks entropy c w).2
  ∧ steady h (Logout h c w).2
  ∧ steady h (LogoutAll h c w).2
  ∧ steady h (ListSessions h c w).2
  ∧ (0 ≤ d → steady h (elapse d w)).
Proof.
  intros Hd Hb [Hwi Hp].
  split; [by eapply well_indexed_complete|].
  split; [destruct (Login _ _ _ _ _) eqn:E; by eapply Login_keeps_index|].
  split; [destruct (Refresh _ _ _ _ _) eqn:E; by eapply Refresh_keeps_index|].
  split; [destruct (Logout _ _ _) eqn:E; by eapply Logout_keeps_index|].
  split; [destruct (LogoutAll _ _ _) eqn:E; by eapply LogoutAll_keeps_index|].
  split; [destruct (ListSessions _ _ _) eqn:E; by eapply ListSessions_keeps_index|].
  intros Hd0. split; [by apply well_indexed_elapse|done].
Qed.

End endpoints_invariant.

(** * Further properties *)

(** ** The bearer-token middleware and the remaining gates *)

Section bearer.
Import jwt auth middleware ginchain.
Context `{Signer}.

Lemma ValidateToken_Malformed (ks : keys) (now : Time) (raw : string) :
  ∃ e, ValidateToken ks now (Malformed raw) = Err e.
Proof.
  unfold ValidateToken. destruct (publicKey ks); simpl; eauto.
Qed.

Lemma JWTAuth_Bearer (ks : keys) (now : Time) (ts : tokenString) (c : Context) :
  JWTAuth ks now (Bearer ts) c =
    match ValidateToken ks now ts with
    | Err _ =>
        (AbortWithStatusJSON StatusUnauthorized
           {[ "error" := JString "invalid or expired token" ]}, c)
    | Ok claims => (Next, Set_claims c claims)
    end.
Proof. reflexivity. Qed.

Lemma JWTAuth_Raw (ks : keys) (now : Time) (s : string) (c : Context) :
  ∃ body, JWTAuth ks now (Raw s) c = (AbortWithStatusJSON StatusUnauthorized body, c).
Proof.
  unfold JWTAuth. simpl. case_bool_decide; [by eexists|].
  destruct (HasPrefix s BearerPrefix); simpl; [|by eexists].
  destruct (ValidateToken_Malformed ks now (TrimPrefix s BearerPrefix)) as [e ->].
  by eexists.
Qed.

Lemma GetClaims_Set_claims (c : Context) (claims : Claims) :
  GetClaims (Set_claims c claims) = Some claims.
Proof. unfold GetClaims, Set_claims. simpl. by rewrite lookup_insert_eq. Qed.

(** X1.  [JWTAuth] lets a request through exactly when its Authorization
    header is "Bearer " followed by a token that [ValidateToken] accepts
    at that instant; the claims [GetClaims] then reads from the context
    are the validated ones, whatever the context held before.  Every
    other request is aborted with 401 and its context is left as it
    was. *)
Theorem JWTAuth_passes_iff (ks : keys) (now : Time) (authHeader : headerValue)
    (c : Context) :
  ((JWTAuth ks now authHeader c).1 = Next
   ↔ ∃ ts claims, authHeader = Bearer ts ∧ ValidateToken ks now ts = Ok claims)
  ∧ (∀ ts claims, authHeader = Bearer ts → ValidateToken ks now ts = Ok claims →
       JWTAuth ks now authHeader c = (Next, Set_claims c claims)
       ∧ GetClaims (JWTAuth ks now authHeader c).2 = Some claims)
  ∧ ((JWTAuth ks now authHeader c).1 ≠ Next →
       ∃ body, JWTAuth ks now authHeader c
               = (AbortWithStatusJSON StatusUnauthorized body, c)).
Proof.
  destruct authHeader as [s|ts].
  - destruct (JWTAuth_Raw ks now s c) as [body E]. rewrite E. simpl.
    split; [|split].
    + split; [done|]. by intros (ts & claims & ? & _).
    + by intros ts claims ?.
    + intros _. by eexists.
  - rewrite JWTAuth_Bearer.
    destruct (ValidateToken ks now ts) as [claims|e] eqn:E; simpl.
    + split; [|split].
      * split; [eauto|done].
      * intros ts' claims' [= <-] E'. rewrite E in E'. injection E' as <-.
        split; [done|]. apply GetClaims_Set_claims.
      * done.
    + split; [|split].
      * split; [done|]. intros (ts' & claims & [= <-] & E'). congruence.
      * intros ts' claims [= <-] E'. congruence.
      * intros _. by eexists.
Qed.

Lemma role_listed_spec (role : string) (roles : list string) :
  role_listed role roles = true ↔ role ∈ roles.
Proof.
  induction roles as [|r roles IH]; simpl.
  - rewrite elem_of_nil. split; [done|tauto].
  - rewrite elem_of_cons. case_bool_decide; [tauto|].
    rewrite IH. split; [tauto|]. intros [?|?]; [done|tauto].
Qed.

(** X2.  For an authenticated request [RequireRole] lets the request
    through exactly when the role of the claims is one of the listed
    roles, and aborts with 403 otherwise, so the empty list lets nobody
    through; a request without claims in its context is aborted with
    401. *)
Theorem RequireRole_iff_listed (roles : list string) (c : Context) :
  (∀ claims, authenticated c claims →
     (RequireRole roles c = Next ↔ Role claims ∈ roles)
     ∧ (Role claims ∉ roles →
        RequireRole roles c =
          AbortWithStatusJSON StatusForbidden
            {[ "error" := JString "insufficient permissions" ]}))
  ∧ (Keys c !! ClaimsKey = None →
     RequireRole roles c =
       AbortWithStatusJSON StatusUnauthorized
         {[ "error" := JString "not authenticated" ]}).
Proof.
  unfold authenticated, RequireRole. split.
  - intros claims ->.
    destruct (role_listed (Role claims) roles) eqn:E.
    + apply role_listed_spec in E. split; [done|]. tauto.
    + assert (Role claims ∉ roles) as Hn.
      { intros Hin. apply role_listed_spec in Hin. congruence. }
      split; [|done]. split; [done|tauto].
  - by intros ->.
Qed.

Lemma missing_of_filter (m : gmap string bool) (permissions : list string) :
  missing_of m permissions = filter (fun p => map_get m p = false) permissions.
Proof.
  induction permissions as [|p ps IH]; [done|]. simpl.
  destruct (map_get m p) eqn:E.
  - rewrite filter_cons_False by (rewrite E; done). done.
  - rewrite filter_cons_True by done. by rewrite IH.
Qed.

(** X3.  For an authenticated request [RequireAllPermissions] lets the
    request through exactly when every required permission is in the
    permission snapshot of the claims; otherwise it aborts with 403 and
    the body lists under "missing" the required permissions the claims
    lack, in the order (and with the repetitions) of the required list. *)
Theorem RequireAllPermissions_iff_all_held (permissions : list string) (c : Context)
    (claims : Claims) :
  authenticated c claims →
  (RequireAllPermissions permissions c = Next
   ↔ ∀ p, p ∈ permissions → p ∈ Permissions claims)
  ∧ (RequireAllPermissions permissions c ≠ Next →
     RequireAllPermissions permissions c =
       AbortWithStatusJSON StatusForbidden
         (<[ "missing" :=
               JStrings (filter (fun p => p ∉ Permissions claims) permissions) ]>
            {[ "error" := JString "insufficient permissions" ]})).
Proof.
  unfold authenticated, RequireAllPermissions. intros ->. simpl.
  assert (missing_of (userPermsOf (Permissions claims)) permissions
          = filter (fun p => p ∉ Permissions claims) permissions) as ->.
  { rewrite missing_of_filter. apply list_filter_iff. intros p.
    rewrite <- userPermsOf_spec.
    destruct (map_get (userPermsOf (Permissions claims)) p); split; congruence. }
  destruct (filter _ permissions) as [|q l] eqn:E; simpl.
  - try (rewrite bool_decide_eq_false_2 by lia). split; [|done].
    split; [|done]. intros _ p Hp.
    destruct (decide (p ∈ Permissions claims)) as [|Hn]; [done|].
    assert (p ∈ filter (fun p => p ∉ Permissions claims) permissions) as Hin
      by (apply list_elem_of_filter; done).
    rewrite E in Hin. by apply elem_of_nil in Hin.
  - try (rewrite bool_decide_eq_true_2 by lia). split; [|done].
    split; [done|]. intros Hall.
    assert (q ∈ filter (fun p => p ∉ Permissions claims) permissions) as Hin
      by (rewrite E; left).
    apply list_elem_of_filter in Hin as [Hq Hin]. destruct Hq. by apply Hall.
Qed.

(** X4.  The two permission gates compose as "all" and "any": a request
    that [RequireAllPermissions] lets through for a non-empty list is let
    through by [RequirePermission] for the same list, and for a single
    permission the two gates let through the same requests. *)
Theorem all_permissions_imply_any (permissions : list string) (p : string)
    (c : Context) :
  (permissions ≠ [] → RequireAllPermissions permissions c = Next →
     RequirePermission permissions c = Next)
  ∧ (RequirePermission [p] c = Next ↔ RequireAllPermissions [p] c = Next).
Proof.
  unfold RequireAllPermissions, RequirePermission.
  destruct (Keys c !! ClaimsKey) as [[claims|v]|]; [|done|done].
  split.
  - intros Hne. case_bool_decide as Hm; [done|]. intros _.
    destruct permissions as [|q rest]; [done|]. simpl in *.
    destruct (map_get (userPermsOf (Permissions claims)) q); [done|].
    simpl in Hm. lia.
  - simpl. destruct (map_get (userPermsOf (Permissions claims)) p); simpl.
    + try (rewrite bool_decide_eq_false_2 by lia). done.
    + try (rewrite bool_decide_eq_true_2 by lia). done.
Qed.

End bearer.

(** ** Routes behind the bearer token *)

Section guarded_routes.
Import jwt auth middleware models ginchain.
Context `{Signer}.

Lemma JWTAuth_cases (ks : keys) (now : Time) (authHeader : headerValue) (c : Context) :
  (∃ ts claims, authHeader = Bearer ts ∧ ValidateToken ks now ts = Ok claims
                ∧ JWTAuth ks now authHeader c = (Next, Set_claims c claims))
  ∨ ((∀ ts claims, authHeader = Bearer ts → ValidateToken ks now ts ≠ Ok claims)
     ∧ ∃ body, JWTAuth ks now authHeader c
               = (AbortWithStatusJSON StatusUnauthorized body, c)).
Proof.
  destruct authHeader as [s|ts].
  - right. split; [done|]. apply JWTAuth_Raw.
  - rewrite JWTAuth_Bearer. destruct (ValidateToken ks now ts) as [claims|e] eqn:E.
    + left. by exists ts, claims.
    + right. split; [|by eexists]. intros ts' claims [= <-]. congruence.
Qed.

Lemma RequireRole_Set_claims (roles : list string) (c : Context) (claims : Claims) :
  RequireRole roles (Set_claims c claims) =
    if role_listed (Role claims) roles then Next
    else AbortWithStatusJSON StatusForbidden
           {[ "error" := JString "insufficient permissions" ]}.
Proof. unfold RequireRole, Set_claims. simpl. by rewrite lookup_insert_eq. Qed.

(** X5.  The routes of the protected group answer 200 exactly to a
    request whose bearer token validates, and 401 to every other
    request; the admin dashboard answers 200 exactly when, in addition,
    the role of the claims is "admin", and 403 to a valid token of
    another role.  The dashboard handler, which dereferences the claims
    without checking that they are there, never does so on a nil pointer
    behind its two middlewares. *)
Theorem protected_routes (ks : keys) (now : Time) (authHeader : headerValue)
    (c : Context) :
  let valid claims :=
    ∃ ts, authHeader = Bearer ts ∧ ValidateToken ks now ts = Ok claims in
  (∃ r, protected.GET_protected_secret ks now authHeader c = protected.Done r
        ∧ (protected.code r = StatusOK ↔ ∃ claims, valid claims)
        ∧ (protected.code r ≠ StatusOK → protected.code r = StatusUnauthorized))
  ∧ (∃ r, protected.GET_protected_profile ks now authHeader c = protected.Done r
          ∧ (protected.code r = StatusOK ↔ ∃ claims, valid claims)
          ∧ (protected.code r ≠ StatusOK → protected.code r = StatusUnauthorized))
  ∧ (∃ r, protected.GET_protected_admin_dashboard ks now authHeader c = protected.Done r
          ∧ (protected.code r = StatusOK
             ↔ ∃ claims, valid claims ∧ Role claims = "admin")
          ∧ (∀ claims, valid claims → Role claims ≠ "admin" →
               protected.code r = StatusForbidden)
          ∧ ((∀ claims, ¬ valid claims) → protected.code r = StatusUnauthorized)).
Proof.
  intros valid. unfold protected.GET_protected_secret, protected.GET_protected_profile,
    protected.GET_protected_admin_dashboard. simpl.
  destruct (JWTAuth_cases ks now authHeader c)
    as [(ts & claims & -> & E & ->)|(Hno & body & ->)].
  - assert (valid claims) as Hv by (by exists ts).
    assert (∀ claims', valid claims' → claims' = claims) as Huniq.
    { intros claims' (ts' & [= <-] & E'). congruence. }
    unfold protected.Secret, protected.Profile, gate.
    rewrite RequireRole_Set_claims, GetClaims_Set_claims. simpl.
    split; [|split].
    + eexists. split; [done|]. simpl. split; [|done]. split; [eauto|done].
    + eexists. split; [done|]. simpl. split; [|done]. split; [eauto|done].
    + case_bool_decide as Hr; simpl.
      * unfold protected.AdminDashboard. rewrite GetClaims_Set_claims.
        eexists. split; [done|]. simpl. split; [|split].
        -- split; [eauto|done].
        -- intros claims' Hv' Hne. apply Huniq in Hv'. congruence.
        -- intros Hn. destruct (Hn claims Hv).
      * eexists. split; [done|]. simpl. split; [|split].
        -- split; [done|]. intros (claims' & Hv' & Hr').
           apply Huniq in Hv'. congruence.
        -- done.
        -- intros Hn. destruct (Hn claims Hv).
  - assert (∀ claims, ¬ valid claims) as Hn.
    { intros claims (ts & -> & E). by apply (Hno ts claims). }
    unfold protected.aborted.
    split; [|split]; (eexists; split; [done|]); simpl.
    + split; [|done]. split; [done|]. intros [claims Hv]. by destruct (Hn claims).
    + split; [|done]. split; [done|]. intros [claims Hv]. by destruct (Hn claims).
    + split; [|split].
      * split; [done|]. intros (claims & Hv & _). by destruct (Hn claims).
      * intros claims Hv. by destruct (Hn claims).
      * done.
Qed.

Lemma RequirePermission_Set_claims (permissions : list string) (c : Context)
    (claims : Claims) :
  RequirePermission permissions (Set_claims c claims) =
    if any_held (userPermsOf (Permissions claims)) permissions then Next
    else AbortWithStatusJSON StatusForbidden
           (<[ "required" := JStrings permissions ]>
              {[ "error" := JString "insufficient permissions" ]}).
Proof. unfold RequirePermission, Set_claims. simpl. by rewrite lookup_insert_eq. Qed.

(** X6.  The ping route writes a row only for an authorized request: the
    table is left as it was unless the bearer token validates and its
    claims hold "ping:read"; a request without a valid token is answered
    401, a valid token without the permission 403, and an authorized
    request is answered 200 with "pong" once its row, keyed by the next
    value of the sequence, is appended. *)
Theorem ping_route_guarded (ks : keys) (now : Time) (authHeader : headerValue)
    (t : ping.Table) (c : Context) :
  let authorized :=
    ∃ ts claims, authHeader = Bearer ts ∧ ValidateToken ks now ts = Ok claims
                 ∧ "ping:read" ∈ Permissions claims in
  let r := ping.GET_ping ks now authHeader t c in
  (¬ authorized →
     r.2 = t ∧ (ping.code r.1 = StatusUnauthorized ∨ ping.code r.1 = StatusForbidden))
  ∧ (authorized →
     r = ping.Handler_Ping now t c
     ∧ (ping.code r.1 = StatusOK →
        ping.body r.1 = ping.BodyPing "pong"
        ∧ ping.pings r.2
          = ping.pings t ++ [ping.Ping.mk (ping.pings_id_seq t) "pong" now])
     ∧ (ping.code r.1 ≠ StatusOK →
        r.2 = t ∧ ping.code r.1 = StatusInternalServerError)).
Proof.
  intros authorized r. subst r. unfold ping.GET_ping. simpl.
  destruct (JWTAuth_cases ks now authHeader c)
    as [(ts & claims & -> & E & ->)|(Hno & body & ->)].
  - unfold gate. rewrite RequirePermission_Set_claims.
    destruct (any_held _ _) eqn:Hany.
    + assert ("ping:read" ∈ Permissions claims) as Hp.
      { apply any_held_spec in Hany as (p & Hp & Hm).
        apply list_elem_of_singleton in Hp as ->. by apply userPermsOf_spec. }
      split.
      * intros Hn. destruct Hn. by exists ts, claims.
      * intros _. split; [done|].
        unfold ping.Handler_Ping, ping.Service_Ping, ping.Create_ping.
        destruct (existsb _ _); simpl; split; done.
    + split.
      * intros _. simpl. split; [done|by right].
      * intros (ts' & claims' & [= <-] & E' & Hp).
        assert (claims' = claims) as -> by congruence.
        assert (any_held (userPermsOf (Permissions claims)) ["ping:read"] = true) as E2.
        { apply any_held_spec. exists "ping:read". split; [left|].
          by apply userPermsOf_spec. }
        congruence.
  - split.
    + intros _. simpl. split; [done|by left].
    + intros (ts & claims & -> & E & _). by destruct (Hno ts claims).
Qed.

End guarded_routes.

(** ** The session store: lifetime, revocation and isolation *)

Section session_lifetime.
Import redis auth.

Lemma formatSec_seconds (n : Z) : 1 ≤ n → formatSec (n * Second) = n.
Proof.
  intros Hn. unfold formatSec.
  rewrite (bool_decide_eq_false_2 (_ < Second)) by (unfold Second; lia).
  rewrite andb_false_r. apply Z.quot_mul. unfold Second. lia.
Qed.

Lemma usePrecise_seconds (n : Z) : 1 ≤ n → usePrecise (n * Second) = false.
Proof.
  intros Hn. unfold usePrecise. rewrite Z.rem_mul by (unfold Second; lia).
  rewrite bool_decide_eq_false_2 by (unfold Second; lia).
  by rewrite bool_decide_eq_true_2.
Qed.

(** Data whose strings are valid UTF-8 comes back from JSON as it was. *)
Lemma json_data_valid (data : RefreshTokenData.t) :
  valid_data data → json_data data = data.
Proof.
  destruct data as [u n r p t a i]. unfold valid_data, json_data. simpl.
  intros (-> & -> & -> & Hp & -> & ->). by rewrite (texts_valid p Hp).
Qed.

(** What a successful put leaves under the session key. *)
Lemma StoreRefreshToken_session_entry token data n w w' :
  1 ≤ n →
  StoreRefreshToken token data (n * Second) w = (Ok tt, w') →
  Client w' = true ∧ clock w' = clock w
  ∧ store w' !! (refreshTokenPrefix +:+ token)
    = Some (mkEntry (VString (encoded (json_data data))) (Some (now_ms w + n * 1000))).
Proof.
  intros Hn. unfold StoreRefreshToken, Client_is_nil, bind, ret.
  destruct (Client w) eqn:Hc; simpl; [|done].
  unfold json_Marshal. destruct (Time_MarshalJSON_ok _); [|done].
  destruct (Set_ _ _ _ w) as [[[]|e1] w1] eqn:E1; [|done].
  destruct (SAdd _ _ w1) as [[m|e2] w2] eqn:E2; [|done].
  destruct (Expire _ _ w2) as [r3 w3] eqn:E3. intros [= <-].
  pose proof (SAdd_other _ _ _ _ _ E2) as [(C2 & L2 & _) O2].
  pose proof (Expire_other _ _ _ _ _ E3) as [(C3 & L3 & _) O3].
  unfold Set_ in E1.
  apply command_cases in E1 as ((C1 & L1 & _) & _ & [(_ & ? & _)|(_ & E1)]); [done|].
  simpl in E1. rewrite bool_decide_eq_true_2 in E1 by (unfold Second; lia).
  rewrite usePrecise_seconds, formatSec_seconds in E1 by done.
  injection E1 as E1.
  split; [congruence|]. split; [congruence|].
  rewrite O3, O2 by apply session_key_not_index_key.
  rewrite <- E1, lookup_insert_eq. done.
Qed.

(** X7.  A session put with a time to live of [n] whole seconds resolves
    for the whole of its time to live, and no longer once a millisecond
    more than that has passed: a read over a working connection returns,
    at every instant up to [n] seconds after the put, the data as it
    comes back from JSON, every string with each byte that begins no
    UTF-8 character replaced by U+FFFD, hence the data that was put when
    its strings are valid UTF-8; and it returns "not found or expired"
    from [n] seconds and one millisecond on. *)
Theorem session_lives_for_its_ttl (token : string) (data : RefreshTokenData.t)
    (n : Z) (w w' : world) :
  1 ≤ n →
  StoreRefreshToken token data (n * Second) w = (Ok tt, w') →
  (valid_data data → json_data data = data)
  ∧ ∀ (d : Duration) (fp : faults),
      0 ≤ d → (next_outcome fp).1 = false →
      (d ≤ n * Second →
         (GetRefreshTokenData token (with_plan (elapse d w') fp)).1
           = Ok (json_data data))
      ∧ (n * Second + Millisecond ≤ d →
         (GetRefreshTokenData token (with_plan (elapse d w') fp)).1
           = Err ErrNotFoundOrExpired).
Proof.
  intros Hn Hs. split; [apply json_data_valid|]. intros d fp Hd Hfp.
  apply StoreRefreshToken_session_entry in Hs as (Hc & Hclk & Hst); [|done].
  unfold GetRefreshTokenData, Client_is_nil, bind, ret. simpl. rewrite Hc. simpl.
  unfold Get, command. simpl.
  destruct (next_outcome fp) as [failed fp'] eqn:Efp. simpl in Hfp. subst failed.
  unfold lookup. simpl. rewrite Hst. unfold alive, now_ms. simpl. rewrite Hclk.
  assert ((clock w + n * Second) / Millisecond = clock w / Millisecond + n * 1000) as Hdiv.
  { replace (clock w + n * Second) with (clock w + n * 1000 * Millisecond)
      by (unfold Second, Millisecond; lia).
    apply Z.div_add. unfold Millisecond. lia. }
  split; intros Hle.
  - rewrite bool_decide_eq_true_2; [done|].
    rewrite <- Hdiv. apply Z.div_le_mono; [unfold Millisecond|]; lia.
  - rewrite bool_decide_eq_false_2; [done|].
    assert (clock w / Millisecond + n * 1000 + 1 ≤ (clock w + d) / Millisecond); [|lia].
    replace (clock w / Millisecond + n * 1000 + 1)
      with ((clock w + (n * 1000 + 1) * Millisecond) / Millisecond)
      by (rewrite Z.div_add by (unfold Millisecond; lia); lia).
    apply Z.div_le_mono; unfold Second, Millisecond in *; lia.
Qed.

(** A command that reaches the server runs there. *)
Lemma command_reaches {A} (exec : world → result redisError A * gmap string entry)
    (w : world) (r : result redisError A) (w' : world) :
  (next_outcome (plan w)).1 = false →
  command exec w = (r, w') →
  quiet w w' ∧ plan w' = (next_outcome (plan w)).2
  ∧ exec (with_plan w (next_outcome (plan w)).2) = (r, store w').
Proof.
  intros Hf E. apply command_cases in E as (Q & P & [(Ht & _)|(_ & E)]); [congruence|].
  done.
Qed.

(** A command that returned no error reached the server. *)
Lemma command_Ok_reached {A} (exec : world → result redisError A * gmap string entry)
    (w : world) (a : A) (w' : world) :
  command exec w = (Ok a, w') → (next_outcome (plan w)).1 = false.
Proof.
  intros E. apply command_cases in E as (_ & _ & [(_ & ? & _)|(? & _)]); done.
Qed.

(** No time passing, the put is the put at one instant. *)
Lemma StoreRefreshToken_lagged_0 token data expiry w :
  StoreRefreshToken_lagged 0 0 token data expiry w
  = StoreRefreshToken token data expiry w.
Proof.
  assert (∀ w0, elapse 0 w0 = w0) as Hz.
  { intros [c cl st p l]. unfold elapse. simpl. f_equal. lia. }
  unfold StoreRefreshToken_lagged, StoreRefreshToken, Client_is_nil, bind, ret, pass.
  destruct (Client w); simpl; [|done].
  destruct (json_Marshal data) as [jsonData|]; [|done].
  destruct (Set_ _ _ _ w) as [[[]|e1] w1]; [|done]. rewrite Hz.
  destruct (SAdd _ _ w1) as [[m|e2] w2]; [|done]. by rewrite Hz.
Qed.

(** What a successful put leaves in the store when its EXPIRE reached the
    server and found the index: the session under its key, and the token
    in an index that expires no earlier than the session. *)
Lemma StoreRefreshToken_lagged_entries token data n lag1 lag2 w w' :
  1 ≤ n → 0 ≤ lag1 → 0 ≤ lag2 →
  outcome_at 2 (plan w) = false →
  (∀ e, lookup (elapse lag1 w) (userTokensPrefix +:+ RefreshTokenData.UserID data)
          = Some e →
        alive (elapse (lag1 + lag2) w) e = true) →
  StoreRefreshToken_lagged lag1 lag2 token data (n * Second) w = (Ok tt, w') →
  clock w' = clock w + lag1 + lag2
  ∧ store w' !! (refreshTokenPrefix +:+ token)
    = Some (mkEntry (VString (encoded (json_data data))) (Some (now_ms w + n * 1000)))
  ∧ ∃ s y, store w' !! (userTokensPrefix +:+ RefreshTokenData.UserID data)
             = Some (mkEntry (VSet s) (Some y))
           ∧ token ∈ s ∧ now_ms w + n * 1000 ≤ y.
Proof.
  intros Hn Hl1 Hl2 Hout Hidx.
  unfold StoreRefreshToken_lagged, Client_is_nil, bind, ret, pass.
  destruct (Client w) eqn:Hc; simpl; [|done].
  unfold json_Marshal. destruct (Time_MarshalJSON_ok _); [|done].
  destruct (Set_ _ _ _ w) as [[[]|e1] w1] eqn:E1; [|done].
  destruct (SAdd _ _ (elapse lag1 w1)) as [[m|e2] w2] eqn:E2; [|done].
  destruct (Expire _ _ (elapse lag2 w2)) as [r3 w3] eqn:E3. intros [= <-].
  set (key := refreshTokenPrefix +:+ token) in *.
  set (idx := userTokensPrefix +:+ RefreshTokenData.UserID data) in *.
  assert (key ≠ idx) as Hki by apply session_key_not_index_key.
  (* SET *)
  unfold Set_ in E1. pose proof (command_Ok_reached _ _ _ _ E1) as F1.
  apply command_reaches in E1 as ((C1 & _) & P1 & E1); [|done].
  simpl in E1. rewrite bool_decide_eq_true_2 in E1 by (unfold Second; lia).
  rewrite usePrecise_seconds, formatSec_seconds in E1 by done.
  injection E1 as E1.
  (* SADD *)
  unfold SAdd in E2. pose proof (command_Ok_reached _ _ _ _ E2) as F2.
  apply command_reaches in E2 as ((C2 & _) & P2 & E2); [|done].
  simpl in E2. rewrite lookup_with_plan in E2. simpl in C2, P2.
  assert (lookup (elapse lag1 w1) idx = lookup (elapse lag1 w) idx) as Hsame.
  { unfold lookup, alive, now_ms. simpl. rewrite <- E1, C1.
    by rewrite lookup_insert_ne. }
  rewrite Hsame in E2.
  assert (∃ s dl, store w2 = <[idx := mkEntry (VSet s) dl]> (store w1)
                  ∧ token ∈ s
                  ∧ alive (elapse (lag1 + lag2) w) (mkEntry (VSet s) dl) = true)
    as (s & dl & S2 & Hin & Hal).
  { destruct (lookup (elapse lag1 w) idx) as [[[b|s0] dl]|] eqn:Hlk.
    - discriminate E2.
    - injection E2 as _ E2. exists ({[token]} ∪ s0), dl.
      split; [done|]. split; [set_solver|]. by apply (Hidx _ eq_refl).
    - injection E2 as _ E2. exists {[token]}, None.
      split; [done|]. split; [set_solver|done]. }
  (* EXPIRE *)
  unfold Expire in E3.
  assert ((next_outcome (plan (elapse lag2 w2))).1 = false) as F3.
  { simpl. rewrite P2. simpl. rewrite P1. exact Hout. }
  apply command_reaches in E3 as ((C3 & _) & _ & E3); [|done].
  simpl in E3. rewrite lookup_with_plan in E3. simpl in C3.
  assert (clock w3 = clock w + lag1 + lag2) as Hclk by lia.
  assert (lookup (elapse lag2 w2) idx = Some (mkEntry (VSet s) dl)) as Hlk3.
  { unfold lookup. simpl. rewrite S2, lookup_insert_eq.
    revert Hal. unfold alive, now_ms. simpl. rewrite C2, C1.
    by replace (clock w + lag1 + lag2) with (clock w + (lag1 + lag2)) by lia; intros ->. }
  rewrite Hlk3 in E3. rewrite formatSec_seconds in E3 by done.
  rewrite bool_decide_eq_false_2 in E3 by lia. injection E3 as _ E3.
  split; [done|]. split.
  - rewrite <- E3, lookup_insert_ne, S2, lookup_insert_ne, <- E1 by done.
    by rewrite lookup_insert_eq.
  - exists s, (now_ms (elapse lag2 w2) + n * 1000).
    split; [by rewrite <- E3, lookup_insert_eq|]. split; [done|].
    assert (now_ms w ≤ now_ms (elapse lag2 w2)); [|lia].
    unfold now_ms. simpl. apply Z.div_le_mono; [unfold Millisecond|]; lia.
Qed.

(** C9, as amended.  Take a successful put of a session whose time to
    live is a whole number of seconds, at least one, and whose user id is
    valid UTF-8, run undisturbed by other requests, while time may pass
    between its commands.  When the EXPIRE that ends the put reached the
    server (the put does not look at its result) and the index of the
    user, if it was there at the SADD, had not expired by then, the
    token is listed in the index of its user for as long as it resolves:
    at every later instant, whatever the state of the connection, the
    token resolves to nothing or to the session as it comes back from
    JSON, whose user id is the one that was put, and when it resolves it
    is a member of the index of that user.  It does resolve until the
    time to live, counted from the SET, is over. *)
Theorem StoreRefreshToken_indexes (token : string) (data : RefreshTokenData.t)
    (n : Z) (lag1 lag2 : Duration) (w w' : world) :
  1 ≤ n → 0 ≤ lag1 → 0 ≤ lag2 →
  json.valid (RefreshTokenData.UserID data) →
  outcome_at 2 (plan w) = false →
  (∀ e, lookup (elapse lag1 w) (userTokensPrefix +:+ RefreshTokenData.UserID data)
          = Some e →
        alive (elapse (lag1 + lag2) w) e = true) →
  StoreRefreshToken_lagged lag1 lag2 token data (n * Second) w = (Ok tt, w') →
  ∀ (d : Duration) (fp : faults),
    0 ≤ d →
    (lag1 + lag2 + d ≤ n * Second →
     session_of (with_plan (elapse d w') fp) token = Some (json_data data))
    ∧ ∀ session,
        session_of (with_plan (elapse d w') fp) token = Some session →
        session = json_data data
        ∧ RefreshTokenData.UserID session = RefreshTokenData.UserID data
        ∧ token ∈ index_of (with_plan (elapse d w') fp)
                    (RefreshTokenData.UserID session).
Proof.
  intros Hn Hl1 Hl2 Hvalid Hout Hidx E d fp Hd.
  destruct (StoreRefreshToken_lagged_entries _ _ _ _ _ _ _ Hn Hl1 Hl2 Hout Hidx E)
    as (Hclk & Hkey & s & y & Hi & Hin & Hy).
  unfold session_of, index_of, lookup. simpl. rewrite Hkey.
  unfold alive, now_ms. simpl. rewrite Hclk. fold (now_ms w). split.
  - intros Hle. rewrite bool_decide_eq_true_2; [done|].
    assert ((clock w + n * Second) / Millisecond = now_ms w + n * 1000) as <-.
    { unfold now_ms.
      replace (clock w + n * Second) with (clock w + n * 1000 * Millisecond)
        by (unfold Second, Millisecond; lia).
      apply Z.div_add. unfold Millisecond. lia. }
    apply Z.div_le_mono; [unfold Millisecond|]; lia.
  - intros session. case_bool_decide as Hlive; [|done]. intros [= <-].
    split; [done|]. simpl. rewrite Hvalid. split; [done|].
    rewrite Hi. simpl. rewrite bool_decide_eq_true_2 by lia. done.
Qed.

Lemma session_of_gone (w w' : world) (token : string) (d : Duration) (fp : faults) :
  store w' !! (refreshTokenPrefix +:+ token) = None →
  session_of (with_plan (elapse d w') fp) token = None.
Proof. intros Hs. unfold session_of, lookup. simpl. by rewrite Hs. Qed.

(** X8.  Revocation is final and idempotent.  Once [RevokeRefreshToken]
    has returned without error the token never resolves again, whatever
    time passes and whatever the state of the connection; it leaves the
    session of every other token as it was; and on a working connection
    it returns without error also for a token that has no session, so a
    second revocation succeeds like the first. *)
Theorem revocation_is_final (token : string) (w : world) :
  let r := RevokeRefreshToken token w in
  (r.1 = Ok tt →
     ∀ (d : Duration) (fp : faults),
       session_of (with_plan (elapse d r.2) fp) token = None
       ∧ ∃ e, (GetRefreshTokenData token (with_plan (elapse d r.2) fp)).1 = Err e)
  ∧ (∀ t, t ≠ token → session_of r.2 t = session_of w t)
  ∧ (Client w = true → plan w = healthy →
     r.1 = Ok tt ∧ (RevokeRefreshToken token r.2).1 = Ok tt).
Proof.
  intros r. subst r. destruct (RevokeRefreshToken token w) as [r w'] eqn:E. simpl.
  pose proof (RevokeRefreshToken_effect _ _ _ _ E) as (Q & Hgone & Hother).
  split; [|split].
  - intros -> d fp. specialize (Hgone eq_refl).
    pose proof (session_of_gone w w' token d fp Hgone) as Hn. split; [done|].
    destruct (GetRefreshTokenData_unknown _ _ Hn) as (e & w2 & ->). by eexists.
  - intros t Ht. unfold session_of.
    by rewrite (lookup_preserved w w') by (done || by apply Hother).
  - intros Hc Hp.
    assert (∀ w0 r0 w1, Client w0 = true → plan w0 = healthy →
              RevokeRefreshToken token w0 = (r0, w1) →
              r0 = Ok tt ∧ Client w1 = true ∧ plan w1 = healthy) as Hok.
    { clear. intros w0 r0 w1 Hc Hp.
      unfold RevokeRefreshToken, Client_is_nil, bind at 1. rewrite Hc. simpl.
      unfold bind at 1.
      destruct (GetRefreshTokenData token w0) as [rg wg] eqn:Eg.
      apply GetRefreshTokenData_healthy in Eg as ((_ & Cg & _) & Pg & _ & _); [|done].
      unfold bind at 1.
      assert (∃ ws, (match rg with
                     | Ok data =>
                         bind (SRem (userTokensPrefix +:+ RefreshTokenData.UserID data)
                                 token) (fun _ => ret tt)
                     | Err _ => ret tt
                     end) wg = (tt, ws) ∧ Client ws = Client wg ∧ plan ws = healthy)
        as (ws & -> & Cs & Ps).
      { destruct rg as [data|e]; [|by exists wg].
        unfold bind, ret. destruct (SRem _ _ wg) as [rs ws] eqn:Es.
        exists ws. apply SRem_healthy in Es as ((_ & ? & _) & ? & _); done. }
      unfold bind, ret. destruct (Del _ ws) as [rd wd] eqn:Ed.
      pose proof (Del_healthy _ _ _ _ Ps Ed) as ((_ & Cd & _) & Pd & _).
      unfold Del in Ed. apply command_healthy in Ed as (_ & _ & Ed); [|done].
      simpl in Ed. destruct (lookup _ _); injection Ed as <- _;
        intros [= <- <-]; (split; [done|split; [congruence|done]]). }
    destruct (Hok _ _ _ Hc Hp E) as (-> & Hc' & Hp'). split; [done|].
    destruct (RevokeRefreshToken token w') as [r2 w2] eqn:E2.
    by destruct (Hok _ _ _ Hc' Hp' E2) as (-> & _).
Qed.

Lemma delete_tokens_other (tokens : list string) (w w' : world) :
  delete_tokens tokens w = (tt, w') →
  quiet w w'
  ∧ ∀ k, (∀ t, t ∈ tokens → k ≠ refreshTokenPrefix +:+ t) →
         store w' !! k = store w !! k.
Proof.
  revert w. induction tokens as [|t tokens IH]; intros w; simpl.
  - intros [= <-]. split; [apply quiet_refl|done].
  - unfold bind. destruct (Del _ w) as [r1 w1] eqn:E1. intros E.
    apply Del_other in E1 as [Q1 O1]. apply IH in E as [Q O].
    split; [by eapply quiet_trans|]. intros k Hk.
    rewrite O, O1; [done|apply Hk; left|]. intros t' Ht'. apply Hk. by right.
Qed.

(** Revoking all tokens of a user writes the index key of that user and
    the session keys of the indexed tokens, and nothing else. *)
Lemma RevokeAllUserTokens_frame (userID : string) (w : world) r w' :
  RevokeAllUserTokens userID w = (r, w') →
  quiet w w'
  ∧ ∀ k, k ≠ userTokensPrefix +:+ userID →
         (∀ t, t ∈ index_of w userID → k ≠ refreshTokenPrefix +:+ t) →
         store w' !! k = store w !! k.
Proof.
  unfold RevokeAllUserTokens, Client_is_nil, bind at 1.
  destruct (Client w); simpl; [|intros [= <- <-]; split; [apply quiet_refl|done]].
  unfold bind at 1. destruct (SMembers _ w) as [rm wm] eqn:Em.
  pose proof (SMembers_other _ _ _ _ Em) as [Qm _].
  pose proof (SMembers_store _ _ _ _ Em) as Sm.
  destruct rm as [tokens|e]; [|intros [= <- <-]; split; [done|by rewrite Sm]].
  pose proof (SMembers_Ok _ _ _ _ Em) as Hmem.
  unfold bind at 1. destruct (delete_tokens tokens wm) as [[] wd] eqn:Ed.
  apply delete_tokens_other in Ed as [Qd Od].
  unfold bind, ret. destruct (Del _ wd) as [rd wx] eqn:Ex.
  apply Del_other in Ex as [Qx Ox].
  intros E. assert (w' = wx) as -> by (destruct rd; by injection E).
  split; [eapply quiet_trans; [|done]; by eapply quiet_trans|].
  intros k Hk Hidx. rewrite Ox, Od, Sm; [done| |done].
  intros t0 Ht0. apply Hidx. apply Hmem in Ht0 as (s & dl & Hl & Hin).
  unfold index_of. by rewrite Hl.
Qed.

(** X9.  The session operations are isolated from one another, whatever
    the state of the connection.  A put writes the session of its token
    and the index of its user only, and revoking all tokens of a user
    touches neither the session of a token that is not in that user's
    index nor the index of another user. *)
Theorem sessions_are_isolated (w : world) :
  (∀ token data expiry t u,
     let w' := (StoreRefreshToken token data expiry w).2 in
     (t ≠ token → session_of w' t = session_of w t)
     ∧ (u ≠ RefreshTokenData.UserID data → index_of w' u = index_of w u))
  ∧ (∀ userID t u,
       let w' := (RevokeAllUserTokens userID w).2 in
       (t ∉ index_of w userID → session_of w' t = session_of w t)
       ∧ (u ≠ userID → index_of w' u = index_of w u)).
Proof.
  split.
  - intros token data expiry t u w'. subst w'.
    destruct (StoreRefreshToken token data expiry w) as [r w'] eqn:E. simpl.
    apply StoreRefreshToken_effect in E as [Q O]. split.
    + intros Ht. unfold session_of. rewrite (lookup_preserved w w'); [done..|].
      apply O; [|apply session_key_not_index_key].
      intros Ek. by apply session_key_inj in Ek.
    + intros Hu. unfold index_of. rewrite (lookup_preserved w w'); [done..|].
      apply O; [apply index_key_not_session_key|].
      intros Ek. by apply index_key_inj in Ek.
  - intros userID t u w'. subst w'.
    destruct (RevokeAllUserTokens userID w) as [r w'] eqn:E. simpl.
    apply RevokeAllUserTokens_frame in E as [Q O].
    split.
    + intros Ht. unfold session_of. rewrite (lookup_preserved w w'); [done..|].
      apply O; [apply session_key_not_index_key|].
      intros t0 Ht0 Ek. apply session_key_inj in Ek. by subst.
    + intros Hu. unfold index_of. rewrite (lookup_preserved w w'); [done..|].
      apply O; [|intros ? _; apply index_key_not_session_key].
      intros Ek. by apply index_key_inj in Ek.
Qed.

End session_lifetime.

(** ** Listing the sessions of a user *)

Section listing.
Import redis auth.

Lemma session_of_same (w w' : world) (t : string) :
  quiet w w' →
  store w' !! (refreshTokenPrefix +:+ t) = store w !! (refreshTokenPrefix +:+ t) →
  session_of w' t = session_of w t.
Proof. intros Q S. unfold session_of. by rewrite (lookup_preserved w w'). Qed.

Lemma omap_ext_fun {A B} (f g : A → option B) (l : list A) :
  (∀ x, f x = g x) → omap f l = omap g l.
Proof. intros E. induction l as [|x l IH]; [done|]. csimpl. by rewrite E, IH. Qed.

(** One SREM on the index of a user, on a healthy connection. *)
Lemma SRem_index_of u t w r w' :
  plan w = healthy →
  (∀ b dl, lookup w (userTokensPrefix +:+ u) ≠ Some (mkEntry (VString b) dl)) →
  SRem (userTokensPrefix +:+ u) t w = (r, w') →
  quiet w w' ∧ plan w' = healthy
  ∧ index_of w' u = index_of w u ∖ {[t]}
  ∧ (∀ b dl, lookup w' (userTokensPrefix +:+ u) ≠ Some (mkEntry (VString b) dl))
  ∧ (∀ t', session_of w' t' = session_of w t').
Proof.
  intros Hp Hset E.
  pose proof (SRem_other _ _ _ _ _ E) as [Q O].
  pose proof (SRem_healthy _ _ _ _ _ Hp E) as (_ & P & S).
  assert (∀ t', session_of w' t' = session_of w t') as Hsess.
  { intros t'. apply session_of_same; [done|]. apply O, session_key_not_index_key. }
  split; [done|]. split; [done|].
  unfold index_of. unfold lookup at 1 3.
  destruct (lookup w (userTokensPrefix +:+ u)) as [[[b|s] dl]|] eqn:Hl.
  - by destruct (Hset b dl).
  - assert (alive w' (mkEntry (VSet (s ∖ {[t]})) dl) = true) as Ha.
    { unfold lookup in Hl. destruct (store w !! _) as [e|]; [|done].
      destruct (alive w e) eqn:Ha; [|done]. injection Hl as ->.
      unfold alive in *. simpl in *. by rewrite (quiet_now_ms w w'). }
    case_bool_decide as He.
    + rewrite S, lookup_delete_eq. split; [by rewrite He|]. split; [done|done].
    + rewrite S, lookup_insert_eq, Ha. split; [done|]. split; [|done].
      intros b dl' [=].
  - rewrite S. unfold lookup in Hl.
    destruct (store w !! (userTokensPrefix +:+ u)) as [e|] eqn:Hs.
    + destruct (alive w e) eqn:Ha; [done|].
      assert (alive w' e = false) as ->.
      { unfold alive in *. by rewrite (quiet_now_ms w w'). }
      split; [by rewrite empty_difference_L|]. split; done.
    + split; [by rewrite empty_difference_L|]. split; done.
Qed.

Lemma collect_tokens_healthy u tokens acc w r w' :
  Client w = true → plan w = healthy →
  (∀ b dl, lookup w (userTokensPrefix +:+ u) ≠ Some (mkEntry (VString b) dl)) →
  collect_tokens (userTokensPrefix +:+ u) tokens acc w = (r, w') →
  r = acc ++ omap (session_of w) tokens
  ∧ index_of w' u
    = index_of w u ∖ list_to_set (filter (fun t => session_of w t = None) tokens)
  ∧ (∀ t, session_of w' t = session_of w t)
  ∧ quiet w w' ∧ plan w' = healthy.
Proof.
  revert acc w r w'. induction tokens as [|t tokens IH]; intros acc w r w' Hc Hp Hset; simpl.
  - intros [= <- <-]. rewrite app_nil_r.
    split; [done|]. split; [by rewrite ?filter_nil, ?list_to_set_nil, difference_empty_L|].
    split; [done|].
    split; [apply quiet_refl|done].
  - unfold bind at 1.
    destruct (GetRefreshTokenData t w) as [rg wg] eqn:Eg.
    apply GetRefreshTokenData_healthy in Eg as (Qg & Pg & Sg & Hr); [|done].
    specialize (Hr Hc).
    assert (lookup wg (userTokensPrefix +:+ u) = lookup w (userTokensPrefix +:+ u)) as Hlg
      by (apply lookup_preserved; [done|by rewrite Sg]).
    assert (∀ t', session_of wg t' = session_of w t') as Hsg
      by (intros t'; apply session_of_same; [done|by rewrite Sg]).
    assert (index_of wg u = index_of w u) as Hig by (unfold index_of; by rewrite Hlg).
    assert (Client wg = true) as Hcg by (by rewrite (proj1 (proj2 Qg))).
    destruct (session_of w t) as [data|] eqn:Hst.
    + subst rg. intros E. apply IH in E as (-> & Hi & Hs & Q & P);
        [|done|done|by rewrite Hlg].
      rewrite filter_cons_False by (rewrite Hst; done).
      split; [rewrite <- app_assoc; simpl; f_equal; f_equal;
              by apply omap_ext_fun|].
      split; [rewrite Hi, Hig; f_equal; f_equal; apply list_filter_iff;
              intros t'; by rewrite Hsg|].
      split; [intros t'; by rewrite Hs|]. split; [by eapply quiet_trans|done].
    + destruct Hr as [e ->]. unfold bind at 1.
      destruct (SRem _ _ wg) as [rs ws] eqn:Es.
      apply SRem_index_of in Es as (Qs & Ps & Is & Hsets & Hss);
        [|done|by rewrite Hlg].
      assert (Client ws = true) as Hcs by (by rewrite (proj1 (proj2 Qs))).
      intros E. apply IH in E as (-> & Hi & Hs & Q & P); [|done..].
      rewrite filter_cons_True by done.
      split; [f_equal; apply omap_ext_fun; intros; by rewrite Hss, Hsg|].
      split.
      { rewrite Hi, Is, Hig.
        assert (filter (fun t0 => session_of ws t0 = None) tokens
                = filter (fun t0 => session_of w t0 = None) tokens) as ->.
        { apply list_filter_iff. intros t'. by rewrite Hss, Hsg. }
        rewrite list_to_set_cons. apply set_eq. intros x.
        rewrite !elem_of_difference, elem_of_union. tauto. }
      split; [intros t'; by rewrite Hs, Hss|].
      split; [eapply quiet_trans; [|done]; by eapply quiet_trans|done].
Qed.

(** X10.  On a healthy connection, listing the sessions of a user whose
    index key holds a set returns the sessions of exactly the indexed
    tokens that resolve, in the order the members were enumerated, and
    cleans the index up: afterwards the index holds the members that
    resolve and no other, and no session has changed.  Tokens whose
    session expired or cannot be decoded are the ones removed. *)
Theorem ListUserTokens_lists_live_sessions (userID : string) (w : world) :
  Client w = true → plan w = healthy →
  (∀ b dl, lookup w (userTokensPrefix +:+ userID) ≠ Some (mkEntry (VString b) dl)) →
  let r := ListUserTokens userID w in
  r.1 = Ok (omap (session_of w) (elements (index_of w userID)))
  ∧ index_of r.2 userID = filter (fun t => is_Some (session_of w t)) (index_of w userID)
  ∧ (∀ t, t ∈ index_of r.2 userID → is_Some (session_of r.2 t))
  ∧ (∀ t, session_of r.2 t = session_of w t).
Proof.
  intros Hc Hp Hset r. subst r.
  destruct (ListUserTokens userID w) as [r w'] eqn:E. simpl.
  revert E. unfold ListUserTokens, Client_is_nil, bind at 1. rewrite Hc. simpl.
  unfold bind at 1. destruct (SMembers _ w) as [rm wm] eqn:Em.
  apply SMembers_healthy in Em as (Qm & Pm & Sm & Hrm); [|done].
  assert (rm = Ok (elements (index_of w userID))) as ->.
  { rewrite Hrm. unfold index_of.
    destruct (lookup w _) as [[[b|s] dl]|] eqn:Hl; [|done|].
    - by destruct (Hset b dl).
    - by rewrite elements_empty. }
  assert (lookup wm (userTokensPrefix +:+ userID)
          = lookup w (userTokensPrefix +:+ userID)) as Hlm
    by (apply lookup_preserved; [done|by rewrite Sm]).
  assert (∀ t, session_of wm t = session_of w t) as Hsm
    by (intros t; apply session_of_same; [done|by rewrite Sm]).
  assert (index_of wm userID = index_of w userID) as Him
    by (unfold index_of; by rewrite Hlm).
  unfold bind, ret.
  destruct (collect_tokens _ _ _ wm) as [l wc] eqn:Ec. intros [= <- <-].
  apply collect_tokens_healthy in Ec as (-> & Hi & Hs & _ & _);
    [| by rewrite (proj1 (proj2 Qm)) | done | by rewrite Hlm].
  simpl.
  assert (index_of wc userID
          = filter (fun t => is_Some (session_of w t)) (index_of w userID)) as Hidx.
  { rewrite Hi, Him. apply set_eq. intros t.
    rewrite elem_of_difference, elem_of_filter, elem_of_list_to_set,
      list_elem_of_filter, elem_of_elements, Hsm.
    rewrite <- not_eq_None_Some. tauto. }
  split; [f_equal; by apply omap_ext_fun|].
  split; [done|]. split.
  - intros t. rewrite Hidx, elem_of_filter, Hs, Hsm. tauto.
  - intros t. by rewrite Hs, Hsm.
Qed.

End listing.

(** ** The session endpoints: what each one answers and leaves *)

Section endpoint_outcomes.
Import jwt redis auth middleware internalauth.
Context `{Signer}.

(** A successful put with a positive expiry leaves the session resolvable
    and listed. *)
Lemma StoreRefreshToken_Ok_listed token data expiry w w' :
  0 < expiry →
  StoreRefreshToken token data expiry w = (Ok tt, w') →
  session_of w' token = Some (json_data data)
  ∧ token ∈ index_of w' (RefreshTokenData.UserID data)
  ∧ quiet w w'.
Proof.
  intros Hexp E. pose proof (StoreRefreshToken_effect _ _ _ _ _ _ E) as [Q _].
  revert E. unfold StoreRefreshToken, Client_is_nil, bind, ret.
  destruct (Client w); simpl; [|done].
  unfold json_Marshal. destruct (Time_MarshalJSON_ok _); [|done].
  destruct (Set_ _ _ _ w) as [[[]|e1] w1] eqn:E1; [|done].
  destruct (SAdd _ _ w1) as [[n|e2] w2] eqn:E2; [|done].
  destruct (Expire _ _ w2) as [r3 w3] eqn:E3. intros [= <-].
  apply Set_positive in E1 as [dl1 Hl1]; [|done].
  pose proof (SAdd_other _ _ _ _ _ E2) as [Q2 O2].
  pose proof (Expire_other _ _ _ _ _ E3) as [Q3 O3].
  apply SAdd_Ok in E2 as (s & dl & Hl & Hin).
  eapply Expire_positive in E3 as [dl' Hl']; [|done|done].
  split; [|split; [|done]].
  - unfold session_of.
    rewrite (lookup_preserved w2 w3), (lookup_preserved w1 w2), Hl1; try done.
    + apply O2, session_key_not_index_key.
    + apply O3, session_key_not_index_key.
  - unfold index_of. by rewrite Hl'.
Qed.

Lemma GenerateTokenPair_Ok (ks : keys) (now : Time) (entropy : option (list Byte.byte))
    (userID username role : string) (permissions : list string) (issuer : string)
    (mins days : Z) (tp : TokenPair) :
  GenerateTokenPair ks now entropy userID username role permissions issuer mins days
    = Ok tp →
  GenerateAccessToken ks now userID username role permissions issuer mins
    = Ok (AccessToken tp)
  ∧ (∃ bytes, entropy = Some bytes ∧ RefreshToken tp = EncodeToString bytes)
  ∧ TokenType tp = "Bearer"
  ∧ AccessTokenExpiresIn tp = mul64 mins 60
  ∧ RefreshTokenExpiresIn tp = mul64 (mul64 (mul64 days 24) 60) 60.
Proof.
  unfold GenerateTokenPair.
  destruct (GenerateAccessToken _ _ _ _ _ _ _ _) as [ts|e]; [|done].
  destruct entropy as [bytes|]; [|done]. simpl. intros [= <-]. simpl.
  split; [done|]. split; [by exists bytes|done].
Qed.

(** The form of the claims in an access token that validates. *)
Lemma GenerateAccessToken_claims (ks : keys) (now t : Time)
    (userID username role : string) (permissions : list string) (issuer : string)
    (mins : Z) (ts : tokenString) (claims : Claims) :
  GenerateAccessToken ks now userID username role permissions issuer mins = Ok ts →
  ValidateToken ks t ts = Ok claims →
  UserID claims = json.text userID ∧ Username claims = json.text username
  ∧ Role claims = json.text role
  ∧ Permissions claims = json.text <$> permissions
  ∧ Issuer (Registered claims) = json.text issuer.
Proof.
  unfold GenerateAccessToken. destruct (privateKey ks) as [sk|]; [|done].
  intros [= <-] Hv.
  apply ValidateToken_Ok_inv in Hv as (alg & sig & h & pk & Hts & _).
  unfold SignedString in Hts. injection Hts as _ <- _. done.
Qed.

(** X11.  [Login] answers a request without a bound body with 400 and a
    wrong password with 401, and in both cases leaves the store, the log
    and the cookies alone.  With the demo password it answers 200 or 500;
    on 200 the cookie carries the refresh token of the body, and, the
    refresh expiry being positive, that token resolves to a session
    created at the instant of the call and is listed in the index of the
    user "user-" followed by the name.  The session holds its strings as
    they come back from JSON: the user id, the name, the agent and the
    address of the request with every byte that is not part of a valid
    UTF-8 sequence replaced by U+FFFD; a name bound from a JSON body is
    valid UTF-8 and is stored as it is.  The role of the session is
    "admin" for the name "admin" and for no other name.  On 500 no token
    and no cookie are handed out. *)
Theorem Login_outcomes (h : Handler) (ks : keys) (entropy : option (list Byte.byte))
    (c : Request) (w : world) :
  let r := Login h ks entropy c w in
  ((∀ username, Body_login c ≠ Some (username, "password123")) →
     r.2 = w ∧ cookie r.1 = None ∧ issued r.1 = None
     ∧ (code r.1 = StatusBadRequest ↔ Body_login c = None)
     ∧ (code r.1 = StatusUnauthorized ↔ Body_login c ≠ None))
  ∧ (∀ username, Body_login c = Some (username, "password123") →
       (code r.1 = StatusOK ∨ code r.1 = StatusInternalServerError)
       ∧ (code r.1 = StatusInternalServerError → cookie r.1 = None ∧ issued r.1 = None)
       ∧ (code r.1 = StatusOK →
          ∃ tp, body r.1 = BodyTokenPair tp
                ∧ cookie r.1 = Some (setRefreshTokenCookie h (RefreshToken tp))
                ∧ TokenType tp = "Bearer"
                ∧ (0 < refreshExpiry h →
                   ∃ data,
                     session_of r.2 (RefreshToken tp) = Some data
                     ∧ RefreshToken tp ∈ index_of r.2 ("user-" +:+ username)
                     ∧ RefreshTokenData.UserID data = json.text ("user-" +:+ username)
                     ∧ RefreshTokenData.Username data = json.text username
                     ∧ (RefreshTokenData.Role data = "admin" ↔ username = "admin")
                     ∧ RefreshTokenData.CreatedAt data = clock w
                     ∧ RefreshTokenData.UserAgent data = json.text (UserAgent c)
                     ∧ RefreshTokenData.IP data = json.text (ClientIP c)
                     ∧ (bound c →
                        RefreshTokenData.UserID data = "user-" +:+ username
                        ∧ RefreshTokenData.Username data = username)))).
Proof.
  intros r. subst r. destruct (Login h ks entropy c w) as [resp w'] eqn:E. simpl.
  split.
  - intros Hno. revert E. unfold Login.
    destruct (Body_login c) as [[username password]|] eqn:Hb.
    + rewrite bool_decide_eq_true_2 by (intros ->; by destruct (Hno username)).
      intros [= <- <-]. simpl. repeat split; done.
    + intros [= <- <-]. simpl. repeat split; done.
  - intros username Hb. revert E. unfold Login. rewrite Hb.
    rewrite bool_decide_eq_false_2 by (intros Hn; by apply Hn).
    unfold bind at 1, time_Now.
    destruct (GenerateTokenPair _ _ _ _ _ _ _ _ _ _) as [tp|e] eqn:Eg.
    + unfold bind at 1. unfold bind at 1.
      destruct (StoreRefreshToken _ _ _ w) as [[[]|e] ws] eqn:Es.
      * intros [= <- <-]. simpl. split; [by left|]. split; [done|]. intros _.
        exists tp. split; [done|]. split; [done|].
        apply GenerateTokenPair_Ok in Eg as (_ & _ & Ht & _). split; [done|].
        intros Hpos. apply StoreRefreshToken_Ok_listed in Es as (Hs & Hi & _); [|done].
        eexists. split; [exact Hs|]. simpl in Hi. split; [done|].
        cbn [json_data RefreshTokenData.UserID RefreshTokenData.Username
             RefreshTokenData.Role RefreshTokenData.CreatedAt
             RefreshTokenData.UserAgent RefreshTokenData.IP].
        split; [done|]. split; [done|]. split.
        { case_bool_decide; split; done. }
        split; [done|]. split; [done|]. split; [done|].
        intros Hbound. specialize (Hbound _ _ Hb).
        split; [by apply valid_user_prefix|exact Hbound].
      * unfold bind, ret. simpl. intros [= <- <-]. simpl.
        split; [by right|]. split; [done|]. done.
    + unfold bind, ret. simpl. intros [= <- <-]. simpl.
      split; [by right|]. split; [done|]. done.
Qed.

(** X12.  A refresh never changes who the session belongs to.  When
    [Refresh] answers 200 the presented token resolved to a session, the
    cookie carries the refresh token of the body, and both the new
    session (the refresh expiry being positive) and every access token
    of the body that validates carry the user, name, role and
    permissions of the old session as they come back from JSON: they are
    carried over from the old session, not looked up again.  The new
    session records the instant of the call and the agent and address of
    the refreshing request, these too as they come back from JSON.  The
    strings of a session whose strings are valid UTF-8, as the strings
    read from JSON are, come back unchanged. *)
Theorem Refresh_carries_identity (h : Handler) (ks : keys)
    (entropy : option (list Byte.byte)) (c : Request) (w : world) :
  let r := Refresh h ks entropy c w in
  code r.1 = StatusOK →
  ∃ old tp,
    session_of w (getRefreshToken c) = Some old
    ∧ body r.1 = BodyTokenPair tp
    ∧ cookie r.1 = Some (setRefreshTokenCookie h (RefreshToken tp))
    ∧ (∀ t claims, ValidateToken ks t (AccessToken tp) = Ok claims →
         UserID claims = json.text (RefreshTokenData.UserID old)
         ∧ Username claims = json.text (RefreshTokenData.Username old)
         ∧ Role claims = json.text (RefreshTokenData.Role old)
         ∧ Permissions claims = json.text <$> RefreshTokenData.Permissions old)
    ∧ (0 < refreshExpiry h →
       session_of r.2 (RefreshToken tp)
       = Some (RefreshTokenData.mk
                 (json.text (RefreshTokenData.UserID old))
                 (json.text (RefreshTokenData.Username old))
                 (json.text (RefreshTokenData.Role old))
                 (json.text <$> RefreshTokenData.Permissions old)
                 (clock w) (json.text (UserAgent c)) (json.text (ClientIP c))))
    ∧ (valid_data old →
       json.text (RefreshTokenData.UserID old) = RefreshTokenData.UserID old
       ∧ json.text (RefreshTokenData.Username old) = RefreshTokenData.Username old
       ∧ json.text (RefreshTokenData.Role old) = RefreshTokenData.Role old
       ∧ json.text <$> RefreshTokenData.Permissions old
         = RefreshTokenData.Permissions old).
Proof.
  intros r. subst r. destruct (Refresh h ks entropy c w) as [resp w'] eqn:E. simpl.
  intros Hcode. revert E. unfold Refresh.
  case_bool_decide; [intros [= <- <-]; discriminate Hcode|].
  unfold bind at 1.
  destruct (GetRefreshTokenData _ w) as [rg wg] eqn:Eg.
  apply GetRefreshTokenData_effect in Eg as (Qg & Sg & Hold).
  destruct rg as [old|e]; [|intros [= <- <-]; discriminate Hcode].
  specialize (Hold old eq_refl).
  unfold bind at 1.
  destruct (RevokeRefreshToken _ wg) as [rr wr] eqn:Er.
  apply RevokeRefreshToken_effect in Er as (Qr & _).
  unfold bind at 1.
  assert (∃ wl, (match rr with
                 | Ok _ => ret tt
                 | Err _ => logMsg Warn "Failed to revoke old refresh token"
                 end) wr = (tt, wl) ∧ clock wl = clock wr) as (wl & -> & Cl).
  { destruct rr as [[]|e]; [by exists wr|]. eexists. split; [reflexivity|done]. }
  assert (clock wl = clock w) as Hclk.
  { rewrite Cl. rewrite (proj1 Qr). apply (proj1 Qg). }
  unfold bind at 1, time_Now.
  destruct (GenerateTokenPair _ _ _ _ _ _ _ _ _ _) as [tp|e] eqn:Et;
    [|intros [= <- <-]; discriminate Hcode].
  unfold bind at 1. unfold bind at 1.
  destruct (StoreRefreshToken _ _ _ wl) as [[[]|e] ws] eqn:Es;
    [|intros [= <- <-]; discriminate Hcode].
  intros [= <- <-]. simpl.
  exists old, tp. split; [done|]. split; [done|]. split; [done|].
  apply GenerateTokenPair_Ok in Et as (Ea & _). split; [|split].
  - intros t claims Hv.
    destruct (GenerateAccessToken_claims _ _ _ _ _ _ _ _ _ _ _ Ea Hv)
      as (? & ? & ? & ? & _). done.
  - intros Hpos. apply StoreRefreshToken_Ok_listed in Es as (Hs & _); [|done].
    by rewrite Hs, Hclk.
  - intros (Hu & Hn & Hr & Hp & _). repeat split; try done. by apply texts_valid.
Qed.

(** On a connection that is down a revocation fails and leaves the store
    as it was. *)
Lemma RevokeRefreshToken_down (token : string) (w : world) :
  Client w = true → down (plan w) →
  ∃ w', RevokeRefreshToken token w = (Err (ErrRedis ConnError), w')
        ∧ store w' = store w ∧ quiet w w'.
Proof.
  intros Hc Hd. unfold RevokeRefreshToken, Client_is_nil, bind at 1. rewrite Hc. simpl.
  unfold bind at 1. unfold GetRefreshTokenData, Client_is_nil, bind at 1.
  rewrite Hc. simpl. unfold bind at 1. unfold Get.
  match goal with
  | |- context [command ?e w] =>
      destruct (command_down e w Hd) as (w1 & -> & Q1 & Hd1 & S1)
  end.
  unfold bind at 1. unfold ret at 1. unfold bind at 1. unfold ret at 1.
  unfold bind, ret, Del.
  match goal with
  | |- context [command ?e w1] =>
      destruct (command_down e w1 Hd1) as (w2 & -> & Q2 & _ & S2)
  end.
  exists w2. split; [done|]. split; [by rewrite S2|by eapply quiet_trans].
Qed.

(** X14.  The three places that compute the lifetime of a refresh token
    agree for 0 to 106751 days: the max-age of the cookie and the
    "refresh_token_expires_in" of the body are the same number of
    seconds, and the expiry given to the store is that number of seconds
    as a duration.  At 106752 days they no longer agree: the duration
    has wrapped around to a negative one while the two numbers of
    seconds are positive. *)
Theorem refresh_lifetimes_agree (h : Handler) (ks : keys) (now : Time)
    (entropy : option (list Byte.byte)) (userID username role issuer token : string)
    (permissions : list string) (mins : Z) (tp : TokenPair) :
  GenerateTokenPair ks now entropy userID username role permissions issuer mins
    (refreshTokenExpiryDays h) = Ok tp →
  (0 ≤ refreshTokenExpiryDays h ≤ 106751 →
     cookie_maxAge (setRefreshTokenCookie h token) = refreshTokenExpiryDays h * 86400
     ∧ RefreshTokenExpiresIn tp = refreshTokenExpiryDays h * 86400
     ∧ refreshExpiry h = refreshTokenExpiryDays h * 86400 * Second)
  ∧ (refreshTokenExpiryDays h = 106752 →
     cookie_maxAge (setRefreshTokenCookie h token) = 9223372800
     ∧ RefreshTokenExpiresIn tp = 9223372800
     ∧ refreshExpiry h = -9223371273709551616).
Proof.
  intros Eg. apply GenerateTokenPair_Ok in Eg as (_ & _ & _ & _ & ->).
  unfold setRefreshTokenCookie, refreshExpiry. simpl. split.
  - intros Hd. unfold mul64.
    rewrite (wrap64_small (refreshTokenExpiryDays h * 24))
      by (unfold min_int64, max_int64; lia).
    rewrite (wrap64_small (refreshTokenExpiryDays h * 24 * 60))
      by (unfold min_int64, max_int64; lia).
    rewrite (wrap64_small (refreshTokenExpiryDays h * 24 * 60 * 60))
      by (unfold min_int64, max_int64; lia).
    rewrite wrap64_small by (unfold Hour, Minute, Second, min_int64, max_int64; lia).
    unfold Hour, Minute, Second. lia.
  - intros ->. by vm_compute.
Qed.

End endpoint_outcomes.

(** ** The session store over the life of the server *)

Section lifecycle_invariant.
Import jwt redis auth middleware internalauth ginchain authroutes lifecycle.
Context `{Signer}.

Lemma calm_ret {A} (a : A) : calm (ret a).
Proof. by intros w a' w' [= <- <-]. Qed.

Lemma calm_bind {A B} (m : M A) (k : A → M B) :
  calm m → (∀ a, calm (k a)) → calm (bind m k).
Proof.
  intros Hm Hk w b w'. unfold bind. destruct (m w) as [a w1] eqn:E1. intros E2.
  apply Hm in E1 as [C1 L1]. apply Hk in E2 as [C2 L2]. split; congruence.
Qed.

Lemma calm_quiet {A} (m : M A) :
  (∀ w a w', m w = (a, w') → quiet w w') → calm m.
Proof. intros Hq w a w' E. apply Hq in E as (? & ? & _). done. Qed.

Lemma calm_logMsg (l : Level) (msg : string) : calm (logMsg l msg).
Proof. by intros w a w' [= <- <-]. Qed.

Lemma calm_time_Now : calm time_Now.
Proof. by intros w a w' [= <- <-]. Qed.

Lemma calm_StoreRefreshToken token data expiry :
  calm (StoreRefreshToken token data expiry).
Proof. apply calm_quiet. intros w a w' E. by apply StoreRefreshToken_effect in E as [? _]. Qed.

Lemma calm_GetRefreshTokenData token : calm (GetRefreshTokenData token).
Proof. apply calm_quiet. intros w a w' E. by apply GetRefreshTokenData_effect in E as [? _]. Qed.

Lemma calm_RevokeRefreshToken token : calm (RevokeRefreshToken token).
Proof. apply calm_quiet. intros w a w' E. by apply RevokeRefreshToken_effect in E as [? _]. Qed.

Lemma calm_RevokeAllUserTokens userID : calm (RevokeAllUserTokens userID).
Proof. apply calm_quiet. intros w a w' E. by apply RevokeAllUserTokens_frame in E as [? _]. Qed.

Lemma calm_collect_tokens userKey tokens acc : calm (collect_tokens userKey tokens acc).
Proof.
  revert acc. induction tokens as [|t tokens IH]; intros acc; simpl.
  - apply calm_ret.
  - apply calm_bind; [apply calm_GetRefreshTokenData|]. intros [data|e]; [apply IH|].
    apply calm_bind; [|intros _; apply IH].
    apply calm_quiet. intros w a w' E. by apply SRem_other in E as [? _].
Qed.

Lemma calm_ListUserTokens userID : calm (ListUserTokens userID).
Proof.
  unfold ListUserTokens. apply calm_bind; [by intros w a w' [= <- <-]|].
  intros []; [apply calm_ret|].
  apply calm_bind.
  - apply calm_quiet. intros w a w' E. by apply SMembers_other in E as [? _].
  - intros [tokens|e]; [|apply calm_ret].
    apply calm_bind; [apply calm_collect_tokens|intros; apply calm_ret].
Qed.

Ltac calm_step :=
  first
    [ apply calm_ret | apply calm_logMsg | apply calm_time_Now
    | apply calm_StoreRefreshToken | apply calm_GetRefreshTokenData
    | apply calm_RevokeRefreshToken | apply calm_RevokeAllUserTokens
    | apply calm_ListUserTokens
    | apply calm_bind; [|intros ?]
    | match goal with
      | |- calm (match ?x with _ => _ end) => destruct x
      | |- calm (if ?x then _ else _) => destruct x
      end ].

Lemma calm_Login h ks entropy c : calm (Login h ks entropy c).
Proof. unfold Login. repeat calm_step. Qed.

Lemma calm_Refresh h ks entropy c : calm (Refresh h ks entropy c).
Proof. unfold Refresh. repeat calm_step. Qed.

Lemma calm_Logout h c : calm (Logout h c).
Proof. unfold Logout. repeat calm_step. Qed.

Lemma calm_LogoutAll h c : calm (LogoutAll h c).
Proof. unfold LogoutAll. repeat calm_step. Qed.

Lemma calm_ListSessions h c : calm (ListSessions h c).
Proof. unfold ListSessions. repeat calm_step. Qed.

Lemma calm_GoogleCallback g ks entropy env c :
  calm (google.GoogleCallback g ks entropy env c).
Proof. unfold google.GoogleCallback. repeat calm_step. Qed.

Lemma valid_cons_ascii (c : ascii) (s : string) :
  (N_of_ascii c < 128)%N → json.valid s → json.valid (String c s).
Proof.
  unfold json.valid, json.text. intros Hc Hs. simpl.
  apply N.ltb_lt in Hc. rewrite Hc. simpl. by rewrite Hs.
Qed.

(** The numeral of a key is valid UTF-8. *)
Lemma FormatUint_valid (n : N) : json.valid (strconv.FormatUint n).
Proof.
  unfold strconv.FormatUint. generalize 20%nat. intros fuel.
  assert (json.valid "") as Hacc by done. revert Hacc. generalize "".
  revert n. induction fuel as [|fuel IH]; intros n acc Hacc; simpl; [done|].
  assert (json.valid (String (ascii_of_N (48 + n `mod` 10)) acc)) as Hnext.
  { apply valid_cons_ascii; [|done].
    pose proof (N.mod_upper_bound n 10 ltac:(done)) as Hm.
    rewrite N_ascii_embedding; generalize dependent (n `mod` 10)%N; intros; lia. }
  destruct (n <? 10)%N; [done|]. by apply IH.
Qed.

Lemma GoogleCallback_keeps_index h g ks entropy env c w r w' :
  1 ≤ refreshTokenExpiryDays h ≤ 106751 →
  google.wired h g →
  plan w = healthy → well_indexed (ttl_ms (refreshExpiry h)) w →
  google.GoogleCallback g ks entropy env c w = (r, w') → steady h w'.
Proof.
  intros Hd (_ & _ & Hdays) Hp Hwi.
  destruct (refreshExpiry_whole_seconds h Hd) as (Hpos & Hprec & _).
  unfold steady, google.GoogleCallback. rewrite Hdays. fold (refreshExpiry h).
  destruct (google.ShouldBindJSON env) as [req|]; [|by intros [= <- <-]].
  match goal with
  | |- context [match ?v with Some _ => _ | None => _ end w] =>
      destruct v as [[googleUser|]|]
  end;
    [|unfold bind, ret; simpl; intros [= <- <-];
      split; [by apply (well_indexed_ext _ w)|done]
     |by intros [= <- <-]].
  destruct (google.findOrCreateUser env googleUser) as [user|];
    [|unfold bind, ret; simpl; intros [= <- <-];
      split; [by apply (well_indexed_ext _ w)|done]].
  unfold bind at 1.
  assert (∃ permissions wp,
            (match google.GetUserPermissions env (migrations.User.ID user) with
             | Some permissions => ret permissions
             | None => bind (logMsg Error "Failed to get user permissions")
                         (fun _ => ret [])
             end) w = (permissions, wp)
            ∧ well_indexed (ttl_ms (refreshExpiry h)) wp ∧ plan wp = healthy)
    as (permissions & wp & -> & Hwip & Pp).
  { destruct (google.GetUserPermissions env _) as [ps|].
    - by exists ps, w.
    - eexists [], _. split; [reflexivity|]. split; [by apply (well_indexed_ext _ w)|done]. }
  unfold bind at 1, time_Now.
  destruct (GenerateTokenPair _ _ _ _ _ _ _ _ _ _) as [tokenPair|e].
  - unfold bind at 1. unfold bind at 1.
    destruct (StoreRefreshToken _ _ _ wp) as [rs ws] eqn:Es.
    eapply StoreRefreshToken_well_indexed in Es as (Hwis & Ps & _);
      [|done|done|done|done|apply FormatUint_valid|done].
    destruct rs as [[]|e]; [by intros [= <- <-]|]. unfold bind, ret. simpl.
    intros [= <- <-]. split; [by apply (well_indexed_ext _ ws)|done].
  - unfold bind, ret. simpl. intros [= <- <-].
    split; [by apply (well_indexed_ext _ wp)|done].
Qed.

(** A route behind [JWTAuth]: the handler runs with the validated claims
    in the context, or the request is aborted with 401 and the world left
    alone. *)
Lemma behind_JWTAuth (ks : keys) (authHeader : headerValue) (c : Request)
    (final : Context → M Response) (w : world) :
  let r := (let* now := time_Now in
            run [JWTAuth ks now authHeader] final aborted (Ctx c))%world w in
  (∃ ts claims, authHeader = Bearer ts ∧ ValidateToken ks (clock w) ts = Ok claims
                ∧ r = final (Set_claims (Ctx c) claims) w)
  ∨ ((∀ ts claims, authHeader = Bearer ts → ValidateToken ks (clock w) ts ≠ Ok claims)
     ∧ ∃ body, r = ({| code := StatusUnauthorized; body := BodyH body;
                       cookie := None |}, w)).
Proof.
  unfold bind, time_Now. simpl.
  destruct (JWTAuth_cases ks (clock w) authHeader (Ctx c))
    as [(ts & claims & -> & E & ->)|(Hno & body & ->)].
  - left. by exists ts, claims.
  - right. split; [done|]. by exists body.
Qed.

(** *** What the endpoints leave of a session key *)

Lemma spares_ret {A} (key : string) (a : A) : spares key (ret a).
Proof. intros w a' w' [= <- <-]. split; [done|by left]. Qed.

Lemma spares_bind {A B} (key : string) (m : M A) (k : A → M B) :
  spares key m → (∀ a, spares key (k a)) → spares key (bind m k).
Proof.
  intros Hm Hk w b w'. unfold bind. destruct (m w) as [a w1] eqn:E1. intros E2.
  apply Hm in E1 as [C1 S1]. apply Hk in E2 as [C2 S2]. split; [congruence|].
  destruct S2 as [S2|S2]; [|by right]. by rewrite S2.
Qed.

Lemma spares_logMsg (key : string) (l : Level) (msg : string) :
  spares key (logMsg l msg).
Proof. intros w a w' [= <- <-]. split; [done|by left]. Qed.

Lemma spares_time_Now (key : string) : spares key time_Now.
Proof. intros w a w' [= <- <-]. split; [done|by left]. Qed.

Lemma spares_Client_is_nil (key : string) : spares key Client_is_nil.
Proof. intros w a w' [= <- <-]. split; [done|by left]. Qed.

Lemma spares_Set (key k : string) (b : bytes) (d : Duration) :
  key ≠ k → spares key (Set_ k b d).
Proof.
  intros Hne w a w' E. apply Set_other in E as [(Hc & _) O].
  split; [done|]. left. by apply O.
Qed.

Lemma spares_SAdd (key k member : string) : key ≠ k → spares key (SAdd k member).
Proof.
  intros Hne w a w' E. apply SAdd_other in E as [(Hc & _) O].
  split; [done|]. left. by apply O.
Qed.

Lemma spares_SRem (key k member : string) : key ≠ k → spares key (SRem k member).
Proof.
  intros Hne w a w' E. apply SRem_other in E as [(Hc & _) O].
  split; [done|]. left. by apply O.
Qed.

Lemma spares_Expire (key k : string) (d : Duration) :
  key ≠ k → spares key (Expire k d).
Proof.
  intros Hne w a w' E. apply Expire_other in E as [(Hc & _) O].
  split; [done|]. left. by apply O.
Qed.

Lemma spares_Get (key k : string) : spares key (Get k).
Proof.
  intros w a w' E. pose proof (Get_other _ _ _ _ E) as [(Hc & _) _].
  apply Get_store in E. split; [done|]. left. by rewrite E.
Qed.

Lemma spares_SMembers (key k : string) : spares key (SMembers k).
Proof.
  intros w a w' E. pose proof (SMembers_other _ _ _ _ E) as [(Hc & _) _].
  apply SMembers_store in E. split; [done|]. left. by rewrite E.
Qed.

Lemma spares_Del (key k : string) : spares key (Del k).
Proof.
  intros w a w' E. pose proof (Del_other _ _ _ _ E) as [(Hc & _) O].
  split; [done|]. destruct (decide (key = k)) as [->|Hne]; [|left; by apply O].
  destruct a as [n|e]; [right; by eapply Del_Ok|].
  unfold Del in E. apply command_cases in E as (_ & _ & [(_ & _ & S)|(_ & E)]).
  - left. by rewrite S.
  - simpl in E. destruct (lookup _ _); discriminate E.
Qed.

Ltac spares_command :=
  first
    [ apply spares_ret | apply spares_logMsg | apply spares_time_Now
    | apply spares_Client_is_nil
    | apply spares_Get | apply spares_SMembers | apply spares_Del
    | apply spares_SAdd; apply session_key_not_index_key
    | apply spares_SRem; apply session_key_not_index_key
    | apply spares_Expire; apply session_key_not_index_key
    | apply spares_bind; [|intros ?]
    | match goal with
      | |- spares _ (match ?x with _ => _ end) => destruct x eqn:?
      | |- spares _ (if ?x then _ else _) => destruct x eqn:?
      end ].

Lemma spares_StoreRefreshToken (t token : string) (data : RefreshTokenData.t)
    (expiry : Duration) :
  token ≠ t →
  spares (refreshTokenPrefix +:+ t) (StoreRefreshToken token data expiry).
Proof.
  intros Hne. unfold StoreRefreshToken.
  apply spares_bind; [apply spares_Client_is_nil|]. intros [|]; [apply spares_ret|].
  destruct (json_Marshal data) as [jsonData|]; [|apply spares_ret].
  apply spares_bind.
  { apply spares_Set. intros E. apply session_key_inj in E. congruence. }
  intros ?. repeat spares_command.
Qed.

Lemma spares_GetRefreshTokenData (t token : string) :
  spares (refreshTokenPrefix +:+ t) (GetRefreshTokenData token).
Proof. unfold GetRefreshTokenData. repeat spares_command. Qed.

Lemma spares_RevokeRefreshToken (t token : string) :
  spares (refreshTokenPrefix +:+ t) (RevokeRefreshToken token).
Proof.
  unfold RevokeRefreshToken.
  apply spares_bind; [apply spares_Client_is_nil|]. intros [|]; [apply spares_ret|].
  apply spares_bind; [apply spares_GetRefreshTokenData|]. intros ?.
  repeat spares_command.
Qed.

Lemma spares_delete_tokens (t : string) (tokens : list string) :
  spares (refreshTokenPrefix +:+ t) (delete_tokens tokens).
Proof.
  induction tokens as [|token tokens IH]; simpl; [apply spares_ret|].
  apply spares_bind; [apply spares_Del|]. intros _. exact IH.
Qed.

Lemma spares_RevokeAllUserTokens (t userID : string) :
  spares (refreshTokenPrefix +:+ t) (RevokeAllUserTokens userID).
Proof.
  unfold RevokeAllUserTokens.
  apply spares_bind; [apply spares_Client_is_nil|]. intros [|]; [apply spares_ret|].
  apply spares_bind; [apply spares_SMembers|]. intros [tokens|e]; [|apply spares_ret].
  apply spares_bind; [apply spares_delete_tokens|]. intros _.
  repeat spares_command.
Qed.

Lemma spares_collect_tokens (t userID : string) (tokens : list string)
    (acc : list RefreshTokenData.t) :
  spares (refreshTokenPrefix +:+ t)
    (collect_tokens (userTokensPrefix +:+ userID) tokens acc).
Proof.
  revert acc. induction tokens as [|token tokens IH]; intros acc; simpl.
  - apply spares_ret.
  - apply spares_bind; [apply spares_GetRefreshTokenData|].
    intros [data|e]; [apply IH|].
    apply spares_bind; [|intros _; apply IH].
    apply spares_SRem, session_key_not_index_key.
Qed.

Lemma spares_ListUserTokens (t userID : string) :
  spares (refreshTokenPrefix +:+ t) (ListUserTokens userID).
Proof.
  unfold ListUserTokens.
  apply spares_bind; [apply spares_Client_is_nil|]. intros [|]; [apply spares_ret|].
  apply spares_bind; [apply spares_SMembers|]. intros [tokens|e]; [|apply spares_ret].
  apply spares_bind; [apply spares_collect_tokens|]. intros ?. apply spares_ret.
Qed.

(** The token of a pair is the one [GenerateRefreshToken] made. *)
Lemma GenerateTokenPair_issues (ks : keys) (now : Time)
    (entropy : option (list Byte.byte)) (userID username role : string)
    (permissions : list string) (issuer : string) (mins days : Z) (tp : TokenPair) :
  GenerateTokenPair ks now entropy userID username role permissions issuer mins days
    = Ok tp →
  GenerateRefreshToken entropy = Ok (RefreshToken tp).
Proof.
  intros E. apply GenerateTokenPair_Ok in E as (_ & (bytes & -> & ->) & _). done.
Qed.

Ltac spares_step :=
  first
    [ apply spares_GetRefreshTokenData | apply spares_RevokeRefreshToken
    | apply spares_RevokeAllUserTokens | apply spares_ListUserTokens
    | apply spares_StoreRefreshToken;
      match goal with
      | Hg : GenerateTokenPair _ _ _ _ _ _ _ _ _ _ = Ok _ |- _ =>
          apply GenerateTokenPair_issues in Hg; congruence
      end
    | apply spares_ret | apply spares_logMsg | apply spares_time_Now
    | apply spares_bind; [|intros ?]
    | match goal with
      | |- spares _ (match ?x with _ => _ end) => destruct x eqn:?
      | |- spares _ (if ?x then _ else _) => destruct x eqn:?
      end ].

Lemma spares_Login (t : string) h ks entropy c :
  GenerateRefreshToken entropy ≠ Ok t →
  spares (refreshTokenPrefix +:+ t) (Login h ks entropy c).
Proof. intros Hn. unfold Login. repeat spares_step. Qed.

Lemma spares_GoogleCallback (t : string) g ks entropy env c :
  GenerateRefreshToken entropy ≠ Ok t →
  spares (refreshTokenPrefix +:+ t) (google.GoogleCallback g ks entropy env c).
Proof. intros Hn. unfold google.GoogleCallback. repeat spares_step. Qed.

Lemma spares_Refresh (t : string) h ks entropy c :
  GenerateRefreshToken entropy ≠ Ok t →
  spares (refreshTokenPrefix +:+ t) (Refresh h ks entropy c).
Proof. intros Hn. unfold Refresh. repeat spares_step. Qed.

Lemma spares_Logout (t : string) h c :
  spares (refreshTokenPrefix +:+ t) (Logout h c).
Proof. unfold Logout. repeat spares_step. Qed.

Lemma spares_LogoutAll (t : string) h c :
  spares (refreshTokenPrefix +:+ t) (LogoutAll h c).
Proof. unfold LogoutAll. repeat spares_step. Qed.

Lemma spares_ListSessions (t : string) h c :
  spares (refreshTokenPrefix +:+ t) (ListSessions h c).
Proof. unfold ListSessions. repeat spares_step. Qed.

Lemma spares_POST_auth_logout_all (t : string) h ks authHeader c :
  spares (refreshTokenPrefix +:+ t) (POST_auth_logout_all h ks authHeader c).
Proof.
  intros w a w'. unfold POST_auth_logout_all.
  destruct (behind_JWTAuth ks authHeader c (fun ctx => LogoutAll h (with_Ctx c ctx)) w)
    as [(ts & claims & _ & _ & ->)|(_ & body & ->)].
  - apply spares_LogoutAll.
  - intros [= <- <-]. split; [done|by left].
Qed.

Lemma spares_GET_auth_sessions (t : string) h ks authHeader c :
  spares (refreshTokenPrefix +:+ t) (GET_auth_sessions h ks authHeader c).
Proof.
  intros w a w'. unfold GET_auth_sessions.
  destruct (behind_JWTAuth ks authHeader c (fun ctx => ListSessions h (with_Ctx c ctx)) w)
    as [(ts & claims & _ & _ & ->)|(_ & body & ->)].
  - apply spares_ListSessions.
  - intros [= <- <-]. split; [done|by left].
Qed.

(** *** A token that went out of use stays out of use *)

Lemma dead_session_of (t : string) (w : world) : dead t w → session_of w t = None.
Proof. unfold dead, session_of. by intros ->. Qed.

Lemma dead_absent (t : string) (w : world) :
  store w !! (refreshTokenPrefix +:+ t) = None → dead t w.
Proof. unfold dead, lookup. by intros ->. Qed.

(** The live entry under a key after time passed was the live entry
    before. *)
Lemma elapse_lookup (key : string) (d : Duration) (w : world) (e : entry) :
  0 ≤ d → lookup (elapse d w) key = Some e → lookup w key = Some e.
Proof.
  intros Hd. unfold lookup. simpl.
  destruct (store w !! key) as [[v dl]|]; [|done].
  unfold alive, now_ms. simpl. destruct dl as [x|]; [|done].
  case_bool_decide as H1; case_bool_decide as H2; try done.
  exfalso. apply H2. etrans; [|exact H1].
  apply Z.div_le_mono; [unfold Millisecond|]; lia.
Qed.

Lemma spared_lookup {A} (key : string) (m : M A) (w : world) (e : entry) :
  spares key m → lookup (m w).2 key = Some e → lookup w key = Some e.
Proof.
  intros Hm. destruct (m w) as [a w'] eqn:E. simpl.
  apply Hm in E as [Hc [S|S]]; unfold lookup, alive, now_ms.
  - by rewrite S, Hc.
  - by rewrite S.
Qed.

(** As long as the token is not issued again, what is live under its key
    was there from the start. *)
Lemma later_lookup (t : string) (w w' : world) (e : entry) :
  later t w w' →
  lookup w' (refreshTokenPrefix +:+ t) = Some e →
  lookup w (refreshTokenPrefix +:+ t) = Some e.
Proof.
  intros Hl. induction Hl; intros He.
  - done.
  - by apply IHHl, (elapse_lookup _ d).
  - by apply IHHl.
  - apply IHHl. eapply spared_lookup; [|exact He]. by apply spares_Login.
  - apply IHHl. eapply spared_lookup; [|exact He]. by apply spares_GoogleCallback.
  - apply IHHl. eapply spared_lookup; [|exact He]. by apply spares_Refresh.
  - apply IHHl. eapply spared_lookup; [|exact He]. apply spares_Logout.
  - apply IHHl. eapply spared_lookup; [|exact He]. apply spares_POST_auth_logout_all.
  - apply IHHl. eapply spared_lookup; [|exact He]. apply spares_GET_auth_sessions.
  - apply IHHl. eapply spared_lookup; [|exact He]. apply spares_Set. intros E.
    apply session_key_inj in E. congruence.
  - apply IHHl. eapply spared_lookup; [|exact He]. apply spares_Get.
  - apply IHHl. eapply spared_lookup; [|exact He]. apply spares_Del.
  - apply IHHl. eapply spared_lookup; [|exact He].
    apply spares_SAdd, session_key_not_index_key.
  - apply IHHl. eapply spared_lookup; [|exact He].
    apply spares_SRem, session_key_not_index_key.
  - apply IHHl. eapply spared_lookup; [|exact He]. apply spares_SMembers.
  - apply IHHl. eapply spared_lookup; [|exact He].
    apply spares_Expire, session_key_not_index_key.
  - apply IHHl. eapply spared_lookup; [|exact He]. apply spares_logMsg.
Qed.

Lemma later_dead (t : string) (w w' : world) : later t w w' → dead t w → dead t w'.
Proof.
  unfold dead. intros Hl Hd.
  destruct (lookup w' (refreshTokenPrefix +:+ t)) as [e|] eqn:He; [|done].
  apply (later_lookup _ _ _ _ Hl) in He. congruence.
Qed.


(** A token that went out of use is refused by every later refresh. *)
Lemma later_refused (t : string) (w w' : world) (h : Handler) (ks : keys)
    (entropy : option (list Byte.byte)) (c : Request) :
  dead t w → later t w w' → presents c t →
  session_of w' t = None
  ∧ code (Refresh h ks entropy c w').1 = StatusUnauthorized
  ∧ issued (Refresh h ks entropy c w').1 = None
  ∧ (t ≠ "" → (Refresh h ks entropy c w').1 = InvalidOrExpired).
Proof.
  intros Hd Hl Hc. pose proof (dead_session_of _ _ (later_dead _ _ _ Hl Hd)) as Hs.
  split; [done|].
  destruct (Refresh_refused h ks entropy c w' t Hc Hs) as [H1 H2].
  split; [done|]. split; [done|]. intros Hne. by apply (Refresh_unknown _ _ _ _ _ t).
Qed.

Lemma steady_same (h : Handler) (w w' : world) :
  clock w' = clock w → store w' = store w → plan w' = plan w →
  steady h w → steady h w'.
Proof.
  intros Hc Hs Hp [Hwi Hh]. split; [by apply (well_indexed_ext _ w)|congruence].
Qed.

Lemma step_sound (h : Handler) (ks : keys) (w w' : world) :
  1 ≤ refreshTokenExpiryDays h ≤ 106751 →
  step h ks w w' → sound h w → sound h w'.
Proof.
  intros Hd Hstep [[Hwi Hp] Hc].
  destruct Hstep as [entropy c w Hb|g entropy env c w Hg|entropy c w|c w|hdr c w
                    |hdr c w|d w Hd0].
  - destruct (Login h ks entropy c w) as [r w'] eqn:E. simpl. split.
    + by eapply Login_keeps_index.
    + apply calm_Login in E as [_ ->]. done.
  - destruct (google.GoogleCallback g ks entropy env c w) as [r w'] eqn:E. simpl. split.
    + by eapply GoogleCallback_keeps_index.
    + apply calm_GoogleCallback in E as [_ ->]. done.
  - destruct (Refresh h ks entropy c w) as [r w'] eqn:E. simpl. split.
    + by eapply Refresh_keeps_index.
    + apply calm_Refresh in E as [_ ->]. done.
  - destruct (Logout h c w) as [r w'] eqn:E. simpl. split.
    + by eapply Logout_keeps_index.
    + apply calm_Logout in E as [_ ->]. done.
  - unfold POST_auth_logout_all.
    destruct (behind_JWTAuth ks hdr c (fun ctx => LogoutAll h (with_Ctx c ctx)) w)
      as [(ts & claims & _ & _ & ->)|(_ & body & ->)]; [|by split].
    destruct (LogoutAll h _ w) as [r w'] eqn:E. simpl. split.
    + by eapply LogoutAll_keeps_index.
    + apply calm_LogoutAll in E as [_ ->]. done.
  - unfold GET_auth_sessions.
    destruct (behind_JWTAuth ks hdr c (fun ctx => ListSessions h (with_Ctx c ctx)) w)
      as [(ts & claims & _ & _ & ->)|(_ & body & ->)]; [|by split].
    destruct (ListSessions h _ w) as [r w'] eqn:E. simpl. split.
    + by eapply ListSessions_keeps_index.
    + apply calm_ListSessions in E as [_ ->]. done.
  - split; [|done]. split; [by apply well_indexed_elapse|done].
Qed.

Lemma reachable_sound (h : Handler) (ks : keys) (w : world) :
  1 ≤ refreshTokenExpiryDays h ≤ 106751 → reachable h ks w → sound h w.
Proof.
  intros Hd Hr. induction Hr as [w (Hc & Hs & Hp)|w w' _ IH Hstep].
  - split; [by apply steady_empty|done].
  - by eapply step_sound.
Qed.

(** On a healthy connection, with the index keys holding sets, revoking
    all tokens of a user does not fail. *)
Lemma RevokeAllUserTokens_sound (h : Handler) (userID : string) (w : world) r w' :
  sound h w →
  RevokeAllUserTokens userID w = (r, w') → r = Ok tt.
Proof.
  intros [[Hwi Hp] Hc].
  unfold RevokeAllUserTokens, Client_is_nil, bind at 1. rewrite Hc. simpl.
  unfold bind at 1. destruct (SMembers _ w) as [rm wm] eqn:Em.
  apply SMembers_healthy in Em as (Qm & Pm & Sm & Hrm); [|done].
  assert (∃ tokens, rm = Ok tokens) as [tokens ->].
  { rewrite Hrm. unfold lookup.
    destruct (store w !! (userTokensPrefix +:+ userID)) as [e|] eqn:Hs; [|by eexists].
    destruct (wi_index _ _ Hwi _ _ Hs) as (s & y & ->).
    destruct (alive w _); by eexists. }
  unfold bind at 1. destruct (delete_tokens tokens wm) as [[] wd] eqn:Ed.
  apply delete_tokens_healthy in Ed as (_ & Pd & _); [|done].
  unfold bind, ret. destruct (Del _ wd) as [rd wx] eqn:Ex.
  unfold Del in Ex. apply command_healthy in Ex as (_ & _ & Ex); [|done].
  simpl in Ex. destruct (lookup (with_plan wd healthy) _);
    injection Ex as <- _; by intros [= <- _].
Qed.

(** Revoking all tokens of a user in a sound world ends the session of
    every token that resolved to a session of that user. *)
Lemma RevokeAllUserTokens_ends (h : Handler) (userID : string) (w : world) r w' :
  sound h w →
  RevokeAllUserTokens userID w = (r, w') →
  r = Ok tt
  ∧ ∀ token data, session_of w token = Some data →
      RefreshTokenData.UserID data = userID →
      store w' !! (refreshTokenPrefix +:+ token) = None.
Proof.
  intros Hs E. pose proof (RevokeAllUserTokens_sound h _ _ _ _ Hs E) as ->.
  split; [done|]. intros token data Hd Hu. destruct Hs as [[Hwi Hp] Hc].
  apply RevokeAllUserTokens_healthy in E as (_ & _ & Hdead); [|done].
  apply Hdead. rewrite <- Hu. by apply (well_indexed_complete _ _ Hwi).
Qed.

(** X15.  Take the server from its start with an empty store, on a
    connection that stays healthy, with a refresh expiry of 1 to 106751
    days, handling its requests one after the other, each at one instant
    of the clock: logins, sign-ins with Google, refreshes, logouts,
    logout-alls and listings of sessions, with time passing in between.
    In every world it goes through, every session that resolves is
    listed in the index of its user.  Logout-all therefore ends every
    session of the user: for a request whose bearer token validates, the
    route answers 200, and no token that resolved to a session of the
    user of the claims resolves afterwards, whatever happens later,
    short of an endpoint issuing that token string again. *)
Theorem logout_all_ends_every_session (h : Handler) (ks : keys) (w : world) :
  1 ≤ refreshTokenExpiryDays h ≤ 106751 →
  reachable h ks w →
  index_complete w
  ∧ ∀ (ts : tokenString) (claims : Claims) (c : Request),
      ValidateToken ks (clock w) ts = Ok claims →
      let r := POST_auth_logout_all h ks (Bearer ts) c w in
      code r.1 = StatusOK
      ∧ ∀ token data,
          session_of w token = Some data →
          RefreshTokenData.UserID data = UserID claims →
          ∀ w2, later token r.2 w2 → session_of w2 token = None.
Proof.
  intros Hd Hr. pose proof (reachable_sound h ks w Hd Hr) as Hs.
  split; [destruct Hs as [[Hwi _] _]; by eapply well_indexed_complete|].
  intros ts claims c Hv r. subst r. unfold POST_auth_logout_all.
  destruct (behind_JWTAuth ks (Bearer ts) c (fun ctx => LogoutAll h (with_Ctx c ctx)) w)
    as [(ts' & claims' & [= <-] & Hv' & ->)|(Hno & _)]; [|by destruct (Hno ts claims)].
  assert (claims' = claims) as -> by congruence.
  unfold LogoutAll. simpl. rewrite GetClaims_Set_claims. unfold bind at 1 3.
  destruct (RevokeAllUserTokens (UserID claims) w) as [rr wr] eqn:Er.
  apply (RevokeAllUserTokens_ends h) in Er as [-> Hdead]; [|done]. simpl.
  split; [done|]. intros token data Hsess Hu w2 Hl.
  apply dead_session_of. apply (later_dead _ _ _ Hl). apply dead_absent.
  by eapply Hdead.
Qed.









(** X13.  [Logout] always answers 200 "logged out successfully" and
    clears the cookie, whether or not a token was presented and whether
    or not its revocation worked.  When it logged no failure to revoke,
    the presented token is out of use: every later refresh with it is
    refused with 401, whatever happens in between (time passing, the
    connection coming and going, other requests to the endpoints and
    their commands in any order) short of an endpoint issuing that very
    token string again.  When the connection is down the session is
    still there after the 200, and the log holds the failed revocation. *)
Theorem Logout_always_succeeds (h : Handler) (c : Request) (w : world) :
  let r := Logout h c w in
  r.1 = {| code := StatusOK; body := message_body "logged out successfully";
           cookie := Some clearRefreshTokenCookie |}
  ∧ ((Warn, "Failed to revoke refresh token") ∉ drop (length (log w)) (log r.2) →
     ∀ (w2 : world) (h' : Handler) (ks : keys) (entropy : option (list Byte.byte))
       (c' : Request),
       later (getRefreshToken c) r.2 w2 →
       getRefreshToken c' = getRefreshToken c →
       code (Refresh h' ks entropy c' w2).1 = StatusUnauthorized)
  ∧ (Client w = true → down (plan w) → getRefreshToken c ≠ "" →
     store r.2 = store w
     ∧ drop (length (log w)) (log r.2) = [(Warn, "Failed to revoke refresh token")]).
Proof.
  intros r. subst r. destruct (Logout h c w) as [resp w'] eqn:E. simpl.
  revert E. unfold Logout. unfold bind at 1.
  case_bool_decide as Htok.
  - unfold bind at 1.
    destruct (RevokeRefreshToken _ w) as [rr wr] eqn:Er.
    pose proof (RevokeRefreshToken_effect _ _ _ _ Er) as (Qr & Hgone & _).
    destruct rr as [[]|e]; simpl; intros [= <- <-].
    + split; [done|]. split.
      * intros _ w2 h' ks entropy c' Hl Hc'.
        apply (later_refused (getRefreshToken c) wr w2 h' ks entropy c'); [|done|done].
        apply dead_absent. by apply Hgone.
      * intros Hc Hd _. destruct (RevokeRefreshToken_down (getRefreshToken c) w Hc Hd)
          as (w2 & E2 & _). congruence.
    + split; [done|]. simpl. destruct Qr as (_ & _ & Hl). rewrite Hl, drop_app_length.
      split.
      * intros Hn. exfalso. apply Hn. left.
      * intros Hc Hd _. split; [|done].
        destruct (RevokeRefreshToken_down (getRefreshToken c) w Hc Hd)
          as (w2 & E2 & S2 & _). congruence.
  - simpl. intros [= <- <-]. split; [done|]. split.
    + intros _ w2 h' ks entropy c' Hl Hc'.
      assert (getRefreshToken c = "") as E0.
      { destruct (decide (getRefreshToken c = "")); [done|]. by destruct Htok. }
      unfold Refresh. rewrite Hc', E0. simpl. done.
    + intros _ _ Hne. by destruct Htok.
Qed.

End lifecycle_invariant.

(** ** Tokens: the validity window and the refresh token *)

Section access_token_validity.
Import jwt auth.
Context `{Signer}.

Lemma Truncate_Second_mono (t u : Time) : t ≤ u → Truncate_Second t ≤ Truncate_Second u.
Proof.
  intros Hle. unfold Truncate_Second.
  apply Z.mul_le_mono_nonneg_r; [unfold Second; lia|].
  apply Z.div_le_mono; [unfold Second; lia|done].
Qed.

(** X17.  The validity window of an access token.  With a matching key
    pair and a lifetime of at most 153722867 minutes in absolute
    value, the token issued at [now] validates at exactly the instants
    from the start of the second of [now] up to, and excluding, the
    start of the second of [now] plus the lifetime.  A lifetime that is
    not positive therefore gives a token that validates at no instant. *)
Theorem access_token_window (ks : keys) (now : Time)
    (userID username role : string) (permissions : list string) (issuer : string)
    (expiryMins : Z) :
  key_pair ks →
  -153722867 ≤ expiryMins ≤ 153722867 →
  ∃ ts,
    GenerateAccessToken ks now userID username role permissions issuer expiryMins
      = Ok ts
    ∧ (∀ t, (∃ claims, ValidateToken ks t ts = Ok claims)
            ↔ Truncate_Second now ≤ t
              < Truncate_Second (now + expiryMins * Minute))
    ∧ (expiryMins ≤ 0 → ∀ t, ∃ e, ValidateToken ks t ts = Err e).
Proof.
  intros (sk & Hsk & Hpk) Hm.
  assert (mul64 expiryMins Minute = expiryMins * Minute) as Hfit.
  { unfold mul64. apply wrap64_small.
    unfold Minute, Second, min_int64, max_int64. lia. }
  unfold GenerateAccessToken. rewrite Hsk. eexists. split; [reflexivity|].
  assert (∀ t, (∃ claims,
                  ValidateToken ks t
                    (SignedString SigningMethodRS256
                       {| UserID := userID; Username := username; Role := role;
                          Permissions := permissions;
                          Registered :=
                            {| Issuer := issuer; Subject := userID; Audience := [];
                               IssuedAt := NewNumericDate now;
                               ExpiresAt :=
                                 NewNumericDate (Time_Add now (mul64 expiryMins Minute));
                               NotBefore := NewNumericDate now; ID := "" |} |} sk)
                  = Ok claims)
               ↔ Truncate_Second now ≤ t
                 < Truncate_Second (now + expiryMins * Minute)) as Hwin.
  { intros t. unfold ValidateToken. rewrite Hpk.
    unfold SignedString, SigningMethodRS256, ParseWithClaims. simpl.
    rewrite Verify_Sign.
    unfold Validate, verifyExpiresAt, verifyNotBefore, Before. simpl.
    rewrite !Truncate_Second_idem.
    rewrite Hfit. unfold Time_Add.
    case_bool_decide as H1; case_bool_decide as H2; simpl.
    - split; [by intros [? ?]|lia].
    - split; [intros _; lia|]. intros _. by eexists.
    - split; [by intros [? ?]|lia].
    - split; [by intros [? ?]|lia]. }
  split; [exact Hwin|].
  intros Hle t.
  match goal with
  | |- ∃ e, ?v = Err e => destruct v as [claims|e] eqn:E; [|by eexists]
  end.
  exfalso. assert (Truncate_Second now ≤ t < Truncate_Second (now + expiryMins * Minute))
    as Hr by (apply Hwin; by eexists).
  pose proof (Truncate_Second_mono (now + expiryMins * Minute) now) as Hmono.
  unfold Minute, Second in *. lia.
Qed.

End access_token_validity.

Section refresh_token.
Import auth alphabet.
Local Open Scope N_scope.

Lemma divmod64_inj (x y : N) : x / 64 = y / 64 → x mod 64 = y mod 64 → x = y.
Proof.
  intros Hd Hm. rewrite (N.div_mod x 64), (N.div_mod y 64) by done. by rewrite Hd, Hm.
Qed.

(** A number below 2^24 is determined by its four sextets. *)
Lemma sextets_inj (n m : N) :
  n < 16777216 → m < 16777216 →
  N.land (N.shiftr n 18) 63 = N.land (N.shiftr m 18) 63 →
  N.land (N.shiftr n 12) 63 = N.land (N.shiftr m 12) 63 →
  N.land (N.shiftr n 6) 63 = N.land (N.shiftr m 6) 63 →
  N.land n 63 = N.land m 63 →
  n = m.
Proof.
  intros Hn Hm. change 63 with (N.ones 6). rewrite !N.land_ones, !N.shiftr_div_pow2.
  change (2 ^ 6) with 64. change (2 ^ 12) with (64 * 64).
  change (2 ^ 18) with (64 * 64 * 64).
  rewrite <- !N.Div0.div_div.
  intros H3 H2 H1 H0.
  rewrite (N.mod_small (n / 64 / 64 / 64)) in H3
    by (apply N.Div0.div_lt_upper_bound; apply N.Div0.div_lt_upper_bound;
        apply N.Div0.div_lt_upper_bound; lia).
  rewrite (N.mod_small (m / 64 / 64 / 64)) in H3
    by (apply N.Div0.div_lt_upper_bound; apply N.Div0.div_lt_upper_bound;
        apply N.Div0.div_lt_upper_bound; lia).
  apply divmod64_inj; [|done]. apply divmod64_inj; [|done]. by apply divmod64_inj.
Qed.

Lemma land_shiftl_small (y c k : N) : c < 2 ^ k → N.land (N.shiftl y k) c = 0.
Proof.
  intros Hc. apply N.bits_inj. intros i. rewrite N.land_spec, N.bits_0.
  destruct (N.ltb_spec i k) as [Hlt|Hge].
  - by rewrite N.shiftl_spec_low.
  - rewrite andb_comm. replace (N.testbit c i) with false; [done|].
    symmetry. destruct (N.eq_dec c 0) as [->|Hne]; [apply N.bits_0|].
    apply N.bits_above_log2. apply N.log2_lt_pow2; [lia|].
    eapply N.lt_le_trans; [exact Hc|]. by apply N.pow_le_mono_r.
Qed.

Lemma lor_shiftl_small (y c k : N) : c < 2 ^ k → N.lor (N.shiftl y k) c = y * 2 ^ k + c.
Proof.
  intros Hc. rewrite <- N.lxor_lor by (by apply land_shiftl_small).
  rewrite <- N.add_nocarry_lxor by (by apply land_shiftl_small).
  by rewrite N.shiftl_mul_pow2.
Qed.

(** The 24-bit group of three bytes. *)
Lemma group_value (a b c : Byte.byte) :
  N.lor (N.lor (N.shiftl (Byte.to_N a) 16) (N.shiftl (Byte.to_N b) 8)) (Byte.to_N c)
  = Byte.to_N a * 65536 + Byte.to_N b * 256 + Byte.to_N c.
Proof.
  pose proof (Byte.to_N_bounded a). pose proof (Byte.to_N_bounded b).
  pose proof (Byte.to_N_bounded c).
  replace (N.shiftl (Byte.to_N a) 16) with (N.shiftl (N.shiftl (Byte.to_N a) 8) 8)
    by (by rewrite N.shiftl_shiftl).
  rewrite <- N.shiftl_lor.
  rewrite (lor_shiftl_small (Byte.to_N a) (Byte.to_N b) 8) by (simpl; lia).
  rewrite lor_shiftl_small by (simpl; lia). simpl. lia.
Qed.

Lemma group_value2 (a b : Byte.byte) :
  N.lor (N.shiftl (Byte.to_N a) 16) (N.shiftl (Byte.to_N b) 8)
  = Byte.to_N a * 65536 + Byte.to_N b * 256.
Proof.
  pose proof (group_value a b "000"%byte) as E. simpl (Byte.to_N "000") in E.
  by rewrite N.lor_0_r, N.add_0_r in E.
Qed.

Lemma to_N_inj (a b : Byte.byte) : Byte.to_N a = Byte.to_N b → a = b.
Proof.
  intros E. pose proof (Byte.of_to_N a) as Ha. rewrite E, Byte.of_to_N in Ha. congruence.
Qed.

Lemma sextet_index (n : N) : index_in (sextet n) encodeURL = Some (N.land n 63).
Proof.
  unfold sextet.
  assert (N.land n 63 < 64) as Hlt.
  { change 63 with (N.ones 6). rewrite N.land_ones. by apply N.mod_lt. }
  generalize dependent (N.land n 63). intros k Hk.
  assert (forallb (fun i =>
            match index_in (default "="%char (String.get (N.to_nat i) encodeURL))
                    encodeURL with
            | Some j => N.eqb i j
            | None => false
            end) (N.of_nat <$> seq 0 64) = true) as Hall by (by vm_compute).
  rewrite forallb_forall in Hall. specialize (Hall k).
  destruct (index_in _ encodeURL) as [j|].
  - f_equal. symmetry. apply N.eqb_eq. apply Hall.
    apply list_elem_of_In. apply list_elem_of_fmap. exists (N.to_nat k).
    split; [by rewrite N2Nat.id|]. apply elem_of_seq. lia.
  - exfalso. assert (false = true); [|done]. apply Hall.
    apply list_elem_of_In. apply list_elem_of_fmap. exists (N.to_nat k).
    split; [by rewrite N2Nat.id|]. apply elem_of_seq. lia.
Qed.

Lemma sextet_inj (n m : N) : sextet n = sextet m → N.land n 63 = N.land m 63.
Proof.
  intros E. pose proof (sextet_index n) as Hn. rewrite E, sextet_index in Hn. congruence.
Qed.

Lemma sextet_not_pad (n : N) : sextet n ≠ "="%char.
Proof.
  intros E. pose proof (sextet_index n) as Hn. rewrite E in Hn. by vm_compute in Hn.
Qed.

Lemma EncodeToString_inj_le (k : nat) (b1 b2 : list Byte.byte) :
  (length b1 ≤ k)%nat → EncodeToString b1 = EncodeToString b2 → b1 = b2.
Proof.
  revert b1 b2. induction k as [|k IH]; intros b1 b2 Hlen.
  - destruct b1; [|simpl in Hlen; lia].
    destruct b2 as [|a [|b [|c rest]]]; [done|discriminate..].
  - destruct b1 as [|a1 [|b1' [|c1 rest1]]];
      destruct b2 as [|a2 [|b2' [|c2 rest2]]]; try done; simpl;
      try (intros E; simplify_eq;
           match goal with
           | Hx : sextet _ = "="%char |- _ => by destruct (sextet_not_pad _ Hx)
           | Hx : "="%char = sextet _ |- _ =>
               symmetry in Hx; by destruct (sextet_not_pad _ Hx)
           end).
    + (* one byte each *)
      intros E. injection E as E1 E2.
      apply sextet_inj in E1, E2. f_equal. apply to_N_inj.
      pose proof (Byte.to_N_bounded a1). pose proof (Byte.to_N_bounded a2).
      assert (N.shiftl (Byte.to_N a1) 16 = N.shiftl (Byte.to_N a2) 16) as En.
      { apply sextets_inj; try done.
        - rewrite N.shiftl_mul_pow2. simpl. lia.
        - rewrite N.shiftl_mul_pow2. simpl. lia.
        - change 63 with (N.ones 6).
          rewrite !N.land_ones, !N.shiftr_div_pow2, !N.shiftl_mul_pow2.
          change (2 ^ 16) with (1024 * 2 ^ 6).
          rewrite !N.mul_assoc, !N.div_mul by done.
          change 1024 with (16 * 2 ^ 6).
          by rewrite !N.mul_assoc, !N.Div0.mod_mul.
        - change 63 with (N.ones 6). rewrite !N.land_ones, !N.shiftl_mul_pow2.
          change (2 ^ 16) with (1024 * 2 ^ 6).
          by rewrite !N.mul_assoc, !N.Div0.mod_mul. }
      rewrite !N.shiftl_mul_pow2 in En. apply N.mul_cancel_r in En; done.
    + (* two bytes each *)
      intros E. injection E as E1 E2 E3.
      apply sextet_inj in E1, E2, E3.
      pose proof (Byte.to_N_bounded a1). pose proof (Byte.to_N_bounded a2).
      pose proof (Byte.to_N_bounded b1'). pose proof (Byte.to_N_bounded b2').
      rewrite !group_value2 in E1, E2, E3.
      assert (Byte.to_N a1 * 65536 + Byte.to_N b1' * 256
              = Byte.to_N a2 * 65536 + Byte.to_N b2' * 256) as En.
      { apply sextets_inj; try done; try lia.
        change 63 with (N.ones 6). rewrite !N.land_ones.
        replace (Byte.to_N a1 * 65536 + Byte.to_N b1' * 256)
          with ((Byte.to_N a1 * 1024 + Byte.to_N b1' * 4) * 2 ^ 6) by (simpl; lia).
        replace (Byte.to_N a2 * 65536 + Byte.to_N b2' * 256)
          with ((Byte.to_N a2 * 1024 + Byte.to_N b2' * 4) * 2 ^ 6) by (simpl; lia).
        by rewrite !N.Div0.mod_mul. }
      assert (Byte.to_N a1 = Byte.to_N a2 ∧ Byte.to_N b1' = Byte.to_N b2') as [Ea Eb]
        by lia.
      apply to_N_inj in Ea, Eb. by subst.
    + (* three bytes and more *)
      intros E. injection E as E1 E2 E3 E4 Erest.
      apply sextet_inj in E1, E2, E3, E4.
      pose proof (Byte.to_N_bounded a1). pose proof (Byte.to_N_bounded a2).
      pose proof (Byte.to_N_bounded b1'). pose proof (Byte.to_N_bounded b2').
      pose proof (Byte.to_N_bounded c1). pose proof (Byte.to_N_bounded c2).
      rewrite !group_value in E1, E2, E3, E4.
      assert (Byte.to_N a1 * 65536 + Byte.to_N b1' * 256 + Byte.to_N c1
              = Byte.to_N a2 * 65536 + Byte.to_N b2' * 256 + Byte.to_N c2) as En
        by (apply sextets_inj; try done; lia).
      assert (Byte.to_N a1 = Byte.to_N a2 ∧ Byte.to_N b1' = Byte.to_N b2'
              ∧ Byte.to_N c1 = Byte.to_N c2) as (Ea & Eb & Ec) by lia.
      apply to_N_inj in Ea, Eb, Ec. subst. do 3 f_equal.
      apply IH; [simpl in Hlen; lia|done].
Qed.

Lemma EncodeToString_length_le (k : nat) (src : list Byte.byte) :
  (length src ≤ k)%nat →
  String.length (EncodeToString src) = (4 * ((length src + 2) / 3))%nat.
Proof.
  revert src. induction k as [|k IH]; intros src Hlen.
  - destruct src; [done|simpl in Hlen; lia].
  - destruct src as [|a [|b [|c rest]]]; [reflexivity..|].
    cbn [EncodeToString String.length length].
    rewrite IH by (simpl in Hlen; lia).
    replace (S (S (S (length rest))) + 2)%nat with (length rest + 2 + 1 * 3)%nat by lia.
    rewrite Nat.div_add by done. lia.
Qed.

Local Close Scope N_scope.

(** X18.  [GenerateRefreshToken] fails only when the random source
    fails.  The token it makes of 32 random bytes is 44 characters long,
    and different bytes never give the same token: two refresh tokens
    collide only if the random source returned the same bytes twice. *)
Theorem GenerateRefreshToken_injective :
  GenerateRefreshToken None = Err ErrRand
  ∧ (∀ bytes, ∃ token, GenerateRefreshToken (Some bytes) = Ok token
                       ∧ (length bytes = 32%nat → String.length token = 44%nat))
  ∧ (∀ bytes1 bytes2 token,
       GenerateRefreshToken (Some bytes1) = Ok token →
       GenerateRefreshToken (Some bytes2) = Ok token →
       bytes1 = bytes2).
Proof.
  split; [done|]. split.
  - intros bytes. eexists. split; [reflexivity|]. intros Hl.
    rewrite (EncodeToString_length_le (length bytes)) by done. by rewrite Hl.
  - intros b1 b2 token [= <-] [= E].
    by apply (EncodeToString_inj_le (length b1) b1 b2).
Qed.

End refresh_token.

(** ** Roles of a user: assignment, removal and the permission check *)

Section role_assignment.
Import models rbac.

Lemma least_by_acc {A} (key : A → uint) (rows : list A) (best : option A) :
  match foldl (fun best row =>
                 match best with
                 | None => Some row
                 | Some b => if (key row <? key b)%N then Some row else Some b
                 end) best rows with
  | Some x => (Some x = best ∨ x ∈ rows)
  | None => best = None ∧ rows = []
  end.
Proof.
  revert best. induction rows as [|r rows IH]; intros best; simpl.
  - destruct best; [by left|done].
  - specialize (IH (match best with
                    | None => Some r
                    | Some b => if (key r <? key b)%N then Some r else Some b
                    end)).
    destruct (foldl _ _ rows) as [x|].
    + destruct IH as [IH|IH]; [|right; by right].
      destruct best as [b|].
      * destruct (key r <? key b)%N; [injection IH as ->; right; left|by left].
      * injection IH as ->. right. left.
    + destruct IH as [IH _]. destruct best as [b|]; [|done].
      by destruct (key r <? key b)%N.
Qed.

Lemma least_by_spec {A} (key : A → uint) (rows : list A) :
  match least_by key rows with
  | Some x => x ∈ rows
  | None => rows = []
  end.
Proof.
  unfold least_by. pose proof (least_by_acc key rows None) as Hl.
  destruct (foldl _ None rows) as [x|]; [by destruct Hl|by destruct Hl].
Qed.

Lemma First_role_named_spec (roleName : string) (db : DB) :
  match First_role_named roleName db with
  | Ok role => role ∈ roles db ∧ Role.Name role = roleName
  | Err e => e = ErrRecordNotFound ∧ role_named roleName db = false
  end.
Proof.
  unfold First_role_named.
  pose proof (least_by_spec Role.ID (filter (fun r => Role.Name r = roleName) (roles db)))
    as Hl.
  destruct (least_by _ _) as [role|].
  - apply list_elem_of_filter in Hl as [? ?]. done.
  - split; [done|]. apply not_true_is_false. intros Hn.
    apply role_named_spec in Hn. apply list_elem_of_fmap in Hn as (r & Hr & Hin).
    assert (r ∈ filter (fun r => Role.Name r = roleName) (roles db)) as Hf
      by (apply list_elem_of_filter; done).
    rewrite Hl in Hf. by apply elem_of_nil in Hf.
Qed.

Lemma HasPermission_spec (db : DB) (userID : uint) (n : string) :
  HasPermission db userID n = true
  ↔ ∃ p rp ur,
      p ∈ permissions db ∧ rp ∈ role_permissions db ∧ ur ∈ user_roles db
      ∧ Permission.ID p = rp.2 ∧ rp.1 = UserRole.RoleID ur
      ∧ UserRole.UserID ur = userID ∧ n = Permission.Name p.
Proof.
  unfold HasPermission. rewrite bool_decide_eq_true.
  match goal with |- (0 < length ?l)%nat ↔ _ => set (rows := l) end.
  assert ((0 < length rows)%nat ↔ () ∈ rows) as ->.
  { destruct rows as [|[] rest]; simpl.
    - rewrite elem_of_nil. lia.
    - split; [intros _; left|lia]. }
  subst rows. rewrite list_elem_of_bind. split.
  - intros (p & Hin & Hp). apply list_elem_of_bind in Hin as (rp & Hin & Hrp).
    apply list_elem_of_bind in Hin as (ur & Hin & Hur).
    repeat case_bool_decide; simpl in Hin; try by apply elem_of_nil in Hin.
    exists p, rp, ur. done.
  - intros (p & rp & ur & Hp & Hrp & Hur & E1 & E2 & E3 & E4).
    exists p. split; [|done]. apply list_elem_of_bind. exists rp. split; [|done].
    apply list_elem_of_bind. exists ur. split; [|done].
    rewrite !bool_decide_eq_true_2 by done. simpl. left.
Qed.

(** X19.  [HasPermission] and [GetUserPermissions] agree: a user has a
    permission exactly when its name is among the names the resolver
    returns for the user. *)
Theorem HasPermission_iff_resolved (db : DB) (userID : uint) (permissionName : string) :
  HasPermission db userID permissionName = true
  ↔ permissionName ∈ GetUserPermissions db userID.
Proof. by rewrite HasPermission_spec, GetUserPermissions_elem. Qed.

Lemma roles_of_user_elem (db : DB) (userID rid : uint) :
  rid ∈ roles_of_user db userID
  ↔ ∃ ur, ur ∈ user_roles db ∧ UserRole.UserID ur = userID ∧ UserRole.RoleID ur = rid.
Proof.
  unfold roles_of_user. rewrite list_elem_of_fmap. split.
  - intros (ur & -> & Hin). apply list_elem_of_filter in Hin as [? ?]. by exists ur.
  - intros (ur & Hin & Hu & <-). exists ur. split; [done|].
    by apply list_elem_of_filter.
Qed.

Lemma permissions_of_role_elem (db : DB) (rid : uint) (n : string) :
  n ∈ permissions_of_role db rid
  ↔ ∃ p, p ∈ permissions db ∧ (rid, Permission.ID p) ∈ role_permissions db
         ∧ n = Permission.Name p.
Proof.
  unfold permissions_of_role. rewrite elem_of_list_to_set, list_elem_of_fmap. split.
  - intros (p & -> & Hin). apply list_elem_of_filter in Hin as [? ?]. by exists p.
  - intros (p & Hin & Hrp & ->). exists p. split; [done|].
    by apply list_elem_of_filter.
Qed.

Lemma GetUserPermissions_roles (db : DB) (userID : uint) (n : string) :
  n ∈ GetUserPermissions db userID
  ↔ ∃ rid, rid ∈ roles_of_user db userID ∧ n ∈ permissions_of_role db rid.
Proof.
  rewrite GetUserPermissions_elem. split.
  - intros (p & [r q] & ur & Hp & Hrp & Hur & E1 & E2 & E3 & ->). simpl in *. subst.
    exists (UserRole.RoleID ur). split.
    + apply roles_of_user_elem. by exists ur.
    + apply permissions_of_role_elem. by exists p.
  - intros (rid & Hr & Hp). apply roles_of_user_elem in Hr as (ur & Hur & Hu & <-).
    apply permissions_of_role_elem in Hp as (p & Hp & Hrp & ->).
    exists p, (UserRole.RoleID ur, Permission.ID p), ur. done.
Qed.

Lemma existsb_assignment (urs : list UserRole.t) (userID rid : uint) :
  existsb (fun ur => bool_decide (UserRole.UserID ur = userID)
                     && bool_decide (UserRole.RoleID ur = rid)) urs = true
  ↔ ∃ ur, ur ∈ urs ∧ UserRole.UserID ur = userID ∧ UserRole.RoleID ur = rid.
Proof.
  rewrite existsb_exists. split.
  - intros (ur & Hin & Hb). apply andb_true_iff in Hb as [H1 H2].
    apply bool_decide_eq_true in H1, H2. exists ur. by rewrite list_elem_of_In.
  - intros (ur & Hin & H1 & H2). exists ur. rewrite <- list_elem_of_In.
    split; [done|]. by rewrite !bool_decide_eq_true_2.
Qed.

(** X20.  [AssignRoleToUser] fails with "record not found" when no role
    has the name, and otherwise succeeds: afterwards the user has the
    role, resolves exactly the permissions resolved before together with
    those of the role, and no other user and no other table has changed.
    Assigning the same role again changes nothing. *)
Theorem AssignRoleToUser_grants (now : Time) (db : DB) (userID : uint)
    (roleName : string) :
  (role_named roleName db = false →
     AssignRoleToUser now db userID roleName = Err ErrRecordNotFound)
  ∧ (role_named roleName db = true →
     ∃ role db',
       AssignRoleToUser now db userID roleName = Ok db'
       ∧ role ∈ roles db ∧ Role.Name role = roleName
       ∧ Role.ID role ∈ roles_of_user db' userID
       ∧ (∀ n, n ∈ GetUserPermissions db' userID
               ↔ n ∈ GetUserPermissions db userID
                 ∨ n ∈ permissions_of_role db (Role.ID role))
       ∧ (∀ u, u ≠ userID → roles_of_user db' u = roles_of_user db u)
       ∧ permissions db' = permissions db ∧ roles db' = roles db
       ∧ role_permissions db' = role_permissions db
       ∧ (∀ now', AssignRoleToUser now' db' userID roleName = Ok db')).
Proof.
  pose proof (First_role_named_spec roleName db) as Hf. unfold AssignRoleToUser. split.
  - intros Hn. destruct (First_role_named roleName db) as [role|e].
    + destruct Hf as [Hin Hname]. assert (role_named roleName db = true); [|congruence].
      apply role_named_spec. apply list_elem_of_fmap. by exists role.
    + by destruct Hf as [-> _].
  - intros Hn. destruct (First_role_named roleName db) as [role|e] eqn:Ef;
      [|destruct Hf; congruence].
    destruct Hf as [Hin Hname]. exists role.
    destruct (existsb _ (user_roles db)) eqn:Hex.
    + exists db. apply existsb_assignment in Hex as (ur & Hur & Hu & Hr).
      assert (Role.ID role ∈ roles_of_user db userID) as Hhas
        by (apply roles_of_user_elem; by exists ur).
      split; [done|]. split; [done|]. split; [done|]. split; [done|].
      split; [|split; [done|split; [done|split; [done|split; [done|]]]]].
      * intros n. split; [by left|]. intros [?|Hp]; [done|].
        apply GetUserPermissions_roles. by exists (Role.ID role).
      * intros now'. rewrite Ef.
        assert (existsb (fun ur0 => bool_decide (UserRole.UserID ur0 = userID)
                                    && bool_decide (UserRole.RoleID ur0 = Role.ID role))
                  (user_roles db) = true) as ->; [|done].
        apply existsb_assignment. by exists ur.
    + eexists. split; [reflexivity|].
      set (new := UserRole.mk userID (Role.ID role) now).
      set (db' := with_user_roles db (user_roles db ++ [new])).
      assert (∀ u rid, rid ∈ roles_of_user db' u
                       ↔ rid ∈ roles_of_user db u ∨ (u = userID ∧ rid = Role.ID role))
        as Hroles.
      { intros u rid. rewrite !roles_of_user_elem. subst db'. simpl. split.
        - intros (ur & Hur & Hu & Hr). apply elem_of_app in Hur as [Hur|Hur].
          + left. by exists ur.
          + apply list_elem_of_singleton in Hur as ->. right. by subst.
        - intros [(ur & Hur & Hu & Hr)|[-> ->]].
          + exists ur. split; [apply elem_of_app; by left|done].
          + exists new. split; [apply elem_of_app; right; left|done]. }
      split; [done|]. split; [done|]. split; [apply Hroles; by right|].
      split; [|split; [|split; [done|split; [done|split; [done|]]]]].
      * intros n. rewrite !GetUserPermissions_roles. split.
        -- intros (rid & Hr & Hp). apply Hroles in Hr as [Hr|[_ ->]].
           ++ left. by exists rid.
           ++ by right.
        -- intros [(rid & Hr & Hp)|Hp].
           ++ exists rid. split; [apply Hroles; by left|done].
           ++ exists (Role.ID role). split; [apply Hroles; by right|done].
      * intros u Hu. unfold roles_of_user. subst db'. simpl.
        rewrite filter_app, filter_cons_False, filter_nil, app_nil_r; [done|].
        simpl. congruence.
      * intros now'.
        assert (First_role_named roleName db' = Ok role) as -> by done.
        assert (existsb (fun ur0 => bool_decide (UserRole.UserID ur0 = userID)
                                    && bool_decide (UserRole.RoleID ur0 = Role.ID role))
                  (user_roles db') = true) as ->; [|done].
        apply existsb_assignment. exists new. split; [|done].
        subst db'. simpl. apply elem_of_app. right. left.
Qed.

(** X21.  [RemoveRoleFromUser] is the inverse of the assignment.  When a
    role has the name it succeeds, afterwards the user does not have the
    role, keeps every other role, and no other user has changed;
    removing a role the user does not have changes no assignment, so an
    assignment followed by the removal gives back the assignments that
    were there.  When no role has the name it fails with "record not
    found". *)
Theorem RemoveRoleFromUser_revokes (db : DB) (userID : uint) (roleName : string) :
  (role_named roleName db = false →
     RemoveRoleFromUser db userID roleName = Err ErrRecordNotFound)
  ∧ (∀ role, First_role_named roleName db = Ok role →
     ∃ db',
       RemoveRoleFromUser db userID roleName = Ok db'
       ∧ (Role.ID role ∉ roles_of_user db' userID)
       ∧ (∀ rid, rid ≠ Role.ID role →
            (rid ∈ roles_of_user db' userID ↔ rid ∈ roles_of_user db userID))
       ∧ (∀ u, u ≠ userID → roles_of_user db' u = roles_of_user db u)
       ∧ (Role.ID role ∉ roles_of_user db userID → db' = db)
       ∧ (Role.ID role ∉ roles_of_user db userID →
          ∀ now db1, AssignRoleToUser now db userID roleName = Ok db1 →
                     RemoveRoleFromUser db1 userID roleName = Ok db)).
Proof.
  pose proof (First_role_named_spec roleName db) as Hf. unfold RemoveRoleFromUser. split.
  - intros Hn. destruct (First_role_named roleName db) as [role|e].
    + destruct Hf as [Hin Hname]. assert (role_named roleName db = true); [|congruence].
      apply role_named_spec. apply list_elem_of_fmap. by exists role.
    + by destruct Hf as [-> _].
  - intros role Ef. rewrite Ef. eexists. split; [reflexivity|].
    set (keep := fun ur => ¬ (UserRole.UserID ur = userID
                              ∧ UserRole.RoleID ur = Role.ID role)).
    assert (∀ urs : list UserRole.t,
              (∀ ur, ur ∈ urs → keep ur) → filter keep urs = urs) as Hkeep.
    { intros urs Hall. induction urs as [|ur urs IH]; [done|].
      rewrite filter_cons_True by (apply Hall; left). f_equal. apply IH.
      intros ? ?. apply Hall. by right. }
    assert (Role.ID role ∉ roles_of_user db userID → ∀ ur, ur ∈ user_roles db → keep ur)
      as Hnot.
    { intros Hn ur Hur [Hu Hr]. apply Hn. apply roles_of_user_elem. by exists ur. }
    split; [|split; [|split; [|split]]].
    + rewrite roles_of_user_elem. simpl. intros (ur & Hur & Hu & Hr).
      apply list_elem_of_filter in Hur as [Hk _]. by apply Hk.
    + intros rid Hrid. rewrite !roles_of_user_elem. simpl. split.
      * intros (ur & Hur & Hu & Hr). apply list_elem_of_filter in Hur as [_ ?].
        by exists ur.
      * intros (ur & Hur & Hu & Hr). exists ur. split; [|done].
        apply list_elem_of_filter. split; [|done]. intros [_ ?]. congruence.
    + intros u Hu. unfold roles_of_user. simpl. f_equal.
      rewrite list_filter_filter. apply list_filter_iff. intros ur.
      split; [by intros [? _]|]. intros Hx. split; [done|]. intros [? _]. congruence.
    + intros Hn. unfold with_user_roles. rewrite Hkeep by auto. by destruct db.
    + intros Hn now db1. unfold AssignRoleToUser. rewrite Ef.
      destruct (existsb _ (user_roles db)) eqn:Hex.
      * apply existsb_assignment in Hex as (ur & Hur & Hu & Hr).
        destruct Hn. apply roles_of_user_elem. by exists ur.
      * intros [= <-].
        assert (First_role_named roleName
                  (with_user_roles db
                     (user_roles db ++ [UserRole.mk userID (Role.ID role) now]))
                = Ok role) as -> by done.
        unfold with_user_roles. simpl.
        rewrite filter_app, filter_cons_False, filter_nil, app_nil_r
          by (intros Hk; by apply Hk).
        rewrite Hkeep by auto. by destruct db.
Qed.

End role_assignment.

(** ** Seeding and the roles that are already there *)

Section seeding_existing.
Import models.

Lemma add_role_permission_elem (rows : list (uint * uint)) (l : list (uint * uint))
    (row : uint * uint) :
  row ∈ foldl add_role_permission rows l ↔ row ∈ rows ∨ row ∈ l.
Proof.
  revert rows. induction l as [|x l IH]; intros rows; simpl.
  - rewrite elem_of_nil. tauto.
  - rewrite IH, elem_of_cons. unfold add_role_permission. case_bool_decide as Hx.
    + split; [tauto|]. intros [?|[->|?]]; tauto.
    + rewrite elem_of_app, list_elem_of_singleton. tauto.
Qed.

Lemma seed_permissions_tables now perms db db' :
  seed_permissions now perms db = Ok db' →
  roles db' = roles db ∧ role_permissions db' = role_permissions db
  ∧ user_roles db' = user_roles db ∧ roles_id_seq db' = roles_id_seq db.
Proof.
  revert db. induction perms as [|p perms IH]; intros db; simpl.
  - by intros [= <-].
  - unfold FirstOrCreate_permission, Create_permission.
    destruct (permission_named _ db); simpl; [apply IH|].
    destruct (existsb _ _); simpl; [done|]. intros E. apply IH in E. simpl in E. done.
Qed.

(** What [db.Create] of a role with its permissions adds. *)
Lemma Create_role_rows now r perms db db' :
  Create_role now r perms db = Ok db' →
  permissions db' = permissions db ∧ user_roles db' = user_roles db
  ∧ (∀ x, x ∈ roles db → Role.ID x ≠ roles_id_seq db)
  ∧ roles db' = roles db ++ [Role.mk (roles_id_seq db) (Role.Name r)
                               (Role.Description r) (Role.IsSystem r) now now]
  ∧ ∀ row, row ∈ role_permissions db'
           ↔ row ∈ role_permissions db
             ∨ ∃ p, p ∈ perms ∧ row = (roles_id_seq db, Permission.ID p).
Proof.
  unfold Create_role. destruct (existsb _ (roles db)) eqn:Hex; [done|].
  intros [= <-]. simpl. split; [done|]. split; [done|]. split; [|split; [done|]].
  - intros x Hx Hid. assert (existsb (fun r0 => bool_decide (Role.ID r0 = roles_id_seq db)
                               || bool_decide (Role.Name r0 = Role.Name r))
                               (roles db) = true); [|congruence].
    apply existsb_exists. exists x. rewrite <- list_elem_of_In. split; [done|].
    by rewrite bool_decide_eq_true_2.
  - intros row. rewrite add_role_permission_elem, list_elem_of_fmap.
    split; (intros [?|(p & ? & ?)]; [by left|right; by exists p]).
Qed.

Lemma seed_roles_spares now rs db db' :
  seed_roles now rs db = Ok db' →
  permissions db' = permissions db ∧ user_roles db' = user_roles db
  ∧ roles db `prefix_of` roles db'
  ∧ (∀ row, row ∈ role_permissions db → row ∈ role_permissions db')
  ∧ (∀ x pid, x ∈ roles db → (Role.ID x, pid) ∈ role_permissions db' →
       (Role.ID x, pid) ∈ role_permissions db).
Proof.
  revert db. induction rs as [|[role perms] rs IH]; intros db; simpl.
  - intros [= <-]. by repeat split.
  - destruct (role_named (Role.Name role) db); [apply IH|].
    destruct (Create_role now role perms db) as [db1|e] eqn:Ec; simpl; [|done].
    intros E. apply IH in E as (Hp & Hu & Hr & Hmono & Hold).
    apply Create_role_rows in Ec as (Hp1 & Hu1 & Hfresh & Hr1 & Hrows).
    split; [congruence|]. split; [congruence|]. split; [|split].
    + etrans; [|exact Hr]. rewrite Hr1. by apply prefix_app_r.
    + intros row Hrow. apply Hmono, Hrows. by left.
    + intros x pid Hx Hrow. apply Hold in Hrow; [|rewrite Hr1; apply elem_of_app; by left].
      apply Hrows in Hrow as [?|(p & _ & [= Hid _])]; [done|]. by destruct (Hfresh x Hx).
Qed.

(** X22.  Seeding creates and never repairs: a role that exists keeps
    exactly the permissions it had, whatever the defaults say, and no
    assignment of a role to a user is touched.  Only when there is no
    role "admin" does seeding create it, as a system role that holds
    every permission of the table, the ones that were there before
    included. *)
Theorem seeding_spares_existing_roles (now : Time) (db db' : DB) :
  SeedDefaultRolesAndPermissions now db = Ok db' →
  (∀ r, r ∈ roles db →
     r ∈ roles db'
     ∧ ∀ pid, (Role.ID r, pid) ∈ role_permissions db'
              ↔ (Role.ID r, pid) ∈ role_permissions db)
  ∧ user_roles db' = user_roles db
  ∧ (role_named "admin" db = false →
     ∃ admin,
       admin ∈ roles db' ∧ Role.Name admin = "admin" ∧ Role.IsSystem admin = true
       ∧ ∀ p, p ∈ permissions db' →
              (Role.ID admin, Permission.ID p) ∈ role_permissions db').
Proof.
  unfold SeedDefaultRolesAndPermissions.
  destruct (seed_permissions now default_permissions db) as [db1|e] eqn:E1;
    [|intros E2; discriminate E2].
  apply seed_permissions_tables in E1 as (Hr1 & Hrp1 & Hu1 & _).
  intros E2. change (seed_roles now (default_roles db1) db1 = Ok db') in E2.
  pose proof (seed_roles_spares _ _ _ _ E2) as (Hp & Hu & Hr & Hmono & Hold).
  split; [|split; [congruence|]].
  - intros r Hin. rewrite <- Hr1 in Hin. split.
    + destruct Hr as [l ->]. apply elem_of_app. by left.
    + intros pid. rewrite <- Hrp1. split; [by apply Hold|apply Hmono].
  - intros Hadmin.
    assert (∃ rest,
              default_roles db1
              = (Role.mk 0%N "admin" "Administrator with full access" true 0 0,
                 permissions db1) :: rest) as [rest Hdr] by (eexists; reflexivity).
    rewrite Hdr in E2. cbn [seed_roles] in E2.
    assert (role_named "admin" db1 = false) as Hn.
    { unfold role_named in *. by rewrite Hr1. }
    cbn [Role.Name] in E2. rewrite Hn in E2.
    destruct (Create_role now _ (permissions db1) db1) as [db2|e] eqn:Ec;
      simpl in E2; [|done].
    apply Create_role_rows in Ec as (Hp2 & _ & _ & Hr2 & Hrows).
    apply seed_roles_spares in E2 as (Hp3 & _ & Hr3 & Hmono3 & _).
    eexists. split; [|split; [|split]].
    + destruct Hr3 as [l ->]. rewrite Hr2. apply elem_of_app. left.
      apply elem_of_app. right. left.
    + done.
    + done.
    + intros p Hin. simpl. apply Hmono3, Hrows. right. exists p. split; [|done].
      by rewrite <- Hp2, <- Hp3.
Qed.

End seeding_existing.

(** ** The admin endpoints *)

Section admin_roles.
Import models rbac middleware admin.

Lemma First_role_spec (id : uint) (d : DB) :
  match First_role id d with
  | Some role => role ∈ roles d ∧ Role.ID role = id
  | None => ∀ r, r ∈ roles d → Role.ID r ≠ id
  end.
Proof.
  unfold First_role.
  pose proof (least_by_spec Role.ID (filter (fun r => Role.ID r = id) (roles d))) as Hl.
  destruct (least_by _ _) as [role|].
  - by apply list_elem_of_filter in Hl as [? ?].
  - intros r Hr Hid.
    assert (r ∈ filter (fun r => Role.ID r = id) (roles d)) as Hf
      by (by apply list_elem_of_filter).
    rewrite Hl in Hf. by apply elem_of_nil in Hf.
Qed.

(** With unique keys, the row a key finds is the only row with the key. *)
Lemma NoDup_ID_eq (rs : list Role.t) (r r' : Role.t) :
  NoDup (Role.ID <$> rs) → r ∈ rs → r' ∈ rs → Role.ID r = Role.ID r' → r = r'.
Proof.
  induction rs as [|x rs IH]; [by intros _ ?%elem_of_nil|].
  rewrite fmap_cons, NoDup_cons. intros [Hx Hnd] Hr Hr' Hid.
  apply elem_of_cons in Hr as [->|Hr]; apply elem_of_cons in Hr' as [->|Hr'].
  - done.
  - destruct Hx. rewrite Hid. apply list_elem_of_fmap. by exists r'.
  - destruct Hx. rewrite <- Hid. apply list_elem_of_fmap. by exists r.
  - by apply IH.
Qed.

Lemma Create_role_roles now r perms d d' :
  Create_role now r perms d = Ok d' →
  roles d' = roles d ++ [Role.mk (roles_id_seq d) (Role.Name r) (Role.Description r)
                           (Role.IsSystem r) now now]
  ∧ (∀ x, x ∈ roles d → Role.ID x ≠ roles_id_seq d ∧ Role.Name x ≠ Role.Name r).
Proof.
  unfold Create_role. destruct (existsb _ (roles d)) eqn:Hex; [done|].
  intros [= <-]. simpl. split; [done|]. intros x Hx.
  assert (¬ (Role.ID x = roles_id_seq d ∨ Role.Name x = Role.Name r)); [|tauto].
  intros Hor.
  assert (existsb (fun r0 => bool_decide (Role.ID r0 = roles_id_seq d)
                             || bool_decide (Role.Name r0 = Role.Name r)) (roles d)
          = true); [|congruence].
  apply existsb_exists. exists x. rewrite <- list_elem_of_In. split; [done|].
  destruct Hor as [E|E]; rewrite (bool_decide_eq_true_2 _ E);
    [reflexivity|apply orb_true_r].
Qed.

Lemma fmap_update_identity (rs : list Role.t) (id : uint) (f : Role.t → Role.t) :
  (∀ r, Role.ID r = id → identity (f r) = identity r) →
  identity <$> ((fun r => if bool_decide (Role.ID r = id) then f r else r) <$> rs)
  = identity <$> rs.
Proof.
  intros Hf. rewrite <- list_fmap_compose. apply list_fmap_ext. intros i r _. simpl.
  case_bool_decide; [by apply Hf|done].
Qed.

(** X23.  System roles are out of reach of the admin endpoints.  With
    unique role keys, whatever the request, creating, updating, deleting
    a role or setting the permissions of a role leaves every system role
    in the table with its key and its name, and makes no role a system
    role: the system roles after the call are, by key and name, the
    system roles before it. *)
Theorem system_roles_are_protected (now : Time) (c : Request) (st : State)
    (op : State → Response * State) :
  NoDup (Role.ID <$> roles (db st)) →
  op ∈ writes now c →
  ∀ k, k ∈ identity <$> filter (fun r => Role.IsSystem r = true) (roles (db (op st).2))
       ↔ k ∈ identity <$> filter (fun r => Role.IsSystem r = true) (roles (db st)).
Proof.
  intros Hnd Hop k. unfold writes in Hop.
  repeat (apply elem_of_cons in Hop as [->|Hop]); [| | | |by apply elem_of_nil in Hop].
  - (* CreateRole *)
    unfold CreateRole. destruct (Body_role c) as [[name description]|]; [|done].
    destruct (role_named name (db st)); [done|].
    destruct (Create_role now _ [] (db st)) as [d|e] eqn:Ec; [|done]. simpl.
    apply Create_role_roles in Ec as [-> _].
    rewrite filter_app, filter_cons_False, filter_nil, app_nil_r by done. done.
  - (* UpdateRole *)
    unfold UpdateRole. destruct (ParseUint32 (Param_id c)) as [id|]; [|done].
    destruct (Body_role c) as [[name description]|]; [|done].
    pose proof (First_role_spec id (db st)) as Hf.
    destruct (First_role id (db st)) as [role|]; [|done]. destruct Hf as [Hin Hid].
    destruct (Role.IsSystem role && bool_decide (Role.Name role ≠ name)) eqn:Hsys; [done|].
    destruct (existsb _ _); [done|]. simpl.
    assert (∀ r, r ∈ roles (db st) → Role.ID r = Role.ID role → r = role) as Huniq.
    { intros r Hr Hrid. by apply (NoDup_ID_eq (roles (db st))). }
    rewrite !list_elem_of_fmap. split.
    + intros (r' & -> & Hr'). apply list_elem_of_filter in Hr' as [Hs Hr'].
      apply list_elem_of_fmap in Hr' as (r & -> & Hr).
      case_bool_decide as Hrid.
      * apply Huniq in Hrid as ->; [|done]. simpl in Hs. exists role.
        split; [|by apply list_elem_of_filter].
        unfold identity. simpl. rewrite Hs in Hsys. simpl in Hsys.
        apply bool_decide_eq_false in Hsys.
        destruct (decide (Role.Name role = name)) as [->|]; [by rewrite Hs|].
        by destruct Hsys.
      * exists r. split; [done|by apply list_elem_of_filter].
    + intros (r & -> & Hr). apply list_elem_of_filter in Hr as [Hs Hr].
      destruct (decide (Role.ID r = Role.ID role)) as [Hrid|Hrid].
      * apply Huniq in Hrid as ->; [|done]. rewrite Hs in Hsys. simpl in Hsys.
        apply bool_decide_eq_false in Hsys.
        assert (Role.Name role = name) as Hn.
        { destruct (decide (Role.Name role = name)); [done|by destruct Hsys]. }
        exists (Role.mk (Role.ID role) name description (Role.IsSystem role)
                  (Role.CreatedAt role) now).
        split; [unfold identity; simpl; by rewrite Hn|].
        apply list_elem_of_filter. split; [done|].
        apply list_elem_of_fmap. exists role. split; [|done].
        by rewrite bool_decide_eq_true_2.
      * exists r. split; [done|]. apply list_elem_of_filter. split; [done|].
        apply list_elem_of_fmap. exists r. split; [|done].
        by rewrite bool_decide_eq_false_2.
  - (* DeleteRole *)
    unfold DeleteRole. destruct (ParseUint32 (Param_id c)) as [id|]; [|done].
    pose proof (First_role_spec id (db st)) as Hf.
    destruct (First_role id (db st)) as [role|]; [|done]. destruct Hf as [Hin Hid].
    destruct (Role.IsSystem role) eqn:Hsys; [done|]. simpl.
    rewrite !list_elem_of_fmap. split.
    + intros (r & -> & Hr). apply list_elem_of_filter in Hr as [Hs Hr].
      apply list_elem_of_filter in Hr as [_ Hr]. exists r.
      split; [done|by apply list_elem_of_filter].
    + intros (r & -> & Hr). apply list_elem_of_filter in Hr as [Hs Hr]. exists r.
      split; [done|]. apply list_elem_of_filter. split; [done|].
      apply list_elem_of_filter. split; [|done]. intros Hrid.
      assert (r = role) as -> by (apply (NoDup_ID_eq (roles (db st))); congruence).
      congruence.
  - (* SetRolePermissions *)
    unfold SetRolePermissions. destruct (ParseUint32 (Param_id c)) as [id|]; [|done].
    destruct (Body_permission_ids c) as [ids|]; [|done].
    destruct (First_role id (db st)) as [role|]; [|done]. simpl.
    destruct (bool_decide (0 < length (if bool_decide (0 < length ids)%nat
                                       then permissions_with_id_in ids (db st)
                                       else []))%nat); [|done].
    rewrite !list_elem_of_fmap. split.
    + intros (r' & -> & Hr'). apply list_elem_of_filter in Hr' as [Hs Hr'].
      apply list_elem_of_fmap in Hr' as (r & -> & Hr).
      exists r. split; [by case_bool_decide|]. apply list_elem_of_filter.
      split; [|done]. revert Hs. by case_bool_decide.
    + intros (r & -> & Hr). apply list_elem_of_filter in Hr as [Hs Hr].
      eexists. split; last first.
      { apply list_elem_of_filter. split; last first.
        - apply list_elem_of_fmap_2. exact Hr.
        - simpl. by case_bool_decide. }
      simpl. by case_bool_decide.
Qed.


Lemma NoDup_fmap_eq {A B} (f : A → B) (l : list A) (x y : A) :
  NoDup (f <$> l) → x ∈ l → y ∈ l → f x = f y → x = y.
Proof.
  induction l as [|z l IH]; [by intros _ ?%elem_of_nil|].
  rewrite fmap_cons, NoDup_cons. intros [Hz Hnd] Hx Hy Hf.
  apply elem_of_cons in Hx as [->|Hx]; apply elem_of_cons in Hy as [->|Hy].
  - done.
  - destruct Hz. rewrite Hf. apply list_elem_of_fmap. by exists y.
  - destruct Hz. rewrite <- Hf. apply list_elem_of_fmap. by exists x.
  - by apply IH.
Qed.

Lemma add_role_permission_rows (rows l : list (uint * uint)) (row : uint * uint) :
  row ∈ foldl add_role_permission rows l ↔ row ∈ rows ∨ row ∈ l.
Proof. apply add_role_permission_elem. Qed.

(** X24.  The admin endpoints keep the integrity constraints of the
    tables: whatever the request, after creating, updating, deleting a
    role or setting the permissions of a role, role keys are unique, role
    names are unique, and every join row refers to a role of the table. *)
Theorem admin_keeps_integrity (now : Time) (c : Request) (st : State)
    (op : State → Response * State) :
  integrity (db st) →
  op ∈ writes now c →
  integrity (db (op st).2).
Proof.
  intros [Hk Hn Hj] Hop. unfold writes in Hop.
  pose proof (NoDup_fmap_1 _ _ Hk) as Hnd.
  repeat (apply elem_of_cons in Hop as [->|Hop]); [| | | |by apply elem_of_nil in Hop].
  - (* CreateRole *)
    unfold CreateRole. destruct (Body_role c) as [[name description]|]; [|done].
    destruct (role_named name (db st)); [done|].
    destruct (Create_role now _ [] (db st)) as [d|e] eqn:Ec; [|done]. simpl.
    pose proof (Create_role_roles _ _ _ _ _ Ec) as [Hr Hfresh].
    apply Create_role_rows in Ec as (_ & _ & _ & _ & Hrows).
    split.
    + rewrite Hr, fmap_app. apply NoDup_app. split; [done|]. split; [|apply NoDup_singleton].
      intros k Hin Hk'. apply list_elem_of_singleton in Hk'. simpl in Hk'. subst k.
      apply list_elem_of_fmap in Hin as (x & Hx & Hin). symmetry in Hx.
      by destruct (Hfresh x Hin).
    + rewrite Hr, fmap_app. apply NoDup_app. split; [done|]. split; [|apply NoDup_singleton].
      intros k Hin Hk'. apply list_elem_of_singleton in Hk'. simpl in Hk'. subst k.
      apply list_elem_of_fmap in Hin as (x & Hx & Hin). symmetry in Hx.
      by destruct (Hfresh x Hin).
    + intros rp Hrp. apply Hrows in Hrp as [Hrp|(p & Hp & _)];
        [|by apply elem_of_nil in Hp].
      destruct (Hj rp Hrp) as (r & Hr' & Hid). exists r. split; [|done].
      rewrite Hr. apply elem_of_app. by left.
  - (* UpdateRole *)
    unfold UpdateRole. destruct (ParseUint32 (Param_id c)) as [id|]; [|done].
    destruct (Body_role c) as [[name description]|]; [|done].
    pose proof (First_role_spec id (db st)) as Hf.
    destruct (First_role id (db st)) as [role|]; [|done]. destruct Hf as [Hin Hid].
    destruct (Role.IsSystem role && bool_decide (Role.Name role ≠ name)); [done|].
    destruct (existsb _ _) eqn:Hex; [done|]. simpl.
    assert (∀ r, r ∈ roles (db st) → Role.ID r ≠ id → Role.Name r ≠ name) as Hfree.
    { intros r Hr Hrid Hrn.
      assert (existsb (fun r0 => bool_decide (Role.Name r0 = name)
                                 && bool_decide (Role.ID r0 ≠ id)) (roles (db st)) = true);
        [|congruence].
      apply existsb_exists. exists r. rewrite <- list_elem_of_In. split; [done|].
      by rewrite !bool_decide_eq_true_2. }
    set (upd := fun r : Role.t =>
                  if bool_decide (Role.ID r = Role.ID role) then
                    Role.mk (Role.ID role) name description (Role.IsSystem role)
                      (Role.CreatedAt role) now
                  else r).
    assert (∀ r, Role.ID (upd r) = Role.ID r) as Hupd_id.
    { intros r. unfold upd. by case_bool_decide. }
    split; unfold Save_role; simpl; fold upd.
    + rewrite <- list_fmap_compose.
      rewrite (list_fmap_ext (Role.ID ∘ upd) Role.ID (roles (db st))); [done|].
      intros i r _. apply Hupd_id.
    + rewrite <- list_fmap_compose. apply NoDup_fmap_2_strong; [|done].
      intros x y Hx Hy. simpl. unfold upd.
      case_bool_decide as Hxi; case_bool_decide as Hyi; simpl.
      * intros _. apply (NoDup_fmap_eq Role.ID (roles (db st))); congruence.
      * intros E. destruct (Hfree y Hy); congruence.
      * intros E. destruct (Hfree x Hx); congruence.
      * intros E. by apply (NoDup_fmap_eq Role.Name (roles (db st))).
    + intros rp Hrp. destruct (Hj rp Hrp) as (r & Hr & Hrid).
      exists (upd r). split; [by apply list_elem_of_fmap_2|by rewrite Hupd_id].
  - (* DeleteRole *)
    unfold DeleteRole. destruct (ParseUint32 (Param_id c)) as [id|]; [|done].
    destruct (First_role id (db st)) as [role|]; [|done].
    destruct (Role.IsSystem role); [done|]. simpl. split.
    + apply (NoDup_fmap_2_strong Role.ID); [|by apply NoDup_filter].
      intros x y Hx Hy. apply list_elem_of_filter in Hx as [_ Hx].
      apply list_elem_of_filter in Hy as [_ Hy].
      by apply (NoDup_fmap_eq Role.ID (roles (db st))).
    + apply (NoDup_fmap_2_strong Role.Name); [|by apply NoDup_filter].
      intros x y Hx Hy. apply list_elem_of_filter in Hx as [_ Hx].
      apply list_elem_of_filter in Hy as [_ Hy].
      by apply (NoDup_fmap_eq Role.Name (roles (db st))).
    + intros rp Hrp. apply list_elem_of_filter in Hrp as [Hne Hrp].
      destruct (Hj rp Hrp) as (r & Hr & Hrid). exists r. split; [|done].
      apply list_elem_of_filter. split; [congruence|done].
  - (* SetRolePermissions *)
    unfold SetRolePermissions. destruct (ParseUint32 (Param_id c)) as [id|]; [|done].
    destruct (Body_permission_ids c) as [ids|]; [|done].
    pose proof (First_role_spec id (db st)) as Hf.
    destruct (First_role id (db st)) as [role|]; [|done]. destruct Hf as [Hin Hid].
    simpl.
    set (perms := if bool_decide (0 < length ids)%nat
                  then permissions_with_id_in ids (db st) else []).
    set (upd := fun r : Role.t =>
                  if bool_decide (Role.ID r = Role.ID role) then
                    Role.mk (Role.ID r) (Role.Name r) (Role.Description r)
                      (Role.IsSystem r) (Role.CreatedAt r) now
                  else r).
    assert (∀ r, Role.ID (upd r) = Role.ID r ∧ Role.Name (upd r) = Role.Name r) as Hupd.
    { intros r. unfold upd. by case_bool_decide. }
    assert (Role.ID <$> roles (Replace_Permissions now (Role.ID role) perms (db st))
            = Role.ID <$> roles (db st)) as Eid.
    { unfold Replace_Permissions. simpl. case_bool_decide; [|done].
      rewrite <- list_fmap_compose. apply list_fmap_ext. intros i r _. apply Hupd. }
    assert (Role.Name <$> roles (Replace_Permissions now (Role.ID role) perms (db st))
            = Role.Name <$> roles (db st)) as En.
    { unfold Replace_Permissions. simpl. case_bool_decide; [|done].
      rewrite <- list_fmap_compose. apply list_fmap_ext. intros i r _. apply Hupd. }
    split; [by rewrite Eid|by rewrite En|].
    intros rp Hrp. unfold Replace_Permissions in Hrp |- *. simpl in Hrp |- *.
    apply list_elem_of_filter in Hrp as [_ Hrp].
    apply add_role_permission_rows in Hrp.
    assert (∃ r, r ∈ roles (db st) ∧ Role.ID r = rp.1) as (r & Hr & Hrid).
    { destruct Hrp as [Hrp|Hrp]; [by apply Hj|].
      apply list_elem_of_fmap in Hrp as (p & -> & _). by exists role. }
    case_bool_decide.
    + exists (upd r). split; [by apply list_elem_of_fmap_2|]. by rewrite (proj1 (Hupd r)).
    + by exists r.
Qed.

End admin_roles.

(** ** Decimal numerals *)

Section numerals.
Import strconv.
Local Open Scope N_scope.

Lemma digit_value_digit (d : N) :
  d < 10 → digit_value (ascii_of_N (48 + d)) = Some d.
Proof.
  intros Hd. unfold digit_value.
  rewrite N_ascii_embedding by lia.
  rewrite (proj2 (N.leb_le _ _)) by lia. rewrite (proj2 (N.leb_le _ _)) by lia.
  simpl. f_equal. lia.
Qed.

(** The digits [format_digits] puts in front of [acc] read back as the
    number, continuing whatever was read before. *)
Lemma parse_format (maxVal : N) (fuel : nat) (n : N) (acc : string) :
  n < 10 ^ N.of_nat fuel →
  ∃ k, ∀ a,
    a * 10 ^ k + n ≤ maxVal →
    parse_digits maxVal (format_digits fuel n acc) a
    = parse_digits maxVal acc (a * 10 ^ k + n).
Proof.
  revert n acc. induction fuel as [|fuel IH]; intros n acc Hn.
  - simpl in Hn. assert (n = 0) as -> by lia. exists 0. intros a _. simpl.
    f_equal. lia.
  - cbn [format_digits].
    pose proof (N.mod_lt n 10 ltac:(done)) as Hmod.
    pose proof (N.div_mod n 10 ltac:(done)) as Hdm.
    destruct (N.ltb_spec n 10) as [Hlt|Hge].
    + exists 1. intros a Ha. cbn [parse_digits].
      rewrite digit_value_digit by lia. rewrite N.mod_small by done.
      rewrite N.pow_1_r in Ha |- *.
      by rewrite (proj2 (N.leb_le _ _)) by done.
    + destruct (IH (n / 10) (String (ascii_of_N (48 + n mod 10)) acc)) as [k Hk].
      { apply N.Div0.div_lt_upper_bound.
        rewrite Nat2N.inj_succ, N.pow_succ_r' in Hn. lia. }
      exists (N.succ k). intros a Ha.
      assert (a * 10 ^ N.succ k + n = (a * 10 ^ k + n / 10) * 10 + n mod 10) as E.
      { rewrite N.pow_succ_r'. generalize (10 ^ k). intros p. clear -Hdm. set (q := n / 10) in *. set (m := n mod 10) in *. clearbody q m. subst n. ring. }
      assert (a * 10 ^ k + n / 10 ≤ maxVal) as Ha'.
      { rewrite E in Ha. generalize dependent (a * 10 ^ k + n / 10). intros. clear -Ha. generalize dependent (n mod 10). intros. lia. }
      rewrite Hk by done. cbn [parse_digits].
      rewrite digit_value_digit by lia. rewrite <- E.
      by rewrite (proj2 (N.leb_le _ _)) by done.
Qed.

Lemma format_digits_nonempty (fuel : nat) (n : N) (acc : string) :
  acc ≠ EmptyString ∨ fuel ≠ O → format_digits fuel n acc ≠ EmptyString.
Proof.
  revert n acc. induction fuel as [|fuel IH]; intros n acc Hne; simpl.
  - by destruct Hne.
  - destruct (n <? 10); [done|]. apply IH. by left.
Qed.

(** A number printed by [FormatUint] is read back by [ParseUint]. *)
Lemma ParseUint_FormatUint (n bitSize : N) :
  n ≤ 2 ^ bitSize - 1 → n < 2 ^ 64 →
  ParseUint (FormatUint n) bitSize = Ok n.
Proof.
  intros Hn H64. unfold ParseUint, FormatUint.
  assert (format_digits 20 n "" ≠ EmptyString) as Hne.
  { apply format_digits_nonempty. by right. }
  destruct (format_digits 20 n "") as [|ch rest] eqn:Ef; [done|]. rewrite <- Ef.
  destruct (parse_format (2 ^ bitSize - 1) 20 n "") as [k Hk].
  { eapply N.lt_trans; [exact H64|]. by vm_compute. }
  rewrite Hk by (by rewrite N.mul_0_l, N.add_0_l).
  by rewrite N.mul_0_l, N.add_0_l.
Qed.

End numerals.

(** ** The admin endpoints, continued *)

Section admin_endpoints.
Import jwt auth models rbac middleware ginchain admin.

Lemma ParseUint32_FormatUint (n : N) :
  (n < 2 ^ 32)%N → ParseUint32 (strconv.FormatUint n) = Some n.
Proof.
  intros Hn. unfold ParseUint32. rewrite ParseUint_FormatUint; [done| |].
  - change (2 ^ 32 - 1)%N with 4294967295%N. change (2 ^ 32)%N with 4294967296%N in Hn.
    lia.
  - eapply N.lt_trans; [exact Hn|]. by vm_compute.
Qed.

Lemma Replace_rows (now : Time) (roleID : uint) (perms : list Permission.t) (d : DB)
    (rp : uint * uint) :
  rp ∈ role_permissions (Replace_Permissions now roleID perms d)
  ↔ (rp.1 ≠ roleID ∧ rp ∈ role_permissions d)
    ∨ ∃ p, p ∈ perms ∧ rp = (roleID, Permission.ID p).
Proof.
  unfold Replace_Permissions. simpl.
  rewrite list_elem_of_filter, add_role_permission_elem, list_elem_of_fmap. split.
  - intros [[Hne|(p & -> & Hp)] Hin]; [|right; by exists p].
    destruct Hin as [Hin|(p & -> & Hp)]; [by left|]. right. by exists p.
  - intros [[Hne Hin]|(p & Hp & ->)].
    + split; [by left|by left].
    + split; right; by exists p.
Qed.

(** X25.  Setting the permissions of a role replaces them.  For a role
    that exists, system role or not, and a bound list of permission ids,
    the endpoint answers 200; afterwards the role holds exactly the
    permissions of the table whose id is in the list, so ids of no
    permission are ignored and the empty list leaves the role without
    permissions; the response lists those permissions; and the
    permissions of every other role, the permission table and the
    assignments of roles to users are as they were. *)
Theorem SetRolePermissions_replaces (now : Time) (c : Request) (st : State)
    (id : uint) (ids : list uint) (role : Role.t) :
  ParseUint32 (Param_id c) = Some id →
  Body_permission_ids c = Some ids →
  First_role id (db st) = Some role →
  let r := SetRolePermissions now c st in
  code r.1 = StatusOK
  ∧ (∀ pid, (id, pid) ∈ role_permissions (db r.2)
            ↔ pid ∈ ids ∧ ∃ p, p ∈ permissions (db st) ∧ Permission.ID p = pid)
  ∧ (∀ rid pid, rid ≠ id →
       ((rid, pid) ∈ role_permissions (db r.2) ↔ (rid, pid) ∈ role_permissions (db st)))
  ∧ permissions (db r.2) = permissions (db st)
  ∧ user_roles (db r.2) = user_roles (db st)
  ∧ ∃ rr, body r.1 = BodyRole rr
          ∧ r_ID rr = id
          ∧ ∀ pr, pr ∈ r_Permissions rr
                  ↔ ∃ p, p ∈ permissions (db st) ∧ Permission.ID p ∈ ids
                         ∧ pr = to_PermissionResponse p.
Proof.
  intros Hid Hids Hrole r. subst r. unfold SetRolePermissions.
  rewrite Hid, Hids, Hrole. cbn [fst snd code body db with_db logged].
  pose proof (First_role_spec id (db st)) as Hf. rewrite Hrole in Hf.
  destruct Hf as [Hin Hrid]. rewrite Hrid.
  set (perms := if bool_decide (0 < length ids)%nat
                then permissions_with_id_in ids (db st) else []).
  assert (∀ p, p ∈ perms ↔ p ∈ permissions (db st) ∧ Permission.ID p ∈ ids) as Hperms.
  { intros p. subst perms. case_bool_decide as Hl.
    - unfold permissions_with_id_in. rewrite list_elem_of_filter. tauto.
    - destruct ids; [|simpl in Hl; lia]. split; [by intros ?%elem_of_nil|].
      by intros [_ ?%elem_of_nil]. }
  assert (∀ pid, (id, pid) ∈ role_permissions (Replace_Permissions now id perms (db st))
                 ↔ pid ∈ ids ∧ ∃ p, p ∈ permissions (db st) ∧ Permission.ID p = pid)
    as Hrows.
  { intros pid. rewrite Replace_rows. simpl. split.
    - intros [[Hne _]|(p & Hp & [= ->])]; [done|].
      apply Hperms in Hp as [Hp Hi]. split; [done|by exists p].
    - intros [Hi (p & Hp & <-)]. right. exists p. split; [|done]. by apply Hperms. }
  split; [done|]. split; [exact Hrows|]. split.
  { intros rid pid Hne. rewrite Replace_rows. simpl. split.
    - intros [[_ Hr]|(p & _ & [= -> _])]; done.
    - intros Hr. by left. }
  split; [done|]. split; [done|].
  eexists. split; [reflexivity|]. simpl. split.
  { pose proof (First_role_spec id (Replace_Permissions now id perms (db st))) as Hf.
    destruct (First_role id (Replace_Permissions now id perms (db st))); simpl; [|done].
    by destruct Hf. }
  intros pr. rewrite list_elem_of_fmap. unfold Preload_Permissions.
  split.
  - intros (p & -> & Hp). apply list_elem_of_filter in Hp as [Hrow Hp].
    apply Hrows in Hrow as [Hi _]. by exists p.
  - intros (p & Hp & Hi & ->). exists p. split; [done|].
    apply list_elem_of_filter. split; [|done]. apply Hrows. split; [done|by exists p].
Qed.

(** X26.  Deleting a role.  A request that is refused changes nothing.
    For a role that exists: a system role is refused with 403; any other
    role is deleted with 200, and with it go its join rows and its
    assignments, so that afterwards every user holds the roles held
    before except the deleted one, and the permissions of exactly those
    remaining roles. *)
Theorem DeleteRole_removes_grants (c : Request) (st : State) :
  let r := DeleteRole c st in
  (code r.1 ≠ StatusOK → r.2 = st)
  ∧ ∀ id role,
      ParseUint32 (Param_id c) = Some id →
      First_role id (db st) = Some role →
      (Role.IsSystem role = true → code r.1 = StatusForbidden)
      ∧ (Role.IsSystem role = false →
           code r.1 = StatusOK
           ∧ (∀ x, x ∈ roles (db r.2) ↔ x ∈ roles (db st) ∧ Role.ID x ≠ id)
           ∧ (∀ rp, rp ∈ role_permissions (db r.2)
                    ↔ rp ∈ role_permissions (db st) ∧ rp.1 ≠ id)
           ∧ (∀ u rid, rid ∈ roles_of_user (db r.2) u
                       ↔ rid ∈ roles_of_user (db st) u ∧ rid ≠ id)
           ∧ (∀ u n, n ∈ GetUserPermissions (db r.2) u
                     ↔ ∃ rid, rid ≠ id ∧ rid ∈ roles_of_user (db st) u
                              ∧ n ∈ permissions_of_role (db st) rid)).
Proof.
  intros r. subst r. unfold DeleteRole. split.
  - destruct (ParseUint32 (Param_id c)) as [id|]; [|done].
    destruct (First_role id (db st)) as [role|]; [|done].
    destruct (Role.IsSystem role); [done|]. simpl. by intros [].
  - intros id role -> ->. split; intros ->; [done|]. simpl. split; [done|].
    assert (∀ u rid, rid ∈ roles_of_user (Delete_role id (db st)) u
                     ↔ rid ∈ roles_of_user (db st) u ∧ rid ≠ id) as Hroles.
    { intros u rid. rewrite !roles_of_user_elem. unfold Delete_role. simpl. split.
      - intros (ur & Hur & Hu & Hr). apply list_elem_of_filter in Hur as [Hne Hur].
        split; [by exists ur|]. by rewrite <- Hr.
      - intros [(ur & Hur & Hu & Hr) Hne]. exists ur. split; [|done].
        apply list_elem_of_filter. split; [by rewrite Hr|done]. }
    assert (∀ rid n, rid ≠ id →
              (n ∈ permissions_of_role (Delete_role id (db st)) rid
               ↔ n ∈ permissions_of_role (db st) rid)) as Hperms.
    { intros rid n Hne. rewrite !permissions_of_role_elem. unfold Delete_role. simpl.
      split.
      - intros (p & Hp & Hrow & Hn). exists p. split; [done|]. split; [|done].
        by apply list_elem_of_filter in Hrow as [_ Hrow].
      - intros (p & Hp & Hrow & Hn). exists p. split; [done|]. split; [|done].
        apply list_elem_of_filter. by split. }
    split; [|split; [|split; [exact Hroles|]]].
    + intros x. rewrite list_elem_of_filter. tauto.
    + intros rp. rewrite list_elem_of_filter. tauto.
    + intros u n. rewrite !GetUserPermissions_roles. split.
      * intros (rid & Hr & Hn). apply Hroles in Hr as [Hr Hne].
        exists rid. split; [done|]. split; [done|]. by apply Hperms in Hn.
      * intros (rid & Hne & Hr & Hn). exists rid. split; [by apply Hroles|].
        by apply Hperms.
Qed.

(** X27.  Creating a role and reading it back.  With the integrity
    constraints in place and a sequence value that fits 32 bits, a
    request whose name is taken is answered 409 and changes nothing; a
    request answered 201 returns the new role, which is no system role
    and has no permissions, and a following [GetRole] whose path
    parameter is the decimal numeral of the returned id answers 200 with
    that same role. *)
Theorem CreateRole_then_GetRole (now : Time) (c : Request) (st : State)
    (name description : string) :
  integrity (db st) →
  (roles_id_seq (db st) < 2 ^ 32)%N →
  Body_role c = Some (name, description) →
  let r := CreateRole now c st in
  ((∃ x, x ∈ roles (db st) ∧ Role.Name x = name) →
     code r.1 = StatusConflict ∧ r.2 = st)
  ∧ (code r.1 = StatusCreated →
       ∃ rr, body r.1 = BodyRole rr
             ∧ r_Name rr = name ∧ r_Description rr = description
             ∧ r_IsSystem rr = false ∧ r_Permissions rr = []
             ∧ ∀ c', Param_id c' = strconv.FormatUint (r_ID rr) →
                     GetRole c' r.2 = ({| code := StatusOK; body := BodyRole rr |}, r.2)).
Proof.
  intros [Hk Hn Hj] Hseq Hbody r. subst r. unfold CreateRole. rewrite Hbody.
  destruct (role_named name (db st)) eqn:Hnamed.
  - split; [done|]. intros [=].
  - split.
    { intros (x & Hx & Hname). exfalso.
      assert (role_named name (db st) = true); [|congruence].
      unfold role_named. apply existsb_exists. exists x.
      split; [by apply list_elem_of_In|by apply bool_decide_eq_true_2]. }
    destruct (Create_role now _ [] (db st)) as [d|e] eqn:Hc; [|by intros [=]].
    intros _. cbn [fst snd code body]. eexists. split; [reflexivity|].
    cbn [r_Name r_Description r_IsSystem r_Permissions r_ID].
    do 4 (split; [done|]). intros c' Hparam.
    apply Create_role_roles in Hc as Hroles. destruct Hroles as [Hroles Hfresh].
    assert (role_permissions d = role_permissions (db st)) as Hrows.
    { revert Hc. unfold Create_role. destruct (existsb _ _); [done|]. by intros [= <-]. }
    assert (permissions d = permissions (db st)) as Hperms.
    { revert Hc. unfold Create_role. destruct (existsb _ _); [done|]. by intros [= <-]. }
    unfold GetRole. rewrite Hparam, ParseUint32_FormatUint by done.
    cbn [db with_db].
    set (new := Role.mk (roles_id_seq (db st)) name description false now now) in *.
    assert (First_role (roles_id_seq (db st)) d = Some new) as ->.
    { pose proof (First_role_spec (roles_id_seq (db st)) d) as Hf.
      destruct (First_role (roles_id_seq (db st)) d) as [role|].
      - destruct Hf as [Hin Hid]. rewrite Hroles in Hin.
        apply elem_of_app in Hin as [Hin|Hin].
        + by destruct (Hfresh role Hin).
        + by apply list_elem_of_singleton in Hin as ->.
      - destruct (Hf new); [|done]. rewrite Hroles. apply elem_of_app. right.
        by apply list_elem_of_singleton. }
    assert (Preload_Permissions d (roles_id_seq (db st)) = []) as ->.
    { unfold Preload_Permissions. apply elem_of_nil_inv. intros p Hp.
      apply list_elem_of_filter in Hp as [Hrow _]. rewrite Hrows in Hrow.
      destruct (Hj _ Hrow) as (x & Hx & Hid). by destruct (Hfresh x Hx). }
    done.
Qed.

Section admin_guard.
Context `{Signer}.

(** X28.  Every route of the admin group runs its handler only for a
    request whose bearer token validates with the role "admin".  Such a
    request is answered by the handler; any other is answered 401 or 403
    and leaves the tables and the log as they were. *)
Theorem admin_routes_require_admin (ks : keys) (now : Time) (authHeader : headerValue)
    (handler : State → Response * State) (c : Context) (st : State) :
  let allowed :=
    ∃ ts claims, authHeader = Bearer ts ∧ ValidateToken ks now ts = Ok claims
                 ∧ Role claims = "admin" in
  let r := behind_admin ks now authHeader handler c st in
  (allowed → r = handler st)
  ∧ (¬ allowed →
       r.2 = st ∧ (code r.1 = StatusUnauthorized ∨ code r.1 = StatusForbidden)).
Proof.
  intros allowed r. subst r. unfold behind_admin. simpl.
  destruct (JWTAuth_cases ks now authHeader c)
    as [(ts & claims & -> & E & ->)|(Hno & body & ->)].
  - unfold gate. rewrite RequireRole_Set_claims. simpl.
    case_bool_decide as Hr; simpl.
    + split; [done|]. intros Hn. destruct Hn. by exists ts, claims.
    + split; [|intros _; split; [done|by right]].
      intros (ts' & claims' & [= <-] & E' & Hr'). congruence.
  - split; [|intros _; split; [done|by left]].
    intros (ts & claims & -> & E & _). by destruct (Hno ts claims).
Qed.

End admin_guard.
End admin_endpoints.

(** ** The configuration *)

Section configuration.
Import strconv config.

Lemma format_digits_head (fuel : nat) (n : N) (acc : string) :
  fuel ≠ O →
  ∃ d rest, (d < 10)%N ∧ format_digits fuel n acc = String (ascii_of_N (48 + d)) rest.
Proof.
  revert n acc. induction fuel as [|fuel IH]; intros n acc Hf; [done|].
  cbn [format_digits].
  assert (n mod 10 < 10)%N as Hmod by (by apply N.mod_lt).
  destruct (n <? 10)%N; [by eexists _, _|].
  destruct fuel as [|fuel']; [by eexists _, _|]. by apply IH.
Qed.

Lemma Atoi_unsigned (d : N) (rest : string) :
  (d < 10)%N →
  Atoi (String (ascii_of_N (48 + d)) rest)
  = match ParseUint (String (ascii_of_N (48 + d)) rest) 64 with
    | Err ErrSyntax => (0, Some ErrSyntax)
    | Err ErrRange => (max_int64, Some ErrRange)
    | Ok un => if (un <? 2 ^ 63)%N then (Z.of_N un, None) else (max_int64, Some ErrRange)
    end.
Proof.
  intros Hd.
  assert (d = 0 ∨ d = 1 ∨ d = 2 ∨ d = 3 ∨ d = 4 ∨ d = 5 ∨ d = 6 ∨ d = 7 ∨ d = 8
          ∨ d = 9)%N as Hc by lia.
  repeat (destruct Hc as [->|Hc]; [reflexivity|]). by subst.
Qed.

(** The numeral [Itoa] prints is read back by [Atoi]. *)
Lemma Atoi_Itoa (n : Z) :
  min_int64 ≤ n ≤ max_int64 → Atoi (Itoa n) = (n, None).
Proof.
  unfold min_int64, max_int64. intros Hn. unfold Itoa. case_bool_decide as Hneg.
  - unfold Atoi. rewrite ParseUint_FormatUint.
    + rewrite (proj2 (N.leb_le _ _)) by lia. f_equal. lia.
    + lia.
    + lia.
  - destruct (format_digits_head 20 (Z.to_N n) "") as (d & rest & Hd & E); [done|].
    unfold FormatUint. rewrite E, Atoi_unsigned by done. rewrite <- E.
    fold (FormatUint (Z.to_N n)). rewrite ParseUint_FormatUint.
    + rewrite (proj2 (N.ltb_lt _ _)) by lia. f_equal. lia.
    + lia.
    + lia.
Qed.

Lemma parse_digits_no_digit (maxVal : N) (s : string) (acc : N) (c : ascii) :
  In c (String.list_ascii_of_string s) → digit_value c = None →
  ∃ e, parse_digits maxVal s acc = Err e.
Proof.
  revert acc. induction s as [|c' s IH]; intros acc Hin Hc; [done|].
  cbn [parse_digits]. destruct Hin as [->|Hin].
  - rewrite Hc. by eexists.
  - destruct (digit_value c'); [|by eexists].
    destruct (_ <=? _)%N; [by apply IH|by eexists].
Qed.

Lemma Atoi_no_numeral (s : string) (c : ascii) :
  In c (String.list_ascii_of_string s) → numeral_char c = false →
  ∃ e, (Atoi s).2 = Some e.
Proof.
  unfold numeral_char. intros Hin Hc.
  destruct (digit_value c) eqn:Hd; [done|].
  apply orb_false_iff in Hc as [Hp Hm].
  apply bool_decide_eq_false in Hp, Hm.
  assert (∀ digits, In c (String.list_ascii_of_string digits) →
            ∀ neg, ∃ e,
              (match ParseUint digits 64 with
               | Err ErrSyntax => (0, Some ErrSyntax)
               | Err ErrRange => (if neg then min_int64 else max_int64, Some ErrRange)
               | Ok un =>
                   if neg : bool then
                     if (un <=? 2 ^ 63)%N then (- Z.of_N un, None)
                     else (min_int64, Some ErrRange)
                   else
                     if (un <? 2 ^ 63)%N then (Z.of_N un, None)
                     else (max_int64, Some ErrRange)
               end).2 = Some e) as Hdigits.
  { intros digits Hin' neg. unfold ParseUint.
    destruct digits as [|c' digits']; [done|].
    destruct (parse_digits_no_digit (2 ^ 64 - 1) (String c' digits') 0 c Hin' Hd)
      as [e ->].
    destruct e; by eexists. }
  destruct s as [|c' rest]; [done|].
  destruct (decide (c' = "+"%char)) as [->|Hnp].
  { destruct Hin as [<-|Hin]; [done|]. apply (Hdigits rest Hin false). }
  destruct (decide (c' = "-"%char)) as [->|Hnm].
  { destruct Hin as [<-|Hin]; [done|]. apply (Hdigits rest Hin true). }
  assert (Atoi (String c' rest)
          = match ParseUint (String c' rest) 64 with
            | Err ErrSyntax => (0, Some ErrSyntax)
            | Err ErrRange => (max_int64, Some ErrRange)
            | Ok un =>
                if (un <? 2 ^ 63)%N then (Z.of_N un, None) else (max_int64, Some ErrRange)
            end) as ->.
  { destruct c' as [[] [] [] [] [] [] [] []]; try reflexivity; done. }
  apply (Hdigits (String c' rest) Hin false).
Qed.

(** X29.  The two token lifetimes of the configuration.  Each is the
    default (15 minutes, 7 days) when its variable is unset, and also
    when the value holds a character that is neither a digit nor a sign,
    a blank for one; and it is the integer itself, negative and zero
    included, when the value is the decimal numeral of an [int]. *)
Theorem Load_reads_lifetimes (env : Env) :
  let cfg := Load env in
  let reads (key : string) (defaultValue field : Z) :=
    (env !! key = None → field = defaultValue)
    ∧ (∀ n, min_int64 ≤ n ≤ max_int64 → env !! key = Some (Itoa n) → field = n)
    ∧ (∀ value c, env !! key = Some value →
         In c (String.list_ascii_of_string value) → numeral_char c = false →
         field = defaultValue) in
  reads "JWT_ACCESS_EXPIRY_MINS" 15 (AccessTokenExpiryMins (JWT cfg))
  ∧ reads "JWT_REFRESH_EXPIRY_DAYS" 7 (RefreshTokenExpiryDays (JWT cfg)).
Proof.
  intros cfg reads.
  assert (∀ key def, reads key def (getEnvInt env key def)) as Hreads.
  { intros key def. unfold getEnvInt. split; [by intros ->|split].
    - intros n Hn ->. by rewrite Atoi_Itoa.
    - intros value c -> Hin Hc. destruct (Atoi_no_numeral value c Hin Hc) as [e He].
      destruct (Atoi value) as [v o]. simpl in He. by rewrite He. }
  split; apply Hreads.
Qed.

End configuration.

(** ** The default role of existing users *)

Section default_role.
Import models rbac migrations.

Lemma AssignRoleToUser_step (now : Time) (d : DB) (uid : uint) (role : Role.t) :
  First_role_named "user" d = Ok role →
  ∃ d', AssignRoleToUser now d uid "user" = Ok d'
        ∧ roles d' = roles d ∧ permissions d' = permissions d
        ∧ role_permissions d' = role_permissions d
        ∧ ∀ id, roles_of_user d' id
                = if bool_decide (id = uid ∧ Role.ID role ∉ roles_of_user d id)
                  then roles_of_user d id ++ [Role.ID role]
                  else roles_of_user d id.
Proof.
  intros Hf. unfold AssignRoleToUser. rewrite Hf.
  destruct (existsb _ (user_roles d)) eqn:Hex.
  - exists d. do 4 (split; [done|]). intros id.
    apply existsb_assignment in Hex as (ur & Hur & Hu & Hr).
    rewrite bool_decide_eq_false_2; [done|]. intros [-> Hno]. destruct Hno.
    apply roles_of_user_elem. by exists ur.
  - eexists. split; [reflexivity|]. do 3 (split; [done|]). intros id.
    unfold roles_of_user at 1. simpl. rewrite filter_app, fmap_app.
    fold (roles_of_user d id). rewrite filter_cons, filter_nil. simpl.
    assert (Role.ID role ∉ roles_of_user d uid) as Hno.
    { intros Hin. apply roles_of_user_elem in Hin as (ur & Hur & Hu & Hr).
      assert (existsb (fun ur0 => bool_decide (UserRole.UserID ur0 = uid)
                                  && bool_decide (UserRole.RoleID ur0 = Role.ID role))
                (user_roles d) = true) as Ht; [|congruence].
      apply existsb_assignment. by exists ur. }
    destruct (decide (uid = id)) as [<-|Hne].
    + by rewrite bool_decide_eq_true_2.
    + rewrite bool_decide_eq_false_2; [by rewrite app_nil_r|]. by intros [-> _].
Qed.

Lemma First_role_named_roles (name : string) (d d' : DB) :
  roles d' = roles d → First_role_named name d' = First_role_named name d.
Proof. unfold First_role_named. by intros ->. Qed.

Lemma assign_default_all (now : Time) (l : list User.t) :
  ∀ d log role,
    First_role_named "user" d = Ok role →
    let r := (foldl (assign_default now) (d, log) l).1 in
    roles r = roles d ∧ permissions r = permissions d
    ∧ role_permissions r = role_permissions d
    ∧ ∀ id, roles_of_user r id
            = if bool_decide (id ∈ User.ID <$> l ∧ Role.ID role ∉ roles_of_user d id)
              then roles_of_user d id ++ [Role.ID role]
              else roles_of_user d id.
Proof.
  induction l as [|u l IH]; intros d log role Hf; cbn [foldl].
  - cbn [fst]. do 3 (split; [done|]). intros id.
    rewrite bool_decide_eq_false_2; [done|]. rewrite fmap_nil. by intros [?%elem_of_nil _].
  - destruct (AssignRoleToUser_step now d (User.ID u) role Hf)
      as (d1 & E & Hr & Hp & Hrp & Hroles).
    assert (assign_default now (d, log) u
            = (d1, log ++ [(redis.Info, "Assigned default 'user' role")])) as ->.
    { unfold assign_default. cbn [fst snd]. by rewrite E. }
    assert (First_role_named "user" d1 = Ok role) as Hf1
      by (by rewrite (First_role_named_roles _ d d1)).
    destruct (IH d1 (log ++ [(redis.Info, "Assigned default 'user' role")]) role Hf1)
      as (Hr' & Hp' & Hrp' & Hroles').
    cbv zeta. split; [congruence|]. split; [congruence|]. split; [congruence|].
    intros id. rewrite Hroles', Hroles. rewrite fmap_cons.
    destruct (decide (id = User.ID u)) as [->|Hne].
    + destruct (decide (Role.ID role ∈ roles_of_user d (User.ID u))) as [Hin|Hno].
      * rewrite (bool_decide_eq_false_2 (_ = _ ∧ _)) by tauto.
        rewrite !bool_decide_eq_false_2; [done|tauto|tauto].
      * rewrite (bool_decide_eq_true_2 (_ = _ ∧ _)) by tauto.
        rewrite bool_decide_eq_false_2.
        -- rewrite bool_decide_eq_true_2; [done|]. split; [left|done].
        -- intros [_ Hno']. destruct Hno'. apply elem_of_app. right. left.
    + rewrite (bool_decide_eq_false_2 (_ = _ ∧ _)) by tauto.
      rewrite (bool_decide_ext (id ∈ User.ID u :: (User.ID <$> l) ∧ _)
                 (id ∈ User.ID <$> l ∧ Role.ID role ∉ roles_of_user d id)); [done|].
      rewrite elem_of_cons. tauto.
Qed.

Lemma assign_default_none (now : Time) (l : list User.t) :
  ∀ d log e,
    First_role_named "user" d = Err e →
    (foldl (assign_default now) (d, log) l).1 = d.
Proof.
  induction l as [|u l IH]; intros d log e Hf; cbn [foldl]; [done|].
  assert (assign_default now (d, log) u
          = (d, log ++ [(redis.Warn, "Failed to assign role to user")])) as ->.
  { unfold assign_default, AssignRoleToUser. cbn [fst snd]. by rewrite Hf. }
  by apply (IH _ _ e).
Qed.

Lemma users_without_roles_elem (users : list User.t) (d : DB) (u : User.t) :
  u ∈ users_without_roles users d ↔ u ∈ users ∧ roles_of_user d (User.ID u) = [].
Proof.
  unfold users_without_roles. rewrite list_elem_of_filter.
  assert (forallb (fun ur => bool_decide (UserRole.UserID ur ≠ User.ID u)) (user_roles d)
          = true ↔ roles_of_user d (User.ID u) = []) as ->; [|tauto].
  rewrite forallb_forall. split.
  - intros Hall. apply elem_of_nil_inv. intros rid Hin.
    apply roles_of_user_elem in Hin as (ur & Hur & Hu & _).
    apply list_elem_of_In, Hall, bool_decide_eq_true in Hur. done.
  - intros Hnil ur Hur. apply bool_decide_eq_true_2. intros Hu.
    assert (UserRole.RoleID ur ∈ roles_of_user d (User.ID u)) as Hin.
    { apply roles_of_user_elem. exists ur. split; [by apply list_elem_of_In|done]. }
    rewrite Hnil in Hin. by apply elem_of_nil in Hin.
Qed.

(** X30.  [assignDefaultRoleToExistingUsers].  Without a role named
    "user" the tables are left as they were.  With one, every user of
    the table holds a role afterwards: a user who held none holds
    exactly the role "user", every other user, and every id that is no
    user of the table, holds what was held before; no other table
    changes, and a second run changes nothing. *)
Theorem default_role_for_existing_users (now : Time) (users : list User.t) (db : DB) :
  let r := (assignDefaultRoleToExistingUsers now users db).1 in
  (role_named "user" db = false → r = db)
  ∧ (role_named "user" db = true →
       ∃ role,
         First_role_named "user" db = Ok role
         ∧ (∀ u, u ∈ users → roles_of_user r (User.ID u) ≠ [])
         ∧ (∀ u, u ∈ users → roles_of_user db (User.ID u) = [] →
              roles_of_user r (User.ID u) = [Role.ID role])
         ∧ (∀ id, roles_of_user db id ≠ [] → roles_of_user r id = roles_of_user db id)
         ∧ (∀ id, (∀ u, u ∈ users → User.ID u ≠ id) →
              roles_of_user r id = roles_of_user db id)
         ∧ permissions r = permissions db ∧ roles r = roles db
         ∧ role_permissions r = role_permissions db
         ∧ ∀ now', (assignDefaultRoleToExistingUsers now' users r).1 = r).
Proof.
  intros r. pose proof (First_role_named_spec "user" db) as Hspec.
  assert (∀ d, (∀ u, u ∈ users → roles_of_user d (User.ID u) ≠ []) →
               ∀ now', (assignDefaultRoleToExistingUsers now' users d).1 = d) as Hidem.
  { intros d Hall now'. unfold assignDefaultRoleToExistingUsers.
    assert (users_without_roles users d = []) as ->; [|done].
    apply elem_of_nil_inv. intros u Hu. apply users_without_roles_elem in Hu as [Hu Hn].
    by destruct (Hall u Hu). }
  subst r. unfold assignDefaultRoleToExistingUsers.
  set (ws := users_without_roles users db).
  assert (∀ u, u ∈ ws ↔ u ∈ users ∧ roles_of_user db (User.ID u) = []) as Hws
    by apply users_without_roles_elem.
  split.
  - intros Hn. case_bool_decide; [done|].
    destruct (First_role_named "user" db) as [role|e] eqn:Hf.
    + destruct Hspec as [Hin Hname]. assert (role_named "user" db = true); [|congruence].
      apply role_named_spec. apply list_elem_of_fmap. by exists role.
    + by apply (assign_default_none now ws db _ e).
  - intros Hn. destruct (First_role_named "user" db) as [role|e] eqn:Hf;
      [|destruct Hspec; congruence].
    exists role. split; [done|].
    destruct (assign_default_all now ws db [(redis.Info, "Found users without roles")]
                role Hf) as (Hr & Hp & Hrp & Hroles).
    set (r := if bool_decide (length ws = 0%nat)
              then (db, [(redis.Info, "All users have roles assigned")])
              else foldl (assign_default now)
                     (db, [(redis.Info, "Found users without roles")]) ws).
    assert (r.1 = (foldl (assign_default now)
                     (db, [(redis.Info, "Found users without roles")]) ws).1) as Er.
    { subst r. case_bool_decide as Hl; [|done]. by destruct ws. }
    rewrite Er. clear Er r.
    set (r := (foldl (assign_default now)
                 (db, [(redis.Info, "Found users without roles")]) ws).1) in *.
    assert (∀ id, roles_of_user db id ≠ [] → roles_of_user r id = roles_of_user db id)
      as Hkeep.
    { intros id Hne. rewrite Hroles. rewrite bool_decide_eq_false_2; [done|].
      intros [Hin _]. apply list_elem_of_fmap in Hin as (u & -> & Hu).
      apply Hws in Hu as [_ Hnil]. done. }
    assert (∀ u, u ∈ users → roles_of_user db (User.ID u) = [] →
                 roles_of_user r (User.ID u) = [Role.ID role]) as Hnew.
    { intros u Hu Hnil. rewrite Hroles, Hnil. rewrite bool_decide_eq_true_2; [done|].
      split; [|by intros ?%elem_of_nil]. apply list_elem_of_fmap. exists u.
      split; [done|]. by apply Hws. }
    assert (∀ u, u ∈ users → roles_of_user r (User.ID u) ≠ []) as Hall.
    { intros u Hu. destruct (roles_of_user db (User.ID u)) as [|x xs] eqn:E.
      - by rewrite (Hnew u Hu E).
      - rewrite Hkeep; by rewrite E. }
    split; [exact Hall|]. split; [exact Hnew|]. split; [exact Hkeep|].
    split; [|split; [done|split; [done|split; [done|by apply Hidem]]]].
    intros id Hno. rewrite Hroles. rewrite bool_decide_eq_false_2; [done|].
    intros [Hin _]. apply list_elem_of_fmap in Hin as (u & -> & Hu).
    apply Hws in Hu as [Hu _]. by destruct (Hno u Hu).
Qed.

End default_role.

(** ** Runs *)

Section gates_runs.
Import jwt auth middleware ginchain symbolic scenario.

Lemma RequireAllPermissions_iff_all_held_witness :
  let c := {| Keys := {[ ClaimsKey := ClaimsPtr claims42 ]} |} in
  RequireAllPermissions ["ping:read"; "news:read"] c = Next
  ∧ RequireAllPermissions ["news:delete"] c =
      AbortWithStatusJSON 403
        (<[ "missing" := JStrings ["news:delete"] ]>
           {[ "error" := JString "insufficient permissions" ]}).
Proof.
  intros c. split.
  - apply (RequireAllPermissions_iff_all_held ["ping:read"; "news:read"] c claims42);
      [reflexivity|].
    intros p Hp. repeat (apply elem_of_cons in Hp as [->|Hp]).
    + apply elem_of_cons. by left.
    + apply elem_of_cons. right. apply elem_of_cons. by left.
    + by apply elem_of_nil in Hp.
  - apply (proj2 (RequireAllPermissions_iff_all_held ["news:delete"] c claims42
                    eq_refl)).
    by vm_compute.
Defined.

End gates_runs.

Section store_runs.
Import redis auth symbolic scenario.

Lemma session_lives_for_its_ttl_witness :
  let w' := (StoreRefreshToken "R1" session42 (604800 * Second) fresh).2 in
  (GetRefreshTokenData "R1" (with_plan (elapse (604800 * Second) w') healthy)).1
    = Ok session42
  ∧ (GetRefreshTokenData "R1"
       (with_plan (elapse (604800 * Second + Millisecond) w') healthy)).1
    = Err ErrNotFoundOrExpired.
Proof.
  intros w'.
  assert (StoreRefreshToken "R1" session42 (604800 * Second) fresh = (Ok tt, w')) as E
    by (by vm_compute).
  split.
  - by apply (session_lives_for_its_ttl "R1" session42 604800 fresh w').
  - by apply (session_lives_for_its_ttl "R1" session42 604800 fresh w').
Defined.

Lemma ListUserTokens_lists_live_sessions_witness :
  let r := ListUserTokens "42" with_R1 in
  r.1 = Ok (omap (session_of with_R1) (elements (index_of with_R1 "42")))
  ∧ ∀ t, session_of r.2 t = session_of with_R1 t.
Proof.
  intros r.
  destruct (ListUserTokens_lists_live_sessions "42" with_R1) as (H1 & _ & _ & H4).
  - reflexivity.
  - reflexivity.
  - intros b dl. by vm_compute.
  - split; [exact H1|exact H4].
Defined.

End store_runs.

Section endpoint_runs.
Import jwt redis auth middleware internalauth ginchain authroutes lifecycle.
Import symbolic scenario examples.

Lemma Refresh_carries_identity_witness :
  let r := Refresh handler ks1 entropy1 (cookie_request "R1") with_R1 in
  ∃ old tp,
    session_of with_R1 "R1" = Some old
    ∧ body r.1 = BodyTokenPair tp
    ∧ session_of r.2 (RefreshToken tp)
      = Some (RefreshTokenData.mk
                (json.text (RefreshTokenData.UserID old))
                (json.text (RefreshTokenData.Username old))
                (json.text (RefreshTokenData.Role old))
                (json.text <$> RefreshTokenData.Permissions old)
                (clock with_R1) "curl/8.5" "10.0.0.1").
Proof.
  intros r.
  destruct (Refresh_carries_identity handler ks1 entropy1 (cookie_request "R1") with_R1)
    as (old & tp & Hold & Hbody & _ & _ & Hnew & _).
  - by vm_compute.
  - exists old, tp. split; [exact Hold|]. split; [exact Hbody|].
    apply Hnew. by vm_compute.
Defined.

Lemma refresh_lifetimes_agree_witness :
  ∃ tp,
    GenerateTokenPair ks1 1700000000000000000 entropy1 "42" "a@x.com" "user"
      ["ping:read"] "chattycathy" 15 (refreshTokenExpiryDays handler) = Ok tp
    ∧ cookie_maxAge (setRefreshTokenCookie handler "R1") = 604800
    ∧ RefreshTokenExpiresIn tp = 604800
    ∧ refreshExpiry handler = 604800 * Second.
Proof.
  destruct (GenerateTokenPair ks1 1700000000000000000 entropy1 "42" "a@x.com" "user"
              ["ping:read"] "chattycathy" 15 (refreshTokenExpiryDays handler))
    as [tp|e] eqn:E; [|by vm_compute in E].
  exists tp. split; [reflexivity|].
  apply (refresh_lifetimes_agree handler ks1 1700000000000000000 entropy1
           "42" "a@x.com" "user" "chattycathy" "R1" ["ping:read"] 15 tp E).
  by vm_compute.
Defined.


Lemma StoreRefreshToken_indexes_witness :
  session_of (with_plan (elapse Hour with_R1) unreachable) "R1" = Some session42
  ∧ "R1" ∈ index_of (with_plan (elapse Hour with_R1) unreachable) "42".
Proof.
  destruct (StoreRefreshToken_indexes "R1" session42 604800 0 0 fresh with_R1)
    with (d := Hour) (fp := unreachable) as [Hlive Hlisted].
  - lia.
  - lia.
  - lia.
  - by vm_compute.
  - reflexivity.
  - intros e He. by vm_compute in He.
  - by vm_compute.
  - by vm_compute.
  - split; [apply Hlive; by vm_compute|].
    destruct (Hlisted session42) as (_ & _ & Hin); [apply Hlive; by vm_compute|].
    exact Hin.
Defined.

Lemma fresh_reachable : reachable handler ks1 fresh.
Proof. by apply reachable_start. Qed.

Lemma alice_login_bound : bound alice_login.
Proof. intros username password [= <- _]. by vm_compute. Qed.

Lemma logout_all_ends_every_session_witness :
  let w := (Login handler ks1 entropy1 alice_login fresh).2 in
  index_complete w.
Proof.
  intros w.
  apply (logout_all_ends_every_session handler ks1 w).
  - by vm_compute.
  - apply (reachable_step handler ks1 fresh w fresh_reachable).
    apply step_Login, alice_login_bound.
Defined.


End endpoint_runs.

Section token_runs.
Import jwt auth symbolic scenario.

Lemma access_token_window_witness :
  ∃ ts,
    GenerateAccessToken ks1 1700000000123456789 "42" "a@x.com" "user" ["ping:read"]
      "chattycathy" (-5) = Ok ts
    ∧ ∀ t, ∃ e, ValidateToken ks1 t ts = Err e.
Proof.
  destruct (access_token_window ks1 1700000000123456789 "42" "a@x.com" "user"
              ["ping:read"] "chattycathy" (-5)) as (ts & E & _ & Hnever).
  - exists 1. done.
  - lia.
  - exists ts. split; [exact E|]. apply Hnever. lia.
Defined.

End token_runs.

Section tables_runs.
Import models rbac middleware admin examples.

Lemma seeding_spares_existing_roles_witness :
  ∃ db',
    SeedDefaultRolesAndPermissions 1000 example_db = Ok db'
    ∧ (∀ r, r ∈ roles example_db →
         r ∈ roles db'
         ∧ ∀ pid, (Role.ID r, pid) ∈ role_permissions db'
                  ↔ (Role.ID r, pid) ∈ role_permissions example_db)
    ∧ user_roles db' = user_roles example_db.
Proof.
  destruct (SeedDefaultRolesAndPermissions 1000 example_db) as [db'|e] eqn:E;
    [|by vm_compute in E].
  exists db'. split; [reflexivity|].
  destruct (seeding_spares_existing_roles 1000 example_db db' E) as (H1 & H2 & _).
  split; [exact H1|exact H2].
Defined.

Lemma tables_integrity : integrity tables.
Proof.
  split.
  - apply (bool_decide_unpack _). by vm_compute.
  - apply (bool_decide_unpack _). by vm_compute.
  - intros rp Hrp. simpl in Hrp.
    repeat (apply elem_of_cons in Hrp as [->|Hrp]);
      [eexists (Role.mk 1 "admin" "" true 0 0)|eexists (Role.mk 1 "admin" "" true 0 0)
      |eexists (Role.mk 2 "auditor" "" false 0 0)|by apply elem_of_nil in Hrp];
      (split; [|reflexivity]); simpl; rewrite !elem_of_cons; tauto.
Qed.

Lemma system_roles_are_protected_witness :
  (1%N, "admin", true)
    ∈ identity <$> filter (fun r => Role.IsSystem r = true)
                     (roles (db (DeleteRole on_admin state).2))
  ∧ (1%N, "admin", true)
      ∈ identity <$> filter (fun r => Role.IsSystem r = true)
                       (roles (db (UpdateRole 1000 on_admin state).2)).
Proof.
  assert ((1%N, "admin", true)
            ∈ identity <$> filter (fun r => Role.IsSystem r = true) (roles (db state)))
    as Hin by (apply elem_of_cons; by left).
  split.
  - apply (system_roles_are_protected 1000 on_admin state (DeleteRole on_admin)).
    + exact (unique_role_keys _ tables_integrity).
    + unfold writes. rewrite !elem_of_cons. tauto.
    + exact Hin.
  - apply (system_roles_are_protected 1000 on_admin state (UpdateRole 1000 on_admin)).
    + exact (unique_role_keys _ tables_integrity).
    + unfold writes. rewrite !elem_of_cons. tauto.
    + exact Hin.
Defined.

Lemma admin_keeps_integrity_witness :
  integrity (db (CreateRole 1000 new_editor state).2)
  ∧ integrity (db (SetRolePermissions 1000 on_auditor state).2).
Proof.
  split.
  - apply (admin_keeps_integrity 1000 new_editor state (CreateRole 1000 new_editor)).
    + exact tables_integrity.
    + unfold writes. rewrite !elem_of_cons. tauto.
  - apply (admin_keeps_integrity 1000 on_auditor state
             (SetRolePermissions 1000 on_auditor)).
    + exact tables_integrity.
    + unfold writes. rewrite !elem_of_cons. tauto.
Defined.

Lemma SetRolePermissions_replaces_witness :
  let r := SetRolePermissions 1000 on_auditor state in
  code r.1 = StatusOK
  ∧ ((2, 2)%N ∈ role_permissions (db r.2))
  ∧ ((2, 1)%N ∉ role_permissions (db r.2))
  ∧ ((2, 9)%N ∉ role_permissions (db r.2)).
Proof.
  intros r.
  destruct (SetRolePermissions_replaces 1000 on_auditor state 2 [2; 9]%N
              (Role.mk 2 "auditor" "" false 0 0))
    as (Hcode & Hrows & _); [by vm_compute..|].
  split; [exact Hcode|]. split; [|split].
  - apply Hrows. split; [apply elem_of_cons; by left|].
    exists (Permission.mk 2 "news:delete" "" "news" "delete" 0).
    split; [|reflexivity]. apply elem_of_cons. right. apply elem_of_cons. by left.
  - intros Hrow. apply Hrows in Hrow as [Hin _].
    repeat (apply elem_of_cons in Hin as [Hin|Hin]; [discriminate Hin|]).
    by apply elem_of_nil in Hin.
  - intros Hrow. apply Hrows in Hrow as [_ (p & Hp & Hid)]. simpl in Hp.
    repeat (apply elem_of_cons in Hp as [->|Hp]; [discriminate Hid|]).
    by apply elem_of_nil in Hp.
Defined.

Lemma CreateRole_then_GetRole_witness :
  let r := CreateRole 1000 new_editor state in
  ∃ rr, body r.1 = BodyRole rr
        ∧ r_Name rr = "editor"
        ∧ GetRole {| Param_id := "3"; Body_role := None; Body_permission_ids := None |}
            r.2
          = ({| code := StatusOK; body := BodyRole rr |}, r.2).
Proof.
  intros r.
  destruct (CreateRole_then_GetRole 1000 new_editor state "editor" "edits the news")
    as [_ Hcreated].
  - exact tables_integrity.
  - by vm_compute.
  - reflexivity.
  - destruct Hcreated as (rr & Hbody & Hname & _ & _ & _ & Hget); [by vm_compute|].
    exists rr. split; [exact Hbody|]. split; [exact Hname|]. apply Hget.
    assert (r_ID rr = 3%N) as ->.
    { assert (BodyRole rr = body r.1) as E by done. by injection E as ->. }
    by vm_compute.
Defined.

End tables_runs.
